(** * prometheus-slurm-exporter: the classification and aggregation engine

    A shallow embedding of [internal/slurm] (build tag 2405): the field
    accessors, the two state classifiers, the TRES resource extractor and
    the ten aggregators, followed by the properties of the specification
    that were checked against them.

    Conventions of the embedding.
    - A Go pointer field ([*string], [*int32], ...) is an [option]; [None]
      is the nil pointer.  A Go slice field is an [option (list _)]: [None]
      is the nil slice and [Some []] the empty, non-nil slice that
      [encoding/json] produces for the JSON value [[]].
    - A call ends in one of three ways, see [outcome]: it returns a value,
      it returns a non-nil [error], or the goroutine panics (a nil
      dereference, an index out of range).
    - [float64] is the kernel's binary64 [float]; integer fields are [Z]
      and every conversion the source writes is written out.
    - [slog.Error] appends to an explicit log.
    - Go maps are [gmap string _]; the one loop that ranges over a map
      takes the iteration order as an explicit argument.

    The embedding on values says what a call returns.  What a call does
    to the memory it shares with its caller is the subject of a second
    embedding, the module [store]: pointers are addresses, [*p] is a
    load, an assignment through a pointer or into a map is a write, and
    [&T{...}] and [make] allocate.  The two embeddings are proved to
    agree. *)

From Stdlib Require Import ZArith PrimFloat Uint63 Ascii String List.
From Stdlib Require Import DecimalString DecimalNat.
From stdpp Require Import base option list gmap strings fin_maps.

Local Open Scope Z_scope.

(** ** The Go runtime pieces the package relies on *)

Module Go.

(** Why a goroutine panicked. *)
Inductive panic_kind : Type :=
  | NilDereference
  | IndexOutOfRange.

(** The three ways a call of the package ends: [Ok v] is [return v, nil],
    [Err msg] is [return nil, fmt.Errorf(msg)], [Panic k] is a runtime
    panic, which no function of the package recovers. *)
Inductive outcome (A : Type) : Type :=
  | Ok (a : A)
  | Err (msg : string)
  | Panic (k : panic_kind).
Arguments Ok {A} a.
Arguments Err {A} msg.
Arguments Panic {A} k.

#[export] Instance outcome_ret : MRet outcome := fun _ a => Ok a.
#[export] Instance outcome_bind : MBind outcome := fun _ _ f m =>
  match m with
  | Ok a => f a
  | Err e => Err e
  | Panic k => Panic k
  end.

(** [*p]: dereference of a pointer that may be nil. *)
Definition deref {A} (p : option A) : outcome A :=
  match p with
  | Some a => Ok a
  | None => Panic NilDereference
  end.

(** [for _, x := range l { body }] over a slice, threading the loop state.
    The body's [Ok] is the end of an iteration (also through [continue]),
    its [Err] a [return nil, err] from inside the loop. *)
Fixpoint for_range {A S} (body : A -> S -> outcome S) (l : list A) (s : S)
  : outcome S :=
  match l with
  | [] => Ok s
  | x :: l' =>
      match body x s with
      | Ok s' => for_range body l' s'
      | Err e => Err e
      | Panic k => Panic k
      end
  end.

(** *** [strings] *)

(** [strings.ToLower] on the strings it handles byte by byte: those
    whose bytes are all below [utf8.RuneSelf] ([isASCII] below), where
    the letters [A]..[Z] are folded and every other byte is kept.  On a
    string with a byte from [utf8.RuneSelf] up, Go decodes runes and
    folds them by the Unicode tables, which this function does not do:
    what is stated of the lower-cased form of an arbitrary token is
    stated of tokens that satisfy [isASCII]. *)
Definition lower_ascii (c : ascii) : ascii :=
  let n := nat_of_ascii c in
  if ((65 <=? n)%nat && (n <=? 90)%nat)%bool then ascii_of_nat (n + 32) else c.

Fixpoint ToLower (s : string) : string :=
  match s with
  | EmptyString => EmptyString
  | String c s' => String (lower_ascii c) (ToLower s')
  end.

(** The test [strings.ToLower] starts with: no byte of the string is
    [utf8.RuneSelf] (128) or above. *)
Fixpoint isASCII (s : string) : bool :=
  match s with
  | EmptyString => true
  | String c s' => (nat_of_ascii c <? 128)%nat && isASCII s'
  end.

(** [regexp.MustCompile(`^lit`).MatchString(s)] for a literal [lit] with no
    metacharacter: [s] starts with [lit]. *)
Definition MatchPrefix (lit s : string) : bool := String.prefix lit s.

(** [strings.Contains(s, sub)]. *)
Fixpoint Contains (s sub : string) : bool :=
  if String.prefix sub s then true
  else match s with
       | EmptyString => false
       | String _ s' => Contains s' sub
       end.

(** [strings.Split(s, sep)] for a one-byte separator: the fields between
    the separators, [n+1] of them for [n] separators. *)
Fixpoint Split (s : string) (sep : ascii) : list string :=
  match s with
  | EmptyString => [EmptyString]
  | String c s' =>
      if Ascii.eqb c sep then EmptyString :: Split s' sep
      else match Split s' sep with
           | [] => [String c EmptyString]
           | f :: fs => String c f :: fs
           end
  end.

(** [strings.Join(elems, sep)]. *)
Fixpoint Join (elems : list string) (sep : string) : string :=
  match elems with
  | [] => EmptyString
  | [e] => e
  | e :: es => e +:+ sep +:+ Join es sep
  end.

(** *** [strconv.Atoi] *)

Definition digit_of (c : ascii) : option Z :=
  let n := nat_of_ascii c in
  if ((48 <=? n)%nat && (n <=? 57)%nat)%bool then Some (Z.of_nat n - 48) else None.

Fixpoint digits_value (acc : Z) (s : string) : option Z :=
  match s with
  | EmptyString => Some acc
  | String c s' =>
      match digit_of c with
      | Some d => digits_value (10 * acc + d) s'
      | None => None
      end
  end.

(** An optional sign, then at least one decimal digit and nothing else;
    the value must fit the 64-bit [int].  [None] is the [*NumError]. *)
Definition Atoi (s : string) : option Z :=
  let unsigned (t : string) : option Z :=
    match t with
    | EmptyString => None
    | _ => digits_value 0 t
    end in
  let signed : option Z :=
    match s with
    | String "+" t => unsigned t
    | String "-" t => Z.opp <$> unsigned t
    | _ => unsigned s
    end in
  match signed with
  | Some n => if (- 2 ^ 63 <=? n) && (n <=? 2 ^ 63 - 1) then Some n else None
  | None => None
  end.

(** *** Integer and floating-point conversions *)

(** [uint64(x)] of a signed integer: two's complement reinterpretation. *)
Definition uint64 (x : Z) : Z := x mod 2 ^ 64.

(** [a - b] on the 64-bit [int], with wrap-around. *)
Definition int_sub (a b : Z) : Z := (a - b + 2 ^ 63) mod 2 ^ 64 - 2 ^ 63.

(** [float64(n)] for [0 <= n < 2^64], rounding to nearest, ties to even.
    Below [2^63] this is the hardware conversion; above, the low eleven
    bits are rounded away by hand and the exact scaling follows. *)
Definition float64_of_uint64 (n : Z) : float :=
  if n <? 2 ^ 63 then PrimFloat.of_uint63 (Uint63.of_Z n)
  else
    let q := n / 2048 in
    let r := n mod 2048 in
    let q' := if (1024 <? r) || ((r =? 1024) && Z.odd q) then q + 1 else q in
    PrimFloat.mul (PrimFloat.of_uint63 (Uint63.of_Z q')) 2048%float.

(** [float64(x)] of a signed integer ([int32], [int64] or [int]). *)
Definition float64_of_int (x : Z) : float :=
  if x <? 0 then PrimFloat.opp (float64_of_uint64 (- x)) else float64_of_uint64 x.

(** Left-to-right accumulation [acc += x] from zero, as the loops do it. *)
Definition fsum (xs : list float) : float := fold_left PrimFloat.add xs 0%float.

End Go.
Export Go.

(** ** [internal/types]: the two closed state enumerations *)

Module types.

(** Modelled from the spec: the package [internal/types] is not among the
    sources; section 3 of the specification lists the variants, and the
    classifiers below name each of them. *)
Inductive JobState : Type :=
  | JobStatePending | JobStateRunning | JobStateSuspended | JobStateCancelled
  | JobStateCompleting | JobStateCompleted | JobStateConfiguring
  | JobStateFailed | JobStateTimeout | JobStatePreempted | JobStateNodeFail
  | JobStateOutOfMemory.

(** Modelled from the spec: as [JobState], for the node states. *)
Inductive NodeState : Type :=
  | NodeStateAlloc | NodeStateComp | NodeStateDown | NodeStateDrain
  | NodeStateFail | NodeStateErr | NodeStateIdle | NodeStateMaint
  | NodeStateMix | NodeStateResv | NodeStateNotResponding
  | NodeStateInvalid | NodeStateInvalidReg.

#[export] Instance JobState_eq_dec : EqDecision JobState.
Proof. solve_decision. Defined.
#[export] Instance NodeState_eq_dec : EqDecision NodeState.
Proof. solve_decision. Defined.

End types.
Export types.

(** ** The records of the REST client

    The generated client [openapi-slurm-24-05] is a dependency of the
    repository.  Only the fields the package reads are kept; every
    optional property is a pointer there, an optional nested object a
    pointer to a struct. *)

Module openapi.

(** [V0041Uint32NoValStruct]: [Number *int32]. *)
Record Uint32NoVal : Type := { Number : option Z }.

(** [V0041OpenapiJobInfoRespJobsInner]. *)
Module Job.
Record t : Type := {
  Account : option string;
  Partition : option string;
  JobState : option (list string);
  Cpus : option Uint32NoVal;
  UserName : option string;
  Dependency : option string
}.
End Job.

(** [V0041OpenapiNodesRespNodesInner]. *)
Module Node.
Record t : Type := {
  Name : option string;
  Hostname : option string;
  State : option (list string);
  Tres : option string;
  TresUsed : option string;
  Partitions : option (list string);
  AllocMemory : option Z;
  RealMemory : option Z;
  AllocCpus : option Z;
  AllocIdleCpus : option Z;
  Cpus : option Z
}.
End Node.

(** [V0041OpenapiPartitionRespPartitionsInner], with its nested [Cpus] and
    [Nodes] objects. *)
Module Partition.
Record cpus : Type := { Total : option Z }.
Record nodes : Type := { Configured : option string }.
Record t : Type := {
  Name : option string;
  Cpus : option cpus;
  Nodes : option nodes
}.
End Partition.

(** [V0041AssocSharesObjWrap], with its nested [Fairshare] object. *)
Module Share.
Record fairshare : Type := { Level : option float }.
Record t : Type := {
  Name : option string;
  Fairshare : option fairshare
}.
End Share.

(** The [Statistics] of [SlurmV0041GetDiag200Response]. *)
Module Diag.
Record t : Type := {
  ServerThreadCount : option Z;
  AgentQueueSize : option Z;
  DbdAgentQueueSize : option Z;
  ScheduleCycleLast : option Z;
  ScheduleCycleMean : option Z;
  ScheduleCyclePerMinute : option Z;
  BfDepthMean : option Z;
  BfCycleLast : option Z;
  BfCycleMean : option Z;
  BfBackfilledJobs : option Z;
  BfLastBackfilledJobs : option Z;
  BfBackfilledHetJobs : option Z
}.
End Diag.

End openapi.
Export openapi.

(** ** Field accessors *)

(** GetJobAccountName retrieves the account name of the job or returns an
    error. *)
Definition GetJobAccountName (job : Job.t) : outcome string :=
  match Job.Account job with
  | None => Err "account name not found in job"
  | Some name => Ok name
  end.

(** GetJobPartitionName retrieves the partition name of the job or returns
    an error. *)
Definition GetJobPartitionName (job : Job.t) : outcome string :=
  match Job.Partition job with
  | None => Err "partition name not found in job"
  | Some name => Ok name
  end.

(** The ordered rule list of [GetJobState]'s [switch]: the literal after
    [^] and the state of the case. *)
Definition job_state_rules : list (string * JobState) :=
  [ ("completed", JobStateCompleted);
    ("pending", JobStatePending);
    ("failed", JobStateFailed);
    ("running", JobStateRunning);
    ("suspended", JobStateSuspended);
    ("out_of_memory", JobStateOutOfMemory);
    ("timeout", JobStateTimeout);
    ("cancelled", JobStateCancelled);
    ("completing", JobStateCompleting);
    ("configuring", JobStateConfiguring);
    ("node_fail", JobStateNodeFail);
    ("preempted", JobStatePreempted) ].

(** A [switch { case re.MatchString(state): ... }]: the first rule, in
    order, whose prefix matches. *)
Fixpoint first_match {A} (rules : list (string * A)) (state : string) : option A :=
  match rules with
  | [] => None
  | (lit, stateUnit) :: rules' =>
      if MatchPrefix lit state then Some stateUnit else first_match rules' state
  end.

(** GetJobState returns the JobState of the job or returns an error. *)
Definition GetJobState (job : Job.t) : outcome JobState :=
  match Job.JobState job with
  | None => Err "job state not found in job"
  | Some states =>
      match states with
      | [] => Panic IndexOutOfRange
      | state0 :: _ =>
          let state := ToLower state0 in
          match first_match job_state_rules state with
          | Some stateUnit => Ok stateUnit
          | None => Err ("failed to match job state against known states: " +:+ state)
          end
      end
  end.

(** GetNodeName retrieves the node name or returns an error. *)
Definition GetNodeName (node : Node.t) : outcome string :=
  match Node.Name node with
  | None => Err "node name not found in node information"
  | Some name => Ok name
  end.

(** GetJobCPUs retrieves the count of CPUs of the job or returns an error.
    [job.Cpus.Number] goes through the pointer [job.Cpus]. *)
Definition GetJobCPUs (job : Job.t) : outcome float :=
  c ← deref (Job.Cpus job);
  match Number c with
  | None => Err "failed to find cpu count in job"
  | Some cn => Ok (float64_of_int cn)
  end.

(** GetPartitionName retrieves the name of a partition or returns an
    error. *)
Definition GetPartitionName (partition : Partition.t) : outcome string :=
  match Partition.Name partition with
  | None => Err "failed to find name in partition"
  | Some pn => Ok pn
  end.

(** GetPartitionTotalCPUs retrieves the count of total CPUs of a partition
    or returns an error. *)
Definition GetPartitionTotalCPUs (partition : Partition.t) : outcome float :=
  c ← deref (Partition.Cpus partition);
  match Partition.Total c with
  | None => Err "failed to find total cpus in partition"
  | Some pn => Ok (float64_of_int pn)
  end.

(** GetPartitionNodeList retrieves the node notation of the partition. *)
Definition GetPartitionNodeList (partition : Partition.t) : outcome string :=
  n ← deref (Partition.Nodes partition);
  match Partition.Configured n with
  | None => Err "failed to find total cpus in partition"
  | Some nodeList => Ok nodeList
  end.

(** The ordered rule list of [GetNodeStates]'s [switch]. *)
Definition node_state_rules : list (string * NodeState) :=
  [ ("alloc", NodeStateAlloc);
    ("comp", NodeStateComp);
    ("down", NodeStateDown);
    ("drain", NodeStateDrain);
    ("fail", NodeStateFail);
    ("err", NodeStateErr);
    ("idle", NodeStateIdle);
    ("maint", NodeStateMaint);
    ("mix", NodeStateMix);
    ("res", NodeStateResv);
    ("not_responding", NodeStateNotResponding);
    ("invalid", NodeStateInvalid);
    ("invalid_reg", NodeStateInvalidReg) ].

(** One iteration of the loop of [GetNodeStates]. *)
Definition classify_node_state (s : string) (nodeStates : list NodeState)
  : outcome (list NodeState) :=
  let state := ToLower s in
  match first_match node_state_rules state with
  | Some stateUnit => Ok (nodeStates ++ [stateUnit])
  | None => Err ("failed to match cpu state against known states: " +:+ state)
  end.

(** GetNodeStates returns the NodeStates of the node or returns an error. *)
Definition GetNodeStates (node : Node.t) : outcome (list NodeState) :=
  match Node.State node with
  | None => Err "node state not found in node"
  | Some states => for_range classify_node_state states []
  end.

(** [fmt.Errorf(msg + "%v", err)] around a failed call: the error is
    wrapped, a value or a panic passes through. *)
Definition wrap_err {A} (msg : string) (r : outcome A) : outcome A :=
  match r with
  | Err e => Err (msg +:+ e)
  | _ => r
  end.

(** GetNodeStatesString returns the node states joined by [delim].
    [name_of] is [string(s)] on a [types.NodeState], whose string values
    are declared in [internal/types]. *)
Definition GetNodeStatesString (name_of : NodeState -> string) (node : Node.t)
  (delim : string) : outcome string :=
  states ← wrap_err "failed to get node states: " (GetNodeStates node);
  Ok (Join (map name_of states) delim).

(** The loop shared, letter for letter, by [GetNodeGPUTotal] and
    [GetNodeGPUAllocated]: the first field holding [gres/gpu=] decides. *)
Fixpoint scan_gres_gpu (parts : list string) : outcome Z :=
  match parts with
  | [] => Ok 0
  | p :: parts' =>
      if Contains p "gres/gpu=" then
        match Split p "=" with
        | [_; ns] =>
            match Atoi ns with
            | Some n => Ok n
            | None => Err ("failed to parse number of gpus from tres: " +:+ p)
            end
        | _ => Err ("found gpu in tres but failed to parse: " +:+ p)
        end
      else scan_gres_gpu parts'
  end.

(** GetNodeGPUTotal returns the number of GPUs in the node. *)
Definition GetNodeGPUTotal (node : Node.t) : outcome Z :=
  tres ← deref (Node.Tres node);
  scan_gres_gpu (Split tres ",").

(** GetNodeGPUAllocated returns the number of allocated GPUs in the node. *)
Definition GetNodeGPUAllocated (node : Node.t) : outcome Z :=
  tres ← deref (Node.TresUsed node);
  scan_gres_gpu (Split tres ",").

(** GetNodePartitions returns the partitions a node belongs to. *)
Definition GetNodePartitions (node : Node.t) : list string :=
  match Node.Partitions node with
  | None => []
  | Some ps => ps
  end.

(** The [uint64] getters: zero for an absent field. *)
Definition GetNodeAllocMemory (node : Node.t) : Z :=
  match Node.AllocMemory node with None => 0 | Some v => uint64 v end.

Definition GetNodeTotalMemory (node : Node.t) : Z :=
  match Node.RealMemory node with None => 0 | Some v => uint64 v end.

Definition GetNodeAllocCPUs (node : Node.t) : Z :=
  match Node.AllocCpus node with None => 0 | Some v => uint64 v end.

Definition GetNodeIdleCPUs (node : Node.t) : Z :=
  match Node.AllocIdleCpus node with None => 0 | Some v => uint64 v end.

Definition GetNodeOtherCPUs (node : Node.t) : Z := 0.

Definition GetNodeTotalCPUs (node : Node.t) : Z :=
  match Node.Cpus node with None => 0 | Some v => uint64 v end.

(** ** Logging *)

(** One [slog.Error(msg, "error", err)] record. *)
Definition LogRecord : Type := string * string.

(** A computation that may log: it receives the log written so far and
    hands back its outcome with the log extended. *)
Definition Exec (A : Type) : Type := list LogRecord -> outcome A * list LogRecord.

#[export] Instance exec_ret : MRet Exec := fun _ a log => (Ok a, log).
#[export] Instance exec_bind : MBind Exec := fun _ _ f m log =>
  match m log with
  | (Ok a, log') => f a log'
  | (Err e, log') => (Err e, log')
  | (Panic k, log') => (Panic k, log')
  end.

(** A call that does not log. *)
Definition lift {A} (r : outcome A) : Exec A := fun log => (r, log).

Definition slog_Error (msg err : string) : Exec unit :=
  fun log => (Ok tt, log ++ [(msg, err)]).

(** [v, err := call; if err != nil { slog.Error(msg, "error", err);
    continue }]: on an error the iteration ends with the loop state [s]
    as it stands, otherwise the body goes on with the value. *)
Definition or_continue {A S} (r : outcome A) (msg : string) (s : S)
  (k : A -> Exec S) : Exec S :=
  match r with
  | Ok a => k a
  | Err e => slog_Error msg e ≫= λ _, mret s
  | Panic p => lift (Panic p)
  end.

(** [for _, x := range l { body }] for a body that may log. *)
Fixpoint exec_range {A S} (body : A -> S -> Exec S) (l : list A) (s : S) : Exec S :=
  match l with
  | [] => mret s
  | x :: l' => s' ← body x s; exec_range body l' s'
  end.

(** [_, key := m[k]; if !key { m[k] = fresh }]. *)
Definition ensure_key {V} (k : string) (fresh : V) (m : gmap string V) : gmap string V :=
  match m !! k with
  | Some _ => m
  | None => <[k := fresh]> m
  end.

(** ** Account job tally *)

Module JobMetrics.
Record t : Type := {
  pending : float;
  pending_cpus : float;
  running : float;
  running_cpus : float;
  suspended : float
}.
End JobMetrics.

Definition NewJobMetrics : JobMetrics.t :=
  {| JobMetrics.pending := 0; JobMetrics.pending_cpus := 0;
     JobMetrics.running := 0; JobMetrics.running_cpus := 0;
     JobMetrics.suspended := 0 |}.

(** The [switch *state] of [ParseAccountsMetrics], applied to the record
    of the account. *)
Definition tally_job (state : JobState) (cpus : float) (m : JobMetrics.t) : JobMetrics.t :=
  match state with
  | JobStatePending =>
      {| JobMetrics.pending := JobMetrics.pending m + 1;
         JobMetrics.pending_cpus := JobMetrics.pending_cpus m + cpus;
         JobMetrics.running := JobMetrics.running m;
         JobMetrics.running_cpus := JobMetrics.running_cpus m;
         JobMetrics.suspended := JobMetrics.suspended m |}
  | JobStateRunning =>
      {| JobMetrics.pending := JobMetrics.pending m;
         JobMetrics.pending_cpus := JobMetrics.pending_cpus m;
         JobMetrics.running := JobMetrics.running m + 1;
         JobMetrics.running_cpus := JobMetrics.running_cpus m + cpus;
         JobMetrics.suspended := JobMetrics.suspended m |}
  | JobStateSuspended =>
      {| JobMetrics.pending := JobMetrics.pending m;
         JobMetrics.pending_cpus := JobMetrics.pending_cpus m;
         JobMetrics.running := JobMetrics.running m;
         JobMetrics.running_cpus := JobMetrics.running_cpus m;
         JobMetrics.suspended := JobMetrics.suspended m + 1 |}
  | _ => m
  end%float.

(** The body of the loop of [ParseAccountsMetrics]. *)
Definition accounts_body (j : Job.t) (accounts : gmap string JobMetrics.t)
  : Exec (gmap string JobMetrics.t) :=
  or_continue (GetJobAccountName j) "failed to find account name in job" accounts
    (λ account,
      let accounts := ensure_key account NewJobMetrics accounts in
      or_continue (GetJobState j) "failed to parse job state" accounts
        (λ state,
          or_continue (GetJobCPUs j) "failed to parse job cpus" accounts
            (λ cpus, mret (alter (tally_job state cpus) account accounts)))).

(** ParseAccountsMetrics parses the jobs response into a map of
    "accountName": JobMetrics.  Its second result is always a nil error. *)
Definition ParseAccountsMetrics (jobs : list Job.t) : Exec (gmap string JobMetrics.t) :=
  exec_range accounts_body jobs ∅.

(** ** Cluster CPU tally *)

Module cpusMetrics.
Record t : Type := {
  alloc : float;
  idle : float;
  other : float;
  total : float
}.
End cpusMetrics.

Definition NewCPUsMetrics : cpusMetrics.t :=
  {| cpusMetrics.alloc := 0; cpusMetrics.idle := 0;
     cpusMetrics.other := 0; cpusMetrics.total := 0 |}.

(** The body of the loop over the jobs: [cm.alloc += *cpus] for a job in
    the Running state. *)
Definition cpus_job_body (j : Job.t) (cm : cpusMetrics.t) : Exec cpusMetrics.t :=
  or_continue (GetJobState j) "failed to get job state" cm
    (λ state,
      or_continue (GetJobCPUs j) "failed to get job cpus" cm
        (λ cpus,
          mret (if decide (state = JobStateRunning)
                then {| cpusMetrics.alloc := cpusMetrics.alloc cm + cpus;
                        cpusMetrics.idle := cpusMetrics.idle cm;
                        cpusMetrics.other := cpusMetrics.other cm;
                        cpusMetrics.total := cpusMetrics.total cm |}%float
                else cm))).

(** [ns == NodeStateMix || ns == NodeStateAlloc || ns == NodeStateIdle]. *)
Definition counts_idle (ns : NodeState) : bool :=
  bool_decide (ns = NodeStateMix) || bool_decide (ns = NodeStateAlloc)
  || bool_decide (ns = NodeStateIdle).

(** The inner loop over the states of one node: [cm.idle += idle_cpus] at
    every state entry that is Mix, Alloc or Idle. *)
Definition cpus_state_body (n : Node.t) (ns : NodeState) (cm : cpusMetrics.t)
  : outcome cpusMetrics.t :=
  if counts_idle ns then
    idle_cpus ← deref (Node.AllocIdleCpus n);
    Ok {| cpusMetrics.alloc := cpusMetrics.alloc cm;
          cpusMetrics.idle := cpusMetrics.idle cm + float64_of_int idle_cpus;
          cpusMetrics.other := cpusMetrics.other cm;
          cpusMetrics.total := cpusMetrics.total cm |}%float
  else Ok cm.

(** The body of the loop over the nodes. *)
Definition cpus_node_body (n : Node.t) (cm : cpusMetrics.t) : outcome cpusMetrics.t :=
  c ← deref (Node.Cpus n);
  if c =? 1 then Ok cm
  else
    let cm := {| cpusMetrics.alloc := cpusMetrics.alloc cm;
                 cpusMetrics.idle := cpusMetrics.idle cm;
                 cpusMetrics.other := cpusMetrics.other cm;
                 cpusMetrics.total := cpusMetrics.total cm + float64_of_int c |}%float in
    nodeStates ← wrap_err "failed to get node state for cpu metrics: " (GetNodeStates n);
    for_range (cpus_state_body n) nodeStates cm.

(** ParseCPUsMetrics pulls out the cluster cpu states alloc, idle, other,
    total. *)
Definition ParseCPUsMetrics (nodes : list Node.t) (jobs : list Job.t) : Exec cpusMetrics.t :=
  cm ← exec_range cpus_job_body jobs NewCPUsMetrics;
  lift (cm ← for_range cpus_node_body nodes cm;
        Ok {| cpusMetrics.alloc := cpusMetrics.alloc cm;
              cpusMetrics.idle := cpusMetrics.idle cm;
              cpusMetrics.other :=
                cpusMetrics.total cm - cpusMetrics.idle cm - cpusMetrics.alloc cm;
              cpusMetrics.total := cpusMetrics.total cm |}%float).

(** ** Cluster GPU tally *)

Module gpusMetrics.
Record t : Type := {
  alloc : float;
  idle : float;
  other : float;
  total : float;
  utilization : float
}.
End gpusMetrics.

Definition NewGPUsMetrics : gpusMetrics.t :=
  {| gpusMetrics.alloc := 0; gpusMetrics.idle := 0; gpusMetrics.other := 0;
     gpusMetrics.total := 0; gpusMetrics.utilization := 0 |}.

(** The body of the loop of [ParseGPUsMetrics]. *)
Definition gpus_body (n : Node.t) (gm : gpusMetrics.t) : outcome gpusMetrics.t :=
  totalGPUs ← wrap_err "failed to get total gpu count for node: " (GetNodeGPUTotal n);
  allocGPUs ← wrap_err "failed to get allocated gpu count for node: " (GetNodeGPUAllocated n);
  let idleGPUs := int_sub totalGPUs allocGPUs in
  Ok {| gpusMetrics.total := gpusMetrics.total gm + float64_of_int totalGPUs;
        gpusMetrics.alloc := gpusMetrics.alloc gm + float64_of_int allocGPUs;
        gpusMetrics.idle := gpusMetrics.idle gm + float64_of_int idleGPUs;
        gpusMetrics.other := gpusMetrics.other gm;
        gpusMetrics.utilization := gpusMetrics.utilization gm |}%float.

(** ParseGPUsMetrics tallies the total and allocated gpus of the nodes,
    then derives the utilization. *)
Definition ParseGPUsMetrics (nodes : list Node.t) : outcome gpusMetrics.t :=
  gm ← for_range gpus_body nodes NewGPUsMetrics;
  Ok {| gpusMetrics.total := gpusMetrics.total gm;
        gpusMetrics.alloc := gpusMetrics.alloc gm;
        gpusMetrics.idle := gpusMetrics.idle gm;
        gpusMetrics.other := gpusMetrics.other gm;
        gpusMetrics.utilization := gpusMetrics.alloc gm / gpusMetrics.total gm |}%float.

(** ** Per-node inventory *)

Module nodeMetrics.
Record t : Type := {
  memAlloc : Z;
  memTotal : Z;
  cpuAlloc : Z;
  cpuIdle : Z;
  cpuOther : Z;
  cpuTotal : Z;
  nodeStatus : string
}.
End nodeMetrics.

(** The body of the loop of [ParseNodeMetrics]: the record of the host is
    replaced by a zeroed one, then every field is assigned. *)
Definition node_body (name_of : NodeState -> string) (n : Node.t)
  (nodeMap : gmap string nodeMetrics.t) : outcome (gmap string nodeMetrics.t) :=
  nodeName ← deref (Node.Hostname n);
  let nodeMap :=
    <[nodeName := {| nodeMetrics.memAlloc := 0; nodeMetrics.memTotal := 0;
                     nodeMetrics.cpuAlloc := 0; nodeMetrics.cpuIdle := 0;
                     nodeMetrics.cpuOther := 0; nodeMetrics.cpuTotal := 0;
                     nodeMetrics.nodeStatus := "" |}]> nodeMap in
  nodeStatesStr ← wrap_err "failed to get node state: " (GetNodeStatesString name_of n "|");
  Ok (alter (λ _, {| nodeMetrics.nodeStatus := nodeStatesStr;
                     nodeMetrics.memAlloc := GetNodeAllocMemory n;
                     nodeMetrics.memTotal := GetNodeTotalMemory n;
                     nodeMetrics.cpuAlloc := GetNodeAllocCPUs n;
                     nodeMetrics.cpuIdle := GetNodeIdleCPUs n;
                     nodeMetrics.cpuOther := GetNodeOtherCPUs n;
                     nodeMetrics.cpuTotal := GetNodeTotalCPUs n |}) nodeName nodeMap).

(** ParseNodeMetrics returns a map of metrics per node. *)
Definition ParseNodeMetrics (name_of : NodeState -> string) (nodes : list Node.t)
  : outcome (gmap string nodeMetrics.t) :=
  for_range (node_body name_of) nodes ∅.

(** ** Node-state tally *)

Module nodesMetrics.
Record t : Type := {
  alloc : float;
  comp : float;
  down : float;
  drain : float;
  err : float;
  fail : float;
  idle : float;
  maint : float;
  mix : float;
  resv : float
}.
End nodesMetrics.

Definition NewNodesMetrics : nodesMetrics.t :=
  {| nodesMetrics.alloc := 0; nodesMetrics.comp := 0; nodesMetrics.down := 0;
     nodesMetrics.drain := 0; nodesMetrics.err := 0; nodesMetrics.fail := 0;
     nodesMetrics.idle := 0; nodesMetrics.maint := 0; nodesMetrics.mix := 0;
     nodesMetrics.resv := 0 |}.

(** The [switch ns] of [ParseNodesMetrics]. *)
Definition tally_node_state (ns : NodeState) (nm : nodesMetrics.t) : nodesMetrics.t :=
  let '{| nodesMetrics.alloc := a; nodesMetrics.comp := c; nodesMetrics.down := d;
          nodesMetrics.drain := dr; nodesMetrics.err := e; nodesMetrics.fail := f;
          nodesMetrics.idle := i; nodesMetrics.maint := ma; nodesMetrics.mix := mi;
          nodesMetrics.resv := r |} := nm in
  match ns with
  | NodeStateAlloc => nodesMetrics.Build_t (a + 1) c d dr e f i ma mi r
  | NodeStateComp => nodesMetrics.Build_t a (c + 1) d dr e f i ma mi r
  | NodeStateDown => nodesMetrics.Build_t a c (d + 1) dr e f i ma mi r
  | NodeStateDrain => nodesMetrics.Build_t a c d (dr + 1) e f i ma mi r
  | NodeStateErr => nodesMetrics.Build_t a c d dr (e + 1) f i ma mi r
  | NodeStateFail => nodesMetrics.Build_t a c d dr e (f + 1) i ma mi r
  | NodeStateIdle => nodesMetrics.Build_t a c d dr e f (i + 1) ma mi r
  | NodeStateMaint => nodesMetrics.Build_t a c d dr e f i (ma + 1) mi r
  | NodeStateMix => nodesMetrics.Build_t a c d dr e f i ma (mi + 1) r
  | NodeStateResv => nodesMetrics.Build_t a c d dr e f i ma mi (r + 1)
  | _ => nm
  end%float.

(** The body of the loop of [ParseNodesMetrics]. *)
Definition nodes_body (n : Node.t) (nm : nodesMetrics.t) : outcome nodesMetrics.t :=
  nodeStates ← wrap_err "failed to get node state for nodes metrics: " (GetNodeStates n);
  Ok (fold_left (λ nm ns, tally_node_state ns nm) nodeStates nm).

(** ParseNodesMetrics tallies the nodes by state. *)
Definition ParseNodesMetrics (nodes : list Node.t) : outcome nodesMetrics.t :=
  for_range nodes_body nodes NewNodesMetrics.

(** ** Queue tally *)

Module queueMetrics.
Record t : Type := {
  pending : float;
  pending_dep : float;
  running : float;
  suspended : float;
  cancelled : float;
  completing : float;
  completed : float;
  configuring : float;
  failed : float;
  timeout : float;
  preempted : float;
  node_fail : float
}.
End queueMetrics.

Definition NewQueueMetrics : queueMetrics.t :=
  {| queueMetrics.pending := 0; queueMetrics.pending_dep := 0;
     queueMetrics.running := 0; queueMetrics.suspended := 0;
     queueMetrics.cancelled := 0; queueMetrics.completing := 0;
     queueMetrics.completed := 0; queueMetrics.configuring := 0;
     queueMetrics.failed := 0; queueMetrics.timeout := 0;
     queueMetrics.preempted := 0; queueMetrics.node_fail := 0 |}.

(** The body of the loop of [ParseQueueMetrics]: the [switch *jobState].
    The struct has no field for OutOfMemory and the switch no case. *)
Definition queue_body (j : Job.t) (qm : queueMetrics.t) : outcome queueMetrics.t :=
  jobState ← wrap_err "failed to get job state: " (GetJobState j);
  let '{| queueMetrics.pending := p; queueMetrics.pending_dep := pd;
          queueMetrics.running := r; queueMetrics.suspended := s;
          queueMetrics.cancelled := ca; queueMetrics.completing := cg;
          queueMetrics.completed := cd; queueMetrics.configuring := cf;
          queueMetrics.failed := f; queueMetrics.timeout := t;
          queueMetrics.preempted := pr; queueMetrics.node_fail := nf |} := qm in
  match jobState with
  | JobStatePending =>
      dependency ← deref (Job.Dependency j);
      if bool_decide (dependency ≠ "")
      then Ok (queueMetrics.Build_t p (pd + 1) r s ca cg cd cf f t pr nf)
      else Ok (queueMetrics.Build_t (p + 1) pd r s ca cg cd cf f t pr nf)
  | JobStateRunning => Ok (queueMetrics.Build_t p pd (r + 1) s ca cg cd cf f t pr nf)
  | JobStateSuspended => Ok (queueMetrics.Build_t p pd r (s + 1) ca cg cd cf f t pr nf)
  | JobStateCancelled => Ok (queueMetrics.Build_t p pd r s (ca + 1) cg cd cf f t pr nf)
  | JobStateCompleting => Ok (queueMetrics.Build_t p pd r s ca (cg + 1) cd cf f t pr nf)
  | JobStateCompleted => Ok (queueMetrics.Build_t p pd r s ca cg (cd + 1) cf f t pr nf)
  | JobStateConfiguring => Ok (queueMetrics.Build_t p pd r s ca cg cd (cf + 1) f t pr nf)
  | JobStateFailed => Ok (queueMetrics.Build_t p pd r s ca cg cd cf (f + 1) t pr nf)
  | JobStateTimeout => Ok (queueMetrics.Build_t p pd r s ca cg cd cf f (t + 1) pr nf)
  | JobStatePreempted => Ok (queueMetrics.Build_t p pd r s ca cg cd cf f t (pr + 1) nf)
  | JobStateNodeFail => Ok (queueMetrics.Build_t p pd r s ca cg cd cf f t pr (nf + 1))
  | JobStateOutOfMemory => Ok qm
  end%float.

(** ParseQueueMetrics tallies the jobs by state. *)
Definition ParseQueueMetrics (jobs : list Job.t) : outcome queueMetrics.t :=
  for_range queue_body jobs NewQueueMetrics.

(** ** Scheduler diagnostics *)

Module schedulerMetrics.
Record t : Type := {
  threads : float;
  queue_size : float;
  dbd_queue_size : float;
  last_cycle : float;
  mean_cycle : float;
  cycle_per_minute : float;
  backfill_last_cycle : float;
  backfill_mean_cycle : float;
  backfill_depth_mean : float;
  total_backfilled_jobs_since_start : float;
  total_backfilled_jobs_since_cycle : float;
  total_backfilled_heterogeneous : float
}.
End schedulerMetrics.

(** Modelled from the spec: [util.GetValueOrZero] is declared in
    [internal/util], which is not among the sources; section 4.7 has it
    substitute zero for an absent field and pass a present one through. *)
Definition GetValueOrZero (p : option Z) : float :=
  match p with
  | None => 0%float
  | Some v => float64_of_int v
  end.

(** ParseSchedulerMetrics copies the statistics of the diag response. *)
Definition ParseSchedulerMetrics (s : Diag.t) : outcome schedulerMetrics.t :=
  Ok {| schedulerMetrics.threads := GetValueOrZero (Diag.ServerThreadCount s);
        schedulerMetrics.queue_size := GetValueOrZero (Diag.AgentQueueSize s);
        schedulerMetrics.dbd_queue_size := GetValueOrZero (Diag.DbdAgentQueueSize s);
        schedulerMetrics.last_cycle := GetValueOrZero (Diag.ScheduleCycleLast s);
        schedulerMetrics.mean_cycle := GetValueOrZero (Diag.ScheduleCycleMean s);
        schedulerMetrics.cycle_per_minute := GetValueOrZero (Diag.ScheduleCyclePerMinute s);
        schedulerMetrics.backfill_depth_mean := GetValueOrZero (Diag.BfDepthMean s);
        schedulerMetrics.backfill_last_cycle := GetValueOrZero (Diag.BfCycleLast s);
        schedulerMetrics.backfill_mean_cycle := GetValueOrZero (Diag.BfCycleMean s);
        schedulerMetrics.total_backfilled_jobs_since_cycle :=
          GetValueOrZero (Diag.BfBackfilledJobs s);
        schedulerMetrics.total_backfilled_jobs_since_start :=
          GetValueOrZero (Diag.BfLastBackfilledJobs s);
        schedulerMetrics.total_backfilled_heterogeneous :=
          GetValueOrZero (Diag.BfBackfilledHetJobs s) |}.

(** ** Fair-share tally *)

Module fairShareMetrics.
Record t : Type := { fairshare : float }.
End fairShareMetrics.

Definition NewFairShareMetrics : fairShareMetrics.t :=
  {| fairShareMetrics.fairshare := 0 |}.

(** The body of the loop of [ParseFairShareMetrics].  Neither [*s.Name]
    nor [*s.Fairshare.Level] is guarded. *)
Definition fairshare_body (s : Share.t) (accounts : gmap string fairShareMetrics.t)
  : outcome (gmap string fairShareMetrics.t) :=
  account ← deref (Share.Name s);
  let accounts := ensure_key account NewFairShareMetrics accounts in
  f ← deref (Share.Fairshare s);
  level ← deref (Share.Level f);
  Ok (alter (λ _, {| fairShareMetrics.fairshare := level |}) account accounts).

(** ParseFairShareMetrics keys the fairshare level by account. *)
Definition ParseFairShareMetrics (shares : list Share.t)
  : outcome (gmap string fairShareMetrics.t) :=
  for_range fairshare_body shares ∅.

(** ** Per-user job tally *)

Module userJobMetrics.
Record t : Type := {
  pending : float;
  pending_cpus : float;
  running : float;
  running_cpus : float;
  suspended : float
}.
End userJobMetrics.

Definition NewUserJobMetrics : userJobMetrics.t :=
  {| userJobMetrics.pending := 0; userJobMetrics.pending_cpus := 0;
     userJobMetrics.running := 0; userJobMetrics.running_cpus := 0;
     userJobMetrics.suspended := 0 |}.

(** The [switch *jobState] of [ParseUsersMetrics]. *)
Definition tally_user_job (state : JobState) (cpus : float) (m : userJobMetrics.t)
  : userJobMetrics.t :=
  match state with
  | JobStatePending =>
      {| userJobMetrics.pending := userJobMetrics.pending m + 1;
         userJobMetrics.pending_cpus := userJobMetrics.pending_cpus m + cpus;
         userJobMetrics.running := userJobMetrics.running m;
         userJobMetrics.running_cpus := userJobMetrics.running_cpus m;
         userJobMetrics.suspended := userJobMetrics.suspended m |}
  | JobStateRunning =>
      {| userJobMetrics.pending := userJobMetrics.pending m;
         userJobMetrics.pending_cpus := userJobMetrics.pending_cpus m;
         userJobMetrics.running := userJobMetrics.running m + 1;
         userJobMetrics.running_cpus := userJobMetrics.running_cpus m + cpus;
         userJobMetrics.suspended := userJobMetrics.suspended m |}
  | JobStateSuspended =>
      {| userJobMetrics.pending := userJobMetrics.pending m;
         userJobMetrics.pending_cpus := userJobMetrics.pending_cpus m;
         userJobMetrics.running := userJobMetrics.running m;
         userJobMetrics.running_cpus := userJobMetrics.running_cpus m;
         userJobMetrics.suspended := userJobMetrics.suspended m + 1 |}
  | _ => m
  end%float.

(** The body of the loop of [ParseUsersMetrics]: [*j.UserName] is not
    guarded, and a failed state or CPU lookup returns from the function. *)
Definition users_body (j : Job.t) (users : gmap string userJobMetrics.t)
  : outcome (gmap string userJobMetrics.t) :=
  user ← deref (Job.UserName j);
  let users := ensure_key user NewUserJobMetrics users in
  jobState ← wrap_err "failed to get job state: " (GetJobState j);
  jobCpus ← wrap_err "failed to get job cpus: " (GetJobCPUs j);
  Ok (alter (tally_user_job jobState jobCpus) user users).

(** ParseUsersMetrics tallies the jobs per user name. *)
Definition ParseUsersMetrics (jobs : list Job.t) : outcome (gmap string userJobMetrics.t) :=
  for_range users_body jobs ∅.

(** ** Partition cross-reference *)

Module partitionMetrics.
Record t : Type := {
  cpus_allocated : float;
  cpus_idle : float;
  cpus_other : float;
  cpus_total : float;
  jobs_pending : float
}.
End partitionMetrics.

Definition NewPartitionsMetrics : partitionMetrics.t :=
  {| partitionMetrics.cpus_allocated := 0; partitionMetrics.cpus_idle := 0;
     partitionMetrics.cpus_other := 0; partitionMetrics.cpus_total := 0;
     partitionMetrics.jobs_pending := 0 |}.

Definition set_cpus_total (total : float) (p : partitionMetrics.t) : partitionMetrics.t :=
  {| partitionMetrics.cpus_allocated := partitionMetrics.cpus_allocated p;
     partitionMetrics.cpus_idle := partitionMetrics.cpus_idle p;
     partitionMetrics.cpus_other := partitionMetrics.cpus_other p;
     partitionMetrics.cpus_total := total;
     partitionMetrics.jobs_pending := partitionMetrics.jobs_pending p |}.

(** [p.cpus_allocated += float64(alloc_cpus); p.cpus_idle +=
    float64(idle_cpus)]. *)
Definition add_node_cpus (alloc_cpus idle_cpus : Z) (p : partitionMetrics.t)
  : partitionMetrics.t :=
  {| partitionMetrics.cpus_allocated :=
       partitionMetrics.cpus_allocated p + float64_of_uint64 alloc_cpus;
     partitionMetrics.cpus_idle :=
       partitionMetrics.cpus_idle p + float64_of_uint64 idle_cpus;
     partitionMetrics.cpus_other := partitionMetrics.cpus_other p;
     partitionMetrics.cpus_total := partitionMetrics.cpus_total p;
     partitionMetrics.jobs_pending := partitionMetrics.jobs_pending p |}%float.

(** [p.cpus_other = p.cpus_total - p.cpus_allocated - p.cpus_idle]. *)
Definition derive_other (p : partitionMetrics.t) : partitionMetrics.t :=
  {| partitionMetrics.cpus_allocated := partitionMetrics.cpus_allocated p;
     partitionMetrics.cpus_idle := partitionMetrics.cpus_idle p;
     partitionMetrics.cpus_other :=
       partitionMetrics.cpus_total p - partitionMetrics.cpus_allocated p
       - partitionMetrics.cpus_idle p;
     partitionMetrics.cpus_total := partitionMetrics.cpus_total p;
     partitionMetrics.jobs_pending := partitionMetrics.jobs_pending p |}%float.

(** [p.jobs_pending += 1]. *)
Definition add_pending (p : partitionMetrics.t) : partitionMetrics.t :=
  {| partitionMetrics.cpus_allocated := partitionMetrics.cpus_allocated p;
     partitionMetrics.cpus_idle := partitionMetrics.cpus_idle p;
     partitionMetrics.cpus_other := partitionMetrics.cpus_other p;
     partitionMetrics.cpus_total := partitionMetrics.cpus_total p;
     partitionMetrics.jobs_pending := partitionMetrics.jobs_pending p + 1 |}%float.

(** First loop: the total cpus of every partition record. *)
Definition seed_body (p : Partition.t) (partitions : gmap string partitionMetrics.t)
  : outcome (gmap string partitionMetrics.t) :=
  partitionName ←
    wrap_err "failed to get partition name for partition metrics: " (GetPartitionName p);
  let partitions := ensure_key partitionName NewPartitionsMetrics partitions in
  total ←
    wrap_err "failed to collect cpu total for partition metrics: " (GetPartitionTotalCPUs p);
  Ok (alter (set_cpus_total total) partitionName partitions).

(** Second loop: the node-to-partitions table, which nothing reads
    afterwards; a node without a name ends the call. *)
Definition node_partitions_body (n : Node.t) (nodePartitions : gmap string (list string))
  : outcome (gmap string (list string)) :=
  nodeName ←
    wrap_err "failed to get node name for partition metrics: " (GetNodeName n);
  Ok (<[nodeName := GetNodePartitions n]> nodePartitions).

(** Third loop, inner body: one membership of one node. *)
Definition fan_out_one (alloc_cpus idle_cpus : Z)
  (partitions : gmap string partitionMetrics.t) (partitionName : string)
  : gmap string partitionMetrics.t :=
  alter (add_node_cpus alloc_cpus idle_cpus) partitionName
    (ensure_key partitionName NewPartitionsMetrics partitions).

(** Third loop, outer body: the node's cpus go to each of its partitions. *)
Definition fan_out_node (partitions : gmap string partitionMetrics.t) (n : Node.t)
  : gmap string partitionMetrics.t :=
  let alloc_cpus := GetNodeAllocCPUs n in
  let idle_cpus := GetNodeIdleCPUs n in
  let nodePartitionNames := GetNodePartitions n in
  fold_left (fan_out_one alloc_cpus idle_cpus) nodePartitionNames partitions.

(** Fourth loop, body: [for i, p := range partitions], at key [i]. *)
Definition derive_at (partitions : gmap string partitionMetrics.t) (i : string)
  : gmap string partitionMetrics.t :=
  alter derive_other i partitions.

(** Fifth loop, inner body: one partition name of one job. *)
Definition pending_one (partitions : gmap string partitionMetrics.t)
  (partitionName : string) : gmap string partitionMetrics.t :=
  alter add_pending partitionName
    (ensure_key partitionName NewPartitionsMetrics partitions).

(** Fifth loop, outer body: the partition field of a job is a
    comma-separated list. *)
Definition pending_body (j : Job.t) (partitions : gmap string partitionMetrics.t)
  : outcome (gmap string partitionMetrics.t) :=
  pname ←
    wrap_err "failed to get job partition name for partition metrics: "
      (GetJobPartitionName j);
  Ok (fold_left pending_one (Split pname ",") partitions).

(** ParsePartitionsMetrics returns a map from the partition names to
    their metrics.  [range_keys] is the order in which the Go runtime
    visits the keys of the map in the fourth loop; the runtime chooses it
    afresh at every [range], among the orders that visit each key once. *)
Definition ParsePartitionsMetrics
  (range_keys : gmap string partitionMetrics.t -> list string)
  (partitions : list Partition.t) (jobs : list Job.t) (nodes : list Node.t)
  : outcome (gmap string partitionMetrics.t) :=
  partitions ← for_range seed_body partitions ∅;
  _ ← for_range node_partitions_body nodes ∅;
  let partitions := fold_left fan_out_node nodes partitions in
  let partitions := fold_left derive_at (range_keys partitions) partitions in
  for_range pending_body jobs partitions.

(** An iteration order the runtime may choose: every key of the map,
    once. *)
Definition valid_range_order {V} (range_keys : gmap string V -> list string) : Prop :=
  ∀ m, range_keys m ≡ₚ (map_to_list m).*1.

(** * Sample records

    Builders for the concrete inputs of the examples below. *)

Module Sample.

Definition mk_job (account user partition : option string)
  (state : option (list string)) (cpus : option Z) (dependency : option string) : Job.t :=
  {| Job.Account := account; Job.Partition := partition; Job.JobState := state;
     Job.Cpus := Some {| Number := cpus |}; Job.UserName := user;
     Job.Dependency := dependency |}.

(** A node of the cluster: name, states, partitions, allocated, idle and
    total cpus. *)
Definition mk_node (name : string) (state : option (list string))
  (partitions : list string) (alloc idle cpus : Z) : Node.t :=
  {| Node.Name := Some name; Node.Hostname := Some name; Node.State := state;
     Node.Tres := None; Node.TresUsed := None; Node.Partitions := Some partitions;
     Node.AllocMemory := None; Node.RealMemory := None; Node.AllocCpus := Some alloc;
     Node.AllocIdleCpus := Some idle; Node.Cpus := Some cpus |}.

(** A node known by its two resource strings only. *)
Definition tres_node (tres : string) : Node.t :=
  {| Node.Name := None; Node.Hostname := None; Node.State := None;
     Node.Tres := Some tres; Node.TresUsed := Some tres; Node.Partitions := None;
     Node.AllocMemory := None; Node.RealMemory := None; Node.AllocCpus := None;
     Node.AllocIdleCpus := None; Node.Cpus := None |}.

Definition mk_partition (name : string) (total : Z) : Partition.t :=
  {| Partition.Name := Some name;
     Partition.Cpus := Some {| Partition.Total := Some total |};
     Partition.Nodes := None |}.

Definition mk_share (name : option string) (level : option float) : Share.t :=
  {| Share.Name := name; Share.Fairshare := Some {| Share.Level := level |} |}.

(** The order in which [map_to_list] lists the keys: one valid order. *)
Definition keys_in_order (m : gmap string partitionMetrics.t) : list string :=
  (map_to_list m).*1.

End Sample.

(** * Reference definitions

    What the specification's sentences speak of, written from its words,
    to be compared with the functions above. *)

(** The rules of an ordered rule list whose prefix matches the token. *)
Definition matching_rules {A} (rules : list (string * A)) (state : string)
  : list (string * A) :=
  filter (λ r, MatchPrefix r.1 state = true) rules.

(** A node whose only state entry is the scheduler's [INVALID_REG]. *)
Definition invalid_reg_node : Node.t :=
  Sample.mk_node "n1" (Some ["INVALID_REG"]) [] 0 0 8.

(** A job whose state list was sent as the empty JSON array. *)
Definition empty_state_job : Job.t :=
  Sample.mk_job (Some "acct") (Some "alice") (Some "debug") (Some []) (Some 4) (Some "").

(** The twelve counters of the queue-metrics record. *)
Inductive queue_counter : Type :=
  | QPending | QPendingDep | QRunning | QSuspended | QCancelled | QCompleting
  | QCompleted | QConfiguring | QFailed | QTimeout | QPreempted | QNodeFail.

#[export] Instance queue_counter_eq_dec : EqDecision queue_counter.
Proof. solve_decision. Defined.

Definition counter_value (c : queue_counter) (qm : queueMetrics.t) : float :=
  match c with
  | QPending => queueMetrics.pending qm
  | QPendingDep => queueMetrics.pending_dep qm
  | QRunning => queueMetrics.running qm
  | QSuspended => queueMetrics.suspended qm
  | QCancelled => queueMetrics.cancelled qm
  | QCompleting => queueMetrics.completing qm
  | QCompleted => queueMetrics.completed qm
  | QConfiguring => queueMetrics.configuring qm
  | QFailed => queueMetrics.failed qm
  | QTimeout => queueMetrics.timeout qm
  | QPreempted => queueMetrics.preempted qm
  | QNodeFail => queueMetrics.node_fail qm
  end.

(** The counter the specification gives to a classified job: Pending is
    split by the dependency field, every other state has the counter of
    its name.  OutOfMemory has none: the record holds no such counter. *)
Definition counter_of (state : JobState) (dependency : string) : option queue_counter :=
  match state with
  | JobStatePending => Some (if bool_decide (dependency ≠ "") then QPendingDep else QPending)
  | JobStateRunning => Some QRunning
  | JobStateSuspended => Some QSuspended
  | JobStateCancelled => Some QCancelled
  | JobStateCompleting => Some QCompleting
  | JobStateCompleted => Some QCompleted
  | JobStateConfiguring => Some QConfiguring
  | JobStateFailed => Some QFailed
  | JobStateTimeout => Some QTimeout
  | JobStatePreempted => Some QPreempted
  | JobStateNodeFail => Some QNodeFail
  | JobStateOutOfMemory => None
  end.

(** A job that ran out of memory. *)
Definition oom_job : Job.t :=
  Sample.mk_job (Some "acct") (Some "alice") (Some "debug")
    (Some ["OUT_OF_MEMORY"]) (Some 4) (Some "").

(** A pending job that waits for another one. *)
Definition pending_dep_job : Job.t :=
  Sample.mk_job (Some "acct") (Some "alice") (Some "debug")
    (Some ["PENDING"]) (Some 4) (Some "afterok:41").

(** A share record without an account name. *)
Definition nameless_share : Share.t := Sample.mk_share None (Some 0.5%float).

(** A share record without a fairshare level. *)
Definition levelless_share : Share.t := Sample.mk_share (Some "physics") None.

(** A job whose state, or whose CPU count once the state is known, the
    accessors answer with an error. *)
Definition state_or_cpus_unresolved (j : Job.t) : Prop :=
  (∃ e, GetJobState j = Err e)
  ∨ (∃ state e, GetJobState j = Ok state ∧ GetJobCPUs j = Err e).

(** A job that the account tally cannot resolve: no account name, or a
    state or CPU count answered with an error. *)
Definition account_job_unresolved (j : Job.t) : Prop :=
  (∃ e, GetJobAccountName j = Err e) ∨ state_or_cpus_unresolved j.

(** The same counters under the same keys, except that keys absent from
    [m] may be present in [m'] with all counters at zero. *)
Definition same_tallies (m m' : gmap string JobMetrics.t) : Prop :=
  ∀ k, m' !! k = m !! k ∨ (m !! k = None ∧ m' !! k = Some NewJobMetrics).

(** [log'] is [log] with one record more. *)
Definition one_more_record (log log' : list LogRecord) : Prop :=
  ∃ l1 rec l2, log = l1 ++ l2 ∧ log' = l1 ++ rec :: l2.

(** A computation that only appends to the log, and whose outcome does
    not depend on what was logged before. *)
Definition appends_only {A} (m : Exec A) : Prop :=
  ∀ log, m log = ((m []).1, log ++ (m []).2).

(** A job without a state, and a running job on four cpus. *)
Definition stateless_job : Job.t :=
  Sample.mk_job (Some "acct") (Some "alice") (Some "debug") None (Some 4) (Some "").

Definition running_job : Job.t :=
  Sample.mk_job (Some "acct") (Some "alice") (Some "A,B") (Some ["RUNNING"]) (Some 4) (Some "").

(** A job without a CPU count. *)
Definition cpuless_job : Job.t :=
  Sample.mk_job (Some "acct") (Some "bob") (Some "debug") (Some ["PENDING"]) None (Some "").

(** A node of eight cpus whose state list is absent, and one whose state
    is no known token. *)
Definition stateless_node : Node.t := Sample.mk_node "n3" None ["A"] 0 0 8.

Definition odd_state_node : Node.t := Sample.mk_node "n4" (Some ["POWERED_DOWN"]) ["A"] 0 0 8.

(** A node in that state which reports one CPU. *)
Definition single_cpu_odd_node : Node.t :=
  Sample.mk_node "n7" (Some ["POWERED_DOWN"]) [] 0 0 1.

(** The CPU counts that make up [alloc]: those of the jobs whose state
    classifies to Running and whose CPU count is present, in the order of
    the listing. *)
Definition running_job_cpus (jobs : list Job.t) : list float :=
  omap (λ j, match GetJobState j, GetJobCPUs j with
             | Ok JobStateRunning, Ok cpus => Some cpus
             | _, _ => None
             end) jobs.

(** A node that reports exactly one CPU. *)
Definition single_cpu (n : Node.t) : bool := bool_decide (Node.Cpus n = Some 1).

(** The state sequence of the node contains Mix, Alloc or Idle. *)
Definition has_idle_state (n : Node.t) : bool :=
  match GetNodeStates n with
  | Ok nodeStates => existsb counts_idle nodeStates
  | _ => false
  end.

(** [total], in the words of the specification and in the code alike: the CPU
    counts of the nodes that do not report exactly one CPU. *)
Definition counted_total (nodes : list Node.t) : list float :=
  omap (λ n, if single_cpu n then None else float64_of_int <$> Node.Cpus n) nodes.

(** [idle], in the words of the specification: the idle-CPU field of each node
    whose state sequence contains Mix, Alloc or Idle, once per node. *)
Definition spec_idle (nodes : list Node.t) : list float :=
  omap (λ n, if has_idle_state n then float64_of_int <$> Node.AllocIdleCpus n else None)
    nodes.

(** [idle], as amended: as [spec_idle], over the nodes that do not
    report exactly one CPU. *)
Definition counted_idle (nodes : list Node.t) : list float :=
  omap (λ n, if single_cpu n then None
             else if has_idle_state n then float64_of_int <$> Node.AllocIdleCpus n
             else None) nodes.

(** A job on which the loop over the jobs does not panic. *)
Definition cpus_job_ok (j : Job.t) : bool :=
  match GetJobState j with
  | Ok _ => match GetJobCPUs j with Panic _ => false | _ => true end
  | Err _ => true
  | Panic _ => false
  end.

(** A node that the loop over the nodes processes: its CPU count is
    present and, unless that count is one, its states classify, at most
    one of them is Mix, Alloc or Idle, and the idle-CPU field is present
    when one is. *)
Definition cpus_node_ok (n : Node.t) : bool :=
  match Node.Cpus n with
  | None => false
  | Some c =>
      if c =? 1 then true
      else match GetNodeStates n with
           | Ok nodeStates =>
               match filter (λ ns, counts_idle ns = true) nodeStates with
               | [] => true
               | [_] => bool_decide (is_Some (Node.AllocIdleCpus n))
               | _ => false
               end
           | _ => false
           end
  end.

(** The example of the specification: two nodes of eight cpus, the first
    idle with two idle cpus. *)
Definition idle_node : Node.t := Sample.mk_node "n1" (Some ["IDLE"]) ["A"] 4 2 8.

Definition down_node : Node.t := Sample.mk_node "n2" (Some ["DOWN"]) ["A"] 3 0 8.

(** An idle node that reports one CPU, and a node with two state entries
    among Mix, Alloc and Idle. *)
Definition single_cpu_idle_node : Node.t := Sample.mk_node "n5" (Some ["IDLE"]) [] 0 1 1.

Definition twice_idle_node : Node.t := Sample.mk_node "n6" (Some ["MIXED"; "IDLE"]) [] 6 2 8.

(** The call returned a value. *)
Definition is_Ok {A} (r : outcome A) : bool :=
  match r with
  | Ok _ => true
  | _ => false
  end.

(** The total of the last partition record of that name, if any. *)
Definition seeded_total (partitions : list Partition.t) (name : string) : option float :=
  last (omap (λ p, if bool_decide (Partition.Name p = Some name)
                   then match GetPartitionTotalCPUs p with
                        | Ok total => Some total
                        | _ => None
                        end
                   else None) partitions).

(** Every membership of every node, in the order of the node listing:
    the partition name with the allocated and idle cpus of the node. *)
Definition memberships (nodes : list Node.t) : list (string * (Z * Z)) :=
  flat_map (λ n, map (λ q, (q, (GetNodeAllocCPUs n, GetNodeIdleCPUs n)))
                   (GetNodePartitions n)) nodes.

(** The allocated and idle cpus of the nodes that list the partition,
    once per listing. *)
Definition member_cpus (name : string) (nodes : list Node.t) : list (Z * Z) :=
  map snd (filter (λ u, u.1 = name) (memberships nodes)).

(** The partition names of a job: its partition field, split at the
    commas. *)
Definition job_partitions (j : Job.t) : list string :=
  match Job.Partition j with
  | Some pname => Split pname ","
  | None => []
  end.

(** The references to the partition in the job listing. *)
Definition pending_refs (name : string) (jobs : list Job.t) : list string :=
  filter (λ q, q = name) (flat_map job_partitions jobs).

(** The partition is named by a partition record, a node or a job. *)
Definition partition_known (partitions : list Partition.t) (jobs : list Job.t)
  (nodes : list Node.t) (name : string) : bool :=
  bool_decide (is_Some (seeded_total partitions name))
  || bool_decide (member_cpus name nodes ≠ [])
  || bool_decide (pending_refs name jobs ≠ []).

(** The metrics of a partition, in the words of the specification: the
    seeded total (zero without a partition record), the full allocated
    and idle cpus of every member node, the derived other, and one
    pending job per reference. *)
Definition expected_partition (partitions : list Partition.t) (jobs : list Job.t)
  (nodes : list Node.t) (name : string) : partitionMetrics.t :=
  let total := default 0%float (seeded_total partitions name) in
  let alloc := fsum (map (λ c, float64_of_uint64 c.1) (member_cpus name nodes)) in
  let idle := fsum (map (λ c, float64_of_uint64 c.2) (member_cpus name nodes)) in
  {| partitionMetrics.cpus_allocated := alloc;
     partitionMetrics.cpus_idle := idle;
     partitionMetrics.cpus_other := (total - alloc - idle)%float;
     partitionMetrics.cpus_total := total;
     partitionMetrics.jobs_pending := fsum (map (λ _, 1%float) (pending_refs name jobs)) |}.

(** The snapshot of the example: partition A of ten cpus, two member
    nodes, one job queued on A and B. *)
Definition partition_A : Partition.t := Sample.mk_partition "A" 10.

Definition node_4_2 : Node.t := Sample.mk_node "n1" (Some ["MIXED"]) ["A"] 4 2 8.

Definition node_3_1 : Node.t := Sample.mk_node "n2" (Some ["MIXED"]) ["A"] 3 1 8.

Definition job_A_B : Job.t :=
  Sample.mk_job (Some "acct") (Some "alice") (Some "A,B") (Some ["PENDING"]) (Some 2) (Some "").

(** The input snapshot of one collection cycle. *)
Record Snapshot : Type := {
  snap_jobs : list Job.t;
  snap_nodes : list Node.t;
  snap_partitions : list Partition.t;
  snap_diag : Diag.t;
  snap_shares : list Share.t
}.

(** The ten aggregators of the package. *)
Inductive aggregator : Type :=
  | AccountsMetrics | CPUsMetrics | GPUsMetrics | NodeMetrics | NodesMetrics
  | QueueMetrics | SchedulerMetrics | FairShareMetrics | UsersMetrics
  | PartitionsMetrics.

(** What an aggregator returns. *)
Inductive payload : Type :=
  | OfAccounts (m : gmap string JobMetrics.t)
  | OfCPUs (r : cpusMetrics.t)
  | OfGPUs (r : gpusMetrics.t)
  | OfNode (m : gmap string nodeMetrics.t)
  | OfNodes (r : nodesMetrics.t)
  | OfQueue (r : queueMetrics.t)
  | OfScheduler (r : schedulerMetrics.t)
  | OfFairShare (m : gmap string fairShareMetrics.t)
  | OfUsers (m : gmap string userJobMetrics.t)
  | OfPartitions (m : gmap string partitionMetrics.t).

(** A call, up to the constructor of its result. *)
Definition returning {A} (c : A → payload) (m : Exec A) : Exec payload :=
  a ← m; mret (c a).

(** One call of an aggregator on a snapshot, as a function of the
    snapshot: its outcome and the log it leaves.  [range_keys] is the
    order the runtime picks for the one [range] over a map. *)
Definition aggregate (name_of : NodeState → string)
  (range_keys : gmap string partitionMetrics.t → list string)
  (a : aggregator) (σ : Snapshot) : Exec payload :=
  match a with
  | AccountsMetrics => returning OfAccounts (ParseAccountsMetrics (snap_jobs σ))
  | CPUsMetrics => returning OfCPUs (ParseCPUsMetrics (snap_nodes σ) (snap_jobs σ))
  | GPUsMetrics => returning OfGPUs (lift (ParseGPUsMetrics (snap_nodes σ)))
  | NodeMetrics => returning OfNode (lift (ParseNodeMetrics name_of (snap_nodes σ)))
  | NodesMetrics => returning OfNodes (lift (ParseNodesMetrics (snap_nodes σ)))
  | QueueMetrics => returning OfQueue (lift (ParseQueueMetrics (snap_jobs σ)))
  | SchedulerMetrics => returning OfScheduler (lift (ParseSchedulerMetrics (snap_diag σ)))
  | FairShareMetrics => returning OfFairShare (lift (ParseFairShareMetrics (snap_shares σ)))
  | UsersMetrics => returning OfUsers (lift (ParseUsersMetrics (snap_jobs σ)))
  | PartitionsMetrics =>
      returning OfPartitions
        (lift (ParsePartitionsMetrics range_keys (snap_partitions σ)
                 (snap_jobs σ) (snap_nodes σ)))
  end.

(** A second order the runtime may pick: the keys from last to first. *)
Definition keys_reversed {V} (m : gmap string V) : list string :=
  reverse (map_to_list m).*1.

(** A diag response without statistics. *)
Definition empty_diag : Diag.t :=
  {| Diag.ServerThreadCount := None; Diag.AgentQueueSize := None;
     Diag.DbdAgentQueueSize := None; Diag.ScheduleCycleLast := None;
     Diag.ScheduleCycleMean := None; Diag.ScheduleCyclePerMinute := None;
     Diag.BfDepthMean := None; Diag.BfCycleLast := None; Diag.BfCycleMean := None;
     Diag.BfBackfilledJobs := None; Diag.BfLastBackfilledJobs := None;
     Diag.BfBackfilledHetJobs := None |}.

(** The snapshot of the partition example, with a second partition. *)
Definition example_snapshot : Snapshot :=
  {| snap_jobs := [job_A_B];
     snap_nodes := [node_4_2; node_3_1];
     snap_partitions := [partition_A; Sample.mk_partition "C" 4];
     snap_diag := empty_diag;
     snap_shares := [Sample.mk_share (Some "physics") (Some 0.5%float)] |}.

(** A keyed update, as the fan-out and the pending loops perform it:
    [m[k]] is created from [fresh] when absent, then updated with [u]. *)
Definition touch {V U} (fresh : V) (g : U → V → V) (m : gmap string V)
  (ku : string * U) : gmap string V :=
  alter (g ku.2) ku.1 (ensure_key ku.1 fresh m).

(** A job known by its state list only. *)
Definition state_job (states : list string) : Job.t :=
  Sample.mk_job (Some "acct") (Some "alice") (Some "debug") (Some states) (Some 1) (Some "").

(** A node known by its state list only. *)
Definition state_node (states : list string) : Node.t :=
  Sample.mk_node "n1" (Some states) [] 0 0 8.

(** The byte occurs in the string. *)
Fixpoint has_byte (c : ascii) (s : string) : bool :=
  match s with
  | EmptyString => false
  | String c' s' => Ascii.eqb c' c || has_byte c s'
  end.

(** The decimal numeral of a natural number, as the scheduler prints a
    count. *)
Definition decimal (n : nat) : string :=
  DecimalString.NilEmpty.string_of_uint (Nat.to_uint n).

(** The GPU tally of nodes whose total and allocated GPU counts are
    [gpus]: the sums, left to right, and the quotient. *)
Definition expected_gpus (gpus : list (Z * Z)) : gpusMetrics.t :=
  let total := fsum (map (λ g, float64_of_int g.1) gpus) in
  let alloc := fsum (map (λ g, float64_of_int g.2) gpus) in
  {| gpusMetrics.alloc := alloc;
     gpusMetrics.idle := fsum (map (λ g, float64_of_int (int_sub g.1 g.2)) gpus);
     gpusMetrics.other := 0;
     gpusMetrics.total := total;
     gpusMetrics.utilization := (alloc / total)%float |}.

(** A node with a total and a used resource string. *)
Definition gpu_node (tres tres_used : string) : Node.t :=
  {| Node.Name := Some "gpu1"; Node.Hostname := Some "gpu1"; Node.State := Some ["MIXED"];
     Node.Tres := Some tres; Node.TresUsed := Some tres_used; Node.Partitions := None;
     Node.AllocMemory := None; Node.RealMemory := None; Node.AllocCpus := None;
     Node.AllocIdleCpus := None; Node.Cpus := Some 48 |}.

(** The counter that the queue tally gives a job, if any. *)
Definition queue_counter_of_job (j : Job.t) : option queue_counter :=
  match GetJobState j with
  | Ok state => counter_of state (default "" (Job.Dependency j))
  | _ => None
  end.

(** A job that the queue tally processes: its state classifies and, when
    it is Pending, its dependency field is present. *)
Definition queue_job_ok (j : Job.t) : bool :=
  match GetJobState j with
  | Ok JobStatePending => bool_decide (is_Some (Job.Dependency j))
  | Ok _ => true
  | _ => false
  end.

(** The inventory record of a node. *)
Definition node_record (name_of : NodeState → string) (n : Node.t) : nodeMetrics.t :=
  {| nodeMetrics.memAlloc := GetNodeAllocMemory n;
     nodeMetrics.memTotal := GetNodeTotalMemory n;
     nodeMetrics.cpuAlloc := GetNodeAllocCPUs n;
     nodeMetrics.cpuIdle := GetNodeIdleCPUs n;
     nodeMetrics.cpuOther := 0;
     nodeMetrics.cpuTotal := GetNodeTotalCPUs n;
     nodeMetrics.nodeStatus :=
       match GetNodeStates n with
       | Ok nodeStates => Join (map name_of nodeStates) "|"
       | _ => ""
       end |}.

(** How many times, as a float, the state occurs in the sequence. *)
Definition occurrences (st : NodeState) (l : list NodeState) : float :=
  fsum (map (λ _, 1%float) (filter (λ x, x = st) l)).

(** The node-state tally of a sequence of states: one counter per state
    among the ten that the record holds. *)
Definition expected_node_states (l : list NodeState) : nodesMetrics.t :=
  {| nodesMetrics.alloc := occurrences NodeStateAlloc l;
     nodesMetrics.comp := occurrences NodeStateComp l;
     nodesMetrics.down := occurrences NodeStateDown l;
     nodesMetrics.drain := occurrences NodeStateDrain l;
     nodesMetrics.err := occurrences NodeStateErr l;
     nodesMetrics.fail := occurrences NodeStateFail l;
     nodesMetrics.idle := occurrences NodeStateIdle l;
     nodesMetrics.maint := occurrences NodeStateMaint l;
     nodesMetrics.mix := occurrences NodeStateMix l;
     nodesMetrics.resv := occurrences NodeStateResv l |}.

(** Names for the node states, for the examples. *)
Definition state_name (st : NodeState) : string :=
  match st with
  | NodeStateAlloc => "allocated" | NodeStateComp => "completing"
  | NodeStateDown => "down" | NodeStateDrain => "drain"
  | NodeStateFail => "fail" | NodeStateErr => "error"
  | NodeStateIdle => "idle" | NodeStateMaint => "maint"
  | NodeStateMix => "mixed" | NodeStateResv => "reserved"
  | NodeStateNotResponding => "not_responding"
  | NodeStateInvalid => "invalid" | NodeStateInvalidReg => "invalid_reg"
  end.

(** The fairshare level of a share record, if present. *)
Definition share_level (s : Share.t) : option float :=
  Share.Fairshare s ≫= Share.Level.

(** The jobs that a job tally counts, as state and CPU count: those
    whose state and CPU count both resolve. *)
Definition resolved_jobs (jobs : list Job.t) : list (JobState * float) :=
  omap (λ j, match GetJobState j, GetJobCPUs j with
             | Ok state, Ok cpus => Some (state, cpus)
             | _, _ => None
             end) jobs.

(** The number, as a float, of the jobs in a given state. *)
Definition jobs_in (state : JobState) (js : list (JobState * float)) : float :=
  fsum (map (λ _, 1%float) (filter (λ x, x.1 = state) js)).

(** The sum of the CPU counts of the jobs in a given state. *)
Definition cpus_in (state : JobState) (js : list (JobState * float)) : float :=
  fsum (map snd (filter (λ x, x.1 = state) js)).

(** The per-user tally of a list of resolved jobs. *)
Definition expected_user_tally (js : list (JobState * float)) : userJobMetrics.t :=
  {| userJobMetrics.pending := jobs_in JobStatePending js;
     userJobMetrics.pending_cpus := cpus_in JobStatePending js;
     userJobMetrics.running := jobs_in JobStateRunning js;
     userJobMetrics.running_cpus := cpus_in JobStateRunning js;
     userJobMetrics.suspended := jobs_in JobStateSuspended js |}.

(** The per-account tally of a list of resolved jobs. *)
Definition expected_account_tally (js : list (JobState * float)) : JobMetrics.t :=
  {| JobMetrics.pending := jobs_in JobStatePending js;
     JobMetrics.pending_cpus := cpus_in JobStatePending js;
     JobMetrics.running := jobs_in JobStateRunning js;
     JobMetrics.running_cpus := cpus_in JobStateRunning js;
     JobMetrics.suspended := jobs_in JobStateSuspended js |}.

(** A job that the user tally processes: user name, state and CPU count
    all resolve. *)
Definition user_job_ok (j : Job.t) : bool :=
  bool_decide (is_Some (Job.UserName j)) && is_Ok (GetJobState j) && is_Ok (GetJobCPUs j).

(** A job that the account tally logs and skips. *)
Definition account_job_skipped (j : Job.t) : bool :=
  negb (is_Ok (GetJobAccountName j) && is_Ok (GetJobState j) && is_Ok (GetJobCPUs j)).

(** A job by user, account, state and CPU count. *)
Definition tally_job_of (user account : string) (state : string) (cpus : Z) : Job.t :=
  Sample.mk_job (Some account) (Some user) (Some "debug") (Some [state]) (Some cpus) (Some "").

(** * The package on a store

    The second embedding of the package keeps what the first one folds
    away: the memory.  Every pointer of the Go code is an address of a
    store, every [*p] a load, every assignment through a pointer, a map or
    a struct behind a pointer a write to the cell it addresses, and every
    [&T{...}], [make] and escaping local a fresh cell.  What stays a value
    is what the code keeps to itself: its local variables, the strings
    (immutable in Go) and the slices a function builds and never hands
    out.  The responses of the REST client are records of addresses, as
    [encoding/json] lays them out. *)

Module store.

(** An address. *)
Definition loc : Type := positive.

(** [*T]: nil, or the address of a cell that holds a [T]. *)
Definition ptr (A : Type) : Type := option loc.

(** [[]T]: nil, or the address of the backing array. *)
Definition slice (A : Type) : Type := option loc.

(** [V0041Uint32NoValStruct]. *)
Record Uint32NoVal : Type := { Number : ptr Z }.

(** [V0041OpenapiJobInfoRespJobsInner]. *)
Module Job.
Record t : Type := {
  Account : ptr string;
  Partition : ptr string;
  JobState : slice string;
  Cpus : ptr Uint32NoVal;
  UserName : ptr string;
  Dependency : ptr string
}.
End Job.

(** [V0041OpenapiNodesRespNodesInner]. *)
Module Node.
Record t : Type := {
  Name : ptr string;
  Hostname : ptr string;
  State : slice string;
  Tres : ptr string;
  TresUsed : ptr string;
  Partitions : slice string;
  AllocMemory : ptr Z;
  RealMemory : ptr Z;
  AllocCpus : ptr Z;
  AllocIdleCpus : ptr Z;
  Cpus : ptr Z
}.
End Node.

(** [V0041OpenapiPartitionRespPartitionsInner]. *)
Module Partition.
Record cpus : Type := { Total : ptr Z }.
Record nodes : Type := { Configured : ptr string }.
Record t : Type := {
  Name : ptr string;
  Cpus : ptr cpus;
  Nodes : ptr nodes
}.
End Partition.

(** [V0041AssocSharesObjWrap]. *)
Module Share.
Record fairshare : Type := { Level : ptr float }.
Record t : Type := {
  Name : ptr string;
  Fairshare : ptr fairshare
}.
End Share.

(** The [Statistics] of [SlurmV0041GetDiag200Response]. *)
Module Diag.
Record t : Type := {
  ServerThreadCount : ptr Z;
  AgentQueueSize : ptr Z;
  DbdAgentQueueSize : ptr Z;
  ScheduleCycleLast : ptr Z;
  ScheduleCycleMean : ptr Z;
  ScheduleCyclePerMinute : ptr Z;
  BfDepthMean : ptr Z;
  BfCycleLast : ptr Z;
  BfCycleMean : ptr Z;
  BfBackfilledJobs : ptr Z;
  BfLastBackfilledJobs : ptr Z;
  BfBackfilledHetJobs : ptr Z
}.
End Diag.

(** The five responses of one collection cycle, as the aggregators
    receive them: by value, their slices and pointers by reference. *)
Record Responses : Type := {
  jobs : slice Job.t;
  nodes : slice Node.t;
  partitions : slice Partition.t;
  diag : Diag.t;
  shares : slice Share.t
}.

(** What a cell of the store holds. *)
Inductive cell : Type :=
  | CString (s : string)
  | CInt (z : Z)
  | CFloat (f : float)
  | CStrings (l : list string)
  | CUint32NoVal (v : Uint32NoVal)
  | CPartitionCpus (v : Partition.cpus)
  | CPartitionNodes (v : Partition.nodes)
  | CFairshare (v : Share.fairshare)
  | CJobs (l : list Job.t)
  | CNodes (l : list Node.t)
  | CPartitions (l : list Partition.t)
  | CShares (l : list Share.t)
  | CJobState (s : JobState)
  | CNodeStates (l : list NodeState)
  | CJobMetrics (r : JobMetrics.t)
  | CcpusMetrics (r : cpusMetrics.t)
  | CgpusMetrics (r : gpusMetrics.t)
  | CnodeMetrics (r : nodeMetrics.t)
  | CnodesMetrics (r : nodesMetrics.t)
  | CqueueMetrics (r : queueMetrics.t)
  | CschedulerMetrics (r : schedulerMetrics.t)
  | CfairShareMetrics (r : fairShareMetrics.t)
  | CuserJobMetrics (r : userJobMetrics.t)
  | CpartitionMetrics (r : partitionMetrics.t)
  | CMap (m : gmap string loc)
  | CSliceMap (m : gmap string (option loc)).

(** The types a cell can hold. *)
Class Cell (A : Type) : Type := {
  inj : A → cell;
  proj : cell → option A;
  proj_inj : ∀ a, proj (inj a) = Some a;
  inj_proj : ∀ c a, proj c = Some a → c = inj a
}.

#[global] Instance cell_string : Cell string.
Proof.
  refine {| inj := CString; proj c := match c with CString s => Some s | _ => None end |}; [done|].
  intros c a; destruct c; try discriminate; congruence.
Defined.

#[global] Instance cell_int : Cell Z.
Proof.
  refine {| inj := CInt; proj c := match c with CInt z => Some z | _ => None end |}; [done|].
  intros c a; destruct c; try discriminate; congruence.
Defined.

#[global] Instance cell_float : Cell float.
Proof.
  refine {| inj := CFloat; proj c := match c with CFloat f => Some f | _ => None end |}; [done|].
  intros c a; destruct c; try discriminate; congruence.
Defined.

#[global] Instance cell_strings : Cell (list string).
Proof.
  refine {| inj := CStrings;
     proj c := match c with CStrings l => Some l | _ => None end |}; [done|].
  intros c a; destruct c; try discriminate; congruence.
Defined.

#[global] Instance cell_Uint32NoVal : Cell Uint32NoVal.
Proof.
  refine {| inj := CUint32NoVal;
     proj c := match c with CUint32NoVal v => Some v | _ => None end |}; [done|].
  intros c a; destruct c; try discriminate; congruence.
Defined.

#[global] Instance cell_partition_cpus : Cell Partition.cpus.
Proof.
  refine {| inj := CPartitionCpus;
     proj c := match c with CPartitionCpus v => Some v | _ => None end |}; [done|].
  intros c a; destruct c; try discriminate; congruence.
Defined.

#[global] Instance cell_partition_nodes : Cell Partition.nodes.
Proof.
  refine {| inj := CPartitionNodes;
     proj c := match c with CPartitionNodes v => Some v | _ => None end |}; [done|].
  intros c a; destruct c; try discriminate; congruence.
Defined.

#[global] Instance cell_fairshare : Cell Share.fairshare.
Proof.
  refine {| inj := CFairshare;
     proj c := match c with CFairshare v => Some v | _ => None end |}; [done|].
  intros c a; destruct c; try discriminate; congruence.
Defined.

#[global] Instance cell_jobs : Cell (list Job.t).
Proof.
  refine {| inj := CJobs; proj c := match c with CJobs l => Some l | _ => None end |}; [done|].
  intros c a; destruct c; try discriminate; congruence.
Defined.

#[global] Instance cell_nodes : Cell (list Node.t).
Proof.
  refine {| inj := CNodes; proj c := match c with CNodes l => Some l | _ => None end |}; [done|].
  intros c a; destruct c; try discriminate; congruence.
Defined.

#[global] Instance cell_partitions : Cell (list Partition.t).
Proof.
  refine {| inj := CPartitions;
     proj c := match c with CPartitions l => Some l | _ => None end |}; [done|].
  intros c a; destruct c; try discriminate; congruence.
Defined.

#[global] Instance cell_shares : Cell (list Share.t).
Proof.
  refine {| inj := CShares; proj c := match c with CShares l => Some l | _ => None end |}; [done|].
  intros c a; destruct c; try discriminate; congruence.
Defined.

#[global] Instance cell_JobState : Cell JobState.
Proof.
  refine {| inj := CJobState;
     proj c := match c with CJobState s => Some s | _ => None end |}; [done|].
  intros c a; destruct c; try discriminate; congruence.
Defined.

#[global] Instance cell_NodeStates : Cell (list NodeState).
Proof.
  refine {| inj := CNodeStates;
     proj c := match c with CNodeStates l => Some l | _ => None end |}; [done|].
  intros c a; destruct c; try discriminate; congruence.
Defined.

#[global] Instance cell_JobMetrics : Cell JobMetrics.t.
Proof.
  refine {| inj := CJobMetrics;
     proj c := match c with CJobMetrics r => Some r | _ => None end |}; [done|].
  intros c a; destruct c; try discriminate; congruence.
Defined.

#[global] Instance cell_cpusMetrics : Cell cpusMetrics.t.
Proof.
  refine {| inj := CcpusMetrics;
     proj c := match c with CcpusMetrics r => Some r | _ => None end |}; [done|].
  intros c a; destruct c; try discriminate; congruence.
Defined.

#[global] Instance cell_gpusMetrics : Cell gpusMetrics.t.
Proof.
  refine {| inj := CgpusMetrics;
     proj c := match c with CgpusMetrics r => Some r | _ => None end |}; [done|].
  intros c a; destruct c; try discriminate; congruence.
Defined.

#[global] Instance cell_nodeMetrics : Cell nodeMetrics.t.
Proof.
  refine {| inj := CnodeMetrics;
     proj c := match c with CnodeMetrics r => Some r | _ => None end |}; [done|].
  intros c a; destruct c; try discriminate; congruence.
Defined.

#[global] Instance cell_nodesMetrics : Cell nodesMetrics.t.
Proof.
  refine {| inj := CnodesMetrics;
     proj c := match c with CnodesMetrics r => Some r | _ => None end |}; [done|].
  intros c a; destruct c; try discriminate; congruence.
Defined.

#[global] Instance cell_queueMetrics : Cell queueMetrics.t.
Proof.
  refine {| inj := CqueueMetrics;
     proj c := match c with CqueueMetrics r => Some r | _ => None end |}; [done|].
  intros c a; destruct c; try discriminate; congruence.
Defined.

#[global] Instance cell_schedulerMetrics : Cell schedulerMetrics.t.
Proof.
  refine {| inj := CschedulerMetrics;
     proj c := match c with CschedulerMetrics r => Some r | _ => None end |}; [done|].
  intros c a; destruct c; try discriminate; congruence.
Defined.

#[global] Instance cell_fairShareMetrics : Cell fairShareMetrics.t.
Proof.
  refine {| inj := CfairShareMetrics;
     proj c := match c with CfairShareMetrics r => Some r | _ => None end |}; [done|].
  intros c a; destruct c; try discriminate; congruence.
Defined.

#[global] Instance cell_userJobMetrics : Cell userJobMetrics.t.
Proof.
  refine {| inj := CuserJobMetrics;
     proj c := match c with CuserJobMetrics r => Some r | _ => None end |}; [done|].
  intros c a; destruct c; try discriminate; congruence.
Defined.

#[global] Instance cell_partitionMetrics : Cell partitionMetrics.t.
Proof.
  refine {| inj := CpartitionMetrics;
     proj c := match c with CpartitionMetrics r => Some r | _ => None end |}; [done|].
  intros c a; destruct c; try discriminate; congruence.
Defined.

#[global] Instance cell_map : Cell (gmap string loc).
Proof.
  refine {| inj := CMap; proj c := match c with CMap m => Some m | _ => None end |}; [done|].
  intros c a; destruct c; try discriminate; congruence.
Defined.

#[global] Instance cell_slice_map : Cell (gmap string (option loc)).
Proof.
  refine {| inj := CSliceMap;
     proj c := match c with CSliceMap m => Some m | _ => None end |}; [done|].
  intros c a; destruct c; try discriminate; congruence.
Defined.

(** The store, and the log beside it. *)
Abbreviation heap := (gmap loc cell).

Record world : Type := World { mem : heap; log : list LogRecord }.

(** A call on the store: its outcome, and the world it leaves. *)
Definition Run (A : Type) : Type := world → outcome A * world.

#[global] Instance run_ret : MRet Run := λ _ a w, (Ok a, w).
#[global] Instance run_bind : MBind Run := λ _ _ f m w,
  match m w with
  | (Ok a, w') => f a w'
  | (Err e, w') => (Err e, w')
  | (Panic k, w') => (Panic k, w')
  end.

(** [return nil, fmt.Errorf(msg)], and a runtime panic. *)
Definition fail {A} (msg : string) : Run A := λ w, (Err msg, w).

Definition panic {A} (k : panic_kind) : Run A := λ w, (Panic k, w).

(** A computation on local values only. *)
Definition pure {A} (r : outcome A) : Run A := λ w, (r, w).

(** [fmt.Errorf(msg + "%v", err)] around a failed call. *)
Definition wrap {A} (msg : string) (m : Run A) : Run A := λ w,
  match m w with
  | (Err e, w') => (Err (msg +:+ e), w')
  | r => r
  end.

Definition slog_Error (msg err : string) : Run unit := λ w,
  (Ok tt, {| mem := mem w; log := log w ++ [(msg, err)] |}).

(** [v, err := call; if err != nil { slog.Error(msg, "error", err);
    continue }]. *)
Definition or_continue {A} (m : Run A) (msg : string) (k : A → Run unit) : Run unit := λ w,
  match m w with
  | (Ok a, w') => k a w'
  | (Err e, w') => slog_Error msg e w'
  | (Panic p, w') => (Panic p, w')
  end.

(** [for _, x := range l { body }] over the elements of a slice. *)
Fixpoint range {A} (body : A → Run unit) (l : list A) : Run unit :=
  match l with
  | [] => mret tt
  | x :: l' => body x ≫= λ _, range body l'
  end.

(** The allocator of the runtime: whatever address it hands out is not in
    use. *)
Class Allocator : Type := {
  alloc : heap → loc;
  alloc_fresh : ∀ h, h !! alloc h = None
}.

(** [*p]: a nil dereference panics.  (A non-nil pointer of a Go program
    addresses a cell of its type; the last case is not reached.) *)
Definition load {A} `{!Cell A} (p : ptr A) : Run A := λ w,
  match p with
  | None => (Panic NilDereference, w)
  | Some l =>
      match mem w !! l ≫= proj with
      | Some a => (Ok a, w)
      | None => (Panic NilDereference, w)
      end
  end.

(** [*p = a]. *)
Definition assign {A} `{!Cell A} (p : ptr A) (a : A) : Run unit := λ w,
  match p with
  | None => (Panic NilDereference, w)
  | Some l => (Ok tt, {| mem := <[l := inj a]> (mem w); log := log w |})
  end.

(** [p.field = v], [p.field += v], [p.field++]: the struct behind [p]
    is read and written back with the field changed. *)
Definition modify {A} `{!Cell A} (p : ptr A) (f : A → A) : Run unit :=
  a ← load p; assign p (f a).

(** The elements a [range] over a slice visits: none for the nil
    slice. *)
Definition elements {A} `{!Cell (list A)} (s : slice A) : Run (list A) :=
  match s with
  | None => mret []
  | Some _ => load (A := list A) s
  end.

(** ** The responses a store holds

    [read_job h j] is the job whose pointers are the addresses [j] in
    the store [h]; [None] when an address is not in use or its cell is
    not of the type of the pointer. *)

Definition read_ptr {A} `{!Cell A} (h : heap) (p : ptr A) : option (option A) :=
  match p with
  | None => Some None
  | Some l => a ← h !! l ≫= proj; Some (Some a)
  end.

Definition read_struct {A B} `{!Cell A} (f : heap → A → option B) (h : heap) (p : ptr A)
  : option (option B) :=
  match p with
  | None => Some None
  | Some l => a ← h !! l ≫= proj; b ← f h a; Some (Some b)
  end.

Definition read_elements {A B} `{!Cell (list A)} (f : heap → A → option B) (h : heap)
  (s : slice A) : option (list B) :=
  match s with
  | None => Some []
  | Some l => elems ← h !! l ≫= proj; mapM (f h) elems
  end.

Definition read_Uint32NoVal (h : heap) (v : Uint32NoVal) : option openapi.Uint32NoVal :=
  n ← read_ptr h (Number v); Some {| openapi.Number := n |}.

Definition read_job (h : heap) (j : Job.t) : option openapi.Job.t :=
  account ← read_ptr h (Job.Account j);
  partition ← read_ptr h (Job.Partition j);
  state ← read_ptr (A := list string) h (Job.JobState j);
  cpus ← read_struct read_Uint32NoVal h (Job.Cpus j);
  user ← read_ptr h (Job.UserName j);
  dependency ← read_ptr h (Job.Dependency j);
  Some {| openapi.Job.Account := account; openapi.Job.Partition := partition;
          openapi.Job.JobState := state; openapi.Job.Cpus := cpus;
          openapi.Job.UserName := user; openapi.Job.Dependency := dependency |}.

Definition read_node (h : heap) (n : Node.t) : option openapi.Node.t :=
  name ← read_ptr h (Node.Name n);
  hostname ← read_ptr h (Node.Hostname n);
  state ← read_ptr (A := list string) h (Node.State n);
  tres ← read_ptr h (Node.Tres n);
  tres_used ← read_ptr h (Node.TresUsed n);
  partitions ← read_ptr (A := list string) h (Node.Partitions n);
  alloc_memory ← read_ptr h (Node.AllocMemory n);
  real_memory ← read_ptr h (Node.RealMemory n);
  alloc_cpus ← read_ptr h (Node.AllocCpus n);
  alloc_idle_cpus ← read_ptr h (Node.AllocIdleCpus n);
  cpus ← read_ptr h (Node.Cpus n);
  Some {| openapi.Node.Name := name; openapi.Node.Hostname := hostname;
          openapi.Node.State := state; openapi.Node.Tres := tres;
          openapi.Node.TresUsed := tres_used; openapi.Node.Partitions := partitions;
          openapi.Node.AllocMemory := alloc_memory; openapi.Node.RealMemory := real_memory;
          openapi.Node.AllocCpus := alloc_cpus;
          openapi.Node.AllocIdleCpus := alloc_idle_cpus; openapi.Node.Cpus := cpus |}.

Definition read_partition_cpus (h : heap) (c : Partition.cpus)
  : option openapi.Partition.cpus :=
  total ← read_ptr h (Partition.Total c); Some {| openapi.Partition.Total := total |}.

Definition read_partition_nodes (h : heap) (n : Partition.nodes)
  : option openapi.Partition.nodes :=
  configured ← read_ptr h (Partition.Configured n);
  Some {| openapi.Partition.Configured := configured |}.

Definition read_partition (h : heap) (p : Partition.t) : option openapi.Partition.t :=
  name ← read_ptr h (Partition.Name p);
  cpus ← read_struct read_partition_cpus h (Partition.Cpus p);
  nodes ← read_struct read_partition_nodes h (Partition.Nodes p);
  Some {| openapi.Partition.Name := name; openapi.Partition.Cpus := cpus;
          openapi.Partition.Nodes := nodes |}.

Definition read_fairshare (h : heap) (f : Share.fairshare) : option openapi.Share.fairshare :=
  level ← read_ptr h (Share.Level f); Some {| openapi.Share.Level := level |}.

Definition read_share (h : heap) (s : Share.t) : option openapi.Share.t :=
  name ← read_ptr h (Share.Name s);
  fairshare ← read_struct read_fairshare h (Share.Fairshare s);
  Some {| openapi.Share.Name := name; openapi.Share.Fairshare := fairshare |}.

Definition read_diag (h : heap) (s : Diag.t) : option openapi.Diag.t :=
  a ← read_ptr h (Diag.ServerThreadCount s);
  b ← read_ptr h (Diag.AgentQueueSize s);
  c ← read_ptr h (Diag.DbdAgentQueueSize s);
  d ← read_ptr h (Diag.ScheduleCycleLast s);
  e ← read_ptr h (Diag.ScheduleCycleMean s);
  f ← read_ptr h (Diag.ScheduleCyclePerMinute s);
  g ← read_ptr h (Diag.BfDepthMean s);
  i ← read_ptr h (Diag.BfCycleLast s);
  j ← read_ptr h (Diag.BfCycleMean s);
  k ← read_ptr h (Diag.BfBackfilledJobs s);
  l ← read_ptr h (Diag.BfLastBackfilledJobs s);
  m ← read_ptr h (Diag.BfBackfilledHetJobs s);
  Some {| openapi.Diag.ServerThreadCount := a; openapi.Diag.AgentQueueSize := b;
          openapi.Diag.DbdAgentQueueSize := c; openapi.Diag.ScheduleCycleLast := d;
          openapi.Diag.ScheduleCycleMean := e; openapi.Diag.ScheduleCyclePerMinute := f;
          openapi.Diag.BfDepthMean := g; openapi.Diag.BfCycleLast := i;
          openapi.Diag.BfCycleMean := j; openapi.Diag.BfBackfilledJobs := k;
          openapi.Diag.BfLastBackfilledJobs := l; openapi.Diag.BfBackfilledHetJobs := m |}.

(** The snapshot a store holds at the addresses of the responses. *)
Definition read_responses (h : heap) (s : Responses) : option Snapshot :=
  js ← read_elements read_job h (jobs s);
  ns ← read_elements read_node h (nodes s);
  ps ← read_elements read_partition h (partitions s);
  d ← read_diag h (diag s);
  ss ← read_elements read_share h (shares s);
  Some {| snap_jobs := js; snap_nodes := ns; snap_partitions := ps; snap_diag := d;
          snap_shares := ss |}.

(** ** The results a store holds *)

(** The struct behind a result pointer. *)
Definition read_cell {A} `{!Cell A} (h : heap) (l : loc) : option A := h !! l ≫= proj.

(** The map behind a [map[string]*T]: every key with the struct its
    pointer addresses. *)
Definition read_map {A} `{!Cell A} (h : heap) (m : loc) : option (gmap string A) :=
  match read_cell (A := gmap string loc) h m with
  | None => None
  | Some pm =>
      let r : gmap string A := omap (read_cell h) pm in
      if decide (dom r = dom pm) then Some r else None
  end.

Definition read_payload (a : aggregator) (h : heap) (l : loc) : option payload :=
  match a with
  | AccountsMetrics => OfAccounts <$> read_map h l
  | CPUsMetrics => OfCPUs <$> read_cell h l
  | GPUsMetrics => OfGPUs <$> read_cell h l
  | NodeMetrics => OfNode <$> read_map h l
  | NodesMetrics => OfNodes <$> read_cell h l
  | QueueMetrics => OfQueue <$> read_cell h l
  | SchedulerMetrics => OfScheduler <$> read_cell h l
  | FairShareMetrics => OfFairShare <$> read_map h l
  | UsersMetrics => OfUsers <$> read_map h l
  | PartitionsMetrics => OfPartitions <$> read_map h l
  end.

(** What the caller finds behind the outcome of a call. *)
Definition read_outcome (a : aggregator) (h : heap) (r : outcome loc)
  : option (outcome payload) :=
  match r with
  | Ok l => Ok <$> read_payload a h l
  | Err e => Some (Err e)
  | Panic k => Some (Panic k)
  end.

Section package.
Context `{!Allocator}.

(** [&T{...}], [make(...)], [&local]: a cell at an address not in use. *)
Definition new {A} `{!Cell A} (a : A) : Run loc := λ w,
  let l := alloc (mem w) in
  (Ok l, {| mem := <[l := inj a]> (mem w); log := log w |}).

(** ** Maps of pointers, [map[string]*T] *)

(** [_, exists := m[k]]. *)
Definition has_key (m : loc) (k : string) : Run bool :=
  pm ← load (A := gmap string loc) (Some m); mret (bool_decide (is_Some (pm !! k))).

(** [m[k] = p]. *)
Definition set_key (m : loc) (k : string) (p : loc) : Run unit :=
  modify (A := gmap string loc) (Some m) (<[k := p]>).

(** [m[k]]: nil for an absent key. *)
Definition at_key (A : Type) (m : loc) (k : string) : Run (ptr A) :=
  pm ← load (A := gmap string loc) (Some m); mret (pm !! k).

(** ** Field accessors *)

Definition GetJobAccountName (job : Job.t) : Run (ptr string) :=
  let name := Job.Account job in
  match name with
  | None => fail "account name not found in job"
  | Some _ => mret name
  end.

Definition GetJobPartitionName (job : Job.t) : Run (ptr string) :=
  let name := Job.Partition job in
  match name with
  | None => fail "partition name not found in job"
  | Some _ => mret name
  end.

(** [return &stateUnit, nil]: the local escapes to a cell. *)
Definition GetJobState (job : Job.t) : Run (ptr JobState) :=
  let states := Job.JobState job in
  match states with
  | None => fail "job state not found in job"
  | Some _ =>
      elems ← load (A := list string) states;
      match elems with
      | [] => panic IndexOutOfRange
      | state0 :: _ =>
          let state := ToLower state0 in
          match first_match job_state_rules state with
          | Some stateUnit => p ← new stateUnit; mret (Some p)
          | None => fail ("failed to match job state against known states: " +:+ state)
          end
      end
  end.

Definition GetNodeName (node : Node.t) : Run (ptr string) :=
  let name := Node.Name node in
  match name with
  | None => fail "node name not found in node information"
  | Some _ => mret name
  end.

Definition GetJobCPUs (job : Job.t) : Run (ptr float) :=
  c ← load (Job.Cpus job);
  let cn := Number c in
  match cn with
  | None => fail "failed to find cpu count in job"
  | Some _ =>
      n ← load cn;
      p ← new (float64_of_int n); mret (Some p)
  end.

Definition GetPartitionName (partition : Partition.t) : Run (ptr string) :=
  let pn := Partition.Name partition in
  match pn with
  | None => fail "failed to find name in partition"
  | Some _ => mret pn
  end.

Definition GetPartitionTotalCPUs (partition : Partition.t) : Run (ptr float) :=
  c ← load (Partition.Cpus partition);
  let pn := Partition.Total c in
  match pn with
  | None => fail "failed to find total cpus in partition"
  | Some _ =>
      n ← load pn;
      p ← new (float64_of_int n); mret (Some p)
  end.

(** The slice [nodeStates] grows by [append] in a local variable; its
    address is handed out at the end. *)
Definition GetNodeStates (node : Node.t) : Run (ptr (list NodeState)) :=
  let states := Node.State node in
  match states with
  | None => fail "node state not found in node"
  | Some _ =>
      elems ← load (A := list string) states;
      nodeStates ← pure (for_range classify_node_state elems []);
      p ← new nodeStates; mret (Some p)
  end.

Definition GetNodeStatesString (name_of : NodeState → string) (node : Node.t)
  (delim : string) : Run string :=
  states ← wrap "failed to get node states: " (GetNodeStates node);
  elems ← load states;
  mret (Join (map name_of elems) delim).

Definition GetNodeGPUTotal (node : Node.t) : Run Z :=
  let tres := Node.Tres node in
  s ← load tres;
  pure (scan_gres_gpu (Split s ",")).

Definition GetNodeGPUAllocated (node : Node.t) : Run Z :=
  let tres := Node.TresUsed node in
  s ← load tres;
  pure (scan_gres_gpu (Split s ",")).

(** [[]string{}] for the nil slice, the slice of the node otherwise. *)
Definition GetNodePartitions (node : Node.t) : Run (slice string) :=
  let ps := Node.Partitions node in
  match ps with
  | None => p ← new ([] : list string); mret (Some p)
  | Some _ => mret ps
  end.

Definition GetNodeAllocMemory (node : Node.t) : Run Z :=
  let alloc_memory := Node.AllocMemory node in
  match alloc_memory with
  | None => mret 0
  | Some _ => v ← load alloc_memory; mret (uint64 v)
  end.

Definition GetNodeTotalMemory (node : Node.t) : Run Z :=
  let total_memory := Node.RealMemory node in
  match total_memory with
  | None => mret 0
  | Some _ => v ← load total_memory; mret (uint64 v)
  end.

Definition GetNodeAllocCPUs (node : Node.t) : Run Z :=
  let alloc_cpus := Node.AllocCpus node in
  match alloc_cpus with
  | None => mret 0
  | Some _ => v ← load alloc_cpus; mret (uint64 v)
  end.

Definition GetNodeIdleCPUs (node : Node.t) : Run Z :=
  let idle_cpus := Node.AllocIdleCpus node in
  match idle_cpus with
  | None => mret 0
  | Some _ => v ← load idle_cpus; mret (uint64 v)
  end.

Definition GetNodeOtherCPUs (node : Node.t) : Run Z := mret 0.

Definition GetNodeTotalCPUs (node : Node.t) : Run Z :=
  let total_cpus := Node.Cpus node in
  match total_cpus with
  | None => mret 0
  | Some _ => v ← load total_cpus; mret (uint64 v)
  end.

(** Modelled from the spec: [util.GetValueOrZero], see [GetValueOrZero]
    above. *)
Definition GetValueOrZero (p : ptr Z) : Run float :=
  match p with
  | None => mret 0%float
  | Some _ => v ← load p; mret (float64_of_int v)
  end.

(** ** ParseAccountsMetrics *)

Definition inc_pending (m : JobMetrics.t) : JobMetrics.t :=
  let '(JobMetrics.Build_t p pc r rc s) := m in JobMetrics.Build_t (p + 1) pc r rc s.

Definition add_pending_cpus (cpus : float) (m : JobMetrics.t) : JobMetrics.t :=
  let '(JobMetrics.Build_t p pc r rc s) := m in JobMetrics.Build_t p (pc + cpus) r rc s.

Definition inc_running (m : JobMetrics.t) : JobMetrics.t :=
  let '(JobMetrics.Build_t p pc r rc s) := m in JobMetrics.Build_t p pc (r + 1) rc s.

Definition add_running_cpus (cpus : float) (m : JobMetrics.t) : JobMetrics.t :=
  let '(JobMetrics.Build_t p pc r rc s) := m in JobMetrics.Build_t p pc r (rc + cpus) s.

Definition inc_suspended (m : JobMetrics.t) : JobMetrics.t :=
  let '(JobMetrics.Build_t p pc r rc s) := m in JobMetrics.Build_t p pc r rc (s + 1).

Definition accounts_body (accounts : loc) (j : Job.t) : Run unit :=
  or_continue (GetJobAccountName j) "failed to find account name in job"
    (λ account,
      k ← load account;
      (key ← has_key accounts k;
       if key : bool then mret tt
       else k ← load account; p ← new NewJobMetrics; set_key accounts k p) ≫= λ _,
      or_continue (GetJobState j) "failed to parse job state"
        (λ state,
          or_continue (GetJobCPUs j) "failed to parse job cpus"
            (λ cpus,
              st ← load state;
              match st with
              | JobStatePending =>
                  k ← load account; p ← at_key JobMetrics.t accounts k;
                  modify p inc_pending ≫= λ _,
                  k ← load account; p ← at_key JobMetrics.t accounts k;
                  c ← load cpus; modify p (add_pending_cpus c)
              | JobStateRunning =>
                  k ← load account; p ← at_key JobMetrics.t accounts k;
                  modify p inc_running ≫= λ _,
                  k ← load account; p ← at_key JobMetrics.t accounts k;
                  c ← load cpus; modify p (add_running_cpus c)
              | JobStateSuspended =>
                  k ← load account; p ← at_key JobMetrics.t accounts k;
                  modify p inc_suspended
              | _ => mret tt
              end))).

Definition ParseAccountsMetrics (jobs : slice Job.t) : Run loc :=
  accounts ← new (∅ : gmap string loc);
  jobs ← elements jobs;
  range (accounts_body accounts) jobs ≫= λ _,
  mret accounts.

(** ** ParseCPUsMetrics *)

Definition cpus_add_alloc (v : float) (cm : cpusMetrics.t) : cpusMetrics.t :=
  let '(cpusMetrics.Build_t a i o t) := cm in cpusMetrics.Build_t (a + v) i o t.

Definition cpus_add_idle (v : float) (cm : cpusMetrics.t) : cpusMetrics.t :=
  let '(cpusMetrics.Build_t a i o t) := cm in cpusMetrics.Build_t a (i + v) o t.

Definition cpus_add_total (v : float) (cm : cpusMetrics.t) : cpusMetrics.t :=
  let '(cpusMetrics.Build_t a i o t) := cm in cpusMetrics.Build_t a i o (t + v).

Definition cpus_set_other (cm : cpusMetrics.t) : cpusMetrics.t :=
  let '(cpusMetrics.Build_t a i o t) := cm in cpusMetrics.Build_t a i (t - i - a) t.

Definition cpus_job_body (cm : loc) (j : Job.t) : Run unit :=
  or_continue (GetJobState j) "failed to get job state"
    (λ state,
      or_continue (GetJobCPUs j) "failed to get job cpus"
        (λ cpus,
          st ← load state;
          if decide (st = JobStateRunning)
          then c ← load cpus; modify (Some cm) (cpus_add_alloc c)
          else mret tt)).

Definition cpus_state_body (cm : loc) (n : Node.t) (ns : NodeState) : Run unit :=
  if counts_idle ns then
    v ← load (Node.AllocIdleCpus n);
    let idle_cpus := float64_of_int v in
    modify (Some cm) (cpus_add_idle idle_cpus)
  else mret tt.

Definition cpus_node_body (cm : loc) (n : Node.t) : Run unit :=
  c ← load (Node.Cpus n);
  if c =? 1 then mret tt
  else
    c ← load (Node.Cpus n);
    let cpus := float64_of_int c in
    modify (Some cm) (cpus_add_total cpus) ≫= λ _,
    nodeStates ← wrap "failed to get node state for cpu metrics: " (GetNodeStates n);
    elems ← load nodeStates;
    range (cpus_state_body cm n) elems.

Definition ParseCPUsMetrics (nodes : slice Node.t) (jobs : slice Job.t) : Run loc :=
  cm ← new NewCPUsMetrics;
  js ← elements jobs;
  range (cpus_job_body cm) js ≫= λ _,
  ns ← elements nodes;
  range (cpus_node_body cm) ns ≫= λ _,
  modify (Some cm) cpus_set_other ≫= λ _,
  mret cm.

(** ** ParseGPUsMetrics *)

Definition gpus_add_total (v : float) (gm : gpusMetrics.t) : gpusMetrics.t :=
  let '(gpusMetrics.Build_t a i o t u) := gm in gpusMetrics.Build_t a i o (t + v) u.

Definition gpus_add_alloc (v : float) (gm : gpusMetrics.t) : gpusMetrics.t :=
  let '(gpusMetrics.Build_t a i o t u) := gm in gpusMetrics.Build_t (a + v) i o t u.

Definition gpus_add_idle (v : float) (gm : gpusMetrics.t) : gpusMetrics.t :=
  let '(gpusMetrics.Build_t a i o t u) := gm in gpusMetrics.Build_t a (i + v) o t u.

Definition gpus_set_utilization (gm : gpusMetrics.t) : gpusMetrics.t :=
  let '(gpusMetrics.Build_t a i o t u) := gm in gpusMetrics.Build_t a i o t (a / t).

Definition gpus_body (gm : loc) (n : Node.t) : Run unit :=
  totalGPUs ← wrap "failed to get total gpu count for node: " (GetNodeGPUTotal n);
  allocGPUs ← wrap "failed to get allocated gpu count for node: " (GetNodeGPUAllocated n);
  let idleGPUs := int_sub totalGPUs allocGPUs in
  modify (Some gm) (gpus_add_total (float64_of_int totalGPUs)) ≫= λ _,
  modify (Some gm) (gpus_add_alloc (float64_of_int allocGPUs)) ≫= λ _,
  modify (Some gm) (gpus_add_idle (float64_of_int idleGPUs)).

Definition ParseGPUsMetrics (nodes : slice Node.t) : Run loc :=
  gm ← new NewGPUsMetrics;
  ns ← elements nodes;
  range (gpus_body gm) ns ≫= λ _,
  modify (Some gm) gpus_set_utilization ≫= λ _,
  mret gm.

(** ** ParseNodeMetrics *)

Definition set_nodeStatus (v : string) (r : nodeMetrics.t) : nodeMetrics.t :=
  let '(nodeMetrics.Build_t ma mt ca ci co ct s) := r in
  nodeMetrics.Build_t ma mt ca ci co ct v.

Definition set_memAlloc (v : Z) (r : nodeMetrics.t) : nodeMetrics.t :=
  let '(nodeMetrics.Build_t ma mt ca ci co ct s) := r in
  nodeMetrics.Build_t v mt ca ci co ct s.

Definition set_memTotal (v : Z) (r : nodeMetrics.t) : nodeMetrics.t :=
  let '(nodeMetrics.Build_t ma mt ca ci co ct s) := r in
  nodeMetrics.Build_t ma v ca ci co ct s.

Definition set_cpuAlloc (v : Z) (r : nodeMetrics.t) : nodeMetrics.t :=
  let '(nodeMetrics.Build_t ma mt ca ci co ct s) := r in
  nodeMetrics.Build_t ma mt v ci co ct s.

Definition set_cpuIdle (v : Z) (r : nodeMetrics.t) : nodeMetrics.t :=
  let '(nodeMetrics.Build_t ma mt ca ci co ct s) := r in
  nodeMetrics.Build_t ma mt ca v co ct s.

Definition set_cpuOther (v : Z) (r : nodeMetrics.t) : nodeMetrics.t :=
  let '(nodeMetrics.Build_t ma mt ca ci co ct s) := r in
  nodeMetrics.Build_t ma mt ca ci v ct s.

Definition set_cpuTotal (v : Z) (r : nodeMetrics.t) : nodeMetrics.t :=
  let '(nodeMetrics.Build_t ma mt ca ci co ct s) := r in
  nodeMetrics.Build_t ma mt ca ci co v s.

(** [m[k].field = call(n)]: the pointer [m[k]] is taken first, then the
    call is made, then the field is written. *)
Definition set_field {A V} `{!Cell A} (m : loc) (k : string) (get : Run V)
  (set : V → A → A) : Run unit :=
  p ← at_key A m k; v ← get; modify p (set v).

Definition node_body (name_of : NodeState → string) (nodeMap : loc) (n : Node.t) : Run unit :=
  nodeName ← load (Node.Hostname n);
  p ← new (nodeMetrics.Build_t 0 0 0 0 0 0 "");
  set_key nodeMap nodeName p ≫= λ _,
  nodeStatesStr ← wrap "failed to get node state: " (GetNodeStatesString name_of n "|");
  set_field nodeMap nodeName (mret nodeStatesStr) set_nodeStatus ≫= λ _,
  set_field nodeMap nodeName (GetNodeAllocMemory n) set_memAlloc ≫= λ _,
  set_field nodeMap nodeName (GetNodeTotalMemory n) set_memTotal ≫= λ _,
  set_field nodeMap nodeName (GetNodeAllocCPUs n) set_cpuAlloc ≫= λ _,
  set_field nodeMap nodeName (GetNodeIdleCPUs n) set_cpuIdle ≫= λ _,
  set_field nodeMap nodeName (GetNodeOtherCPUs n) set_cpuOther ≫= λ _,
  set_field nodeMap nodeName (GetNodeTotalCPUs n) set_cpuTotal.

Definition ParseNodeMetrics (name_of : NodeState → string) (nodes : slice Node.t)
  : Run loc :=
  nodeMap ← new (∅ : gmap string loc);
  ns ← elements nodes;
  range (node_body name_of nodeMap) ns ≫= λ _,
  mret nodeMap.

(** ** ParseNodesMetrics *)

Definition nodes_state_body (nm : loc) (ns : NodeState) : Run unit :=
  match ns with
  | NodeStateAlloc | NodeStateComp | NodeStateDown | NodeStateDrain | NodeStateErr
  | NodeStateFail | NodeStateIdle | NodeStateMaint | NodeStateMix | NodeStateResv =>
      modify (Some nm) (tally_node_state ns)
  | _ => mret tt
  end.

Definition nodes_body (nm : loc) (n : Node.t) : Run unit :=
  nodeStates ← wrap "failed to get node state for nodes metrics: " (GetNodeStates n);
  elems ← load nodeStates;
  range (nodes_state_body nm) elems.

Definition ParseNodesMetrics (nodes : slice Node.t) : Run loc :=
  nm ← new NewNodesMetrics;
  ns ← elements nodes;
  range (nodes_body nm) ns ≫= λ _,
  mret nm.

(** ** ParseQueueMetrics *)

(** [qm.field++] on the field of the counter. *)
Definition inc_counter (c : queue_counter) (qm : queueMetrics.t) : queueMetrics.t :=
  let '(queueMetrics.Build_t p pd r s ca cg cd cf f t pr nf) := qm in
  match c with
  | QPending => queueMetrics.Build_t (p + 1) pd r s ca cg cd cf f t pr nf
  | QPendingDep => queueMetrics.Build_t p (pd + 1) r s ca cg cd cf f t pr nf
  | QRunning => queueMetrics.Build_t p pd (r + 1) s ca cg cd cf f t pr nf
  | QSuspended => queueMetrics.Build_t p pd r (s + 1) ca cg cd cf f t pr nf
  | QCancelled => queueMetrics.Build_t p pd r s (ca + 1) cg cd cf f t pr nf
  | QCompleting => queueMetrics.Build_t p pd r s ca (cg + 1) cd cf f t pr nf
  | QCompleted => queueMetrics.Build_t p pd r s ca cg (cd + 1) cf f t pr nf
  | QConfiguring => queueMetrics.Build_t p pd r s ca cg cd (cf + 1) f t pr nf
  | QFailed => queueMetrics.Build_t p pd r s ca cg cd cf (f + 1) t pr nf
  | QTimeout => queueMetrics.Build_t p pd r s ca cg cd cf f (t + 1) pr nf
  | QPreempted => queueMetrics.Build_t p pd r s ca cg cd cf f t (pr + 1) nf
  | QNodeFail => queueMetrics.Build_t p pd r s ca cg cd cf f t pr (nf + 1)
  end.


Definition queue_body (qm : loc) (j : Job.t) : Run unit :=
  jobState ← wrap "failed to get job state: " (GetJobState j);
  st ← load jobState;
  match st with
  | JobStatePending =>
      dependency ← load (Job.Dependency j);
      if bool_decide (dependency ≠ "")
      then modify (Some qm) (inc_counter QPendingDep)
      else modify (Some qm) (inc_counter QPending)
  | JobStateRunning => modify (Some qm) (inc_counter QRunning)
  | JobStateSuspended => modify (Some qm) (inc_counter QSuspended)
  | JobStateCancelled => modify (Some qm) (inc_counter QCancelled)
  | JobStateCompleting => modify (Some qm) (inc_counter QCompleting)
  | JobStateCompleted => modify (Some qm) (inc_counter QCompleted)
  | JobStateConfiguring => modify (Some qm) (inc_counter QConfiguring)
  | JobStateFailed => modify (Some qm) (inc_counter QFailed)
  | JobStateTimeout => modify (Some qm) (inc_counter QTimeout)
  | JobStatePreempted => modify (Some qm) (inc_counter QPreempted)
  | JobStateNodeFail => modify (Some qm) (inc_counter QNodeFail)
  | JobStateOutOfMemory => mret tt
  end.

Definition ParseQueueMetrics (jobs : slice Job.t) : Run loc :=
  qm ← new NewQueueMetrics;
  js ← elements jobs;
  range (queue_body qm) js ≫= λ _,
  mret qm.

(** ** ParseSchedulerMetrics *)

Definition set_threads (v : float) (sm : schedulerMetrics.t) : schedulerMetrics.t :=
  let '(schedulerMetrics.Build_t a b c d e f g h i j k l) := sm in
  schedulerMetrics.Build_t v b c d e f g h i j k l.

Definition set_queue_size (v : float) (sm : schedulerMetrics.t) : schedulerMetrics.t :=
  let '(schedulerMetrics.Build_t a b c d e f g h i j k l) := sm in
  schedulerMetrics.Build_t a v c d e f g h i j k l.

Definition set_dbd_queue_size (v : float) (sm : schedulerMetrics.t) : schedulerMetrics.t :=
  let '(schedulerMetrics.Build_t a b c d e f g h i j k l) := sm in
  schedulerMetrics.Build_t a b v d e f g h i j k l.

Definition set_last_cycle (v : float) (sm : schedulerMetrics.t) : schedulerMetrics.t :=
  let '(schedulerMetrics.Build_t a b c d e f g h i j k l) := sm in
  schedulerMetrics.Build_t a b c v e f g h i j k l.

Definition set_mean_cycle (v : float) (sm : schedulerMetrics.t) : schedulerMetrics.t :=
  let '(schedulerMetrics.Build_t a b c d e f g h i j k l) := sm in
  schedulerMetrics.Build_t a b c d v f g h i j k l.

Definition set_cycle_per_minute (v : float) (sm : schedulerMetrics.t) : schedulerMetrics.t :=
  let '(schedulerMetrics.Build_t a b c d e f g h i j k l) := sm in
  schedulerMetrics.Build_t a b c d e v g h i j k l.

Definition set_backfill_last_cycle (v : float) (sm : schedulerMetrics.t)
  : schedulerMetrics.t :=
  let '(schedulerMetrics.Build_t a b c d e f g h i j k l) := sm in
  schedulerMetrics.Build_t a b c d e f v h i j k l.

Definition set_backfill_mean_cycle (v : float) (sm : schedulerMetrics.t)
  : schedulerMetrics.t :=
  let '(schedulerMetrics.Build_t a b c d e f g h i j k l) := sm in
  schedulerMetrics.Build_t a b c d e f g v i j k l.

Definition set_backfill_depth_mean (v : float) (sm : schedulerMetrics.t)
  : schedulerMetrics.t :=
  let '(schedulerMetrics.Build_t a b c d e f g h i j k l) := sm in
  schedulerMetrics.Build_t a b c d e f g h v j k l.

Definition set_total_backfilled_jobs_since_start (v : float) (sm : schedulerMetrics.t)
  : schedulerMetrics.t :=
  let '(schedulerMetrics.Build_t a b c d e f g h i j k l) := sm in
  schedulerMetrics.Build_t a b c d e f g h i v k l.

Definition set_total_backfilled_jobs_since_cycle (v : float) (sm : schedulerMetrics.t)
  : schedulerMetrics.t :=
  let '(schedulerMetrics.Build_t a b c d e f g h i j k l) := sm in
  schedulerMetrics.Build_t a b c d e f g h i j v l.

Definition set_total_backfilled_heterogeneous (v : float) (sm : schedulerMetrics.t)
  : schedulerMetrics.t :=
  let '(schedulerMetrics.Build_t a b c d e f g h i j k l) := sm in
  schedulerMetrics.Build_t a b c d e f g h i j k v.

(** [&schedulerMetrics{}]. *)
Definition NewSchedulerMetrics : schedulerMetrics.t :=
  schedulerMetrics.Build_t 0 0 0 0 0 0 0 0 0 0 0 0.

(** [sm.field = util.GetValueOrZero(s.Field)]. *)
Definition copy_stat (sm : loc) (p : ptr Z)
  (set : float → schedulerMetrics.t → schedulerMetrics.t) : Run unit :=
  v ← GetValueOrZero p; modify (Some sm) (set v).

Definition ParseSchedulerMetrics (s : Diag.t) : Run loc :=
  sm ← new NewSchedulerMetrics;
  copy_stat sm (Diag.ServerThreadCount s) set_threads ≫= λ _,
  copy_stat sm (Diag.AgentQueueSize s) set_queue_size ≫= λ _,
  copy_stat sm (Diag.DbdAgentQueueSize s) set_dbd_queue_size ≫= λ _,
  copy_stat sm (Diag.ScheduleCycleLast s) set_last_cycle ≫= λ _,
  copy_stat sm (Diag.ScheduleCycleMean s) set_mean_cycle ≫= λ _,
  copy_stat sm (Diag.ScheduleCyclePerMinute s) set_cycle_per_minute ≫= λ _,
  copy_stat sm (Diag.BfDepthMean s) set_backfill_depth_mean ≫= λ _,
  copy_stat sm (Diag.BfCycleLast s) set_backfill_last_cycle ≫= λ _,
  copy_stat sm (Diag.BfCycleMean s) set_backfill_mean_cycle ≫= λ _,
  copy_stat sm (Diag.BfBackfilledJobs s) set_total_backfilled_jobs_since_cycle ≫= λ _,
  copy_stat sm (Diag.BfLastBackfilledJobs s) set_total_backfilled_jobs_since_start ≫= λ _,
  copy_stat sm (Diag.BfBackfilledHetJobs s) set_total_backfilled_heterogeneous ≫= λ _,
  mret sm.

(** ** ParseFairShareMetrics *)

Definition fairshare_body (accounts : loc) (s : Share.t) : Run unit :=
  account ← load (Share.Name s);
  (exists_ ← has_key accounts account;
   if exists_ : bool then mret tt
   else p ← new NewFairShareMetrics; set_key accounts account p) ≫= λ _,
  p ← at_key fairShareMetrics.t accounts account;
  f ← load (Share.Fairshare s);
  level ← load (Share.Level f);
  modify p (λ _, {| fairShareMetrics.fairshare := level |}).

Definition ParseFairShareMetrics (shares : slice Share.t) : Run loc :=
  accounts ← new (∅ : gmap string loc);
  ss ← elements shares;
  range (fairshare_body accounts) ss ≫= λ _,
  mret accounts.

(** ** ParseUsersMetrics *)

Definition user_inc_pending (m : userJobMetrics.t) : userJobMetrics.t :=
  let '(userJobMetrics.Build_t p pc r rc s) := m in userJobMetrics.Build_t (p + 1) pc r rc s.

Definition user_add_pending_cpus (cpus : float) (m : userJobMetrics.t) : userJobMetrics.t :=
  let '(userJobMetrics.Build_t p pc r rc s) := m in
  userJobMetrics.Build_t p (pc + cpus) r rc s.

Definition user_inc_running (m : userJobMetrics.t) : userJobMetrics.t :=
  let '(userJobMetrics.Build_t p pc r rc s) := m in userJobMetrics.Build_t p pc (r + 1) rc s.

Definition user_add_running_cpus (cpus : float) (m : userJobMetrics.t) : userJobMetrics.t :=
  let '(userJobMetrics.Build_t p pc r rc s) := m in
  userJobMetrics.Build_t p pc r (rc + cpus) s.

Definition user_inc_suspended (m : userJobMetrics.t) : userJobMetrics.t :=
  let '(userJobMetrics.Build_t p pc r rc s) := m in userJobMetrics.Build_t p pc r rc (s + 1).

Definition users_body (users : loc) (j : Job.t) : Run unit :=
  user ← load (Job.UserName j);
  (exists_ ← has_key users user;
   if exists_ : bool then mret tt
   else p ← new NewUserJobMetrics; set_key users user p) ≫= λ _,
  jobState ← wrap "failed to get job state: " (GetJobState j);
  jobCpus ← wrap "failed to get job cpus: " (GetJobCPUs j);
  st ← load jobState;
  match st with
  | JobStatePending =>
      p ← at_key userJobMetrics.t users user;
      modify p user_inc_pending ≫= λ _,
      p ← at_key userJobMetrics.t users user;
      c ← load jobCpus; modify p (user_add_pending_cpus c)
  | JobStateRunning =>
      p ← at_key userJobMetrics.t users user;
      modify p user_inc_running ≫= λ _,
      p ← at_key userJobMetrics.t users user;
      c ← load jobCpus; modify p (user_add_running_cpus c)
  | JobStateSuspended =>
      p ← at_key userJobMetrics.t users user;
      modify p user_inc_suspended
  | _ => mret tt
  end.

Definition ParseUsersMetrics (jobs : slice Job.t) : Run loc :=
  users ← new (∅ : gmap string loc);
  js ← elements jobs;
  range (users_body users) js ≫= λ _,
  mret users.

(** ** ParsePartitionsMetrics *)

Definition add_cpus_allocated (v : float) (p : partitionMetrics.t) : partitionMetrics.t :=
  let '(partitionMetrics.Build_t a i o t j) := p in partitionMetrics.Build_t (a + v) i o t j.

Definition add_cpus_idle (v : float) (p : partitionMetrics.t) : partitionMetrics.t :=
  let '(partitionMetrics.Build_t a i o t j) := p in partitionMetrics.Build_t a (i + v) o t j.

Definition set_cpus_other (v : float) (p : partitionMetrics.t) : partitionMetrics.t :=
  let '(partitionMetrics.Build_t a i o t j) := p in partitionMetrics.Build_t a i v t j.

(** [_, exists := partitions[k]; if !exists { partitions[k] =
    NewPartitionsMetrics() }]. *)
Definition ensure_partition (partitions : loc) (k : string) : Run unit :=
  exists_ ← has_key partitions k;
  if exists_ : bool then mret tt
  else p ← new NewPartitionsMetrics; set_key partitions k p.

Definition seed_body (partitions : loc) (p : Partition.t) : Run unit :=
  partitionName ←
    wrap "failed to get partition name for partition metrics: " (GetPartitionName p);
  k ← load partitionName;
  (exists_ ← has_key partitions k;
   if exists_ : bool then mret tt
   else k ← load partitionName; q ← new NewPartitionsMetrics; set_key partitions k q) ≫= λ _,
  total ←
    wrap "failed to collect cpu total for partition metrics: " (GetPartitionTotalCPUs p);
  k ← load partitionName;
  q ← at_key partitionMetrics.t partitions k;
  t ← load total;
  modify q (set_cpus_total t).

Definition node_partitions_body (nodePartitions : loc) (n : Node.t) : Run unit :=
  nodeName ←
    wrap "failed to get node name for partition metrics: " (GetNodeName n);
  k ← load nodeName;
  ps ← GetNodePartitions n;
  modify (A := gmap string (option loc)) (Some nodePartitions) (<[k := ps]>).

Definition fan_out_one (partitions : loc) (alloc_cpus idle_cpus : Z) (partitionName : string)
  : Run unit :=
  ensure_partition partitions partitionName ≫= λ _,
  q ← at_key partitionMetrics.t partitions partitionName;
  modify q (add_cpus_allocated (float64_of_uint64 alloc_cpus)) ≫= λ _,
  q ← at_key partitionMetrics.t partitions partitionName;
  modify q (add_cpus_idle (float64_of_uint64 idle_cpus)).

Definition fan_out_node (partitions : loc) (n : Node.t) : Run unit :=
  alloc_cpus ← GetNodeAllocCPUs n;
  idle_cpus ← GetNodeIdleCPUs n;
  nodePartitionNames ← GetNodePartitions n;
  names ← elements (A := string) nodePartitionNames;
  range (fan_out_one partitions alloc_cpus idle_cpus) names.

(** [for i, p := range partitions { partitions[i].cpus_other = ... }]. *)
Definition derive_at (partitions : loc) (i : string) : Run unit :=
  p ← at_key partitionMetrics.t partitions i;
  q ← at_key partitionMetrics.t partitions i;
  r ← load p;
  modify q (set_cpus_other (partitionMetrics.cpus_total r - partitionMetrics.cpus_allocated r
                            - partitionMetrics.cpus_idle r)).

Definition pending_one (partitions : loc) (partitionName : string) : Run unit :=
  ensure_partition partitions partitionName ≫= λ _,
  q ← at_key partitionMetrics.t partitions partitionName;
  modify q add_pending.

Definition pending_body (partitions : loc) (j : Job.t) : Run unit :=
  pname ←
    wrap "failed to get job partition name for partition metrics: "
      (GetJobPartitionName j);
  s ← load pname;
  let pnames := Split s "," in
  range (pending_one partitions) pnames.

(** [range_keys] is the order in which the runtime visits the keys of
    the map in the fourth loop. *)
Definition ParsePartitionsMetrics (range_keys : gmap string loc → list string)
  (partitions : slice Partition.t) (jobs : slice Job.t) (nodes : slice Node.t) : Run loc :=
  pm ← new (∅ : gmap string loc);
  nodePartitions ← new (∅ : gmap string (option loc));
  ps ← elements partitions;
  range (seed_body pm) ps ≫= λ _,
  ns ← elements nodes;
  range (node_partitions_body nodePartitions) ns ≫= λ _,
  ns ← elements nodes;
  range (fan_out_node pm) ns ≫= λ _,
  keys ← load (A := gmap string loc) (Some pm);
  range (derive_at pm) (range_keys keys) ≫= λ _,
  js ← elements jobs;
  range (pending_body pm) js ≫= λ _,
  mret pm.

(** ** The ten aggregators *)

Definition call (name_of : NodeState → string)
  (range_keys : gmap string loc → list string)
  (a : aggregator) (s : Responses) : Run loc :=
  match a with
  | AccountsMetrics => ParseAccountsMetrics (jobs s)
  | CPUsMetrics => ParseCPUsMetrics (nodes s) (jobs s)
  | GPUsMetrics => ParseGPUsMetrics (nodes s)
  | NodeMetrics => ParseNodeMetrics name_of (nodes s)
  | NodesMetrics => ParseNodesMetrics (nodes s)
  | QueueMetrics => ParseQueueMetrics (jobs s)
  | SchedulerMetrics => ParseSchedulerMetrics (diag s)
  | FairShareMetrics => ParseFairShareMetrics (shares s)
  | UsersMetrics => ParseUsersMetrics (jobs s)
  | PartitionsMetrics => ParsePartitionsMetrics range_keys (partitions s) (jobs s) (nodes s)
  end.

End package.

End store.

(** ** Reading a run on the store *)

(** Agreement of two outcomes, up to a relation on the values. *)
Definition related {A B} (R : A → B → Prop) (r : outcome A) (o : outcome B) : Prop :=
  match r, o with
  | Ok a, Ok b => R a b
  | Err e, Err e' => e = e'
  | Panic k, Panic k' => k = k'
  | _, _ => False
  end.

(** The pointer addresses the value. *)
Definition holds {A} `{!store.Cell A} (h : store.heap) (p : store.ptr A) (a : A) : Prop :=
  store.read_ptr h p = Some (Some a).

(** A call that reads the store and allocates, and writes to no cell in
    use: it ends as [o] does, up to [R] in the cells [hp] it was given to
    read and the cells [hn] it has allocated. *)
Definition reads {A B} (R : store.heap → A → B → Prop) (hp : store.heap)
  (m : store.Run A) (o : outcome B) (w : store.world) : Prop :=
  ∃ r hn,
    m w = (r, {| store.mem := hn ∪ store.mem w; store.log := store.log w |})
    ∧ hn ##ₘ store.mem w
    ∧ related (R (hn ∪ hp)) r o.

(** The struct at [l] is [a], and [l] is none of the cells [hp]. *)
Definition struct_at {A} `{!store.Cell A} (hp h : store.heap) (l : store.loc) (a : A) : Prop :=
  hp ⊆ h ∧ hp !! l = None ∧ h !! l = Some (store.inj a).

(** The map of pointers at [lm] is [m], key by key, through the
    pointers [pm], and neither [lm] nor a struct of the map is one of the
    cells [hp]. *)
Definition map_via {A} `{!store.Cell A} (hp h : store.heap) (lm : store.loc)
  (pm : gmap string store.loc) (m : gmap string A) : Prop :=
  hp ⊆ h ∧ hp !! lm = None
  ∧ h !! lm = Some (store.CMap pm)
  ∧ (∀ k, pm !! k = None → m !! k = None)
  ∧ (∀ k p, pm !! k = Some p →
       hp !! p = None ∧ p ≠ lm ∧ ∃ r, m !! k = Some r ∧ h !! p = Some (store.inj r))
  ∧ (∀ k1 k2 p, pm !! k1 = Some p → pm !! k2 = Some p → k1 = k2).

Definition map_at {A} `{!store.Cell A} (hp h : store.heap) (lm : store.loc)
  (m : gmap string A) : Prop :=
  ∃ pm, map_via hp h lm pm m.

(** Where a run from [w] ends. *)
Definition run_to {A} (m : store.Run A) (w : store.world)
  (Q : outcome A → store.world → Prop) : Prop :=
  ∃ r w', m w = (r, w') ∧ Q r w'.

(** A loop body on the store against the loop body on values: same log,
    same outcome, the invariant [I] on a normal end and [E] on a return
    or a panic. *)
Definition sim {S} (I : store.heap → S → Prop) (E : store.heap → Prop)
  (m : store.Run unit) (f : Exec S) (w : store.world) : Prop :=
  run_to m w (λ r w',
    store.log w' = (f (store.log w)).2
    ∧ match (f (store.log w)).1 with
      | Ok s' => r = Ok tt ∧ I (store.mem w') s'
      | Err e => r = Err e ∧ E (store.mem w')
      | Panic k => r = Panic k ∧ E (store.mem w')
      end).

(** ** A store that holds the example snapshot *)

(** The cells of [example_snapshot], one per string, number, slice and
    nested struct, as a JSON decoder allocates them. *)
Definition example_store : store.heap :=
  list_to_map
    [ (1%positive, store.CString "acct");
      (2%positive, store.CString "A,B");
      (3%positive, store.CStrings ["PENDING"]);
      (4%positive, store.CInt 2);
      (5%positive, store.CUint32NoVal {| store.Number := Some 4%positive |});
      (6%positive, store.CString "alice");
      (7%positive, store.CString "");
      (8%positive,
       store.CJobs
         [ {| store.Job.Account := Some 1%positive; store.Job.Partition := Some 2%positive;
              store.Job.JobState := Some 3%positive; store.Job.Cpus := Some 5%positive;
              store.Job.UserName := Some 6%positive;
              store.Job.Dependency := Some 7%positive |} ]);
      (9%positive, store.CString "n1");
      (10%positive, store.CString "n1");
      (11%positive, store.CStrings ["MIXED"]);
      (12%positive, store.CStrings ["A"]);
      (13%positive, store.CInt 4);
      (14%positive, store.CInt 2);
      (15%positive, store.CInt 8);
      (16%positive, store.CString "n2");
      (17%positive, store.CString "n2");
      (18%positive, store.CStrings ["MIXED"]);
      (19%positive, store.CStrings ["A"]);
      (20%positive, store.CInt 3);
      (21%positive, store.CInt 1);
      (22%positive, store.CInt 8);
      (23%positive,
       store.CNodes
         [ {| store.Node.Name := Some 9%positive; store.Node.Hostname := Some 10%positive;
              store.Node.State := Some 11%positive; store.Node.Tres := None;
              store.Node.TresUsed := None; store.Node.Partitions := Some 12%positive;
              store.Node.AllocMemory := None; store.Node.RealMemory := None;
              store.Node.AllocCpus := Some 13%positive;
              store.Node.AllocIdleCpus := Some 14%positive;
              store.Node.Cpus := Some 15%positive |};
           {| store.Node.Name := Some 16%positive; store.Node.Hostname := Some 17%positive;
              store.Node.State := Some 18%positive; store.Node.Tres := None;
              store.Node.TresUsed := None; store.Node.Partitions := Some 19%positive;
              store.Node.AllocMemory := None; store.Node.RealMemory := None;
              store.Node.AllocCpus := Some 20%positive;
              store.Node.AllocIdleCpus := Some 21%positive;
              store.Node.Cpus := Some 22%positive |} ]);
      (24%positive, store.CString "A");
      (25%positive, store.CInt 10);
      (26%positive, store.CPartitionCpus {| store.Partition.Total := Some 25%positive |});
      (27%positive, store.CString "C");
      (28%positive, store.CInt 4);
      (29%positive, store.CPartitionCpus {| store.Partition.Total := Some 28%positive |});
      (30%positive,
       store.CPartitions
         [ {| store.Partition.Name := Some 24%positive;
              store.Partition.Cpus := Some 26%positive; store.Partition.Nodes := None |};
           {| store.Partition.Name := Some 27%positive;
              store.Partition.Cpus := Some 29%positive; store.Partition.Nodes := None |} ]);
      (31%positive, store.CString "physics");
      (32%positive, store.CFloat 0.5%float);
      (33%positive, store.CFairshare {| store.Share.Level := Some 32%positive |});
      (34%positive,
       store.CShares
         [ {| store.Share.Name := Some 31%positive;
              store.Share.Fairshare := Some 33%positive |} ]) ].

(** The responses whose slices are the four slices of [example_store]. *)
Definition example_responses : store.Responses :=
  {| store.jobs := Some 8%positive;
     store.nodes := Some 23%positive;
     store.partitions := Some 30%positive;
     store.diag :=
       {| store.Diag.ServerThreadCount := None; store.Diag.AgentQueueSize := None;
          store.Diag.DbdAgentQueueSize := None; store.Diag.ScheduleCycleLast := None;
          store.Diag.ScheduleCycleMean := None; store.Diag.ScheduleCyclePerMinute := None;
          store.Diag.BfDepthMean := None; store.Diag.BfCycleLast := None;
          store.Diag.BfCycleMean := None; store.Diag.BfBackfilledJobs := None;
          store.Diag.BfLastBackfilledJobs := None; store.Diag.BfBackfilledHetJobs := None |};
     store.shares := Some 34%positive |}.

(** The example store, with one record logged by an earlier call. *)
Definition example_world : store.world :=
  {| store.mem := example_store; store.log := [("earlier call", "earlier error")] |}.

(** One allocator: the address stdpp's [fresh] picks outside the
    addresses in use. *)
Definition fresh_allocator : store.Allocator :=
  {| store.alloc h := fresh (dom h);
     store.alloc_fresh h := not_elem_of_dom_1 h _ (is_fresh (dom h)) |}.

(** * Verified properties *)

(** ** Strings and rule lists *)

Lemma prefix_nil_l (s : string) : String.prefix "" s = true.
Proof. by destruct s. Qed.

Lemma prefix_cons (a b : ascii) (s t : string) :
  String.prefix (String a s) (String b t) = true ↔ a = b ∧ String.prefix s t = true.
Proof.
  simpl. destruct (ascii_dec a b) as [->|Hne]; split; try done.
  - by intros [_ ?].
  - by intros [? _].
Qed.

(** A string that starts with a literal starts with each prefix of it. *)
Lemma prefix_trans (a b s : string) :
  String.prefix a b = true → String.prefix b s = true → String.prefix a s = true.
Proof.
  revert b s. induction a as [|c a IH]; intros b s Hab Hbs.
  - apply prefix_nil_l.
  - destruct b as [|d b]; [by destruct a|].
    destruct s as [|e s]; [done|].
    apply prefix_cons in Hab as [-> Hab]. apply prefix_cons in Hbs as [-> Hbs].
    apply prefix_cons. eauto.
Qed.

(** Two literals that both start a token are comparable. *)
Lemma prefix_comparable (a b s : string) :
  String.prefix a s = true → String.prefix b s = true →
  String.prefix a b = true ∨ String.prefix b a = true.
Proof.
  revert b s. induction a as [|c a IH]; intros b s Ha Hb.
  - left. apply prefix_nil_l.
  - destruct b as [|d b]; [right; by destruct a|].
    destruct s as [|e s]; [done|].
    apply prefix_cons in Ha as [-> Ha]. apply prefix_cons in Hb as [-> Hb].
    destruct (IH b s Ha Hb); [left|right]; by apply prefix_cons.
Qed.

Lemma first_match_Some {A} (rules : list (string * A)) (state : string) (u : A) :
  first_match rules state = Some u →
  ∃ pre lit post, rules = pre ++ (lit, u) :: post
    ∧ MatchPrefix lit state = true
    ∧ Forall (λ r, MatchPrefix r.1 state = false) pre.
Proof.
  induction rules as [|[lit v] rules IH]; [done|]. simpl.
  destruct (MatchPrefix lit state) eqn:Hm.
  - intros [= ->]. by exists [], lit, rules.
  - intros (pre & lit' & post & -> & ? & ?)%IH.
    exists ((lit, v) :: pre), lit', post. repeat split; [done|]. by constructor.
Qed.

(** The rule [^invalid_reg] comes after [^invalid], which matches every
    token it matches: no token is ever classified NodeStateInvalidReg. *)
Lemma node_state_never_InvalidReg (state : string) :
  first_match node_state_rules state ≠ Some NodeStateInvalidReg.
Proof.
  unfold node_state_rules, first_match, MatchPrefix.
  destruct (String.prefix "invalid" state) eqn:Hinv.
  - repeat (case_match; [done|]). done.
  - repeat (case_match; [done|]).
    case_match; [|done].
    assert (String.prefix "invalid" state = true); [|congruence].
    by apply (prefix_trans _ "invalid_reg").
Qed.

Lemma for_range_classify_app (states : list string) (acc sts : list NodeState) :
  for_range classify_node_state states acc = Ok sts →
  ∃ new, sts = acc ++ new
    ∧ Forall2 (λ s u, first_match node_state_rules (ToLower s) = Some u) states new.
Proof.
  revert acc. induction states as [|s states IH]; intros acc; simpl.
  - intros [= <-]. exists []. by rewrite app_nil_r.
  - unfold classify_node_state at 1.
    destruct (first_match node_state_rules (ToLower s)) as [u|] eqn:Hu; [|done].
    intros (new & -> & Hall)%IH. exists (u :: new).
    rewrite <-app_assoc. split; [done|]. by constructor.
Qed.

(** [GetNodeStates] classifies every entry, in the order of the input. *)
Lemma GetNodeStates_Ok (node : Node.t) (sts : list NodeState) :
  GetNodeStates node = Ok sts →
  ∃ states, Node.State node = Some states
    ∧ Forall2 (λ s u, first_match node_state_rules (ToLower s) = Some u) states sts.
Proof.
  unfold GetNodeStates. destruct (Node.State node) as [states|]; [|done].
  intros (new & -> & Hall)%for_range_classify_app. by exists states.
Qed.

Lemma GetNodeStates_never_InvalidReg (node : Node.t) (sts : list NodeState) :
  GetNodeStates node = Ok sts → NodeStateInvalidReg ∉ sts.
Proof.
  intros (states & _ & Hall)%GetNodeStates_Ok Hin.
  induction Hall as [|s u states sts Hs _ IH].
  - by apply elem_of_nil in Hin.
  - apply elem_of_cons in Hin as [<-|Hin]; [|by apply IH].
    by apply node_state_never_InvalidReg in Hs.
Qed.

(** Two rules of the node-state list match one token only when they are
    [^invalid] and [^invalid_reg], in this order. *)
Lemma node_rules_overlap (state : string) (i j : nat) (r1 r2 : string * NodeState) :
  (i < j)%nat →
  node_state_rules !! i = Some r1 → node_state_rules !! j = Some r2 →
  MatchPrefix r1.1 state = true → MatchPrefix r2.1 state = true →
  r1 = ("invalid", NodeStateInvalid) ∧ r2 = ("invalid_reg", NodeStateInvalidReg).
Proof.
  intros Hij H1 H2 M1 M2.
  destruct (prefix_comparable _ _ _ M1 M2) as [Hc|Hc]; clear M1 M2;
    do 14 (try (destruct i as [|i]; simpl in H1; [injection H1 as <-|]));
    try discriminate H1;
    do 14 (try (destruct j as [|j]; simpl in H2; [injection H2 as <-|]));
    try discriminate H2; try discriminate Hc; try lia; done.
Qed.

(** ** C4: the node-state rule list *)

(** C4 (code defect).  The specification has a token beginning with
    [invalid_reg] classified NodeStateInvalidReg, and the rules pairwise
    exclusive.  On the node whose only state is INVALID_REG both
    [^invalid] and [^invalid_reg] match, the earlier rule wins, and
    [GetNodeStates] answers NodeStateInvalid. *)
Theorem C4_invalid_reg_classified_as_Invalid :
  GetNodeStates invalid_reg_node = Ok [NodeStateInvalid]
  ∧ matching_rules node_state_rules (ToLower "INVALID_REG")
    = [("invalid", NodeStateInvalid); ("invalid_reg", NodeStateInvalidReg)].
Proof. split; reflexivity. Qed.

(** ** C5: job-state classification *)

Lemma GetJobState_absent (job : Job.t) :
  Job.JobState job = None → GetJobState job = Err "job state not found in job".
Proof. unfold GetJobState. by intros ->. Qed.

Lemma GetJobState_empty (job : Job.t) :
  Job.JobState job = Some [] → GetJobState job = Panic IndexOutOfRange.
Proof. unfold GetJobState. by intros ->. Qed.

(** Only the first entry is consulted, and only up to the case of its
    letters. *)
Lemma GetJobState_first_entry (job job' : Job.t) (s s' : string) (rest rest' : list string) :
  Job.JobState job = Some (s :: rest) →
  Job.JobState job' = Some (s' :: rest') →
  ToLower s = ToLower s' →
  GetJobState job = GetJobState job'.
Proof. unfold GetJobState. by intros -> -> ->. Qed.

(** C5 (code defect).  The specification has [GetJobState] return the
    error "job state not found" for an absent and for an empty state
    list, without crashing.  The guard is [states == nil]; on the empty,
    non-nil list [states[0]] is out of range and the call panics: no
    error is returned. *)
Theorem C5_empty_state_list_panics :
  Job.JobState empty_state_job = Some []
  ∧ GetJobState empty_state_job = Panic IndexOutOfRange
  ∧ ∀ e, GetJobState empty_state_job ≠ Err e.
Proof. repeat split; done. Qed.

(** ** C8: the GPU count of a TRES string *)

(** No field holds the tag: the count is zero, and no error. *)
Lemma scan_gres_gpu_no_match (parts : list string) :
  Forall (λ p, Contains p "gres/gpu=" = false) parts → scan_gres_gpu parts = Ok 0.
Proof. induction 1 as [|p parts Hp _ IH]; simpl; [done|]. by rewrite Hp. Qed.

(** The first field holding the tag decides; when it does not split into
    exactly two parts, or its second part is no integer, the call fails. *)
Lemma scan_gres_gpu_first_match (pre : list string) (p : string) (post : list string) :
  Forall (λ p, Contains p "gres/gpu=" = false) pre →
  Contains p "gres/gpu=" = true →
  scan_gres_gpu (pre ++ p :: post) =
    match Split p "=" with
    | [_; ns] =>
        match Atoi ns with
        | Some n => Ok n
        | None => Err ("failed to parse number of gpus from tres: " +:+ p)
        end
    | _ => Err ("found gpu in tres but failed to parse: " +:+ p)
    end.
Proof.
  intros Hpre Hp. induction Hpre as [|q pre Hq _ IH]; simpl.
  - by rewrite Hp.
  - by rewrite Hq.
Qed.

(** C8.  On the three strings of the specification, both extractors (the
    total, over [tres], and the allocated, over [tres_used]) return 4,
    return 0 without an error, and return an error. *)
Theorem C8_gpu_extraction_examples :
  GetNodeGPUTotal (Sample.tres_node "cpu=48,mem=1020522M,billing=48,gres/gpu=4") = Ok 4
  ∧ GetNodeGPUAllocated (Sample.tres_node "cpu=48,mem=1020522M,billing=48,gres/gpu=4") = Ok 4
  ∧ GetNodeGPUTotal (Sample.tres_node "cpu=1,mem=1M,billing=1") = Ok 0
  ∧ GetNodeGPUAllocated (Sample.tres_node "cpu=1,mem=1M,billing=1") = Ok 0
  ∧ GetNodeGPUTotal (Sample.tres_node "cpu=48,gres/gpu=bad")
    = Err "failed to parse number of gpus from tres: gres/gpu=bad"
  ∧ GetNodeGPUAllocated (Sample.tres_node "cpu=48,gres/gpu=bad")
    = Err "failed to parse number of gpus from tres: gres/gpu=bad".
Proof. repeat split; reflexivity. Qed.

(** ** Loops *)

Lemma for_range_app {A S} (body : A → S → outcome S) (l1 l2 : list A) (s : S) :
  for_range body (l1 ++ l2) s = for_range body l1 s ≫= for_range body l2.
Proof.
  revert s. induction l1 as [|x l1 IH]; intros s; simpl; [done|].
  destruct (body x s); simpl; auto.
Qed.

Lemma exec_range_app {A S} (body : A → S → Exec S) (l1 l2 : list A) (s : S)
  (log : list LogRecord) :
  exec_range body (l1 ++ l2) s log = (exec_range body l1 s ≫= exec_range body l2) log.
Proof.
  revert s log. induction l1 as [|x l1 IH]; intros s log; simpl; [done|].
  unfold mbind, exec_bind. destruct (body x s log) as [[s'|e|k] log']; [|done..].
  rewrite IH. done.
Qed.

(** ** C3: the queue tally *)

(** C3, counterexample.  A job in the OutOfMemory state is classified,
    and the tally of the listing that holds it alone is all zeros: no
    counter was incremented. *)
Lemma C3_counterexample_out_of_memory :
  GetJobState oom_job = Ok JobStateOutOfMemory
  ∧ ParseQueueMetrics [oom_job] = Ok NewQueueMetrics.
Proof. split; reflexivity. Qed.

(** C3, as amended.  Appending to a listing a job whose state classifies
    (and, when Pending, whose dependency field is present) increments
    exactly one counter of the tally, the one [counter_of] names, and
    leaves the eleven others as they were; except for an OutOfMemory job,
    which leaves the tally unchanged. *)
Theorem C3_queue_increments_one_counter (jobs : list Job.t) (j : Job.t)
  (qm : queueMetrics.t) (state : JobState) (dependency : string) :
  ParseQueueMetrics jobs = Ok qm →
  GetJobState j = Ok state →
  (state = JobStatePending → Job.Dependency j = Some dependency) →
  match counter_of state dependency with
  | Some c =>
      ∃ qm', ParseQueueMetrics (jobs ++ [j]) = Ok qm'
        ∧ counter_value c qm' = (counter_value c qm + 1)%float
        ∧ ∀ c', c' ≠ c → counter_value c' qm' = counter_value c' qm
  | None =>
      state = JobStateOutOfMemory ∧ ParseQueueMetrics (jobs ++ [j]) = Ok qm
  end.
Proof.
  unfold ParseQueueMetrics. intros Hjobs Hstate Hdep.
  rewrite for_range_app, Hjobs. simpl. unfold queue_body. rewrite Hstate. simpl.
  destruct qm. destruct state; simpl; try by (eexists; split; [done|split; [done|by intros []]]).
  - rewrite Hdep by done. simpl. case_bool_decide; simpl;
      (eexists; split; [done|split; [done|by intros []]]).
  - done.
Qed.

(** C3 at a listing of one job, extended by a pending job that has a
    dependency. *)
Lemma C3_queue_increments_one_counter_witness :
  ∃ qm', ParseQueueMetrics ([oom_job] ++ [pending_dep_job]) = Ok qm'
    ∧ counter_value QPendingDep qm' = (counter_value QPendingDep NewQueueMetrics + 1)%float
    ∧ ∀ c', c' ≠ QPendingDep → counter_value c' qm' = counter_value c' NewQueueMetrics.
Proof.
  apply (C3_queue_increments_one_counter [oom_job] pending_dep_job NewQueueMetrics
           JobStatePending "afterok:41"); reflexivity.
Defined.

(** ** C9: the fair-share tally *)

Lemma ensure_key_lookup {V} (k k' : string) (fresh : V) (m : gmap string V) :
  ensure_key k fresh m !! k' =
    if decide (k = k') then Some (default fresh (m !! k)) else m !! k'.
Proof.
  unfold ensure_key. destruct (m !! k) as [v|] eqn:Hk; case_decide; subst; simpl.
  - done.
  - done.
  - by rewrite lookup_insert_eq.
  - by rewrite lookup_insert_ne.
Qed.

(** [m[k]] is created when absent, then updated in place. *)
Lemma alter_ensure_key {V} (f : V → V) (k : string) (fresh : V) (m : gmap string V) :
  alter f k (ensure_key k fresh m) = <[k := f (default fresh (m !! k))]> m.
Proof.
  apply map_eq; intros k'. rewrite lookup_alter, lookup_insert, !ensure_key_lookup.
  destruct (decide (k = k')) as [<-|Hne]; [|done].
  by rewrite decide_True.
Qed.

(** The body never returns an error: it succeeds or it panics. *)
Lemma fairshare_body_not_Err (s : Share.t) (accounts : gmap string fairShareMetrics.t)
  (e : string) :
  fairshare_body s accounts ≠ Err e.
Proof.
  unfold fairshare_body.
  destruct (Share.Name s); simpl; [|done].
  destruct (Share.Fairshare s) as [f|]; simpl; [|done].
  by destruct (Share.Level f).
Qed.

Lemma ParseFairShareMetrics_not_Err (shares : list Share.t) (e : string) :
  ParseFairShareMetrics shares ≠ Err e.
Proof.
  unfold ParseFairShareMetrics. generalize (∅ : gmap string fairShareMetrics.t).
  induction shares as [|s shares IH]; intros accounts; simpl; [done|].
  destruct (fairshare_body s accounts) eqn:Hs; [apply IH| |done].
  by apply fairshare_body_not_Err in Hs.
Qed.

(** Last write wins: a further share record with a name and a level sets
    the level of its account, over whatever the earlier records left. *)
Lemma ParseFairShareMetrics_last_write_wins (shares : list Share.t) (s : Share.t)
  (accounts : gmap string fairShareMetrics.t) (account : string)
  (f : Share.fairshare) (level : float) :
  ParseFairShareMetrics shares = Ok accounts →
  Share.Name s = Some account → Share.Fairshare s = Some f → Share.Level f = Some level →
  ParseFairShareMetrics (shares ++ [s])
  = Ok (<[account := {| fairShareMetrics.fairshare := level |}]> accounts).
Proof.
  unfold ParseFairShareMetrics. intros Hm Hn Hf Hl.
  rewrite for_range_app, Hm. simpl. unfold fairshare_body.
  rewrite Hn, Hf. simpl. rewrite Hl. simpl. by rewrite alter_ensure_key.
Qed.

(** C9 (code defect).  The specification has [ParseFairShareMetrics]
    return an error when a share record lacks its account name or its
    fairshare level.  Neither [*s.Name] nor [*s.Fairshare.Level] is guarded: on
    such a record the call panics with a nil dereference, and no input
    at all makes it return an error. *)
Theorem C9_missing_name_or_level_panics :
  ParseFairShareMetrics [nameless_share] = Panic NilDereference
  ∧ ParseFairShareMetrics [levelless_share] = Panic NilDereference
  ∧ ∀ shares e, ParseFairShareMetrics shares ≠ Err e.
Proof. split; [done|]. split; [done|]. apply ParseFairShareMetrics_not_Err. Qed.

(** ** The log is only appended to *)

Lemma appends_only_mret {A} (a : A) : appends_only (mret a : Exec A).
Proof. intros log. unfold mret, exec_ret. simpl. by rewrite app_nil_r. Qed.

Lemma appends_only_lift {A} (r : outcome A) : appends_only (lift r).
Proof. intros log. unfold lift. simpl. by rewrite app_nil_r. Qed.

Lemma appends_only_slog_Error (msg e : string) : appends_only (slog_Error msg e).
Proof. intros log. done. Qed.

Lemma appends_only_bind {A B} (m : Exec A) (f : A → Exec B) :
  appends_only m → (∀ a, appends_only (f a)) → appends_only (m ≫= f).
Proof.
  intros Hm Hf log. unfold mbind, exec_bind. rewrite (Hm log).
  destruct (m []) as [[a|e|k] w]; simpl; [|done..].
  rewrite (Hf a (log ++ w)), (Hf a w). simpl. by rewrite app_assoc.
Qed.

Lemma appends_only_or_continue {A S} (r : outcome A) (msg : string) (s : S)
  (k : A → Exec S) :
  (∀ a, appends_only (k a)) → appends_only (or_continue r msg s k).
Proof.
  intros Hk. destruct r as [a|e|p]; simpl.
  - apply Hk.
  - apply appends_only_bind; [apply appends_only_slog_Error|].
    intros _. apply appends_only_mret.
  - apply appends_only_lift.
Qed.

Lemma appends_only_exec_range {A S} (body : A → S → Exec S) (l : list A) (s : S) :
  (∀ x s, appends_only (body x s)) → appends_only (exec_range body l s).
Proof.
  intros Hbody. revert s. induction l as [|x l IH]; intros s; simpl.
  - apply appends_only_mret.
  - apply appends_only_bind; auto.
Qed.

(** What a run from a given log is, in terms of the run from the empty
    log. *)
Lemma appends_only_run {A} (m : Exec A) (log w : list LogRecord) (r : outcome A) :
  appends_only m → m [] = (r, w) → m log = (r, log ++ w).
Proof. intros Hm Hr. rewrite (Hm log), Hr. done. Qed.

(** A body made of guarded calls and a final return only appends. *)
Ltac appends_only_tac :=
  repeat first
    [ apply appends_only_mret
    | apply appends_only_lift
    | apply appends_only_or_continue; intros ? ].

Lemma appends_only_cpus_job_body (j : Job.t) (cm : cpusMetrics.t) :
  appends_only (cpus_job_body j cm).
Proof. unfold cpus_job_body. appends_only_tac. Qed.

Lemma appends_only_accounts_body (j : Job.t) (accounts : gmap string JobMetrics.t) :
  appends_only (accounts_body j accounts).
Proof. unfold accounts_body. appends_only_tac. Qed.

(** ** C2: the error policy of the cluster CPU tally *)

(** A job with an unresolved state or CPU count is logged, and the tally
    is handed on as it was. *)
Lemma cpus_job_body_skips (j : Job.t) :
  state_or_cpus_unresolved j →
  ∃ rec, ∀ cm log, cpus_job_body j cm log = (Ok cm, log ++ [rec]).
Proof.
  unfold cpus_job_body. intros [[e He]|(state & e & Hs & Hc)].
  - rewrite He. by eexists.
  - rewrite Hs, Hc. by eexists.
Qed.

(** The loop over the jobs never returns an error. *)
Lemma cpus_job_loop_not_Err (jobs : list Job.t) (cm : cpusMetrics.t)
  (log : list LogRecord) (e : string) :
  (exec_range cpus_job_body jobs cm log).1 ≠ Err e.
Proof.
  revert cm log. induction jobs as [|j jobs IH]; intros cm log; simpl; [done|].
  unfold mbind, exec_bind.
  destruct (cpus_job_body j cm log) as [[cm'|e'|k] log'] eqn:Hj; simpl; [apply IH| |done].
  unfold cpus_job_body, or_continue in Hj.
  destruct (GetJobState j); [|done..]. by destruct (GetJobCPUs j).
Qed.

(** Skipping in the loop over the jobs: with the unresolved job in the
    listing, the loop ends as without it, one log record apart. *)
Lemma cpus_job_loop_skips (pre post : list Job.t) (j : Job.t) (cm cm' : cpusMetrics.t)
  (log : list LogRecord) :
  state_or_cpus_unresolved j →
  exec_range cpus_job_body (pre ++ post) cm [] = (Ok cm', log) →
  ∃ log', exec_range cpus_job_body (pre ++ j :: post) cm [] = (Ok cm', log')
    ∧ one_more_record log log'.
Proof.
  intros [rec Hj]%cpus_job_body_skips. rewrite !exec_range_app.
  unfold mbind, exec_bind.
  destruct (exec_range cpus_job_body pre cm []) as [[cm1|e|k] l1]; [|done..].
  simpl. unfold mbind, exec_bind. rewrite Hj.
  destruct (exec_range cpus_job_body post cm1 []) as [r w] eqn:Hpost.
  pose proof (appends_only_exec_range cpus_job_body post cm1 appends_only_cpus_job_body)
    as Happ.
  rewrite (appends_only_run _ l1 w r Happ Hpost).
  rewrite (appends_only_run _ (l1 ++ [rec]) w r Happ Hpost).
  intros [= -> <-]. eexists. split; [done|].
  exists l1, rec, w. by rewrite <-app_assoc.
Qed.

(** The job part of C2: a job with an unresolved state or CPU count does
    not make the call fail; the call ends as on the listing without the
    job, with one more record in the log. *)
Lemma ParseCPUsMetrics_skips_job (nodes : list Node.t) (pre post : list Job.t) (j : Job.t)
  (r : outcome cpusMetrics.t) (log : list LogRecord) :
  state_or_cpus_unresolved j →
  ParseCPUsMetrics nodes (pre ++ post) [] = (r, log) →
  (∀ k, r ≠ Panic k) →
  ∃ log', ParseCPUsMetrics nodes (pre ++ j :: post) [] = (r, log')
    ∧ one_more_record log log'.
Proof.
  intros Hj. unfold ParseCPUsMetrics, mbind, exec_bind.
  destruct (exec_range cpus_job_body (pre ++ post) NewCPUsMetrics [])
    as [[cm|e|k] l] eqn:Hloop.
  - destruct (cpus_job_loop_skips _ _ _ _ _ _ Hj Hloop) as (log' & -> & Hlog).
    unfold lift. intros [= <- <-] _. by eexists.
  - by apply (f_equal fst), cpus_job_loop_not_Err in Hloop.
  - intros [= <- _] Hr. by destruct (Hr k).
Qed.

(** The node part of C2: past the nodes that were processed, a node that
    does not report exactly one CPU and whose state list is absent or
    holds an unknown token makes the call return an error. *)
Lemma ParseCPUsMetrics_node_error (pre post : list Node.t) (n : Node.t) (jobs : list Job.t)
  (cm : cpusMetrics.t) (log : list LogRecord) (c : Z) (e : string) :
  ParseCPUsMetrics pre jobs [] = (Ok cm, log) →
  Node.Cpus n = Some c → c ≠ 1 → GetNodeStates n = Err e →
  ParseCPUsMetrics (pre ++ n :: post) jobs []
  = (Err ("failed to get node state for cpu metrics: " +:+ e), log).
Proof.
  unfold ParseCPUsMetrics, mbind, exec_bind. intros Hpre Hc Hc1 He.
  destruct (exec_range cpus_job_body jobs NewCPUsMetrics []) as [[cm0|?|?] l]; [|done..].
  unfold lift in *. rewrite for_range_app.
  destruct (for_range cpus_node_body pre cm0) as [cm1|?|?]; simpl in *; [|done..].
  injection Hpre as _ <-.
  unfold cpus_node_body at 1. rewrite Hc. simpl.
  apply Z.eqb_neq in Hc1 as ->. rewrite He. done.
Qed.

(** C2, counterexample.  The listing holds a job without a state and a
    job without a CPU count: the call returns the (zero) tally and a nil
    error, and each job left one record in the log.  Likewise a node that
    reports one CPU is passed over before its states are looked at, so
    its unknown state is no error either. *)
Lemma C2_counterexample_job_failures_not_fatal :
  (GetJobState stateless_job = Err "job state not found in job"
   ∧ GetJobCPUs cpuless_job = Err "failed to find cpu count in job"
   ∧ ParseCPUsMetrics [] [stateless_job; cpuless_job] []
     = (Ok NewCPUsMetrics,
        [("failed to get job state", "job state not found in job");
         ("failed to get job cpus", "failed to find cpu count in job")]))
  ∧ (GetNodeStates single_cpu_odd_node
     = Err "failed to match cpu state against known states: powered_down"
     ∧ ParseCPUsMetrics [single_cpu_odd_node] [] [] = (Ok NewCPUsMetrics, [])).
Proof. repeat split; reflexivity. Qed.

(** C2, as amended.  The cluster CPU tally is fail-fast on the nodes
    only.  A job whose state or CPU count is answered with an error is
    logged and skipped: the call ends as on the listing without that job.
    A node that does not report exactly one CPU and whose state list is
    absent or holds an unknown token makes the call return an error, once
    the nodes before it were processed. *)
Theorem C2_cpus_skips_jobs_fails_on_nodes :
  (∀ nodes pre post j r log,
     state_or_cpus_unresolved j →
     ParseCPUsMetrics nodes (pre ++ post) [] = (r, log) →
     (∀ k, r ≠ Panic k) →
     ∃ log', ParseCPUsMetrics nodes (pre ++ j :: post) [] = (r, log')
       ∧ one_more_record log log')
  ∧ (∀ pre post n jobs cm log c e,
       ParseCPUsMetrics pre jobs [] = (Ok cm, log) →
       Node.Cpus n = Some c → c ≠ 1 → GetNodeStates n = Err e →
       ParseCPUsMetrics (pre ++ n :: post) jobs []
       = (Err ("failed to get node state for cpu metrics: " +:+ e), log)).
Proof.
  split.
  - intros. by eapply ParseCPUsMetrics_skips_job.
  - intros. by eapply ParseCPUsMetrics_node_error.
Qed.

(** C2 at a listing with a job without a state between two others, and
    at a node listing that starts with a node in an unknown state. *)
Lemma C2_cpus_skips_jobs_fails_on_nodes_witness :
  (∃ log', ParseCPUsMetrics [] ([running_job] ++ stateless_job :: [cpuless_job]) []
           = (Ok {| cpusMetrics.alloc := 4; cpusMetrics.idle := 0;
                    cpusMetrics.other := (-4); cpusMetrics.total := 0 |}, log')
     ∧ one_more_record [("failed to get job cpus", "failed to find cpu count in job")] log')
  ∧ ParseCPUsMetrics ([] ++ odd_state_node :: [stateless_node]) [running_job] []
    = (Err ("failed to get node state for cpu metrics: "
            +:+ "failed to match cpu state against known states: powered_down"), []).
Proof.
  destruct C2_cpus_skips_jobs_fails_on_nodes as [Hjobs Hnodes]. split.
  - apply Hjobs.
    + left. by eexists.
    + reflexivity.
    + done.
  - apply (Hnodes [] [stateless_node] odd_state_node [running_job]
             {| cpusMetrics.alloc := 4; cpusMetrics.idle := 0;
                cpusMetrics.other := (-4); cpusMetrics.total := 0 |} [] 8).
    + reflexivity.
    + reflexivity.
    + done.
    + reflexivity.
Defined.

(** ** C1: the error policy of the account and user tallies *)

Lemma same_tallies_refl (m : gmap string JobMetrics.t) : same_tallies m m.
Proof. intros k. by left. Qed.

Lemma same_tallies_ensure_key (a : string) (m m' : gmap string JobMetrics.t) :
  same_tallies m m' →
  same_tallies (ensure_key a NewJobMetrics m) (ensure_key a NewJobMetrics m')
  ∧ ensure_key a NewJobMetrics m' !! a = ensure_key a NewJobMetrics m !! a.
Proof.
  intros Hm. split.
  - intros k. rewrite !ensure_key_lookup. case_decide; [|apply Hm].
    left. by destruct (Hm a) as [->|[-> ->]].
  - rewrite !ensure_key_lookup, !decide_True by done.
    by destruct (Hm a) as [->|[-> ->]].
Qed.

Lemma same_tallies_alter (f : JobMetrics.t → JobMetrics.t) (a : string)
  (m m' : gmap string JobMetrics.t) :
  same_tallies m m' → m' !! a = m !! a → same_tallies (alter f a m) (alter f a m').
Proof.
  intros Hm Ha k. rewrite !lookup_alter. case_decide; [|apply Hm].
  left. by rewrite Ha.
Qed.

(** An iteration of the account loop on two maps with the same tallies:
    the same records are logged, and the tallies stay the same. *)
Lemma accounts_body_same_tallies (j : Job.t) (m m' : gmap string JobMetrics.t) :
  same_tallies m m' →
  match accounts_body j m [], accounts_body j m' [] with
  | (Ok m1, w), (Ok m1', w') => w' = w ∧ same_tallies m1 m1'
  | (Panic k, w), (Panic k', w') => w' = w
  | _, _ => False
  end.
Proof.
  intros Hm. unfold accounts_body.
  destruct (GetJobAccountName j) as [a| |]; simpl; [|done..].
  destruct (same_tallies_ensure_key a m m' Hm) as [Hens Ha].
  destruct (GetJobState j) as [state| |]; simpl; [|done..].
  destruct (GetJobCPUs j) as [cpus| |]; simpl; [|done..].
  split; [done|]. by apply same_tallies_alter.
Qed.

Lemma accounts_loop_same_tallies (jobs : list Job.t) (m m' : gmap string JobMetrics.t) :
  same_tallies m m' →
  match exec_range accounts_body jobs m [], exec_range accounts_body jobs m' [] with
  | (Ok m1, w), (Ok m1', w') => w' = w ∧ same_tallies m1 m1'
  | (Panic k, w), (Panic k', w') => w' = w
  | _, _ => False
  end.
Proof.
  revert m m'. induction jobs as [|j jobs IH]; intros m m' Hm; simpl; [done|].
  unfold mbind, exec_bind.
  pose proof (accounts_body_same_tallies j m m' Hm) as Hj.
  destruct (accounts_body j m []) as [[m1| |] w], (accounts_body j m' []) as [[m1'| |] w'];
    try done.
  destruct Hj as [-> Hm1]. specialize (IH m1 m1' Hm1).
  pose proof (appends_only_exec_range accounts_body jobs m1 appends_only_accounts_body w)
    as ->.
  pose proof (appends_only_exec_range accounts_body jobs m1' appends_only_accounts_body w)
    as ->.
  destruct (exec_range accounts_body jobs m1 []) as [[| |] ?],
    (exec_range accounts_body jobs m1' []) as [[| |] ?]; simpl; try done.
  - destruct IH as [-> ?]. done.
  - by subst.
Qed.

(** A job that the account tally cannot resolve is logged, and no counter
    changes; at most the key of its account appears, all zeros. *)
Lemma accounts_body_skips (j : Job.t) (m : gmap string JobMetrics.t) :
  account_job_unresolved j →
  ∃ m' rec, (∀ log, accounts_body j m log = (Ok m', log ++ [rec])) ∧ same_tallies m m'.
Proof.
  unfold accounts_body. intros [[e He]|Hj].
  - rewrite He. exists m. eexists. split; [done|]. apply same_tallies_refl.
  - destruct (GetJobAccountName j) as [a|e|k] eqn:Ha; simpl.
    + exists (ensure_key a NewJobMetrics m).
      assert (same_tallies m (ensure_key a NewJobMetrics m)) as Hens.
      { intros k. rewrite ensure_key_lookup. case_decide; [subst|by left].
        destruct (m !! k); [by left|by right]. }
      destruct Hj as [[e He]|(state & e & Hs & Hc)].
      * rewrite He. by eexists.
      * rewrite Hs, Hc. by eexists.
    + exists m. eexists. split; [done|]. apply same_tallies_refl.
    + unfold GetJobAccountName in Ha. by destruct (Job.Account j).
Qed.

(** The account tally never returns an error. *)
Lemma ParseAccountsMetrics_not_Err (jobs : list Job.t) (log : list LogRecord) (e : string) :
  (ParseAccountsMetrics jobs log).1 ≠ Err e.
Proof.
  unfold ParseAccountsMetrics. generalize (∅ : gmap string JobMetrics.t).
  revert log. induction jobs as [|j jobs IH]; intros log m; simpl; [done|].
  unfold mbind, exec_bind.
  destruct (accounts_body j m log) as [[m'|e'|k] log'] eqn:Hj; simpl; [apply IH| |done].
  unfold accounts_body, or_continue in Hj.
  destruct (GetJobAccountName j); [|done..].
  destruct (GetJobState j); [|done..]. by destruct (GetJobCPUs j).
Qed.

(** Skip and continue: with the unresolved job in the listing, the
    account tally ends as without it, one log record apart. *)
Lemma ParseAccountsMetrics_skips_job (pre post : list Job.t) (j : Job.t)
  (m : gmap string JobMetrics.t) (log : list LogRecord) :
  account_job_unresolved j →
  ParseAccountsMetrics (pre ++ post) [] = (Ok m, log) →
  ∃ m' log', ParseAccountsMetrics (pre ++ j :: post) [] = (Ok m', log')
    ∧ same_tallies m m' ∧ one_more_record log log'.
Proof.
  unfold ParseAccountsMetrics. intros Hj. rewrite !exec_range_app.
  unfold mbind, exec_bind.
  destruct (exec_range accounts_body pre ∅ []) as [[m1|e|k] l1]; [|done..].
  simpl. unfold mbind, exec_bind.
  destruct (accounts_body_skips j m1 Hj) as (m1' & rec & -> & Hm1).
  pose proof (accounts_loop_same_tallies post m1 m1' Hm1) as Hpost.
  pose proof (appends_only_exec_range accounts_body post m1 appends_only_accounts_body l1)
    as ->.
  pose proof (appends_only_exec_range accounts_body post m1' appends_only_accounts_body
                (l1 ++ [rec])) as ->.
  destruct (exec_range accounts_body post m1 []) as [[m2| |] w],
    (exec_range accounts_body post m1' []) as [[m2'| |] w']; simpl; try done.
  destruct Hpost as [-> Hm2]. intros [= <- <-].
  exists m2', ((l1 ++ [rec]) ++ w). split; [done|]. split; [done|].
  exists l1, rec, w. by rewrite <-app_assoc.
Qed.

(** Fail fast: past the jobs that were processed, a job with a user name
    whose state is answered with an error ends the user tally with that
    error. *)
Lemma ParseUsersMetrics_state_error (pre post : list Job.t) (j : Job.t)
  (m : gmap string userJobMetrics.t) (user e : string) :
  ParseUsersMetrics pre = Ok m → Job.UserName j = Some user →
  GetJobState j = Err e →
  ParseUsersMetrics (pre ++ j :: post) = Err ("failed to get job state: " +:+ e).
Proof.
  unfold ParseUsersMetrics. intros Hpre Hu He. rewrite for_range_app, Hpre. simpl.
  unfold users_body. rewrite Hu, He. done.
Qed.

(** As above, for the CPU count. *)
Lemma ParseUsersMetrics_cpus_error (pre post : list Job.t) (j : Job.t)
  (m : gmap string userJobMetrics.t) (user e : string) (state : JobState) :
  ParseUsersMetrics pre = Ok m → Job.UserName j = Some user →
  GetJobState j = Ok state → GetJobCPUs j = Err e →
  ParseUsersMetrics (pre ++ j :: post) = Err ("failed to get job cpus: " +:+ e).
Proof.
  unfold ParseUsersMetrics. intros Hpre Hu Hs He. rewrite for_range_app, Hpre. simpl.
  unfold users_body. rewrite Hu, Hs, He. done.
Qed.

(** C1, counterexample.  On a listing whose first job has no state, the
    user tally returns an error and no tally at all, where the account
    tally logs the job, skips it and counts the second job. *)
Lemma C1_counterexample_users_fail_fast :
  ParseUsersMetrics [stateless_job; running_job]
  = Err "failed to get job state: job state not found in job"
  ∧ ParseAccountsMetrics [stateless_job; running_job] []
    = (Ok {[ "acct" := {| JobMetrics.pending := 0; JobMetrics.pending_cpus := 0;
                          JobMetrics.running := 1; JobMetrics.running_cpus := 4;
                          JobMetrics.suspended := 0 |} ]},
       [("failed to parse job state", "job state not found in job")]).
Proof. split; reflexivity. Qed.

(** C1, as amended.  The two tallies differ under bad records.  The
    account tally never returns an error, and a job whose account name,
    state or CPU count is answered with an error is logged and skipped:
    the call ends as on the listing without that job, up to a key with
    zero counters.  The user tally is fail-fast: past the jobs that were
    processed, a job with a user name whose state or CPU count is
    answered with an error makes the call return that error. *)
Theorem C1_accounts_skip_users_fail_fast :
  (∀ jobs log e, (ParseAccountsMetrics jobs log).1 ≠ Err e)
  ∧ (∀ pre post j m log,
       account_job_unresolved j →
       ParseAccountsMetrics (pre ++ post) [] = (Ok m, log) →
       ∃ m' log', ParseAccountsMetrics (pre ++ j :: post) [] = (Ok m', log')
         ∧ same_tallies m m' ∧ one_more_record log log')
  ∧ (∀ pre post j m user,
       ParseUsersMetrics pre = Ok m → Job.UserName j = Some user →
       state_or_cpus_unresolved j →
       ∃ e, ParseUsersMetrics (pre ++ j :: post) = Err e).
Proof.
  split; [apply ParseAccountsMetrics_not_Err|]. split.
  - intros. by eapply ParseAccountsMetrics_skips_job.
  - intros pre post j m user Hpre Hu [[e He]|(state & e & Hs & Hc)].
    + eexists. by eapply ParseUsersMetrics_state_error.
    + eexists. by eapply ParseUsersMetrics_cpus_error.
Qed.

(** C1 at a listing with a job without a CPU count between two running
    jobs. *)
Lemma C1_accounts_skip_users_fail_fast_witness :
  (∃ m' log', ParseAccountsMetrics ([running_job] ++ cpuless_job :: [running_job]) []
              = (Ok m', log')
     ∧ same_tallies
         {[ "acct" := {| JobMetrics.pending := 0; JobMetrics.pending_cpus := 0;
                         JobMetrics.running := 2; JobMetrics.running_cpus := 8;
                         JobMetrics.suspended := 0 |} ]} m'
     ∧ one_more_record [] log')
  ∧ (∃ e, ParseUsersMetrics ([running_job] ++ cpuless_job :: [running_job]) = Err e).
Proof.
  destruct C1_accounts_skip_users_fail_fast as (_ & Haccounts & Husers). split.
  - apply Haccounts.
    + right. right. by exists JobStatePending, "failed to find cpu count in job".
    + reflexivity.
  - apply (Husers [running_job] [running_job] cpuless_job
             {[ "alice" := {| userJobMetrics.pending := 0; userJobMetrics.pending_cpus := 0;
                              userJobMetrics.running := 1; userJobMetrics.running_cpus := 4;
                              userJobMetrics.suspended := 0 |} ]} "bob").
    + reflexivity.
    + reflexivity.
    + right. by exists JobStatePending, "failed to find cpu count in job".
Defined.

(** ** C7: the sums of the cluster CPU tally *)

(** The loop over the jobs adds to [alloc] the CPU counts of the running
    jobs, left to right. *)
Lemma cpus_job_loop_sum (jobs : list Job.t) (cm : cpusMetrics.t) (log : list LogRecord) :
  Forall (λ j, cpus_job_ok j = true) jobs →
  ∃ log', exec_range cpus_job_body jobs cm log
    = (Ok {| cpusMetrics.alloc := fold_left PrimFloat.add (running_job_cpus jobs)
                                    (cpusMetrics.alloc cm);
             cpusMetrics.idle := cpusMetrics.idle cm;
             cpusMetrics.other := cpusMetrics.other cm;
             cpusMetrics.total := cpusMetrics.total cm |}, log').
Proof.
  intros Hjobs. revert cm log.
  induction Hjobs as [|j jobs Hj _ IH]; intros cm log; simpl.
  - exists log. by destruct cm.
  - unfold mbind, exec_bind, cpus_job_body, cpus_job_ok in *.
    destruct (GetJobState j) as [state|e|k]; simpl; [|apply IH|done].
    destruct (GetJobCPUs j) as [cpus|e|k]; simpl; [| |done].
    + destruct (IH (if decide (state = JobStateRunning)
                    then {| cpusMetrics.alloc := cpusMetrics.alloc cm + cpus;
                            cpusMetrics.idle := cpusMetrics.idle cm;
                            cpusMetrics.other := cpusMetrics.other cm;
                            cpusMetrics.total := cpusMetrics.total cm |}%float
                    else cm) log) as [log' ->].
      exists log'. by destruct state.
    + destruct (IH cm (log ++ [("failed to get job cpus", e)])) as [log' ->].
      exists log'. by destruct state.
Qed.

(** State entries other than Mix, Alloc and Idle do not touch the
    tally. *)
Lemma cpus_state_loop_filter (n : Node.t) (nodeStates : list NodeState)
  (cm : cpusMetrics.t) :
  for_range (cpus_state_body n) nodeStates cm
  = for_range (cpus_state_body n) (filter (λ ns, counts_idle ns = true) nodeStates) cm.
Proof.
  revert cm. induction nodeStates as [|ns nodeStates IH]; intros cm; [done|].
  rewrite filter_cons. case_decide as Hns; simpl.
  - unfold cpus_state_body at 1 3. rewrite Hns.
    destruct (Node.AllocIdleCpus n); simpl; [apply IH|done].
  - unfold cpus_state_body at 1. apply not_true_is_false in Hns as ->. apply IH.
Qed.

Lemma existsb_filter_nil {A} (f : A → bool) (l : list A) :
  existsb f l = false ↔ filter (λ x, f x = true) l = [].
Proof.
  induction l as [|x l IH]; simpl; [done|]. rewrite filter_cons.
  destruct (f x) eqn:Hx; simpl; [done|]. apply IH.
Qed.

(** The loop over the nodes adds the CPU counts to [total] and the
    idle-CPU fields to [idle], left to right, single-CPU nodes apart. *)
Lemma cpus_node_loop_sum (nodes : list Node.t) (cm : cpusMetrics.t) :
  Forall (λ n, cpus_node_ok n = true) nodes →
  for_range cpus_node_body nodes cm
  = Ok {| cpusMetrics.alloc := cpusMetrics.alloc cm;
          cpusMetrics.idle := fold_left PrimFloat.add (counted_idle nodes)
                                (cpusMetrics.idle cm);
          cpusMetrics.other := cpusMetrics.other cm;
          cpusMetrics.total := fold_left PrimFloat.add (counted_total nodes)
                                 (cpusMetrics.total cm) |}.
Proof.
  intros Hnodes. revert cm.
  induction Hnodes as [|n nodes Hn _ IH]; intros cm; simpl.
  - by destruct cm.
  - unfold cpus_node_ok in Hn. unfold cpus_node_body at 1, single_cpu, has_idle_state.
    destruct (Node.Cpus n) as [c|] eqn:Hc; [|done]. simpl.
    destruct (Z.eqb_spec c 1) as [->|Hc1].
    { rewrite bool_decide_eq_true_2 by done. apply IH. }
    rewrite bool_decide_eq_false_2 by congruence.
    destruct (GetNodeStates n) as [nodeStates| |]; [|done..]. simpl.
    rewrite cpus_state_loop_filter.
    destruct (filter (λ ns, counts_idle ns = true) nodeStates) as [|ns [|]] eqn:Hf;
      [| |done].
    + apply existsb_filter_nil in Hf as ->. simpl. by rewrite IH.
    + assert (existsb counts_idle nodeStates = true) as ->.
      { apply not_false_is_true. intros Hex%existsb_filter_nil. congruence. }
      apply bool_decide_eq_true in Hn as [idle_cpus Hidle]. rewrite Hidle. simpl.
      assert (counts_idle ns = true) as Hns.
      { assert (ns ∈ filter (λ ns, counts_idle ns = true) nodeStates) as Hin
          by (rewrite Hf; apply list_elem_of_here).
        by apply list_elem_of_filter in Hin as [? _]. }
      unfold cpus_state_body. rewrite Hns, Hidle. simpl. by rewrite IH.
Qed.

(** C7, counterexample.  An idle node that reports one CPU is left out
    of [idle] as well as of [total], although its state sequence contains
    Idle; and a node whose state sequence contains two entries among Mix,
    Alloc and Idle has its idle CPUs added twice, not once. *)
Lemma C7_counterexample_idle_sum :
  (ParseCPUsMetrics [single_cpu_idle_node] [] []
   = (Ok {| cpusMetrics.alloc := 0; cpusMetrics.idle := 0;
            cpusMetrics.other := 0; cpusMetrics.total := 0 |}, [])
   ∧ fsum (spec_idle [single_cpu_idle_node]) = 1%float)
  ∧ (ParseCPUsMetrics [twice_idle_node] [] []
     = (Ok {| cpusMetrics.alloc := 0; cpusMetrics.idle := 4;
              cpusMetrics.other := 4; cpusMetrics.total := 8 |}, [])
     ∧ fsum (spec_idle [twice_idle_node]) = 2%float).
Proof. repeat split; reflexivity. Qed.

(** C7, as amended.  On a snapshot whose jobs and nodes are all
    processed, no node having two state entries among Mix, Alloc and
    Idle: [alloc] is the sum of the CPU counts of the jobs classified
    Running; [total] is the sum of the CPU counts of the nodes that do not
    report exactly one CPU; [idle] is the sum, over those same nodes, of
    the idle-CPU field of each node whose state sequence contains Mix,
    Alloc or Idle; and [other] is [total - idle - alloc].  One running job
    on 4 CPUs and two nodes of 8 CPUs, one of them idle with 2 idle CPUs,
    give alloc 4, total 16, idle 2, other 10. *)
Theorem C7_cpus_sums (nodes : list Node.t) (jobs : list Job.t) :
  Forall (λ j, cpus_job_ok j = true) jobs →
  Forall (λ n, cpus_node_ok n = true) nodes →
  (∃ log, ParseCPUsMetrics nodes jobs []
     = (Ok {| cpusMetrics.alloc := fsum (running_job_cpus jobs);
              cpusMetrics.idle := fsum (counted_idle nodes);
              cpusMetrics.other :=
                fsum (counted_total nodes) - fsum (counted_idle nodes)
                - fsum (running_job_cpus jobs);
              cpusMetrics.total := fsum (counted_total nodes) |}%float, log))
  ∧ ParseCPUsMetrics [idle_node; down_node] [running_job] []
    = (Ok {| cpusMetrics.alloc := 4; cpusMetrics.idle := 2;
             cpusMetrics.other := 10; cpusMetrics.total := 16 |}, []).
Proof.
  intros Hjobs Hnodes. split; [|reflexivity].
  unfold ParseCPUsMetrics, mbind at 1, exec_bind.
  destruct (cpus_job_loop_sum jobs NewCPUsMetrics [] Hjobs) as [log ->].
  exists log. unfold lift. by rewrite cpus_node_loop_sum.
Qed.

(** C7 at the snapshot of the example, with a job without a state
    added. *)
Lemma C7_cpus_sums_witness :
  (∃ log, ParseCPUsMetrics [idle_node; down_node] [running_job; stateless_job] []
     = (Ok {| cpusMetrics.alloc := 4; cpusMetrics.idle := 2;
              cpusMetrics.other := 10; cpusMetrics.total := 16 |}, log))
  ∧ ParseCPUsMetrics [idle_node; down_node] [running_job] []
    = (Ok {| cpusMetrics.alloc := 4; cpusMetrics.idle := 2;
             cpusMetrics.other := 10; cpusMetrics.total := 16 |}, []).
Proof.
  apply (C7_cpus_sums [idle_node; down_node] [running_job; stateless_job]).
  - by repeat constructor.
  - by repeat constructor.
Defined.

(** ** Keyed accumulation in a map *)

Section keyed_updates.
Context {V U : Type} (fresh : V) (g : U → V → V).

Lemma touch_insert (m : gmap string V) (ku : string * U) :
  touch fresh g m ku = <[ku.1 := g ku.2 (default fresh (m !! ku.1))]> m.
Proof. apply alter_ensure_key. Qed.

(** After a run of updates, the value under a key is the fold of the
    updates addressed to that key, from the value it had or a fresh
    one; a key that no update addresses is as it was. *)
Lemma fold_touch_lookup (ups : list (string * U)) (m : gmap string V) (k : string) :
  fold_left (touch fresh g) ups m !! k =
    match filter (λ ku, ku.1 = k) ups with
    | [] => m !! k
    | us => Some (fold_left (λ v ku, g ku.2 v) us (default fresh (m !! k)))
    end.
Proof.
  revert m. induction ups as [|[k' u] ups IH]; intros m; simpl; [done|].
  rewrite IH, touch_insert, filter_cons. simpl.
  destruct (decide (k' = k)) as [->|Hne].
  - rewrite lookup_insert_eq. simpl.
    by destruct (filter (λ ku, ku.1 = k) ups).
  - by rewrite lookup_insert_ne.
Qed.
End keyed_updates.

Lemma fold_left_map {A B S} (f : S → B → S) (h : A → B) (l : list A) (s : S) :
  fold_left f (map h l) s = fold_left (λ s x, f s (h x)) l s.
Proof. revert s. induction l as [|x l IH]; intros s; simpl; [done|]. apply IH. Qed.

(** ** C6: the partition cross-reference *)

(** The fan-out loop as a run of keyed updates, one per membership. *)
Lemma fan_out_memberships (nodes : list Node.t) (m : gmap string partitionMetrics.t) :
  fold_left fan_out_node nodes m
  = fold_left (touch NewPartitionsMetrics (λ c, add_node_cpus c.1 c.2)) (memberships nodes) m.
Proof.
  revert m. induction nodes as [|n nodes IH]; intros m; simpl; [done|].
  rewrite fold_left_app, IH, fold_left_map. done.
Qed.

Lemma last_cons_default {A} (x : A) (l : list A) :
  last (x :: l) = Some (default x (last l)).
Proof.
  revert x. induction l as [|y l IH]; intros x; [done|].
  change (last (x :: y :: l)) with (last (y :: l)). rewrite IH. simpl.
  by destruct (last l).
Qed.

Lemma set_cpus_total_twice (t t' : float) (p : partitionMetrics.t) :
  set_cpus_total t' (set_cpus_total t p) = set_cpus_total t' p.
Proof. done. Qed.

(** The seed loop: every partition record sets the total of its name;
    the last record of a name decides. *)
Lemma seed_loop_lookup (partitions : list Partition.t)
  (m : gmap string partitionMetrics.t) :
  Forall (λ p, is_Ok (GetPartitionName p) && is_Ok (GetPartitionTotalCPUs p) = true)
    partitions →
  ∃ m', for_range seed_body partitions m = Ok m'
    ∧ ∀ k, m' !! k =
        match seeded_total partitions k with
        | Some total => Some (set_cpus_total total (default NewPartitionsMetrics (m !! k)))
        | None => m !! k
        end.
Proof.
  intros Hparts. revert m.
  induction Hparts as [|p partitions Hp _ IH]; intros m; simpl.
  - by exists m.
  - unfold seed_body at 1, seeded_total.
    apply andb_prop in Hp as [Hname Htotal].
    destruct (GetPartitionName p) as [name| |] eqn:Hn; [|done..].
    destruct (GetPartitionTotalCPUs p) as [total| |] eqn:Ht; [|done..]. simpl.
    rewrite alter_ensure_key.
    destruct (IH (<[name := set_cpus_total total (default NewPartitionsMetrics (m !! name))]> m))
      as (m' & -> & Hm').
    exists m'. split; [done|]. intros k. rewrite Hm'. unfold seeded_total. simpl.
    rewrite Ht.
    unfold GetPartitionName in Hn. destruct (Partition.Name p) as [name'|]; [|done].
    injection Hn as ->.
    destruct (decide (name = k)) as [->|Hne].
    + rewrite bool_decide_eq_true_2 by done. rewrite last_cons_default, lookup_insert_eq.
      by destruct (last _).
    + rewrite bool_decide_eq_false_2 by congruence. by rewrite lookup_insert_ne.
Qed.

(** The node-to-partitions loop ends normally when every node has a
    name. *)
Lemma node_partitions_loop_Ok (nodes : list Node.t) (m : gmap string (list string)) :
  Forall (λ n, is_Ok (GetNodeName n) = true) nodes →
  ∃ m', for_range node_partitions_body nodes m = Ok m'.
Proof.
  intros Hnodes. revert m. induction Hnodes as [|n nodes Hn _ IH]; intros m; simpl.
  - by exists m.
  - unfold node_partitions_body at 1.
    destruct (GetNodeName n); [|done..]. simpl. apply IH.
Qed.

Lemma derive_other_twice (p : partitionMetrics.t) :
  derive_other (derive_other p) = derive_other p.
Proof. done. Qed.

(** The derive loop visits keys; a key visited at least once holds the
    derived record, whatever the order and the number of visits. *)
Lemma derive_loop_lookup (ks : list string) (m : gmap string partitionMetrics.t)
  (k : string) :
  fold_left derive_at ks m !! k =
    if decide (k ∈ ks) then derive_other <$> m !! k else m !! k.
Proof.
  revert m. induction ks as [|i ks IH]; intros m; simpl; [done|].
  rewrite IH. unfold derive_at. rewrite lookup_alter.
  destruct (decide (i = k)) as [->|Hne].
  - rewrite (decide_True (P := k ∈ k :: ks)) by apply list_elem_of_here.
    case_decide; [|done]. destruct (m !! k); simpl; [|done].
    by rewrite derive_other_twice.
  - destruct (decide (k ∈ ks)) as [Hin|Hnin].
    + rewrite decide_True; [done|]. by apply list_elem_of_further.
    + rewrite decide_False; [done|]. rewrite elem_of_cons. by intros [->|?].
Qed.

(** Whatever order the runtime picks, the derive loop derives every
    record of the map. *)
Lemma derive_loop_fmap (range_keys : gmap string partitionMetrics.t → list string)
  (m : gmap string partitionMetrics.t) :
  valid_range_order range_keys →
  fold_left derive_at (range_keys m) m = derive_other <$> m.
Proof.
  intros Hvalid. apply map_eq. intros k.
  rewrite derive_loop_lookup, lookup_fmap. case_decide as Hk; [done|].
  destruct (m !! k) as [p|] eqn:Hp; [|done]. exfalso. apply Hk.
  rewrite (Hvalid m). apply list_elem_of_fmap. exists (k, p). split; [done|].
  by apply elem_of_map_to_list.
Qed.

(** The pending loop as a run of keyed updates, one per partition name
    of each job. *)
Lemma pending_loop_refs (jobs : list Job.t) (m : gmap string partitionMetrics.t) :
  Forall (λ j, is_Ok (GetJobPartitionName j) = true) jobs →
  for_range pending_body jobs m
  = Ok (fold_left (touch NewPartitionsMetrics (λ _ : string, add_pending))
          (map (λ q, (q, q)) (flat_map job_partitions jobs)) m).
Proof.
  intros Hjobs. revert m. induction Hjobs as [|j jobs Hj _ IH]; intros m; simpl; [done|].
  unfold GetJobPartitionName in Hj.
  unfold pending_body at 1, job_partitions at 1, GetJobPartitionName.
  destruct (Job.Partition j) as [pname|]; [|done]. simpl.
  rewrite IH, map_app, fold_left_app, !fold_left_map. done.
Qed.

Lemma fold_add_node_cpus (us : list (string * (Z * Z))) (r : partitionMetrics.t) :
  fold_left (λ v ku, add_node_cpus ku.2.1 ku.2.2 v) us r
  = {| partitionMetrics.cpus_allocated :=
         fold_left PrimFloat.add (map (λ c, float64_of_uint64 c.1) (map snd us))
           (partitionMetrics.cpus_allocated r);
       partitionMetrics.cpus_idle :=
         fold_left PrimFloat.add (map (λ c, float64_of_uint64 c.2) (map snd us))
           (partitionMetrics.cpus_idle r);
       partitionMetrics.cpus_other := partitionMetrics.cpus_other r;
       partitionMetrics.cpus_total := partitionMetrics.cpus_total r;
       partitionMetrics.jobs_pending := partitionMetrics.jobs_pending r |}.
Proof.
  revert r. induction us as [|[k [a i]] us IH]; intros r; simpl.
  - by destruct r.
  - by rewrite IH.
Qed.

Lemma fold_add_pending (rs : list (string * string)) (r : partitionMetrics.t) :
  fold_left (λ v (_ : string * string), add_pending v) rs r
  = {| partitionMetrics.cpus_allocated := partitionMetrics.cpus_allocated r;
       partitionMetrics.cpus_idle := partitionMetrics.cpus_idle r;
       partitionMetrics.cpus_other := partitionMetrics.cpus_other r;
       partitionMetrics.cpus_total := partitionMetrics.cpus_total r;
       partitionMetrics.jobs_pending :=
         fold_left PrimFloat.add (map (λ _, 1%float) rs)
           (partitionMetrics.jobs_pending r) |}.
Proof.
  revert r. induction rs as [|q rs IH]; intros r; simpl.
  - by destruct r.
  - by rewrite IH.
Qed.

Lemma filter_map_dup (k : string) (l : list string) :
  filter (λ ku : string * string, ku.1 = k) (map (λ q, (q, q)) l)
  = map (λ q, (q, q)) (filter (λ q, q = k) l).
Proof.
  induction l as [|q l IH]; simpl; [done|].
  rewrite !filter_cons. simpl. case_decide; simpl; by rewrite IH.
Qed.

(** The whole cross-reference, key by key: on a snapshot whose partition
    records have a name and a total, whose nodes have a name and whose
    jobs have a partition field, the call returns a map that holds
    exactly the known partitions, each with the expected metrics. *)
Lemma ParsePartitionsMetrics_lookup
  (range_keys : gmap string partitionMetrics.t → list string)
  (partitions : list Partition.t) (jobs : list Job.t) (nodes : list Node.t) :
  valid_range_order range_keys →
  Forall (λ p, is_Ok (GetPartitionName p) && is_Ok (GetPartitionTotalCPUs p) = true)
    partitions →
  Forall (λ n, is_Ok (GetNodeName n) = true) nodes →
  Forall (λ j, is_Ok (GetJobPartitionName j) = true) jobs →
  ∃ m, ParsePartitionsMetrics range_keys partitions jobs nodes = Ok m
    ∧ ∀ name, m !! name =
        if partition_known partitions jobs nodes name
        then Some (expected_partition partitions jobs nodes name)
        else None.
Proof.
  intros Hvalid Hparts Hnodes Hjobs. unfold ParsePartitionsMetrics.
  destruct (seed_loop_lookup partitions ∅ Hparts) as (m1 & -> & Hm1).
  destruct (node_partitions_loop_Ok nodes ∅ Hnodes) as (np & ->). simpl.
  rewrite (derive_loop_fmap range_keys _ Hvalid), pending_loop_refs by done.
  eexists. split; [done|]. intros name.
  rewrite fold_touch_lookup, filter_map_dup, lookup_fmap, fan_out_memberships,
    fold_touch_lookup, Hm1, lookup_empty.
  unfold partition_known, expected_partition, member_cpus, pending_refs, fsum.
  destruct (seeded_total partitions name) as [total|];
    destruct (filter (λ u, u.1 = name) (memberships nodes)) as [|u us];
    destruct (filter (λ q, q = name) (flat_map job_partitions jobs)) as [|q qs];
    simpl; try done;
    rewrite ?fold_add_pending, ?fold_add_node_cpus; simpl; try done;
    by rewrite !map_map.
Qed.

Lemma keys_in_order_valid : valid_range_order Sample.keys_in_order.
Proof. intros m. done. Qed.

(** C6.  On a snapshot whose partition records have a name and a total,
    whose nodes have a name and whose jobs have a partition field, and
    whatever order the runtime ranges over the map in: the result holds
    exactly the partitions named by a record, a node or a job; each has
    the total it was seeded with, the full allocated and idle cpus of
    every node that lists it (once per listing, so a shared node counts
    fully in each of its partitions), other = total - allocated - idle,
    and one pending job per reference of a job to it.  Partition A of 10
    cpus with member nodes (4, 2) and (3, 1) gets allocated 7, idle 3,
    other 0; a job on "A,B" increments the pending jobs of A and of B,
    and B, absent without the job, is created for it. *)
Theorem C6_partition_cross_reference
  (range_keys : gmap string partitionMetrics.t → list string)
  (partitions : list Partition.t) (jobs : list Job.t) (nodes : list Node.t) :
  valid_range_order range_keys →
  Forall (λ p, is_Ok (GetPartitionName p) && is_Ok (GetPartitionTotalCPUs p) = true)
    partitions →
  Forall (λ n, is_Ok (GetNodeName n) = true) nodes →
  Forall (λ j, is_Ok (GetJobPartitionName j) = true) jobs →
  (∃ m, ParsePartitionsMetrics range_keys partitions jobs nodes = Ok m
     ∧ ∀ name, m !! name =
         if partition_known partitions jobs nodes name
         then Some (expected_partition partitions jobs nodes name)
         else None)
  ∧ (∃ m, ParsePartitionsMetrics range_keys [partition_A] [job_A_B] [node_4_2; node_3_1]
          = Ok m
       ∧ m !! "A" = Some {| partitionMetrics.cpus_allocated := 7;
                            partitionMetrics.cpus_idle := 3;
                            partitionMetrics.cpus_other := 0;
                            partitionMetrics.cpus_total := 10;
                            partitionMetrics.jobs_pending := 1 |}
       ∧ m !! "B" = Some {| partitionMetrics.cpus_allocated := 0;
                            partitionMetrics.cpus_idle := 0;
                            partitionMetrics.cpus_other := 0;
                            partitionMetrics.cpus_total := 0;
                            partitionMetrics.jobs_pending := 1 |})
  ∧ (∃ m, ParsePartitionsMetrics range_keys [partition_A] [] [node_4_2; node_3_1] = Ok m
       ∧ m !! "B" = None).
Proof.
  intros Hvalid Hparts Hnodes Hjobs. split; [|split].
  - by apply ParsePartitionsMetrics_lookup.
  - destruct (ParsePartitionsMetrics_lookup range_keys [partition_A] [job_A_B]
                [node_4_2; node_3_1] Hvalid) as (m & -> & Hm);
      [by repeat constructor..|].
    exists m. split; [done|]. by rewrite !Hm.
  - destruct (ParsePartitionsMetrics_lookup range_keys [partition_A] []
                [node_4_2; node_3_1] Hvalid) as (m & -> & Hm);
      [by repeat constructor..|].
    exists m. split; [done|]. by rewrite Hm.
Qed.

(** C6 at the snapshot of the example with a second partition record,
    ranging over the map in the order of [map_to_list]. *)
Lemma C6_partition_cross_reference_witness :
  ∃ m, ParsePartitionsMetrics Sample.keys_in_order [partition_A; Sample.mk_partition "C" 4]
         [job_A_B] [node_4_2; node_3_1] = Ok m
    ∧ m !! "A" = Some {| partitionMetrics.cpus_allocated := 7;
                         partitionMetrics.cpus_idle := 3;
                         partitionMetrics.cpus_other := 0;
                         partitionMetrics.cpus_total := 10;
                         partitionMetrics.jobs_pending := 1 |}
    ∧ m !! "C" = Some {| partitionMetrics.cpus_allocated := 0;
                         partitionMetrics.cpus_idle := 0;
                         partitionMetrics.cpus_other := 4;
                         partitionMetrics.cpus_total := 4;
                         partitionMetrics.jobs_pending := 0 |}
    ∧ m !! "D" = None.
Proof.
  destruct (C6_partition_cross_reference Sample.keys_in_order
              [partition_A; Sample.mk_partition "C" 4] [job_A_B] [node_4_2; node_3_1]
              keys_in_order_valid) as [(m & Hrun & Hm) _];
    [by repeat constructor..|].
  exists m. split; [done|]. by rewrite !Hm.
Defined.

(** ** C10: determinism and purity *)

Lemma keys_reversed_valid {V} : valid_range_order (keys_reversed (V := V)).
Proof. intros m. unfold keys_reversed. apply reverse_Permutation. Qed.

(** The result of the cross-reference does not depend on the order in
    which the runtime ranges over the map, on any input. *)
Lemma ParsePartitionsMetrics_order_irrelevant
  (rk1 rk2 : gmap string partitionMetrics.t → list string)
  (partitions : list Partition.t) (jobs : list Job.t) (nodes : list Node.t) :
  valid_range_order rk1 → valid_range_order rk2 →
  ParsePartitionsMetrics rk1 partitions jobs nodes
  = ParsePartitionsMetrics rk2 partitions jobs nodes.
Proof.
  intros H1 H2. unfold ParsePartitionsMetrics.
  destruct (for_range seed_body partitions ∅) as [m1| |]; simpl; [|done..].
  destruct (for_range node_partitions_body nodes ∅); simpl; [|done..].
  by rewrite !derive_loop_fmap.
Qed.

(** ** The package on the store against the package on values *)

Section store_proofs.
Context `{!store.Allocator}.

Lemma run_bind_unfold {A B} (m : store.Run A) (f : A → store.Run B) (w : store.world) :
  (m ≫= f) w
  = match m w with
    | (Ok a, w') => f a w'
    | (Err e, w') => (Err e, w')
    | (Panic k, w') => (Panic k, w')
    end.
Proof. done. Qed.

Lemma world_eta (w : store.world) :
  {| store.mem := store.mem w; store.log := store.log w |} = w.
Proof. by destruct w. Qed.

Lemma read_ptr_mono {A} `{!store.Cell A} (h h' : store.heap) (p : store.ptr A) o :
  store.read_ptr h p = Some o → h ⊆ h' → store.read_ptr h' p = Some o.
Proof.
  unfold store.read_ptr. destruct p as [l|]; [|done]. intros Hr Hsub.
  destruct (h !! l) as [c|] eqn:Hl; [|done].
  by rewrite (lookup_weaken _ _ _ _ Hl Hsub).
Qed.

Lemma holds_mono {A} `{!store.Cell A} (h h' : store.heap) (p : store.ptr A) a :
  holds h p a → h ⊆ h' → holds h' p a.
Proof. apply read_ptr_mono. Qed.

Lemma load_read {A} `{!store.Cell A} (h : store.heap) (p : store.ptr A) o (w : store.world) :
  store.read_ptr h p = Some o → h ⊆ store.mem w → store.load p w = (deref o, w).
Proof.
  intros Hr Hsub. apply (read_ptr_mono _ _ _ _ Hr) in Hsub. clear Hr.
  unfold store.read_ptr, store.load in *. destruct p as [l|]; [|by simplify_eq].
  destruct (store.mem w !! l ≫= store.proj) as [a|]; by simplify_eq/=.
Qed.

Lemma load_holds {A} `{!store.Cell A} (h : store.heap) (p : store.ptr A) a (w : store.world) :
  holds h p a → h ⊆ store.mem w → store.load p w = (Ok a, w).
Proof. intros Hh Hsub. by rewrite (load_read _ _ _ _ Hh Hsub). Qed.

Lemma read_ptr_Some {A} `{!store.Cell A} (h : store.heap) (l : store.loc) (o : option A) :
  store.read_ptr h (Some l) = Some o → ∃ a, o = Some a ∧ h !! l = Some (store.inj a).
Proof.
  unfold store.read_ptr. destruct (h !! l) as [c|] eqn:Hl; simpl; [|done].
  destruct (store.proj c) as [a|] eqn:Hc; simpl; [|done].
  intros [= <-]. exists a. split; [done|]. f_equal. by apply store.inj_proj.
Qed.

Lemma read_ptr_None {A} `{!store.Cell A} (h : store.heap) (o : option A) :
  store.read_ptr h (None : store.ptr A) = Some o → o = None.
Proof. by intros [= <-]. Qed.

Lemma holds_insert {A} `{!store.Cell A} (h : store.heap) (l : store.loc) (a : A) :
  holds (<[l := store.inj a]> h) (Some l) a.
Proof. unfold holds, store.read_ptr. by rewrite lookup_insert_eq; simpl; rewrite store.proj_inj. Qed.

(** A fresh cell, as the part of the store a call has allocated. *)
Lemma new_run {A} `{!store.Cell A} (a : A) (w : store.world) :
  ∃ l, store.new a w = (Ok l, {| store.mem := {[l := store.inj a]} ∪ store.mem w;
                                  store.log := store.log w |})
       ∧ store.mem w !! l = None.
Proof.
  exists (store.alloc (store.mem w)). split; [|apply store.alloc_fresh].
  unfold store.new. by rewrite insert_union_singleton_l.
Qed.

Lemma reads_pure {A} (hp : store.heap) (o : outcome A) (w : store.world) :
  reads (λ _, eq) hp (store.pure o) o w.
Proof.
  exists o, ∅. rewrite (left_id ∅ (∪)), world_eta. split; [done|].
  split; [apply map_disjoint_empty_l|]. by destruct o.
Qed.

Lemma read_job_fields h j' j :
  store.read_job h j' = Some j →
  store.read_ptr h (store.Job.Account j') = Some (Job.Account j)
  ∧ store.read_ptr h (store.Job.Partition j') = Some (Job.Partition j)
  ∧ store.read_ptr h (store.Job.JobState j') = Some (Job.JobState j)
  ∧ store.read_struct store.read_Uint32NoVal h (store.Job.Cpus j') = Some (Job.Cpus j)
  ∧ store.read_ptr h (store.Job.UserName j') = Some (Job.UserName j)
  ∧ store.read_ptr h (store.Job.Dependency j') = Some (Job.Dependency j).
Proof. unfold store.read_job. intros Hr. by simplify_option_eq. Qed.

(** The result of a call that allocates nothing. *)
Lemma reads_here {A B} (R : store.heap → A → B → Prop) (hp : store.heap)
  (m : store.Run A) (o : outcome B) (w : store.world) (r : outcome A) :
  m w = (r, w) → related (R hp) r o → reads R hp m o w.
Proof.
  intros Hm Hr. exists r, ∅. rewrite !(left_id ∅ (∪)), world_eta.
  split; [done|]. split; [apply map_disjoint_empty_l|done].
Qed.

(** The result of a call that ends by handing out a fresh cell. *)
Lemma reads_new {A} `{!store.Cell A} (hp : store.heap) (a : A) (w : store.world) :
  hp ⊆ store.mem w →
  reads holds hp (store.new a ≫= λ p, mret (Some p)) (Ok a) w.
Proof.
  intros Hsub. destruct (new_run a w) as (l & Hl & Hfresh).
  exists (Ok (Some l)), {[l := store.inj a]}. rewrite run_bind_unfold, Hl.
  split; [done|]. split; [by apply map_disjoint_singleton_l|].
  simpl. eapply holds_mono; [|apply map_union_subseteq_l].
  unfold holds, store.read_ptr. rewrite lookup_singleton_eq. simpl. by rewrite store.proj_inj.
Qed.

Lemma reads_ext {A B} (R : store.heap → A → B → Prop) (hp : store.heap)
  (m m' : store.Run A) (o : outcome B) (w : store.world) :
  m w = m' w → reads R hp m' o w → reads R hp m o w.
Proof. intros Heq (r & hn & Hrun & ?). exists r, hn. by rewrite Heq. Qed.

(** [*p] on a pointer the call was given to read. *)
Lemma reads_load {A B C} `{!store.Cell C} (R : store.heap → A → B → Prop)
  (hp : store.heap) (p : store.ptr C) (c : C) (f : C → store.Run A) (o : outcome B)
  (w : store.world) :
  holds hp p c → hp ⊆ store.mem w → reads R hp (f c) o w →
  reads R hp (store.load p ≫= f) o w.
Proof.
  intros Hp Hsub. apply reads_ext. by rewrite run_bind_unfold, (load_holds _ _ _ _ Hp Hsub).
Qed.

Lemma reads_load_nil {A B C} `{!store.Cell C} (R : store.heap → A → B → Prop)
  (hp : store.heap) (f : C → store.Run A) (w : store.world) :
  reads R hp (store.load (None : store.ptr C) ≫= f) (Panic NilDereference : outcome B) w.
Proof. by eapply reads_here. Qed.

Lemma GetJobState_reads hp j' j w :
  store.read_job hp j' = Some j → hp ⊆ store.mem w →
  reads holds hp (store.GetJobState j') (GetJobState j) w.
Proof.
  intros (_ & _ & Hs & _)%read_job_fields Hsub.
  unfold store.GetJobState, GetJobState.
  destruct (store.Job.JobState j') as [l|].
  - destruct (read_ptr_Some _ _ _ Hs) as (states & Hst & _). rewrite Hst in *.
    eapply reads_load; [done..|].
    destruct states as [|state0 states]; [by eapply reads_here|].
    destruct (first_match job_state_rules (ToLower state0)) as [u|].
    + by apply reads_new.
    + by eapply reads_here.
  - apply read_ptr_None in Hs. rewrite Hs. by eapply reads_here.
Qed.

Lemma read_struct_Some {A B} `{!store.Cell A} (f : store.heap → A → option B)
  (h : store.heap) (l : store.loc) (o : option B) :
  store.read_struct f h (Some l) = Some o →
  ∃ a b, o = Some b ∧ holds h (Some l) a ∧ f h a = Some b.
Proof.
  unfold store.read_struct, holds, store.read_ptr.
  destruct (h !! l ≫= store.proj) as [a|]; simpl; [|done].
  destruct (f h a) as [b|] eqn:Hf; simpl; [|done]. intros [= <-]. by exists a, b.
Qed.

Lemma read_struct_None {A B} `{!store.Cell A} (f : store.heap → A → option B)
  (h : store.heap) (o : option B) :
  store.read_struct f h (None : store.ptr A) = Some o → o = None.
Proof. by intros [= <-]. Qed.

(** Sequencing of two calls that read and allocate. *)
Lemma reads_bind {A A' B B'} (R1 : store.heap → A → B → Prop)
  (R2 : store.heap → A' → B' → Prop) (hp : store.heap) (m : store.Run A)
  (f : A → store.Run A') (o : outcome B) (g : B → outcome B') (w : store.world) :
  reads R1 hp m o w →
  (∀ a b hn, R1 (hn ∪ hp) a b → hn ##ₘ store.mem w →
     reads R2 (hn ∪ hp) (f a) (g b)
       {| store.mem := hn ∪ store.mem w; store.log := store.log w |}) →
  reads R2 hp (m ≫= f) (o ≫= g) w.
Proof.
  intros (r & hn & Hrun & Hdisj & Hrel) Hk. unfold reads. rewrite run_bind_unfold, Hrun.
  destruct r as [a|e|k], o as [b|e'|k']; simpl in Hrel; try done.
  - destruct (Hk a b hn Hrel Hdisj) as (r2 & hn2 & Hrun2 & Hdisj2 & Hrel2).
    simpl in *. exists r2, (hn2 ∪ hn). rewrite Hrun2, <- !(assoc_L (∪)).
    split; [done|]. split; [|done].
    apply map_disjoint_union_l. split; [|done].
    eapply map_disjoint_weaken_r; [done|]. apply map_union_subseteq_r, Hdisj.
  - exists (Err e), hn. by subst.
  - exists (Panic k), hn. by subst.
Qed.

Lemma reads_wrap {A B} (R : store.heap → A → B → Prop) (hp : store.heap) (msg : string)
  (m : store.Run A) (o : outcome B) (w : store.world) :
  reads R hp m o w → reads R hp (store.wrap msg m) (wrap_err msg o) w.
Proof.
  intros (r & hn & Hrun & Hdisj & Hrel). unfold reads, store.wrap. rewrite Hrun.
  destruct r as [a|e|k], o as [b|e'|k']; simpl in Hrel; try done.
  - by exists (Ok a), hn.
  - exists (Err (msg +:+ e)), hn. by subst.
  - by exists (Panic k), hn.
Qed.

Lemma reads_ret {A B} (R : store.heap → A → B → Prop) (hp : store.heap) (a : A) (b : B)
  (w : store.world) :
  R hp a b → reads R hp (mret a) (Ok b) w.
Proof. intros HR. by eapply reads_here. Qed.

Lemma GetJobAccountName_reads hp j' j w :
  store.read_job hp j' = Some j →
  reads holds hp (store.GetJobAccountName j') (GetJobAccountName j) w.
Proof.
  intros (Ha & _)%read_job_fields. unfold store.GetJobAccountName, GetJobAccountName.
  destruct (store.Job.Account j') as [l|].
  - destruct (read_ptr_Some _ _ _ Ha) as (a & Heq & _). rewrite Heq in *.
    by eapply reads_here.
  - apply read_ptr_None in Ha. rewrite Ha. by eapply reads_here.
Qed.

Lemma GetJobPartitionName_reads hp j' j w :
  store.read_job hp j' = Some j →
  reads holds hp (store.GetJobPartitionName j') (GetJobPartitionName j) w.
Proof.
  intros (_ & Ha & _)%read_job_fields.
  unfold store.GetJobPartitionName, GetJobPartitionName.
  destruct (store.Job.Partition j') as [l|].
  - destruct (read_ptr_Some _ _ _ Ha) as (a & Heq & _). rewrite Heq in *.
    by eapply reads_here.
  - apply read_ptr_None in Ha. rewrite Ha. by eapply reads_here.
Qed.

Lemma GetJobCPUs_reads hp j' j w :
  store.read_job hp j' = Some j → hp ⊆ store.mem w →
  reads holds hp (store.GetJobCPUs j') (GetJobCPUs j) w.
Proof.
  intros (_ & _ & _ & Hc & _)%read_job_fields Hsub.
  unfold store.GetJobCPUs, GetJobCPUs.
  destruct (store.Job.Cpus j') as [l|].
  - destruct (read_struct_Some _ _ _ _ Hc) as (c' & c & Heq & Hl & Hread).
    rewrite Heq. eapply reads_load; [done..|]. simpl.
    unfold store.read_Uint32NoVal in Hread.
    destruct (store.read_ptr hp (store.Number c')) as [n|] eqn:Hn; [|done].
    injection Hread as <-. simpl.
    destruct (store.Number c') as [ln|].
    + destruct (read_ptr_Some _ _ _ Hn) as (v & -> & _).
      eapply reads_load; [done..|]. by apply reads_new.
    + apply read_ptr_None in Hn as ->. by eapply reads_here.
  - apply read_struct_None in Hc. rewrite Hc. apply reads_load_nil.
Qed.

Lemma read_node_fields h n' n :
  store.read_node h n' = Some n →
  store.read_ptr h (store.Node.Name n') = Some (Node.Name n)
  ∧ store.read_ptr h (store.Node.Hostname n') = Some (Node.Hostname n)
  ∧ store.read_ptr h (store.Node.State n') = Some (Node.State n)
  ∧ store.read_ptr h (store.Node.Tres n') = Some (Node.Tres n)
  ∧ store.read_ptr h (store.Node.TresUsed n') = Some (Node.TresUsed n)
  ∧ store.read_ptr h (store.Node.Partitions n') = Some (Node.Partitions n)
  ∧ store.read_ptr h (store.Node.AllocMemory n') = Some (Node.AllocMemory n)
  ∧ store.read_ptr h (store.Node.RealMemory n') = Some (Node.RealMemory n)
  ∧ store.read_ptr h (store.Node.AllocCpus n') = Some (Node.AllocCpus n)
  ∧ store.read_ptr h (store.Node.AllocIdleCpus n') = Some (Node.AllocIdleCpus n)
  ∧ store.read_ptr h (store.Node.Cpus n') = Some (Node.Cpus n).
Proof. unfold store.read_node. intros Hr. by simplify_option_eq. Qed.

Lemma read_partition_fields h p' p :
  store.read_partition h p' = Some p →
  store.read_ptr h (store.Partition.Name p') = Some (Partition.Name p)
  ∧ store.read_struct store.read_partition_cpus h (store.Partition.Cpus p')
    = Some (Partition.Cpus p).
Proof. unfold store.read_partition. intros Hr. by simplify_option_eq. Qed.

Lemma read_share_fields h s' s :
  store.read_share h s' = Some s →
  store.read_ptr h (store.Share.Name s') = Some (Share.Name s)
  ∧ store.read_struct store.read_fairshare h (store.Share.Fairshare s')
    = Some (Share.Fairshare s).
Proof. unfold store.read_share. intros Hr. by simplify_option_eq. Qed.

Lemma GetNodeName_reads hp n' n w :
  store.read_node hp n' = Some n →
  reads holds hp (store.GetNodeName n') (GetNodeName n) w.
Proof.
  intros (Ha & _)%read_node_fields. unfold store.GetNodeName, GetNodeName.
  destruct (store.Node.Name n') as [l|].
  - destruct (read_ptr_Some _ _ _ Ha) as (a & Heq & _). rewrite Heq in *.
    by eapply reads_here.
  - apply read_ptr_None in Ha. rewrite Ha. by eapply reads_here.
Qed.

Lemma GetPartitionName_reads hp p' p w :
  store.read_partition hp p' = Some p →
  reads holds hp (store.GetPartitionName p') (GetPartitionName p) w.
Proof.
  intros (Ha & _)%read_partition_fields. unfold store.GetPartitionName, GetPartitionName.
  destruct (store.Partition.Name p') as [l|].
  - destruct (read_ptr_Some _ _ _ Ha) as (a & Heq & _). rewrite Heq in *.
    by eapply reads_here.
  - apply read_ptr_None in Ha. rewrite Ha. by eapply reads_here.
Qed.

Lemma GetPartitionTotalCPUs_reads hp p' p w :
  store.read_partition hp p' = Some p → hp ⊆ store.mem w →
  reads holds hp (store.GetPartitionTotalCPUs p') (GetPartitionTotalCPUs p) w.
Proof.
  intros (_ & Hc)%read_partition_fields Hsub.
  unfold store.GetPartitionTotalCPUs, GetPartitionTotalCPUs.
  destruct (store.Partition.Cpus p') as [l|].
  - destruct (read_struct_Some _ _ _ _ Hc) as (c' & c & Heq & Hl & Hread).
    rewrite Heq. eapply reads_load; [done..|]. simpl.
    unfold store.read_partition_cpus in Hread.
    destruct (store.read_ptr hp (store.Partition.Total c')) as [n|] eqn:Hn; [|done].
    injection Hread as <-. simpl.
    destruct (store.Partition.Total c') as [ln|].
    + destruct (read_ptr_Some _ _ _ Hn) as (v & -> & _).
      eapply reads_load; [done..|]. by apply reads_new.
    + apply read_ptr_None in Hn as ->. by eapply reads_here.
  - apply read_struct_None in Hc. rewrite Hc. apply reads_load_nil.
Qed.

Lemma GetNodeStates_reads hp n' n w :
  store.read_node hp n' = Some n → hp ⊆ store.mem w →
  reads holds hp (store.GetNodeStates n') (GetNodeStates n) w.
Proof.
  intros (_ & _ & Hs & _)%read_node_fields Hsub.
  unfold store.GetNodeStates, GetNodeStates.
  destruct (store.Node.State n') as [l|].
  - destruct (read_ptr_Some _ _ _ Hs) as (states & Hst & _). rewrite Hst in *.
    eapply reads_load; [done..|].
    destruct (for_range classify_node_state states []) as [sts|e|k].
    + by apply reads_new.
    + by eapply reads_here.
    + by eapply reads_here.
  - apply read_ptr_None in Hs. rewrite Hs. by eapply reads_here.
Qed.

Lemma GetNodeStatesString_reads name_of delim hp n' n w :
  store.read_node hp n' = Some n → hp ⊆ store.mem w →
  reads (λ _, eq) hp (store.GetNodeStatesString name_of n' delim)
    (GetNodeStatesString name_of n delim) w.
Proof.
  intros Hn Hsub. unfold store.GetNodeStatesString, GetNodeStatesString.
  eapply reads_bind; [by apply reads_wrap, GetNodeStates_reads|].
  intros p sts hn Hp Hdisj. eapply reads_load; [done| |by apply reads_ret].
  by apply map_union_mono_l.
Qed.

Lemma GetNodeGPUTotal_reads hp n' n w :
  store.read_node hp n' = Some n → hp ⊆ store.mem w →
  reads (λ _, eq) hp (store.GetNodeGPUTotal n') (GetNodeGPUTotal n) w.
Proof.
  intros (_ & _ & _ & Ht & _)%read_node_fields Hsub.
  unfold store.GetNodeGPUTotal, GetNodeGPUTotal.
  destruct (store.Node.Tres n') as [l|].
  - destruct (read_ptr_Some _ _ _ Ht) as (s & Heq & _). rewrite Heq in *.
    eapply reads_load; [done..|]. apply reads_pure.
  - apply read_ptr_None in Ht. rewrite Ht. apply reads_load_nil.
Qed.

Lemma GetNodeGPUAllocated_reads hp n' n w :
  store.read_node hp n' = Some n → hp ⊆ store.mem w →
  reads (λ _, eq) hp (store.GetNodeGPUAllocated n') (GetNodeGPUAllocated n) w.
Proof.
  intros (_ & _ & _ & _ & Ht & _)%read_node_fields Hsub.
  unfold store.GetNodeGPUAllocated, GetNodeGPUAllocated.
  destruct (store.Node.TresUsed n') as [l|].
  - destruct (read_ptr_Some _ _ _ Ht) as (s & Heq & _). rewrite Heq in *.
    eapply reads_load; [done..|]. apply reads_pure.
  - apply read_ptr_None in Ht. rewrite Ht. apply reads_load_nil.
Qed.

Lemma GetNodePartitions_reads hp n' n w :
  store.read_node hp n' = Some n → hp ⊆ store.mem w →
  reads holds hp (store.GetNodePartitions n') (Ok (GetNodePartitions n)) w.
Proof.
  intros (_ & _ & _ & _ & _ & Hp & _)%read_node_fields Hsub.
  unfold store.GetNodePartitions, GetNodePartitions.
  destruct (store.Node.Partitions n') as [l|].
  - destruct (read_ptr_Some _ _ _ Hp) as (ps & Heq & _). rewrite Heq in *.
    by eapply reads_here.
  - apply read_ptr_None in Hp. rewrite Hp. by apply reads_new.
Qed.

(** The six getters of a node read one field each. *)
Lemma getter_reads hp (p : store.ptr Z) (o : option Z) w :
  store.read_ptr hp p = Some o → hp ⊆ store.mem w →
  reads (λ _, eq) hp
    (match p with
     | None => mret 0
     | Some _ => store.load p ≫= λ v, mret (uint64 v)
     end)
    (Ok (match o with None => 0 | Some v => uint64 v end)) w.
Proof.
  intros Hp Hsub. destruct p as [l|].
  - destruct (read_ptr_Some _ _ _ Hp) as (v & Heq & _). rewrite Heq in *.
    eapply reads_load; [done..|]. by apply reads_ret.
  - apply read_ptr_None in Hp. rewrite Hp. by apply reads_ret.
Qed.

Lemma GetValueOrZero_reads hp (p : store.ptr Z) (o : option Z) w :
  store.read_ptr hp p = Some o → hp ⊆ store.mem w →
  reads (λ _, eq) hp (store.GetValueOrZero p) (Ok (GetValueOrZero o)) w.
Proof.
  intros Hp Hsub. unfold store.GetValueOrZero, GetValueOrZero. destruct p as [l|].
  - destruct (read_ptr_Some _ _ _ Hp) as (v & Heq & _). rewrite Heq in *.
    eapply reads_load; [done..|]. by apply reads_ret.
  - apply read_ptr_None in Hp. rewrite Hp. by apply reads_ret.
Qed.

(** ** Where a run ends: the rules *)

Lemma run_to_conseq {A} (m : store.Run A) (w : store.world)
  (Q Q' : outcome A → store.world → Prop) :
  run_to m w Q → (∀ r w', Q r w' → Q' r w') → run_to m w Q'.
Proof. intros (r & w' & Hrun & HQ) Himp. exists r, w'. auto. Qed.

Lemma run_to_bind {A B} (m : store.Run A) (f : A → store.Run B) (w : store.world)
  (Q : outcome B → store.world → Prop) :
  run_to m w (λ r w',
    match r with
    | Ok a => run_to (f a) w' Q
    | Err e => Q (Err e) w'
    | Panic k => Q (Panic k) w'
    end) →
  run_to (m ≫= f) w Q.
Proof.
  intros (r & w' & Hrun & HQ). unfold run_to. rewrite run_bind_unfold, Hrun.
  destruct r as [a|e|k]; [done|by eexists _, _..].
Qed.

Lemma run_to_ret {A} (a : A) (w : store.world) (Q : outcome A → store.world → Prop) :
  Q (Ok a) w → run_to (mret a) w Q.
Proof. intros HQ. by exists (Ok a), w. Qed.

Lemma run_to_load {A} `{!store.Cell A} (hp : store.heap) (p : store.ptr A) (a : A)
  (w : store.world) (Q : outcome A → store.world → Prop) :
  holds hp p a → hp ⊆ store.mem w → Q (Ok a) w → run_to (store.load p) w Q.
Proof. intros Hp Hsub HQ. exists (Ok a), w. by rewrite (load_holds _ _ _ _ Hp Hsub). Qed.

Lemma run_to_load_nil {A} `{!store.Cell A} (w : store.world)
  (Q : outcome A → store.world → Prop) :
  Q (Panic NilDereference) w → run_to (store.load (None : store.ptr A)) w Q.
Proof. intros HQ. by exists (Panic NilDereference), w. Qed.

Lemma run_to_reads {A B} (R : store.heap → A → B → Prop) (hp : store.heap)
  (m : store.Run A) (o : outcome B) (w : store.world)
  (Q : outcome A → store.world → Prop) :
  reads R hp m o w →
  (∀ r hn, hn ##ₘ store.mem w → related (R (hn ∪ hp)) r o →
     Q r {| store.mem := hn ∪ store.mem w; store.log := store.log w |}) →
  run_to m w Q.
Proof. intros (r & hn & Hrun & Hdisj & Hrel) HQ. exists r. eexists. eauto. Qed.

Lemma run_to_wrap {A} (msg : string) (m : store.Run A) (w : store.world)
  (Q : outcome A → store.world → Prop) :
  run_to m w (λ r w', Q (wrap_err msg r) w') → run_to (store.wrap msg m) w Q.
Proof.
  intros (r & w' & Hrun & HQ). unfold run_to, store.wrap. rewrite Hrun.
  destruct r; by eexists _, _.
Qed.

Lemma run_to_or_continue {A} (m : store.Run A) (msg : string) (k : A → store.Run unit)
  (w : store.world) (Q : outcome unit → store.world → Prop) :
  run_to m w (λ r w',
    match r with
    | Ok a => run_to (k a) w' Q
    | Err e => Q (Ok tt) {| store.mem := store.mem w'; store.log := store.log w' ++ [(msg, e)] |}
    | Panic p => Q (Panic p) w'
    end) →
  run_to (store.or_continue m msg k) w Q.
Proof.
  intros (r & w' & Hrun & HQ). unfold run_to, store.or_continue. rewrite Hrun.
  destruct r as [a|e|p]; [done|by eexists _, _..].
Qed.

Lemma run_to_new {A} `{!store.Cell A} (a : A) (w : store.world)
  (Q : outcome store.loc → store.world → Prop) :
  (∀ l, store.mem w !! l = None →
     Q (Ok l) {| store.mem := <[l := store.inj a]> (store.mem w); store.log := store.log w |}) →
  run_to (store.new a) w Q.
Proof. intros HQ. eexists _, _. split; [done|]. apply HQ, store.alloc_fresh. Qed.

Lemma run_to_modify {A} `{!store.Cell A} (l : store.loc) (a : A) (f : A → A)
  (w : store.world) (Q : outcome unit → store.world → Prop) :
  store.mem w !! l = Some (store.inj a) →
  Q (Ok tt) {| store.mem := <[l := store.inj (f a)]> (store.mem w); store.log := store.log w |} →
  run_to (store.modify (Some l) f) w Q.
Proof.
  intros Hl HQ. eexists _, _. split; [|exact HQ].
  unfold store.modify. rewrite run_bind_unfold. unfold store.load. rewrite Hl. simpl.
  by rewrite store.proj_inj.
Qed.

Lemma run_to_modify_nil {A} `{!store.Cell A} (f : A → A) (w : store.world)
  (Q : outcome unit → store.world → Prop) :
  Q (Panic NilDereference) w → run_to (store.modify (None : store.ptr A) f) w Q.
Proof. intros HQ. by exists (Panic NilDereference), w. Qed.

Lemma run_to_has_key (m : store.loc) (pm : gmap string store.loc) (k : string)
  (w : store.world) (Q : outcome bool → store.world → Prop) :
  store.mem w !! m = Some (store.CMap pm) →
  Q (Ok (bool_decide (is_Some (pm !! k)))) w →
  run_to (store.has_key m k) w Q.
Proof.
  intros Hm HQ. eexists _, _. split; [|exact HQ].
  unfold store.has_key. rewrite run_bind_unfold. unfold store.load. by rewrite Hm.
Qed.

Lemma run_to_at_key (A : Type) (m : store.loc) (pm : gmap string store.loc) (k : string)
  (w : store.world) (Q : outcome (store.ptr A) → store.world → Prop) :
  store.mem w !! m = Some (store.CMap pm) →
  Q (Ok (pm !! k)) w →
  run_to (store.at_key A m k) w Q.
Proof.
  intros Hm HQ. eexists _, _. split; [|exact HQ].
  unfold store.at_key. rewrite run_bind_unfold. unfold store.load. by rewrite Hm.
Qed.

Lemma run_to_set_key (m : store.loc) (pm : gmap string store.loc) (k : string)
  (p : store.loc) (w : store.world) (Q : outcome unit → store.world → Prop) :
  store.mem w !! m = Some (store.CMap pm) →
  Q (Ok tt) {| store.mem := <[m := store.CMap (<[k := p]> pm)]> (store.mem w);
               store.log := store.log w |} →
  run_to (store.set_key m k p) w Q.
Proof. intros Hm HQ. unfold store.set_key. by eapply (run_to_modify m pm). Qed.

Lemma run_to_elements {A B} `{!store.Cell (list A)} (f : store.heap → A → option B)
  (hp : store.heap) (s : store.slice A) (l : list B) (w : store.world)
  (Q : outcome (list A) → store.world → Prop) :
  store.read_elements f hp s = Some l → hp ⊆ store.mem w →
  (∀ l', Forall2 (λ x' x, f hp x' = Some x) l' l → Q (Ok l') w) →
  run_to (store.elements s) w Q.
Proof.
  intros Hr Hsub HQ. unfold store.read_elements, store.elements in *.
  destruct s as [a|].
  - destruct (hp !! a ≫= store.proj) as [elems|] eqn:Ha; simpl in Hr; [|done].
    eapply (run_to_load hp (Some a) elems); [|done|].
    + unfold holds, store.read_ptr. by rewrite Ha.
    + apply HQ. by apply mapM_Some.
  - apply run_to_ret, HQ. injection Hr as <-. constructor.
Qed.

(** ** The cells a call owns *)

Lemma struct_at_alloc {A} `{!store.Cell A} (hp h hn : store.heap) (l : store.loc) (a : A) :
  struct_at hp h l a → hn ##ₘ h → struct_at (hn ∪ hp) (hn ∪ h) l a.
Proof.
  intros (Hsub & Hl & Hh) Hdisj. split; [by apply map_union_mono_l|].
  assert (hn !! l = None) as Hn by (by eapply map_disjoint_Some_r).
  split; [by apply lookup_union_None|]. by rewrite lookup_union_r.
Qed.

Lemma struct_at_weaken {A} `{!store.Cell A} (hp hp' h : store.heap) (l : store.loc) (a : A) :
  struct_at hp' h l a → hp ⊆ hp' → struct_at hp h l a.
Proof.
  intros (Hsub & Hl & Hh) Hle. split; [by etrans|]. split; [|done].
  destruct (hp !! l) eqn:E; [|done]. by rewrite (lookup_weaken _ _ _ _ E Hle) in Hl.
Qed.

Lemma struct_at_modify {A} `{!store.Cell A} (hp h : store.heap) (l : store.loc)
  (a b : A) :
  struct_at hp h l a → struct_at hp (<[l := store.inj b]> h) l b.
Proof.
  intros (Hsub & Hl & Hh). split; [by apply insert_subseteq_r|].
  split; [done|]. by rewrite lookup_insert_eq.
Qed.

Lemma struct_at_new {A} `{!store.Cell A} (h : store.heap) (l : store.loc) (a : A) :
  h !! l = None → struct_at h (<[l := store.inj a]> h) l a.
Proof.
  intros Hl. split; [by apply insert_subseteq|]. split; [done|]. by rewrite lookup_insert_eq.
Qed.

Lemma map_via_alloc {A} `{!store.Cell A} (hp h hn : store.heap) (lm : store.loc)
  (pm : gmap string store.loc) (m : gmap string A) :
  map_via hp h lm pm m → hn ##ₘ h → map_via (hn ∪ hp) (hn ∪ h) lm pm m.
Proof.
  intros (Hsub & Hlm & Hh & Hnone & Hsome & Hinj) Hdisj.
  assert (∀ l c, h !! l = Some c → hn !! l = None) as Hn
    by (intros; by eapply map_disjoint_Some_r).
  split; [by apply map_union_mono_l|].
  split; [apply lookup_union_None; eauto|].
  split; [rewrite lookup_union_r; eauto|].
  split; [done|]. split; [|done].
  intros k p Hk. destruct (Hsome k p Hk) as (Hp & Hne & r & Hr & Hhp).
  split; [apply lookup_union_None; eauto|]. split; [done|].
  exists r. split; [done|]. rewrite lookup_union_r; eauto.
Qed.

Lemma map_via_weaken {A} `{!store.Cell A} (hp hp' h : store.heap) (lm : store.loc)
  (pm : gmap string store.loc) (m : gmap string A) :
  map_via hp' h lm pm m → hp ⊆ hp' → map_via hp h lm pm m.
Proof.
  intros (Hsub & Hlm & Hh & Hnone & Hsome & Hinj) Hle.
  assert (∀ l, hp' !! l = None → hp !! l = None) as Hn.
  { intros l Hl. destruct (hp !! l) eqn:E; [|done].
    by rewrite (lookup_weaken _ _ _ _ E Hle) in Hl. }
  split; [by etrans|]. split; [eauto|]. split; [done|]. split; [done|]. split; [|done].
  intros k p Hk. destruct (Hsome k p Hk) as (Hp & Hne & r & Hr & Hhp). eauto 10.
Qed.

Lemma map_via_new {A} `{!store.Cell A} (h : store.heap) (lm : store.loc) :
  h !! lm = None →
  map_via (A := A) h (<[lm := store.CMap ∅]> h) lm ∅ ∅.
Proof.
  intros Hl. split; [by apply insert_subseteq|]. split; [done|].
  split; [by rewrite lookup_insert_eq|]. split; [done|]. split; by intros *; rewrite lookup_empty.
Qed.

(** [m[k] = &T{...}], the struct at a cell [l] not in use. *)
Lemma map_via_insert {A} `{!store.Cell A} (hp h : store.heap) (lm l : store.loc)
  (pm : gmap string store.loc) (m : gmap string A) (k : string) (a : A) :
  map_via hp h lm pm m → h !! l = None →
  map_via hp (<[lm := store.CMap (<[k := l]> pm)]> (<[l := store.inj a]> h)) lm
    (<[k := l]> pm) (<[k := a]> m).
Proof.
  intros (Hsub & Hlm & Hh & Hnone & Hsome & Hinj) Hl.
  assert (l ≠ lm) as Hne by (intros ->; by rewrite Hh in Hl).
  assert (hp !! l = None) as Hpl.
  { destruct (hp !! l) eqn:E; [|done]. by rewrite (lookup_weaken _ _ _ _ E Hsub) in Hl. }
  split; [apply insert_subseteq_r; [done|]; by apply insert_subseteq_r|]. split; [done|].
  split; [by rewrite lookup_insert_eq|].
  split.
  { intros k' Hk'. apply lookup_insert_None in Hk' as [Hk' ?].
    rewrite lookup_insert_ne by done. auto. }
  split.
  - intros k' p Hk'. destruct (decide (k = k')) as [<-|Hkk].
    + rewrite lookup_insert_eq in Hk'. injection Hk' as <-.
      split; [done|]. split; [done|]. exists a. rewrite lookup_insert_eq.
      split; [done|]. by rewrite lookup_insert_ne, lookup_insert_eq.
    + rewrite lookup_insert_ne in Hk' by done.
      destruct (Hsome k' p Hk') as (Hp & Hpne & r & Hr & Hhp).
      split; [done|]. split; [done|]. exists r. rewrite lookup_insert_ne by done.
      split; [done|]. rewrite !lookup_insert_ne; [done|..]; intros ->; congruence.
  - intros k1 k2 p H1 H2.
    destruct (decide (k = k1)) as [<-|Hk1], (decide (k = k2)) as [<-|Hk2]; [done|..].
    + rewrite lookup_insert_eq in H1. injection H1 as <-.
      rewrite lookup_insert_ne in H2 by done.
      destruct (Hsome k2 l H2) as (_ & _ & r & _ & Hhp). congruence.
    + rewrite lookup_insert_eq in H2. injection H2 as <-.
      rewrite lookup_insert_ne in H1 by done.
      destruct (Hsome k1 l H1) as (_ & _ & r & _ & Hhp). congruence.
    + rewrite lookup_insert_ne in H1, H2 by done. eauto.
Qed.

(** [m[k].field = v], through the pointer [l] of the key. *)
Lemma map_via_modify {A} `{!store.Cell A} (hp h : store.heap) (lm l : store.loc)
  (pm : gmap string store.loc) (m : gmap string A) (k : string) (f : A → A) :
  map_via hp h lm pm m → pm !! k = Some l →
  ∃ r, m !! k = Some r ∧ h !! l = Some (store.inj r)
    ∧ map_via hp (<[l := store.inj (f r)]> h) lm pm (alter f k m).
Proof.
  intros (Hsub & Hlm & Hh & Hnone & Hsome & Hinj) Hk.
  destruct (Hsome k l Hk) as (Hp & Hne & r & Hr & Hhp).
  exists r. split; [done|]. split; [done|].
  split; [by apply insert_subseteq_r|]. split; [done|].
  split; [by rewrite lookup_insert_ne|].
  split.
  { intros k' Hk'. destruct (decide (k = k')) as [<-|]; [congruence|].
    rewrite lookup_alter_ne by done. auto. }
  split; [|done].
  intros k' p Hk'. destruct (Hsome k' p Hk') as (Hp' & Hne' & r' & Hr' & Hhp').
  split; [done|]. split; [done|].
  destruct (decide (k = k')) as [<-|Hkk].
  - assert (p = l) as -> by congruence. exists (f r).
    rewrite lookup_alter_eq, Hr. split; [done|]. by rewrite lookup_insert_eq.
  - exists r'. rewrite lookup_alter_ne by done. split; [done|].
    rewrite lookup_insert_ne; [done|]. intros ->. eauto.
Qed.

Lemma map_via_key {A} `{!store.Cell A} (hp h : store.heap) (lm : store.loc)
  (pm : gmap string store.loc) (m : gmap string A) (k : string) :
  map_via hp h lm pm m → is_Some (pm !! k) ↔ is_Some (m !! k).
Proof.
  intros (Hsub & Hlm & Hh & Hnone & Hsome & Hinj). split.
  - intros [p Hp]. destruct (Hsome k p Hp) as (_ & _ & r & Hr & _). eauto.
  - intros [r Hr]. destruct (pm !! k) eqn:E; [eauto|]. rewrite (Hnone k E) in Hr. done.
Qed.

Lemma map_via_read {A} `{!store.Cell A} (hp h : store.heap) (lm : store.loc)
  (pm : gmap string store.loc) (m : gmap string A) :
  map_via hp h lm pm m → store.read_map h lm = Some m.
Proof.
  intros (Hsub & Hlm & Hh & Hnone & Hsome & Hinj).
  unfold store.read_map, store.read_cell. rewrite Hh. simpl.
  assert (omap (λ l, h !! l ≫= store.proj) pm = m) as Heq.
  { apply map_eq. intros k. rewrite lookup_omap.
    destruct (pm !! k) as [p|] eqn:Hk; simpl.
    - destruct (Hsome k p Hk) as (_ & _ & r & Hr & Hhp). rewrite Hhp, Hr. simpl.
      by rewrite store.proj_inj.
    - by rewrite Hnone. }
  rewrite Heq. rewrite decide_True; [done|].
  apply set_eq. intros k. rewrite !elem_of_dom. symmetry.
  split.
  - intros [p Hp]. destruct (Hsome k p Hp) as (_ & _ & r & Hr & _). eauto.
  - intros [r Hr]. destruct (pm !! k) eqn:E; [eauto|]. rewrite (Hnone k E) in Hr. done.
Qed.

(** ** Loops on the store *)

Lemma exec_range_lift {X S} (body : X → S → outcome S) (l : list X) (s : S)
  (log : list LogRecord) :
  exec_range (λ x s, lift (body x s)) l s log = (for_range body l s, log).
Proof.
  revert s. induction l as [|x l IH]; intros s; [done|].
  simpl. unfold mbind, exec_bind, lift. destruct (body x s); [|done..]. by rewrite IH.
Qed.

(** A loop on the store against the loop on values, from a body against
    the body. *)
Lemma range_sim {X X' S} (R : X' → X → Prop) (I : store.heap → S → Prop)
  (E : store.heap → Prop) (body' : X' → store.Run unit) (body : X → S → Exec S)
  (l' : list X') (l : list X) (s : S) (w : store.world) :
  Forall2 R l' l → I (store.mem w) s →
  (∀ x' x s w, R x' x → I (store.mem w) s → sim I E (body' x') (body x s) w) →
  sim I E (store.range body' l') (exec_range body l s) w.
Proof.
  intros Hl HI Hbody. revert s w HI.
  induction Hl as [|x' x l' l Hx Hl IH]; intros s w HI.
  - exists (Ok tt), w. split; [done|]. cbn. auto.
  - simpl. apply run_to_bind. eapply run_to_conseq; [by apply (Hbody x' x s w)|].
    intros r w1 (Hlog & Hpost). simpl in *.
    change ((body x s ≫= λ s', exec_range body l s') (store.log w))
      with (match body x s (store.log w) with
            | (Ok a, log') => exec_range body l a log'
            | (Err e, log') => (Err e, log')
            | (Panic k, log') => (Panic k, log')
            end).
    destruct (body x s (store.log w)) as [[s1|e|k] lg] eqn:Hb; simpl in *.
    + destruct Hpost as [-> HI1]. rewrite <- Hlog. exact (IH s1 w1 HI1).
    + by destruct Hpost as [-> ?].
    + by destruct Hpost as [-> ?].
Qed.

Lemma range_sim_pure {X X' S} (R : X' → X → Prop) (I : store.heap → S → Prop)
  (E : store.heap → Prop) (body' : X' → store.Run unit) (body : X → S → outcome S)
  (l' : list X') (l : list X) (s : S) (w : store.world) :
  Forall2 R l' l → I (store.mem w) s →
  (∀ x' x s w, R x' x → I (store.mem w) s → sim I E (body' x') (lift (body x s)) w) →
  sim I E (store.range body' l') (lift (for_range body l s)) w.
Proof.
  intros Hl HI Hbody.
  pose proof (range_sim R I E body' (λ x s, lift (body x s)) l' l s w Hl HI Hbody) as Hs.
  unfold sim in *. by rewrite exec_range_lift in Hs.
Qed.

(** ** What a store holds stays in a larger store *)

Lemma read_struct_mono {A B} `{!store.Cell A} (f : store.heap → A → option B)
  (h h' : store.heap) (p : store.ptr A) o :
  (∀ a b, f h a = Some b → f h' a = Some b) →
  store.read_struct f h p = Some o → h ⊆ h' → store.read_struct f h' p = Some o.
Proof.
  intros Hf. unfold store.read_struct. destruct p as [l|]; [|done]. intros Hr Hsub.
  destruct (h !! l) as [c|] eqn:Hl; [|done].
  rewrite (lookup_weaken _ _ _ _ Hl Hsub). simpl in *.
  destruct (store.proj c) as [a|]; simpl in *; [|done].
  destruct (f h a) as [b|] eqn:Hb; simpl in *; [|done]. by rewrite (Hf _ _ Hb).
Qed.

Lemma read_elements_mono {A B} `{!store.Cell (list A)} (f : store.heap → A → option B)
  (h h' : store.heap) (s : store.slice A) l :
  (∀ a b, f h a = Some b → f h' a = Some b) →
  store.read_elements f h s = Some l → h ⊆ h' → store.read_elements f h' s = Some l.
Proof.
  intros Hf. unfold store.read_elements. destruct s as [a|]; [|done]. intros Hr Hsub.
  destruct (h !! a) as [c|] eqn:Hl; [|done].
  rewrite (lookup_weaken _ _ _ _ Hl Hsub). simpl in *.
  destruct (store.proj c) as [elems|]; simpl in *; [|done].
  apply mapM_Some. apply mapM_Some in Hr. eapply Forall2_impl; [done|]. auto.
Qed.

Lemma read_job_mono (h h' : store.heap) j' j :
  h ⊆ h' → store.read_job h j' = Some j → store.read_job h' j' = Some j.
Proof.
  intros Hsub (H1 & H2 & H3 & H4 & H5 & H6)%read_job_fields. unfold store.read_job.
  apply (read_struct_mono _ h h') in H4; [|clear H4|done].
  - rewrite (read_ptr_mono _ _ _ _ H1 Hsub), (read_ptr_mono _ _ _ _ H2 Hsub),
      (read_ptr_mono _ _ _ _ H3 Hsub), (read_ptr_mono _ _ _ _ H5 Hsub),
      (read_ptr_mono _ _ _ _ H6 Hsub), H4. by destruct j.
  - intros a b. unfold store.read_Uint32NoVal.
    destruct (store.read_ptr h (store.Number a)) as [n|] eqn:Hn; [|done].
    by rewrite (read_ptr_mono _ _ _ _ Hn Hsub).
Qed.

Lemma read_node_mono (h h' : store.heap) n' n :
  h ⊆ h' → store.read_node h n' = Some n → store.read_node h' n' = Some n.
Proof.
  intros Hsub (H1 & H2 & H3 & H4 & H5 & H6 & H7 & H8 & H9 & H10 & H11)%read_node_fields.
  unfold store.read_node.
  rewrite (read_ptr_mono _ _ _ _ H1 Hsub), (read_ptr_mono _ _ _ _ H2 Hsub),
    (read_ptr_mono _ _ _ _ H3 Hsub), (read_ptr_mono _ _ _ _ H4 Hsub),
    (read_ptr_mono _ _ _ _ H5 Hsub), (read_ptr_mono _ _ _ _ H6 Hsub),
    (read_ptr_mono _ _ _ _ H7 Hsub), (read_ptr_mono _ _ _ _ H8 Hsub),
    (read_ptr_mono _ _ _ _ H9 Hsub), (read_ptr_mono _ _ _ _ H10 Hsub),
    (read_ptr_mono _ _ _ _ H11 Hsub).
  by destruct n.
Qed.

(** ** The per-user tally *)

Lemma alter_twice {A} (f g : A → A) (k : string) (m : gmap string A) :
  alter g k (alter f k m) = alter (λ a, g (f a)) k m.
Proof.
  apply map_eq. intros k'. destruct (decide (k = k')) as [<-|].
  - rewrite !lookup_alter_eq. by destruct (m !! k).
  - by rewrite !lookup_alter_ne.
Qed.

(** [p := new(T); m[k] = p] at a key the map does not have. *)
Lemma run_to_new_key {A} `{!store.Cell A} (hp : store.heap) (lm : store.loc)
  (pm : gmap string store.loc) (m : gmap string A) (k : string) (a : A)
  (w : store.world) :
  map_via hp (store.mem w) lm pm m →
  run_to (store.new a ≫= λ p, store.set_key lm k p) w (λ r w1,
    ∃ pm1 p, r = Ok tt ∧ store.log w1 = store.log w
      ∧ map_via hp (store.mem w1) lm pm1 (<[k := a]> m) ∧ pm1 !! k = Some p).
Proof.
  intros Hvia. apply run_to_bind, run_to_new. intros l Hl.
  assert (l ≠ lm) as Hne.
  { intros ->. destruct Hvia as (_ & _ & Hh & _). by rewrite Hh in Hl. }
  eapply (run_to_set_key lm pm); simpl.
  { rewrite lookup_insert_ne by done. by destruct Hvia as (_ & _ & Hh & _). }
  exists (<[k := l]> pm), l. split; [done|]. split; [done|].
  split; [by apply map_via_insert|]. by rewrite lookup_insert_eq.
Qed.

(** [if _, exists := m[k]; !exists { ... m[k] = new(T) }]. *)
Lemma run_to_ensure {A} `{!store.Cell A} (hp : store.heap) (lm : store.loc)
  (pm : gmap string store.loc) (m : gmap string A) (k : string) (a : A)
  (els : store.Run unit) (w : store.world) (Q : outcome unit → store.world → Prop) :
  map_via hp (store.mem w) lm pm m →
  (pm !! k = None →
   run_to els w (λ r w1,
     ∃ pm1 p, r = Ok tt ∧ store.log w1 = store.log w
       ∧ map_via hp (store.mem w1) lm pm1 (<[k := a]> m) ∧ pm1 !! k = Some p)) →
  (∀ w1 pm1 p, store.log w1 = store.log w →
     map_via hp (store.mem w1) lm pm1 (ensure_key k a m) → pm1 !! k = Some p →
     Q (Ok tt) w1) →
  run_to (store.has_key lm k ≫= λ e, if e : bool then mret tt else els) w Q.
Proof.
  intros Hvia Hels HQ. apply run_to_bind. eapply run_to_has_key.
  { by destruct Hvia as (_ & _ & Hh & _). }
  pose proof (map_via_key _ _ _ _ _ k Hvia) as Hkey.
  destruct (pm !! k) as [p|] eqn:Hp.
  - rewrite bool_decide_true by eauto. apply run_to_ret. apply (HQ w pm p); [done| |done].
    unfold ensure_key. destruct (m !! k) eqn:E; [done|].
    destruct Hkey as [Hkey _]. by destruct Hkey.
  - rewrite bool_decide_false by (by intros [? ?]).
    eapply run_to_conseq; [by apply Hels|].
    intros r w1 (pm1 & p & -> & Hlog & Hvia1 & Hp1). apply (HQ w1 pm1 p); [done| |done].
    unfold ensure_key. destruct (m !! k) eqn:E; [|done].
    destruct Hkey as [_ Hkey]. by destruct Hkey.
Qed.

(** [m[k].field op= v], twice or once, through the pointer of the key. *)
Lemma run_to_modify_key {A} `{!store.Cell A} (hp : store.heap) (lm l : store.loc)
  (pm : gmap string store.loc) (m : gmap string A) (k : string) (f : A → A)
  (w : store.world) (Q : outcome unit → store.world → Prop) :
  map_via hp (store.mem w) lm pm m → pm !! k = Some l →
  (∀ w1, store.log w1 = store.log w → map_via hp (store.mem w1) lm pm (alter f k m) →
     Q (Ok tt) w1) →
  run_to (store.modify (Some l) f) w Q.
Proof.
  intros Hvia Hk HQ. destruct (map_via_modify _ _ _ _ _ _ _ f Hvia Hk) as (r & Hr & Hl & Hv).
  eapply run_to_modify; [done|]. by apply HQ.
Qed.

(** A call that reads and allocates, beside a map the caller owns. *)
Lemma run_to_reads_via {A B C} `{!store.Cell C} (R : store.heap → A → B → Prop)
  (hp : store.heap) (lm : store.loc) (pm : gmap string store.loc) (m : gmap string C)
  (acc : store.Run A) (o : outcome B) (w : store.world)
  (Q : outcome A → store.world → Prop) :
  map_via hp (store.mem w) lm pm m → reads R hp acc o w →
  (∀ r hp' w1, hp ⊆ hp' → store.log w1 = store.log w →
     map_via hp' (store.mem w1) lm pm m → related (R hp') r o → Q r w1) →
  run_to acc w Q.
Proof.
  intros Hvia Hacc HQ. eapply run_to_reads; [done|]. intros r hn Hdisj Hrel.
  apply (HQ r (hn ∪ hp)); [|done|by apply map_via_alloc|done].
  apply map_union_subseteq_r. eapply map_disjoint_weaken_r; [done|]. by destruct Hvia.
Qed.

(** The same beside a struct the caller owns. *)
Lemma run_to_reads_at {A B C} `{!store.Cell C} (R : store.heap → A → B → Prop)
  (hp : store.heap) (l : store.loc) (c : C)
  (acc : store.Run A) (o : outcome B) (w : store.world)
  (Q : outcome A → store.world → Prop) :
  struct_at hp (store.mem w) l c → reads R hp acc o w →
  (∀ r hp' w1, hp ⊆ hp' → store.log w1 = store.log w →
     struct_at hp' (store.mem w1) l c → related (R hp') r o → Q r w1) →
  run_to acc w Q.
Proof.
  intros Hat Hacc HQ. eapply run_to_reads; [done|]. intros r hn Hdisj Hrel.
  apply (HQ r (hn ∪ hp)); [|done|by apply struct_at_alloc|done].
  apply map_union_subseteq_r. eapply map_disjoint_weaken_r; [done|]. by destruct Hat.
Qed.

Lemma map_via_sub {A} `{!store.Cell A} (hp h : store.heap) (lm : store.loc)
  (pm : gmap string store.loc) (m : gmap string A) :
  map_via hp h lm pm m → hp ⊆ h.
Proof. by intros (? & _). Qed.

Lemma map_via_lookup {A} `{!store.Cell A} (hp h : store.heap) (lm : store.loc)
  (pm : gmap string store.loc) (m : gmap string A) :
  map_via hp h lm pm m → h !! lm = Some (store.CMap pm).
Proof. by intros (_ & _ & ? & _). Qed.

Lemma struct_at_sub {A} `{!store.Cell A} (hp h : store.heap) (l : store.loc) (a : A) :
  struct_at hp h l a → hp ⊆ h.
Proof. by intros (? & _). Qed.

Lemma users_body_sim hp lm j' j m w :
  store.read_job hp j' = Some j → map_at hp (store.mem w) lm m →
  sim (λ h, map_at hp h lm) (λ h, hp ⊆ h) (store.users_body lm j')
    (lift (users_body j m)) w.
Proof.
  intros Hj (pm & Hvia). pose proof (read_job_fields _ _ _ Hj) as (_ & _ & _ & _ & Hu & _).
  pose proof (map_via_sub _ _ _ _ _ Hvia) as Hsub.
  unfold sim, store.users_body, users_body, lift. cbn [fst snd].
  destruct (store.Job.UserName j') as [l|]; cycle 1.
  { apply read_ptr_None in Hu. rewrite Hu. apply run_to_bind, run_to_load_nil. by simpl. }
  destruct (read_ptr_Some _ _ _ Hu) as (user & Heq & _). rewrite Heq in *. clear Heq.
  apply run_to_bind. eapply run_to_load; [done..|]. simpl.
  apply run_to_bind.
  eapply (run_to_ensure hp lm pm m user NewUserJobMetrics);
    [done|intros _; by eapply run_to_new_key|].
  intros w1 pm1 p Hlog1 Hvia1 Hp1.
  pose proof (map_via_sub _ _ _ _ _ Hvia1) as Hsub1.
  apply run_to_bind, run_to_wrap.
  eapply (run_to_reads_via _ _ _ _ _ _ _ _ _ Hvia1); [by apply GetJobState_reads|].
  intros r hp2 w2 Hle2 Hlog2 Hvia2 Hrel.
  pose proof (map_via_sub _ _ _ _ _ Hvia2) as Hsub2.
  destruct r as [ps|e|k], (GetJobState j) as [st|e'|k']; simpl in Hrel; try done;
    [|subst; simpl; split; [congruence|split; [done|by etrans]]..].
  simpl.
  apply run_to_bind, run_to_wrap.
  eapply (run_to_reads_via _ _ _ _ _ _ _ _ _ Hvia2);
    [apply GetJobCPUs_reads; [by eapply read_job_mono|done]|].
  intros r hp3 w3 Hle3 Hlog3 Hvia3 Hrel3.
  pose proof (map_via_sub _ _ _ _ _ Hvia3) as Hsub3.
  destruct r as [pc|e|k], (GetJobCPUs j) as [c|e'|k']; simpl in Hrel3; try done;
    [|subst; simpl; split; [congruence|split; [done|by do 2 etrans]]..].
  simpl.
  apply run_to_bind. eapply run_to_load; [by eapply holds_mono|done|].
  assert (∀ w' f, store.log w' = store.log w3 →
            map_via hp3 (store.mem w') lm pm1
              (alter f user (ensure_key user NewUserJobMetrics m)) →
            (∀ r, f r = tally_user_job st c r) →
            store.log w' = store.log w
            ∧ Ok tt = Ok tt
              ∧ map_at hp (store.mem w') lm
                  (alter (tally_user_job st c) user (ensure_key user NewUserJobMetrics m)))
    as Hend.
  { intros w' f Hlog' Hvia' Hf. split; [congruence|]. split; [done|].
    exists pm1. rewrite <- (alter_ext f) by (intros; apply Hf).
    eapply map_via_weaken; [done|]. by etrans. }
  pose proof (map_via_lookup _ _ _ _ _ Hvia3) as Hlm3.
  destruct st; simpl;
    try by (apply run_to_ret; eapply (Hend w3 (λ r, r)); [done|by rewrite alter_id|done]).
  - apply run_to_bind. eapply run_to_at_key; [done|]. rewrite Hp1.
    apply run_to_bind. eapply run_to_modify_key; [done..|]. intros w4 Hlog4 Hvia4.
    apply run_to_bind. eapply run_to_at_key; [exact (map_via_lookup _ _ _ _ _ Hvia4)|]. rewrite Hp1.
    apply run_to_bind. eapply run_to_load; [done|exact (map_via_sub _ _ _ _ _ Hvia4)|].
    eapply run_to_modify_key; [done..|]. intros w5 Hlog5 Hvia5.
    rewrite alter_twice in Hvia5. eapply Hend; [congruence|done|]. by intros [].
  - apply run_to_bind. eapply run_to_at_key; [done|]. rewrite Hp1.
    apply run_to_bind. eapply run_to_modify_key; [done..|]. intros w4 Hlog4 Hvia4.
    apply run_to_bind. eapply run_to_at_key; [exact (map_via_lookup _ _ _ _ _ Hvia4)|]. rewrite Hp1.
    apply run_to_bind. eapply run_to_load; [done|exact (map_via_sub _ _ _ _ _ Hvia4)|].
    eapply run_to_modify_key; [done..|]. intros w5 Hlog5 Hvia5.
    rewrite alter_twice in Hvia5. eapply Hend; [congruence|done|]. by intros [].
  - apply run_to_bind. eapply run_to_at_key; [done|]. rewrite Hp1.
    eapply run_to_modify_key; [done..|]. intros w4 Hlog4 Hvia4.
    eapply Hend; [congruence|done|]. by intros [].
Qed.

(** The shape of the four aggregators that fill a map in one loop. *)
Lemma map_loop_refines {X X' A} `{!store.Cell A} `{!store.Cell (list X')}
  (f : store.heap → X' → option X) (body' : store.loc → X' → store.Run unit)
  (body : X → gmap string A → Exec (gmap string A)) (s : store.slice X') (l : list X)
  (w : store.world) :
  store.read_elements f (store.mem w) s = Some l →
  (∀ lm x' x m w1, f (store.mem w) x' = Some x →
     map_at (store.mem w) (store.mem w1) lm m →
     sim (λ h, map_at (store.mem w) h lm) (λ h, store.mem w ⊆ h) (body' lm x') (body x m) w1) →
  run_to (store.new (∅ : gmap string store.loc) ≫= λ lm,
          store.elements s ≫= λ xs,
          store.range (body' lm) xs ≫= λ _, mret lm) w
    (λ r w',
      store.mem w ⊆ store.mem w'
      ∧ store.log w' = (exec_range body l ∅ (store.log w)).2
      ∧ related (λ lm m, store.read_map (store.mem w') lm = Some m) r
          (exec_range body l ∅ (store.log w)).1).
Proof.
  intros Hl Hbody. apply run_to_bind, run_to_new. intros lm Hlm.
  pose proof (map_via_new (A := A) _ _ Hlm) as Hvia.
  apply run_to_bind. eapply run_to_elements; [done|by apply insert_subseteq|].
  intros xs Hxs. apply run_to_bind.
  eapply run_to_conseq.
  { eapply (range_sim (λ x' x, f (store.mem w) x' = Some x)
              (λ h, map_at (store.mem w) h lm) (λ h, store.mem w ⊆ h) (body' lm) body);
      [done|by eexists|]. intros x' x m w1 Hx Hm. by apply Hbody. }
  simpl. intros r w' (Hlog & Hpost).
  destruct ((exec_range body l ∅ (store.log w)).1) as [m|e|k]; destruct Hpost as [-> Hpost].
  - apply run_to_ret. destruct Hpost as (pm & Hv).
    split; [exact (map_via_sub _ _ _ _ _ Hv)|].
    split; [done|]. simpl. exact (map_via_read _ _ _ _ _ Hv).
  - done.
  - done.
Qed.

Lemma ParseUsersMetrics_refines (s : store.slice store.Job.t) (jobs : list Job.t)
  (w : store.world) :
  store.read_elements store.read_job (store.mem w) s = Some jobs →
  run_to (store.ParseUsersMetrics s) w
    (λ r w',
      store.mem w ⊆ store.mem w' ∧ store.log w' = store.log w
      ∧ related (λ lm m, store.read_map (store.mem w') lm = Some m) r
          (ParseUsersMetrics jobs)).
Proof.
  intros Hs. unfold store.ParseUsersMetrics, ParseUsersMetrics.
  eapply run_to_conseq.
  { eapply (map_loop_refines store.read_job store.users_body (λ j m, lift (users_body j m)));
      [done|]. intros lm j' j m w1 Hj Hm. by apply users_body_sim. }
  simpl. intros r w'. by rewrite exec_range_lift.
Qed.

(** ** The per-account tally *)

Lemma accounts_body_sim hp lm j' j m w :
  store.read_job hp j' = Some j → map_at hp (store.mem w) lm m →
  sim (λ h, map_at hp h lm) (λ h, hp ⊆ h) (store.accounts_body lm j')
    (accounts_body j m) w.
Proof.
  intros Hj (pm & Hvia).
  pose proof (map_via_sub _ _ _ _ _ Hvia) as Hsub.
  unfold sim, store.accounts_body, accounts_body.
  apply run_to_or_continue.
  eapply (run_to_reads_via _ _ _ _ _ _ _ _ _ Hvia); [by apply GetJobAccountName_reads|].
  intros r hp1 w1 Hle1 Hlog1 Hvia1 Hrel.
  pose proof (map_via_sub _ _ _ _ _ Hvia1) as Hsub1.
  destruct r as [pa|e|k], (GetJobAccountName j) as [account|e'|k']; simpl in Hrel;
    try done; simpl; cycle 1.
  { subst. rewrite Hlog1. split; [done|]. split; [done|]. exists pm.
    by eapply map_via_weaken. }
  { subst. split; [done|]. split; [done|]. by etrans. }
  apply run_to_bind. eapply run_to_load; [done..|].
  apply run_to_bind.
  eapply (run_to_ensure hp1 lm pm m account NewJobMetrics); [done| |].
  { intros _. apply run_to_bind. eapply run_to_load; [done..|]. by eapply run_to_new_key. }
  intros w2 pm2 p Hlog2 Hvia2 Hp2.
  pose proof (map_via_sub _ _ _ _ _ Hvia2) as Hsub2.
  apply run_to_or_continue.
  eapply (run_to_reads_via _ _ _ _ _ _ _ _ _ Hvia2);
    [apply GetJobState_reads; [by eapply read_job_mono|done]|].
  intros r hp3 w3 Hle3 Hlog3 Hvia3 Hrel3.
  pose proof (map_via_sub _ _ _ _ _ Hvia3) as Hsub3.
  destruct r as [ps|e|k], (GetJobState j) as [st|e'|k']; simpl in Hrel3;
    try done; simpl; cycle 1.
  { subst. split; [congruence|]. split; [done|]. exists pm2.
    eapply map_via_weaken; [done|]. by etrans. }
  { subst. split; [congruence|]. split; [done|]. by do 2 etrans. }
  apply run_to_or_continue.
  eapply (run_to_reads_via _ _ _ _ _ _ _ _ _ Hvia3);
    [apply GetJobCPUs_reads; [eapply read_job_mono; [|done]; by etrans|done]|].
  intros r hp4 w4 Hle4 Hlog4 Hvia4 Hrel4.
  pose proof (map_via_sub _ _ _ _ _ Hvia4) as Hsub4.
  assert (hp ⊆ hp4) as Hle by (by do 2 etrans).
  destruct r as [pc|e|k], (GetJobCPUs j) as [c|e'|k']; simpl in Hrel4;
    try done; simpl; cycle 1.
  { subst. split; [congruence|]. split; [done|]. exists pm2.
    by eapply map_via_weaken. }
  { subst. split; [congruence|]. split; [done|]. by etrans. }
  assert (holds hp4 pa account) as Hpa by (eapply holds_mono; [done|by etrans]).
  assert (holds hp4 ps st) as Hps by (by eapply holds_mono).
  apply run_to_bind. eapply run_to_load; [done..|].
  assert (∀ w' f, store.log w' = store.log w4 →
            map_via hp4 (store.mem w') lm pm2
              (alter f account (ensure_key account NewJobMetrics m)) →
            (∀ r, f r = tally_job st c r) →
            store.log w' = store.log w
            ∧ Ok tt = Ok tt
              ∧ map_at hp (store.mem w') lm
                  (alter (tally_job st c) account (ensure_key account NewJobMetrics m)))
    as Hend.
  { intros w' f Hlog' Hvia' Hf. split; [congruence|]. split; [done|].
    exists pm2. rewrite <- (alter_ext f) by (intros; apply Hf).
    by eapply map_via_weaken. }
  pose proof (map_via_lookup _ _ _ _ _ Hvia4) as Hlm4.
  destruct st; simpl;
    try by (apply run_to_ret; eapply (Hend w4 (λ r, r)); [done|by rewrite alter_id|done]).
  - apply run_to_bind. eapply run_to_load; [done..|].
    apply run_to_bind. eapply run_to_at_key; [done|]. rewrite Hp2.
    apply run_to_bind. eapply run_to_modify_key; [done..|]. intros w5 Hlog5 Hvia5.
    apply run_to_bind. eapply run_to_load; [done|exact (map_via_sub _ _ _ _ _ Hvia5)|].
    apply run_to_bind. eapply run_to_at_key; [exact (map_via_lookup _ _ _ _ _ Hvia5)|].
    rewrite Hp2.
    apply run_to_bind. eapply run_to_load; [done|exact (map_via_sub _ _ _ _ _ Hvia5)|].
    eapply run_to_modify_key; [done..|]. intros w6 Hlog6 Hvia6.
    rewrite alter_twice in Hvia6. eapply Hend; [congruence|done|]. by intros [].
  - apply run_to_bind. eapply run_to_load; [done..|].
    apply run_to_bind. eapply run_to_at_key; [done|]. rewrite Hp2.
    apply run_to_bind. eapply run_to_modify_key; [done..|]. intros w5 Hlog5 Hvia5.
    apply run_to_bind. eapply run_to_load; [done|exact (map_via_sub _ _ _ _ _ Hvia5)|].
    apply run_to_bind. eapply run_to_at_key; [exact (map_via_lookup _ _ _ _ _ Hvia5)|].
    rewrite Hp2.
    apply run_to_bind. eapply run_to_load; [done|exact (map_via_sub _ _ _ _ _ Hvia5)|].
    eapply run_to_modify_key; [done..|]. intros w6 Hlog6 Hvia6.
    rewrite alter_twice in Hvia6. eapply Hend; [congruence|done|]. by intros [].
  - apply run_to_bind. eapply run_to_load; [done..|].
    apply run_to_bind. eapply run_to_at_key; [done|]. rewrite Hp2.
    eapply run_to_modify_key; [done..|]. intros w5 Hlog5 Hvia5.
    eapply Hend; [congruence|done|]. by intros [].
Qed.

Lemma ParseAccountsMetrics_refines (s : store.slice store.Job.t) (jobs : list Job.t)
  (w : store.world) :
  store.read_elements store.read_job (store.mem w) s = Some jobs →
  run_to (store.ParseAccountsMetrics s) w
    (λ r w',
      store.mem w ⊆ store.mem w'
      ∧ store.log w' = (ParseAccountsMetrics jobs (store.log w)).2
      ∧ related (λ lm m, store.read_map (store.mem w') lm = Some m) r
          (ParseAccountsMetrics jobs (store.log w)).1).
Proof.
  intros Hs. unfold store.ParseAccountsMetrics, ParseAccountsMetrics.
  eapply (map_loop_refines store.read_job store.accounts_body accounts_body); [done|].
  intros lm j' j m w1 Hj Hm. by apply accounts_body_sim.
Qed.

(** ** The fair-share tally *)

Lemma fairshare_body_sim hp lm s' s m w :
  store.read_share hp s' = Some s → map_at hp (store.mem w) lm m →
  sim (λ h, map_at hp h lm) (λ h, hp ⊆ h) (store.fairshare_body lm s')
    (lift (fairshare_body s m)) w.
Proof.
  intros (Hn & Hf)%read_share_fields (pm & Hvia).
  pose proof (map_via_sub _ _ _ _ _ Hvia) as Hsub.
  unfold sim, store.fairshare_body, fairshare_body, lift. cbn [fst snd].
  destruct (store.Share.Name s') as [l|]; cycle 1.
  { apply read_ptr_None in Hn. rewrite Hn. apply run_to_bind, run_to_load_nil. by simpl. }
  destruct (read_ptr_Some _ _ _ Hn) as (account & Heq & _). rewrite Heq in *. clear Heq.
  apply run_to_bind. eapply run_to_load; [done..|]. simpl.
  apply run_to_bind.
  eapply (run_to_ensure hp lm pm m account NewFairShareMetrics);
    [done|intros _; by eapply run_to_new_key|].
  intros w1 pm1 p Hlog1 Hvia1 Hp1.
  pose proof (map_via_sub _ _ _ _ _ Hvia1) as Hsub1.
  apply run_to_bind. eapply run_to_at_key; [exact (map_via_lookup _ _ _ _ _ Hvia1)|].
  rewrite Hp1.
  destruct (store.Share.Fairshare s') as [lf|]; cycle 1.
  { apply read_struct_None in Hf. rewrite Hf. apply run_to_bind, run_to_load_nil.
    simpl. split; [done|]. by split. }
  destruct (read_struct_Some _ _ _ _ Hf) as (f' & f & Heq & Hlf & Hread). rewrite Heq.
  apply run_to_bind. eapply run_to_load; [done..|]. simpl.
  unfold store.read_fairshare in Hread.
  destruct (store.read_ptr hp (store.Share.Level f')) as [lv|] eqn:Hlv; [|done].
  injection Hread as <-. simpl.
  destruct (store.Share.Level f') as [ll|]; cycle 1.
  { apply read_ptr_None in Hlv. rewrite Hlv. apply run_to_bind, run_to_load_nil.
    simpl. split; [done|]. by split. }
  destruct (read_ptr_Some _ _ _ Hlv) as (level & -> & _).
  apply run_to_bind. eapply run_to_load; [done..|]. simpl.
  eapply run_to_modify_key; [done..|]. intros w2 Hlog2 Hvia2.
  split; [congruence|]. split; [done|]. by exists pm1.
Qed.

Lemma ParseFairShareMetrics_refines (s : store.slice store.Share.t) (shares : list Share.t)
  (w : store.world) :
  store.read_elements store.read_share (store.mem w) s = Some shares →
  run_to (store.ParseFairShareMetrics s) w
    (λ r w',
      store.mem w ⊆ store.mem w' ∧ store.log w' = store.log w
      ∧ related (λ lm m, store.read_map (store.mem w') lm = Some m) r
          (ParseFairShareMetrics shares)).
Proof.
  intros Hs. unfold store.ParseFairShareMetrics, ParseFairShareMetrics.
  eapply run_to_conseq.
  { eapply (map_loop_refines store.read_share store.fairshare_body
              (λ s m, lift (fairshare_body s m))); [done|].
    intros lm j' j m w1 Hj Hm. by apply fairshare_body_sim. }
  simpl. intros r w'. by rewrite exec_range_lift.
Qed.

(** ** The per-node inventory *)

(** [m[k].field = get(n)] for a getter that reads and allocates. *)
Lemma run_to_set_field {A V} `{!store.Cell A} (hp : store.heap) (lm l : store.loc)
  (pm : gmap string store.loc) (m : gmap string A) (k : string)
  (get : store.Run V) (v : V) (set : V → A → A) (w : store.world)
  (Q : outcome unit → store.world → Prop) :
  map_via hp (store.mem w) lm pm m → pm !! k = Some l →
  reads (λ _, eq) hp get (Ok v) w →
  (∀ w1 hp', hp ⊆ hp' → store.log w1 = store.log w →
     map_via hp' (store.mem w1) lm pm (alter (set v) k m) → Q (Ok tt) w1) →
  run_to (store.set_field lm k get set) w Q.
Proof.
  intros Hvia Hk Hget HQ. unfold store.set_field.
  apply run_to_bind. eapply run_to_at_key; [exact (map_via_lookup _ _ _ _ _ Hvia)|].
  rewrite Hk. apply run_to_bind.
  eapply (run_to_reads_via _ _ _ _ _ _ _ _ _ Hvia); [done|].
  intros r hp1 w1 Hle1 Hlog1 Hvia1 Hrel. destruct r as [v'|e|k']; simpl in Hrel; try done.
  subst v'. eapply run_to_modify_key; [done..|]. intros w2 Hlog2 Hvia2.
  apply (HQ w2 hp1); [done|congruence|done].
Qed.

(** [m[k] = &T{...}], then the rest of the body. *)
Lemma run_to_new_key_then {A B} `{!store.Cell A} (hp : store.heap) (lm : store.loc)
  (pm : gmap string store.loc) (m : gmap string A) (k : string) (a : A)
  (rest : store.Run B) (w : store.world) (Q : outcome B → store.world → Prop) :
  map_via hp (store.mem w) lm pm m →
  (∀ w1 pm1 p, store.log w1 = store.log w →
     map_via hp (store.mem w1) lm pm1 (<[k := a]> m) → pm1 !! k = Some p →
     run_to rest w1 Q) →
  run_to (store.new a ≫= λ p, store.set_key lm k p ≫= λ _, rest) w Q.
Proof.
  intros Hvia HQ. apply run_to_bind, run_to_new. intros l Hl.
  assert (l ≠ lm) as Hne.
  { intros ->. by rewrite (map_via_lookup _ _ _ _ _ Hvia) in Hl. }
  apply run_to_bind. eapply (run_to_set_key lm pm); simpl.
  { rewrite lookup_insert_ne by done. exact (map_via_lookup _ _ _ _ _ Hvia). }
  apply (HQ _ (<[k := l]> pm) l); [done|by apply map_via_insert|by rewrite lookup_insert_eq].
Qed.

Lemma node_body_sim name_of hp lm n' n m w :
  store.read_node hp n' = Some n → map_at hp (store.mem w) lm m →
  sim (λ h, map_at hp h lm) (λ h, hp ⊆ h) (store.node_body name_of lm n')
    (lift (node_body name_of n m)) w.
Proof.
  intros Hn (pm & Hvia).
  pose proof (read_node_fields _ _ _ Hn)
    as (_ & Hh & _ & _ & _ & _ & Hma & Hmt & Hca & Hci & Hct).
  pose proof (map_via_sub _ _ _ _ _ Hvia) as Hsub.
  unfold sim, store.node_body, node_body, lift. cbn [fst snd].
  destruct (store.Node.Hostname n') as [l|]; cycle 1.
  { apply read_ptr_None in Hh. rewrite Hh. apply run_to_bind, run_to_load_nil. by simpl. }
  destruct (read_ptr_Some _ _ _ Hh) as (nodeName & Heq & _). rewrite Heq in *. clear Heq.
  apply run_to_bind. eapply run_to_load; [done..|]. simpl.
  eapply run_to_new_key_then; [done|]. intros w1 pm1 p Hlog1 Hvia1 Hp1.
  pose proof (map_via_sub _ _ _ _ _ Hvia1) as Hsub1.
  apply run_to_bind, run_to_wrap.
  eapply (run_to_reads_via _ _ _ _ _ _ _ _ _ Hvia1);
    [by apply GetNodeStatesString_reads|].
  intros r hp2 w2 Hle2 Hlog2 Hvia2 Hrel.
  pose proof (map_via_sub _ _ _ _ _ Hvia2) as Hsub2.
  destruct r as [str|e|k], (GetNodeStatesString name_of n "|") as [str'|e'|k'];
    simpl in Hrel; try done;
    [|subst; simpl; split; [congruence|split; [done|by etrans]]..].
  subst str'. simpl.
  apply run_to_bind. eapply run_to_set_field; [done..|by apply reads_ret|].
  intros w3 hp3 Hle3 Hlog3 Hvia3.
  assert (hp ⊆ hp3) as Hc3 by (by etrans). pose proof (map_via_sub _ _ _ _ _ Hvia3) as Hsub3.
  apply run_to_bind. eapply run_to_set_field; [done..| |].
  { unfold store.GetNodeAllocMemory. eapply getter_reads; [eapply read_ptr_mono; [done|done]|done]. }
  intros w4 hp4 Hle4 Hlog4 Hvia4.
  assert (hp ⊆ hp4) as Hc4 by (by etrans). pose proof (map_via_sub _ _ _ _ _ Hvia4) as Hsub4.
  apply run_to_bind. eapply run_to_set_field; [done..| |].
  { unfold store.GetNodeTotalMemory. eapply getter_reads; [eapply read_ptr_mono; [done|done]|done]. }
  intros w5 hp5 Hle5 Hlog5 Hvia5.
  assert (hp ⊆ hp5) as Hc5 by (by etrans). pose proof (map_via_sub _ _ _ _ _ Hvia5) as Hsub5.
  apply run_to_bind. eapply run_to_set_field; [done..| |].
  { unfold store.GetNodeAllocCPUs. eapply getter_reads; [eapply read_ptr_mono; [done|done]|done]. }
  intros w6 hp6 Hle6 Hlog6 Hvia6.
  assert (hp ⊆ hp6) as Hc6 by (by etrans). pose proof (map_via_sub _ _ _ _ _ Hvia6) as Hsub6.
  apply run_to_bind. eapply run_to_set_field; [done..| |].
  { unfold store.GetNodeIdleCPUs. eapply getter_reads; [eapply read_ptr_mono; [done|done]|done]. }
  intros w7 hp7 Hle7 Hlog7 Hvia7.
  assert (hp ⊆ hp7) as Hc7 by (by etrans). pose proof (map_via_sub _ _ _ _ _ Hvia7) as Hsub7.
  apply run_to_bind. eapply run_to_set_field; [done..|by apply reads_ret|].
  intros w8 hp8 Hle8 Hlog8 Hvia8.
  assert (hp ⊆ hp8) as Hc8 by (by etrans). pose proof (map_via_sub _ _ _ _ _ Hvia8) as Hsub8.
  eapply run_to_set_field; [done..| |].
  { unfold store.GetNodeTotalCPUs. eapply getter_reads; [eapply read_ptr_mono; [done|done]|done]. }
  intros w9 hp9 Hle9 Hlog9 Hvia9.
  assert (hp ⊆ hp9) as Hc9 by (by etrans).
  split; [congruence|]. split; [done|]. exists pm1.
  rewrite !alter_twice in Hvia9.
  erewrite alter_ext; [eapply map_via_weaken; [done|done]|].
  by intros [] _.
Qed.

Lemma ParseNodeMetrics_refines name_of (s : store.slice store.Node.t) (nodes : list Node.t)
  (w : store.world) :
  store.read_elements store.read_node (store.mem w) s = Some nodes →
  run_to (store.ParseNodeMetrics name_of s) w
    (λ r w',
      store.mem w ⊆ store.mem w' ∧ store.log w' = store.log w
      ∧ related (λ lm m, store.read_map (store.mem w') lm = Some m) r
          (ParseNodeMetrics name_of nodes)).
Proof.
  intros Hs. unfold store.ParseNodeMetrics, ParseNodeMetrics.
  eapply run_to_conseq.
  { eapply (map_loop_refines store.read_node (store.node_body name_of)
              (λ s m, lift (node_body name_of s m))); [done|].
    intros lm j' j m w1 Hj Hm. by apply node_body_sim. }
  simpl. intros r w'. by rewrite exec_range_lift.
Qed.

(** ** The tallies kept in one struct *)

(** [p.field op= v] on the struct the call owns. *)
Lemma run_to_modify_at {A} `{!store.Cell A} (hp : store.heap) (l : store.loc) (a : A)
  (f : A → A) (w : store.world) (Q : outcome unit → store.world → Prop) :
  struct_at hp (store.mem w) l a →
  (∀ w1, store.log w1 = store.log w → struct_at hp (store.mem w1) l (f a) → Q (Ok tt) w1) →
  run_to (store.modify (Some l) f) w Q.
Proof.
  intros Hat HQ. eapply run_to_modify; [by destruct Hat as (_ & _ & ?)|].
  apply HQ; [done|]. by eapply struct_at_modify.
Qed.

(** The shape of the aggregators that fill a struct in one loop and
    finish it with [fin]. *)
Lemma struct_loop_refines {X X' A} `{!store.Cell A} `{!store.Cell (list X')}
  (f : store.heap → X' → option X) (body' : store.loc → X' → store.Run unit)
  (body : X → A → outcome A) (a0 : A) (fin : A → A) (rest : store.loc → store.Run unit)
  (s : store.slice X') (l : list X) (w : store.world) :
  store.read_elements f (store.mem w) s = Some l →
  (∀ lm x' x a w1, f (store.mem w) x' = Some x →
     struct_at (store.mem w) (store.mem w1) lm a →
     sim (λ h, struct_at (store.mem w) h lm) (λ h, store.mem w ⊆ h) (body' lm x')
       (lift (body x a)) w1) →
  (∀ lm a w1, struct_at (store.mem w) (store.mem w1) lm a →
     run_to (rest lm) w1 (λ r w2,
       r = Ok tt ∧ store.log w2 = store.log w1
       ∧ struct_at (store.mem w) (store.mem w2) lm (fin a))) →
  run_to (store.new a0 ≫= λ lm,
          store.elements s ≫= λ xs,
          store.range (body' lm) xs ≫= λ _, rest lm ≫= λ _, mret lm) w
    (λ r w',
      store.mem w ⊆ store.mem w' ∧ store.log w' = store.log w
      ∧ related (λ lm a, store.read_cell (store.mem w') lm = Some a) r
          (for_range body l a0 ≫= λ a, Ok (fin a))).
Proof.
  intros Hl Hbody Hrest. apply run_to_bind, run_to_new. intros lm Hlm.
  pose proof (struct_at_new _ _ a0 Hlm) as Hat.
  apply run_to_bind. eapply run_to_elements; [done|by apply insert_subseteq|].
  intros xs Hxs. apply run_to_bind.
  eapply run_to_conseq.
  { eapply (range_sim_pure (λ x' x, f (store.mem w) x' = Some x)
              (λ h, struct_at (store.mem w) h lm) (λ h, store.mem w ⊆ h) (body' lm) body);
      [done|done|]. intros x' x m w1 Hx Hm. by apply Hbody. }
  simpl. intros r w' (Hlog & Hpost).
  destruct (for_range body l a0) as [a|e|k]; destruct Hpost as [-> Hpost]; [|done..].
  apply run_to_bind. eapply run_to_conseq; [by apply Hrest|].
  simpl. intros r w2 (-> & Hlog2 & Hat2). apply run_to_ret.
  split; [exact (struct_at_sub _ _ _ _ Hat2)|]. split; [congruence|]. simpl.
  destruct Hat2 as (_ & _ & Hc). unfold store.read_cell. rewrite Hc. simpl.
  by rewrite store.proj_inj.
Qed.

(** The same without a last step. *)
Lemma struct_loop_refines_plain {X X' A} `{!store.Cell A} `{!store.Cell (list X')}
  (f : store.heap → X' → option X) (body' : store.loc → X' → store.Run unit)
  (body : X → A → outcome A) (a0 : A)
  (s : store.slice X') (l : list X) (w : store.world) :
  store.read_elements f (store.mem w) s = Some l →
  (∀ lm x' x a w1, f (store.mem w) x' = Some x →
     struct_at (store.mem w) (store.mem w1) lm a →
     sim (λ h, struct_at (store.mem w) h lm) (λ h, store.mem w ⊆ h) (body' lm x')
       (lift (body x a)) w1) →
  run_to (store.new a0 ≫= λ lm,
          store.elements s ≫= λ xs,
          store.range (body' lm) xs ≫= λ _, mret lm) w
    (λ r w',
      store.mem w ⊆ store.mem w' ∧ store.log w' = store.log w
      ∧ related (λ lm a, store.read_cell (store.mem w') lm = Some a) r
          (for_range body l a0)).
Proof.
  intros Hl Hbody.
  pose proof (struct_loop_refines f body' body a0 (λ a, a) (λ _, mret tt) s l w Hl Hbody)
    as Hloop.
  eapply run_to_conseq.
  - apply Hloop. intros lm a w1 Hat. by apply run_to_ret.
  - simpl. intros r w' (Hsub & Hlog & Hrel). split; [done|]. split; [done|].
    by destruct (for_range body l a0).
Qed.

Lemma gpus_body_sim hp l n' n gm w :
  store.read_node hp n' = Some n → struct_at hp (store.mem w) l gm →
  sim (λ h, struct_at hp h l) (λ h, hp ⊆ h) (store.gpus_body l n')
    (lift (gpus_body n gm)) w.
Proof.
  intros Hn Hat. pose proof (struct_at_sub _ _ _ _ Hat) as Hsub.
  unfold sim, store.gpus_body, gpus_body, lift. cbn [fst snd].
  apply run_to_bind, run_to_wrap.
  eapply (run_to_reads_at _ _ _ _ _ _ _ _ Hat); [by apply GetNodeGPUTotal_reads|].
  intros r hp1 w1 Hle1 Hlog1 Hat1 Hrel.
  pose proof (struct_at_sub _ _ _ _ Hat1) as Hsub1.
  destruct r as [total|e|k], (GetNodeGPUTotal n) as [total'|e'|k']; simpl in Hrel;
    try done; [|subst; simpl; split; [congruence|split; [done|by etrans]]..].
  subst total'. simpl.
  apply run_to_bind, run_to_wrap.
  eapply (run_to_reads_at _ _ _ _ _ _ _ _ Hat1);
    [apply GetNodeGPUAllocated_reads; [by eapply read_node_mono|done]|].
  intros r hp2 w2 Hle2 Hlog2 Hat2 Hrel2.
  assert (hp ⊆ hp2) as Hc2 by (by etrans).
  pose proof (struct_at_sub _ _ _ _ Hat2) as Hsub2.
  destruct r as [used|e|k], (GetNodeGPUAllocated n) as [used'|e'|k']; simpl in Hrel2;
    try done; [|subst; simpl; split; [congruence|split; [done|by etrans]]..].
  subst used'. simpl.
  apply run_to_bind. eapply run_to_modify_at; [done|]. intros w3 Hlog3 Hat3.
  apply run_to_bind. eapply run_to_modify_at; [done|]. intros w4 Hlog4 Hat4.
  eapply run_to_modify_at; [done|]. intros w5 Hlog5 Hat5.
  split; [congruence|]. split; [done|].
  eapply struct_at_weaken; [|done]. by destruct gm.
Qed.

Lemma ParseGPUsMetrics_refines (s : store.slice store.Node.t) (nodes : list Node.t)
  (w : store.world) :
  store.read_elements store.read_node (store.mem w) s = Some nodes →
  run_to (store.ParseGPUsMetrics s) w
    (λ r w',
      store.mem w ⊆ store.mem w' ∧ store.log w' = store.log w
      ∧ related (λ lm a, store.read_cell (store.mem w') lm = Some a) r
          (ParseGPUsMetrics nodes)).
Proof.
  intros Hs. unfold store.ParseGPUsMetrics, ParseGPUsMetrics.
  eapply run_to_conseq.
  { eapply (struct_loop_refines store.read_node store.gpus_body gpus_body NewGPUsMetrics
              store.gpus_set_utilization (λ gm, store.modify (Some gm) store.gpus_set_utilization));
      [done|..].
    - intros lm n' n a w1 Hn Hat. by apply gpus_body_sim.
    - intros lm a w1 Hat. eapply run_to_modify_at; [done|]. by intros w2 Hlog2 Hat2. }
  simpl. intros r w' (Hsub & Hlog & Hrel). split; [done|]. split; [done|].
  destruct (for_range gpus_body nodes NewGPUsMetrics) as [[]| |]; done.
Qed.

Lemma nodes_states_run hp l (elems : list NodeState) (a : nodesMetrics.t) w :
  struct_at hp (store.mem w) l a →
  run_to (store.range (store.nodes_state_body l) elems) w (λ r w',
    r = Ok tt ∧ store.log w' = store.log w
    ∧ struct_at hp (store.mem w') l (fold_left (λ nm ns, tally_node_state ns nm) elems a)).
Proof.
  revert a w. induction elems as [|ns elems IH]; intros a w Hat.
  { by apply run_to_ret. }
  simpl. apply run_to_bind.
  assert (∀ w1, store.log w1 = store.log w →
            struct_at hp (store.mem w1) l (tally_node_state ns a) →
            run_to (store.range (store.nodes_state_body l) elems) w1 (λ r w',
              r = Ok tt ∧ store.log w' = store.log w
              ∧ struct_at hp (store.mem w') l
                  (fold_left (λ nm ns, tally_node_state ns nm) elems
                     (tally_node_state ns a)))) as Hnext.
  { intros w1 Hlog1 Hat1. eapply run_to_conseq; [by apply IH|].
    simpl. intros r w' (-> & Hlog & Hat'). split; [done|]. split; [congruence|done]. }
  destruct ns; simpl;
    try (eapply run_to_modify_at; [done|]; intros w1 Hlog1 Hat1; by apply Hnext);
    apply run_to_ret; apply Hnext; [done|by destruct a..].
Qed.

Lemma nodes_body_sim hp l n' n nm w :
  store.read_node hp n' = Some n → struct_at hp (store.mem w) l nm →
  sim (λ h, struct_at hp h l) (λ h, hp ⊆ h) (store.nodes_body l n')
    (lift (nodes_body n nm)) w.
Proof.
  intros Hn Hat. pose proof (struct_at_sub _ _ _ _ Hat) as Hsub.
  unfold sim, store.nodes_body, nodes_body, lift. cbn [fst snd].
  apply run_to_bind, run_to_wrap.
  eapply (run_to_reads_at _ _ _ _ _ _ _ _ Hat); [by apply GetNodeStates_reads|].
  intros r hp1 w1 Hle1 Hlog1 Hat1 Hrel.
  pose proof (struct_at_sub _ _ _ _ Hat1) as Hsub1.
  destruct r as [ps|e|k], (GetNodeStates n) as [sts|e'|k']; simpl in Hrel;
    try done; [|subst; simpl; split; [congruence|split; [done|by etrans]]..].
  simpl. apply run_to_bind. eapply run_to_load; [done..|].
  eapply run_to_conseq; [by apply nodes_states_run|].
  simpl. intros r w2 (-> & Hlog2 & Hat2). split; [congruence|]. split; [done|].
  by eapply struct_at_weaken.
Qed.

Lemma ParseNodesMetrics_refines (s : store.slice store.Node.t) (nodes : list Node.t)
  (w : store.world) :
  store.read_elements store.read_node (store.mem w) s = Some nodes →
  run_to (store.ParseNodesMetrics s) w
    (λ r w',
      store.mem w ⊆ store.mem w' ∧ store.log w' = store.log w
      ∧ related (λ lm a, store.read_cell (store.mem w') lm = Some a) r
          (ParseNodesMetrics nodes)).
Proof.
  intros Hs. unfold store.ParseNodesMetrics, ParseNodesMetrics.
  eapply (struct_loop_refines_plain store.read_node store.nodes_body nodes_body NewNodesMetrics); [done|].
  intros lm n' n a w1 Hn Hat. by apply nodes_body_sim.
Qed.

Lemma queue_body_sim hp l j' j qm w :
  store.read_job hp j' = Some j → struct_at hp (store.mem w) l qm →
  sim (λ h, struct_at hp h l) (λ h, hp ⊆ h) (store.queue_body l j')
    (lift (queue_body j qm)) w.
Proof.
  intros Hj Hat. pose proof (struct_at_sub _ _ _ _ Hat) as Hsub.
  pose proof (read_job_fields _ _ _ Hj) as (_ & _ & _ & _ & _ & Hd).
  unfold sim, store.queue_body, queue_body, lift. cbn [fst snd].
  apply run_to_bind, run_to_wrap.
  eapply (run_to_reads_at _ _ _ _ _ _ _ _ Hat); [by apply GetJobState_reads|].
  intros r hp1 w1 Hle1 Hlog1 Hat1 Hrel.
  pose proof (struct_at_sub _ _ _ _ Hat1) as Hsub1.
  destruct r as [ps|e|k], (GetJobState j) as [st|e'|k']; simpl in Hrel;
    try done; [|subst; simpl; split; [congruence|split; [done|by etrans]]..].
  simpl. apply run_to_bind. eapply run_to_load; [done..|].
  assert (∀ w2 c, store.log w2 = store.log w1 →
            struct_at hp1 (store.mem w2) l (store.inc_counter c qm) →
            store.log w2 = store.log w
            ∧ Ok tt = Ok tt ∧ struct_at hp (store.mem w2) l (store.inc_counter c qm)) as Hend.
  { intros w2 c Hlog2 Hat2. split; [congruence|]. split; [done|].
    by eapply struct_at_weaken. }
  destruct st; destruct qm; simpl;
    try (match goal with
         | |- run_to (store.modify _ (store.inc_counter ?c)) _ _ =>
             eapply run_to_modify_at; [done|]; intros w2 Hlog2 Hat2; by apply (Hend w2 c)
         end).
  - destruct (store.Job.Dependency j') as [ld|]; cycle 1.
    { apply read_ptr_None in Hd. rewrite Hd. apply run_to_bind, run_to_load_nil.
      simpl. split; [congruence|]. split; [done|by etrans]. }
    destruct (read_ptr_Some _ _ _ Hd) as (dep & Heq & _). rewrite Heq in *.
    apply run_to_bind. eapply run_to_load; [by eapply holds_mono|done|]. simpl.
    destruct (bool_decide (dep ≠ "")); simpl;
      (eapply run_to_modify_at; [done|]; intros w2 Hlog2 Hat2).
    + by apply (Hend w2 QPendingDep).
    + by apply (Hend w2 QPending).
  - apply run_to_ret. split; [congruence|]. split; [done|]. by eapply struct_at_weaken.
Qed.

Lemma ParseQueueMetrics_refines (s : store.slice store.Job.t) (jobs : list Job.t)
  (w : store.world) :
  store.read_elements store.read_job (store.mem w) s = Some jobs →
  run_to (store.ParseQueueMetrics s) w
    (λ r w',
      store.mem w ⊆ store.mem w' ∧ store.log w' = store.log w
      ∧ related (λ lm a, store.read_cell (store.mem w') lm = Some a) r
          (ParseQueueMetrics jobs)).
Proof.
  intros Hs. unfold store.ParseQueueMetrics, ParseQueueMetrics.
  eapply (struct_loop_refines_plain store.read_job store.queue_body queue_body NewQueueMetrics); [done|].
  intros lm n' n a w1 Hn Hat. by apply queue_body_sim.
Qed.

Lemma read_diag_fields h s' s :
  store.read_diag h s' = Some s →
  store.read_ptr h (store.Diag.ServerThreadCount s') = Some (Diag.ServerThreadCount s)
  ∧ store.read_ptr h (store.Diag.AgentQueueSize s') = Some (Diag.AgentQueueSize s)
  ∧ store.read_ptr h (store.Diag.DbdAgentQueueSize s') = Some (Diag.DbdAgentQueueSize s)
  ∧ store.read_ptr h (store.Diag.ScheduleCycleLast s') = Some (Diag.ScheduleCycleLast s)
  ∧ store.read_ptr h (store.Diag.ScheduleCycleMean s') = Some (Diag.ScheduleCycleMean s)
  ∧ store.read_ptr h (store.Diag.ScheduleCyclePerMinute s')
    = Some (Diag.ScheduleCyclePerMinute s)
  ∧ store.read_ptr h (store.Diag.BfDepthMean s') = Some (Diag.BfDepthMean s)
  ∧ store.read_ptr h (store.Diag.BfCycleLast s') = Some (Diag.BfCycleLast s)
  ∧ store.read_ptr h (store.Diag.BfCycleMean s') = Some (Diag.BfCycleMean s)
  ∧ store.read_ptr h (store.Diag.BfBackfilledJobs s') = Some (Diag.BfBackfilledJobs s)
  ∧ store.read_ptr h (store.Diag.BfLastBackfilledJobs s')
    = Some (Diag.BfLastBackfilledJobs s)
  ∧ store.read_ptr h (store.Diag.BfBackfilledHetJobs s')
    = Some (Diag.BfBackfilledHetJobs s).
Proof. unfold store.read_diag. intros Hr. by simplify_option_eq. Qed.

(** [sm.field = util.GetValueOrZero(s.Field)]. *)
Lemma run_to_copy_stat hp (l : store.loc) (a : schedulerMetrics.t) (p : store.ptr Z)
  (o : option Z) (set : float → schedulerMetrics.t → schedulerMetrics.t)
  (w : store.world) (Q : outcome unit → store.world → Prop) :
  struct_at hp (store.mem w) l a → store.read_ptr hp p = Some o →
  (∀ w1, store.log w1 = store.log w →
     struct_at hp (store.mem w1) l (set (GetValueOrZero o) a) → Q (Ok tt) w1) →
  run_to (store.copy_stat l p set) w Q.
Proof.
  intros Hat Hp HQ. pose proof (struct_at_sub _ _ _ _ Hat) as Hsub.
  unfold store.copy_stat, store.GetValueOrZero. apply run_to_bind. destruct p as [lp|].
  - destruct (read_ptr_Some _ _ _ Hp) as (v & Heq & _). subst o.
    apply run_to_bind. eapply run_to_load; [done..|]. apply run_to_ret.
    by eapply run_to_modify_at.
  - apply read_ptr_None in Hp. subst o. apply run_to_ret. by eapply run_to_modify_at.
Qed.

Lemma ParseSchedulerMetrics_refines (s : store.Diag.t) (d : Diag.t) (w : store.world) :
  store.read_diag (store.mem w) s = Some d →
  run_to (store.ParseSchedulerMetrics s) w
    (λ r w',
      store.mem w ⊆ store.mem w' ∧ store.log w' = store.log w
      ∧ related (λ lm a, store.read_cell (store.mem w') lm = Some a) r
          (ParseSchedulerMetrics d)).
Proof.
  intros (H1 & H2 & H3 & H4 & H5 & H6 & H7 & H8 & H9 & H10 & H11 & H12)%read_diag_fields.
  unfold store.ParseSchedulerMetrics, ParseSchedulerMetrics.
  apply run_to_bind, run_to_new. intros l Hl.
  pose proof (struct_at_new _ _ store.NewSchedulerMetrics Hl) as Hat.
  apply run_to_bind. eapply run_to_copy_stat; [done..|]. intros w1 Hlog1 Hat1.
  apply run_to_bind. eapply run_to_copy_stat; [done..|]. intros w2 Hlog2 Hat2.
  apply run_to_bind. eapply run_to_copy_stat; [done..|]. intros w3 Hlog3 Hat3.
  apply run_to_bind. eapply run_to_copy_stat; [done..|]. intros w4 Hlog4 Hat4.
  apply run_to_bind. eapply run_to_copy_stat; [done..|]. intros w5 Hlog5 Hat5.
  apply run_to_bind. eapply run_to_copy_stat; [done..|]. intros w6 Hlog6 Hat6.
  apply run_to_bind. eapply run_to_copy_stat; [done..|]. intros w7 Hlog7 Hat7.
  apply run_to_bind. eapply run_to_copy_stat; [done..|]. intros w8 Hlog8 Hat8.
  apply run_to_bind. eapply run_to_copy_stat; [done..|]. intros w9 Hlog9 Hat9.
  apply run_to_bind. eapply run_to_copy_stat; [done..|]. intros w10 Hlog10 Hat10.
  apply run_to_bind. eapply run_to_copy_stat; [done..|]. intros w11 Hlog11 Hat11.
  apply run_to_bind. eapply run_to_copy_stat; [done..|]. intros w12 Hlog12 Hat12.
  apply run_to_ret. split; [exact (struct_at_sub _ _ _ _ Hat12)|].
  split; [simpl in *; congruence|]. simpl.
  destruct Hat12 as (_ & _ & Hc). unfold store.read_cell. by rewrite Hc.
Qed.

Lemma Forall2_diag {A} (l : list A) : Forall2 eq l l.
Proof. induction l; by constructor. Qed.

(** ** The cluster CPU tally *)

Lemma cpus_job_body_sim hp l j' j cm w :
  store.read_job hp j' = Some j → struct_at hp (store.mem w) l cm →
  sim (λ h, struct_at hp h l) (λ h, hp ⊆ h) (store.cpus_job_body l j')
    (cpus_job_body j cm) w.
Proof.
  intros Hj Hat. pose proof (struct_at_sub _ _ _ _ Hat) as Hsub.
  unfold sim, store.cpus_job_body, cpus_job_body.
  apply run_to_or_continue.
  eapply (run_to_reads_at _ _ _ _ _ _ _ _ Hat); [by apply GetJobState_reads|].
  intros r hp1 w1 Hle1 Hlog1 Hat1 Hrel.
  pose proof (struct_at_sub _ _ _ _ Hat1) as Hsub1.
  destruct r as [ps|e|k], (GetJobState j) as [st|e'|k']; simpl in Hrel;
    try done; simpl; cycle 1.
  { subst. rewrite Hlog1. split; [done|]. split; [done|]. by eapply struct_at_weaken. }
  { subst. split; [done|]. split; [done|]. by etrans. }
  apply run_to_or_continue.
  eapply (run_to_reads_at _ _ _ _ _ _ _ _ Hat1);
    [apply GetJobCPUs_reads; [by eapply read_job_mono|done]|].
  intros r hp2 w2 Hle2 Hlog2 Hat2 Hrel2.
  assert (hp ⊆ hp2) as Hc2 by (by etrans).
  pose proof (struct_at_sub _ _ _ _ Hat2) as Hsub2.
  destruct r as [pc|e|k], (GetJobCPUs j) as [c|e'|k']; simpl in Hrel2;
    try done; simpl; cycle 1.
  { subst. split; [congruence|]. split; [done|]. by eapply struct_at_weaken. }
  { subst. split; [congruence|]. split; [done|]. by etrans. }
  apply run_to_bind. eapply run_to_load; [by eapply holds_mono|done|].
  destruct (decide (st = JobStateRunning)).
  - apply run_to_bind. eapply run_to_load; [done..|].
    eapply run_to_modify_at; [done|]. intros w3 Hlog3 Hat3.
    split; [congruence|]. split; [done|]. eapply struct_at_weaken; [|done]. by destruct cm.
  - apply run_to_ret. split; [congruence|]. split; [done|]. by eapply struct_at_weaken.
Qed.

Lemma cpus_state_body_sim hp l n' n ns cm w :
  store.read_node hp n' = Some n → struct_at hp (store.mem w) l cm →
  sim (λ h, struct_at hp h l) (λ h, hp ⊆ h) (store.cpus_state_body l n' ns)
    (lift (cpus_state_body n ns cm)) w.
Proof.
  intros Hn Hat. pose proof (struct_at_sub _ _ _ _ Hat) as Hsub.
  pose proof (read_node_fields _ _ _ Hn) as (_ & _ & _ & _ & _ & _ & _ & _ & _ & Hi & _).
  unfold sim, store.cpus_state_body, cpus_state_body, lift. cbn [fst snd].
  destruct (counts_idle ns); [|by apply run_to_ret].
  destruct (store.Node.AllocIdleCpus n') as [li|]; cycle 1.
  { apply read_ptr_None in Hi. rewrite Hi. apply run_to_bind, run_to_load_nil. by simpl. }
  destruct (read_ptr_Some _ _ _ Hi) as (v & Heq & _). rewrite Heq in *.
  apply run_to_bind. eapply run_to_load; [done..|]. simpl.
  eapply run_to_modify_at; [done|]. intros w1 Hlog1 Hat1.
  split; [done|]. split; [done|]. by destruct cm.
Qed.

Lemma cpus_node_body_sim hp l n' n cm w :
  store.read_node hp n' = Some n → struct_at hp (store.mem w) l cm →
  sim (λ h, struct_at hp h l) (λ h, hp ⊆ h) (store.cpus_node_body l n')
    (lift (cpus_node_body n cm)) w.
Proof.
  intros Hn Hat. pose proof (struct_at_sub _ _ _ _ Hat) as Hsub.
  pose proof (read_node_fields _ _ _ Hn) as (_ & _ & _ & _ & _ & _ & _ & _ & _ & _ & Hc).
  unfold sim, store.cpus_node_body, cpus_node_body, lift. cbn [fst snd].
  destruct (store.Node.Cpus n') as [lc|]; cycle 1.
  { apply read_ptr_None in Hc. rewrite Hc. apply run_to_bind, run_to_load_nil. by simpl. }
  destruct (read_ptr_Some _ _ _ Hc) as (c & Heq & _). rewrite Heq in *.
  apply run_to_bind. eapply run_to_load; [done..|]. simpl.
  destruct (c =? 1); [by apply run_to_ret|].
  apply run_to_bind. eapply run_to_load; [done..|].
  apply run_to_bind. eapply run_to_modify_at; [done|]. intros w1 Hlog1 Hat1.
  pose proof (struct_at_sub _ _ _ _ Hat1) as Hsub1.
  apply run_to_bind, run_to_wrap.
  eapply (run_to_reads_at _ _ _ _ _ _ _ _ Hat1); [by apply GetNodeStates_reads|].
  intros r hp2 w2 Hle2 Hlog2 Hat2 Hrel.
  pose proof (struct_at_sub _ _ _ _ Hat2) as Hsub2.
  destruct r as [ps|e|k], (GetNodeStates n) as [sts|e'|k']; simpl in Hrel;
    try done; [|subst; simpl; split; [congruence|split; [done|by etrans]]..].
  simpl. apply run_to_bind. eapply run_to_load; [done..|].
  eapply run_to_conseq.
  { eapply (range_sim_pure eq (λ h, struct_at hp2 h l) (λ h, hp2 ⊆ h)
              (store.cpus_state_body l n') (cpus_state_body n)).
    - apply Forall2_diag.
    - done.
    - intros ns' ns a w3 <- Hat3. apply cpus_state_body_sim; [by eapply read_node_mono|done]. }
  simpl. intros r w3 (Hlog3 & Hpost). split; [congruence|].
  replace (cpusMetrics.Build_t (cpusMetrics.alloc cm) (cpusMetrics.idle cm)
             (cpusMetrics.other cm) (cpusMetrics.total cm + float64_of_int c)%float)
    with (store.cpus_add_total (float64_of_int c) cm) by (by destruct cm).
  destruct (for_range (cpus_state_body n) sts _) as [a|e|k]; destruct Hpost as [-> Hpost].
  - split; [done|]. by eapply struct_at_weaken.
  - split; [done|]. by etrans.
  - split; [done|]. by etrans.
Qed.

Lemma ParseCPUsMetrics_refines (sn : store.slice store.Node.t) (sj : store.slice store.Job.t)
  (nodes : list Node.t) (jobs : list Job.t) (w : store.world) :
  store.read_elements store.read_node (store.mem w) sn = Some nodes →
  store.read_elements store.read_job (store.mem w) sj = Some jobs →
  run_to (store.ParseCPUsMetrics sn sj) w
    (λ r w',
      store.mem w ⊆ store.mem w'
      ∧ store.log w' = (ParseCPUsMetrics nodes jobs (store.log w)).2
      ∧ related (λ lm a, store.read_cell (store.mem w') lm = Some a) r
          (ParseCPUsMetrics nodes jobs (store.log w)).1).
Proof.
  intros Hn Hj. unfold store.ParseCPUsMetrics, ParseCPUsMetrics.
  apply run_to_bind, run_to_new. intros l Hl.
  pose proof (struct_at_new _ _ NewCPUsMetrics Hl) as Hat.
  apply run_to_bind. eapply run_to_elements; [done|by apply insert_subseteq|].
  intros js Hjs. apply run_to_bind.
  eapply run_to_conseq.
  { eapply (range_sim (λ x' x, store.read_job (store.mem w) x' = Some x)
              (λ h, struct_at (store.mem w) h l) (λ h, store.mem w ⊆ h)
              (store.cpus_job_body l) cpus_job_body); [done|done|].
    intros x' x m w1 Hx Hm. by apply cpus_job_body_sim. }
  simpl. intros r w1 (Hlog1 & Hpost).
  change ((exec_range cpus_job_body jobs NewCPUsMetrics ≫= _) (store.log w))
    with (match exec_range cpus_job_body jobs NewCPUsMetrics (store.log w) with
          | (Ok a, log') =>
              lift (for_range cpus_node_body nodes a ≫= λ cm,
                    Ok (cpusMetrics.Build_t (cpusMetrics.alloc cm) (cpusMetrics.idle cm)
                          (cpusMetrics.total cm - cpusMetrics.idle cm
                           - cpusMetrics.alloc cm)%float (cpusMetrics.total cm))) log'
          | (Err e, log') => (Err e, log')
          | (Panic k, log') => (Panic k, log')
          end).
  destruct (exec_range cpus_job_body jobs NewCPUsMetrics (store.log w)) as [[cm|e|k] lg];
    simpl in *; destruct Hpost as [-> Hpost]; [|done..].
  pose proof (struct_at_sub _ _ _ _ Hpost) as Hsub1.
  apply run_to_bind. eapply run_to_elements; [done..|].
  intros ns Hns. apply run_to_bind.
  eapply run_to_conseq.
  { eapply (range_sim_pure (λ x' x, store.read_node (store.mem w) x' = Some x)
              (λ h, struct_at (store.mem w) h l) (λ h, store.mem w ⊆ h)
              (store.cpus_node_body l) cpus_node_body); [done|done|].
    intros x' x m w2 Hx Hm. by apply cpus_node_body_sim. }
  simpl. intros r w2 (Hlog2 & Hpost2). unfold lift.
  destruct (for_range cpus_node_body nodes cm) as [cm2|e|k]; simpl;
    destruct Hpost2 as [-> Hpost2]; [|split; [done|split; [congruence|done]]..].
  apply run_to_bind. eapply run_to_modify_at; [done|]. intros w3 Hlog3 Hat3.
  apply run_to_ret. split; [exact (struct_at_sub _ _ _ _ Hat3)|]. split; [congruence|].
  simpl. destruct Hat3 as (_ & _ & Hc). unfold store.read_cell. rewrite Hc. simpl.
  by destruct cm2.
Qed.

(** ** The partition cross-reference *)

Lemma read_partition_mono (h h' : store.heap) p' p :
  h ⊆ h' → store.read_partition h p' = Some p → store.read_partition h' p' = Some p.
Proof.
  intros Hsub Hr. unfold store.read_partition in *.
  destruct (store.read_ptr h (store.Partition.Name p')) as [name|] eqn:H1; [|done].
  destruct (store.read_struct store.read_partition_cpus h (store.Partition.Cpus p'))
    as [c|] eqn:H2; [|done].
  destruct (store.read_struct store.read_partition_nodes h (store.Partition.Nodes p'))
    as [c2|] eqn:H3; [|done].
  apply (read_struct_mono _ h h') in H2; [|clear H2|done].
  - apply (read_struct_mono _ h h') in H3; [|clear H3|done].
    + by rewrite (read_ptr_mono _ _ _ _ H1 Hsub), H2, H3.
    + intros a b. unfold store.read_partition_nodes.
      destruct (store.read_ptr h (store.Partition.Configured a)) as [n|] eqn:Hn; [|done].
      by rewrite (read_ptr_mono _ _ _ _ Hn Hsub).
  - intros a b. unfold store.read_partition_cpus.
    destruct (store.read_ptr h (store.Partition.Total a)) as [n|] eqn:Hn; [|done].
    by rewrite (read_ptr_mono _ _ _ _ Hn Hsub).
Qed.

(** A cell allocated beside a map leaves the map as it is. *)
Lemma map_via_ext {A} `{!store.Cell A} (hp h h' : store.heap) (lm : store.loc)
  (pm : gmap string store.loc) (m : gmap string A) :
  map_via hp h lm pm m → h ⊆ h' → map_via hp h' lm pm m.
Proof.
  intros (Hsub & Hlm & Hh & Hnone & Hsome & Hinj) Hle.
  split; [by etrans|]. split; [done|]. split; [by eapply lookup_weaken|].
  split; [done|]. split; [|done].
  intros k p Hk. destruct (Hsome k p Hk) as (Hp & Hne & r & Hr & Hhp).
  split; [done|]. split; [done|]. exists r. split; [done|]. by eapply lookup_weaken.
Qed.

(** [*p] on a struct of the map. *)
Lemma run_to_load_cell {A} `{!store.Cell A} (l : store.loc) (a : A) (w : store.world)
  (Q : outcome A → store.world → Prop) :
  store.mem w !! l = Some (store.inj a) → Q (Ok a) w → run_to (store.load (Some l)) w Q.
Proof.
  intros Hl HQ. exists (Ok a), w. split; [|done]. unfold store.load. rewrite Hl. simpl.
  by rewrite store.proj_inj.
Qed.

(** A loop on the store that cannot fail, against a fold on values. *)
Lemma range_fold_run {X X' A} `{!store.Cell A} (R : X' → X → Prop) (hp : store.heap)
  (lm : store.loc) (body' : X' → store.Run unit) (f : gmap string A → X → gmap string A)
  (l' : list X') (l : list X) (pm : gmap string store.loc) (m : gmap string A)
  (w : store.world) :
  Forall2 R l' l →
  (∀ x' x pm m w, R x' x → map_via hp (store.mem w) lm pm m →
     run_to (body' x') w (λ r w', r = Ok tt ∧ store.log w' = store.log w
       ∧ ∃ pm', map_via hp (store.mem w') lm pm' (f m x))) →
  map_via hp (store.mem w) lm pm m →
  run_to (store.range body' l') w (λ r w', r = Ok tt ∧ store.log w' = store.log w
    ∧ ∃ pm', map_via hp (store.mem w') lm pm' (fold_left f l m)).
Proof.
  intros Hl Hbody. revert pm m w. induction Hl as [|x' x l' l Hx _ IH]; intros pm m w Hvia.
  { apply run_to_ret. eauto. }
  simpl. apply run_to_bind. eapply run_to_conseq; [by eapply Hbody|].
  simpl. intros r w1 (-> & Hlog1 & pm1 & Hvia1).
  eapply run_to_conseq; [by eapply IH|].
  simpl. intros r w2 (-> & Hlog2 & pm2 & Hvia2). split; [done|]. split; [congruence|eauto].
Qed.

Lemma run_to_ensure_partition hp lm pm m k w (Q : outcome unit → store.world → Prop) :
  map_via hp (store.mem w) lm pm m →
  (∀ w1 pm1 p, store.log w1 = store.log w →
     map_via hp (store.mem w1) lm pm1 (ensure_key k NewPartitionsMetrics m) →
     pm1 !! k = Some p → Q (Ok tt) w1) →
  run_to (store.ensure_partition lm k) w Q.
Proof.
  intros Hvia HQ. unfold store.ensure_partition.
  eapply (run_to_ensure hp lm pm m k NewPartitionsMetrics);
    [done|intros _; by eapply run_to_new_key|done].
Qed.

Lemma fan_out_one_run hp lm alloc_cpus idle_cpus k pm m w :
  map_via hp (store.mem w) lm pm m →
  run_to (store.fan_out_one lm alloc_cpus idle_cpus k) w (λ r w',
    r = Ok tt ∧ store.log w' = store.log w
    ∧ ∃ pm', map_via hp (store.mem w') lm pm' (fan_out_one alloc_cpus idle_cpus m k)).
Proof.
  intros Hvia. unfold store.fan_out_one, fan_out_one.
  apply run_to_bind. eapply run_to_ensure_partition; [done|].
  intros w1 pm1 p Hlog1 Hvia1 Hp1.
  apply run_to_bind. eapply run_to_at_key; [exact (map_via_lookup _ _ _ _ _ Hvia1)|].
  rewrite Hp1.
  apply run_to_bind. eapply run_to_modify_key; [done..|]. intros w2 Hlog2 Hvia2.
  apply run_to_bind. eapply run_to_at_key; [exact (map_via_lookup _ _ _ _ _ Hvia2)|].
  rewrite Hp1.
  eapply run_to_modify_key; [done..|]. intros w3 Hlog3 Hvia3.
  split; [done|]. split; [congruence|]. exists pm1.
  rewrite alter_twice in Hvia3. erewrite alter_ext; [done|]. by intros [] _.
Qed.

Lemma pending_one_run hp lm k pm m w :
  map_via hp (store.mem w) lm pm m →
  run_to (store.pending_one lm k) w (λ r w',
    r = Ok tt ∧ store.log w' = store.log w
    ∧ ∃ pm', map_via hp (store.mem w') lm pm' (pending_one m k)).
Proof.
  intros Hvia. unfold store.pending_one, pending_one.
  apply run_to_bind. eapply run_to_ensure_partition; [done|].
  intros w1 pm1 p Hlog1 Hvia1 Hp1.
  apply run_to_bind. eapply run_to_at_key; [exact (map_via_lookup _ _ _ _ _ Hvia1)|].
  rewrite Hp1.
  eapply run_to_modify_key; [done..|]. intros w2 Hlog2 Hvia2.
  split; [done|]. split; [congruence|]. by exists pm1.
Qed.

Lemma derive_loop_run hp lm (ks : list string) pm m w :
  Forall (λ k, is_Some (pm !! k)) ks → map_via hp (store.mem w) lm pm m →
  run_to (store.range (store.derive_at lm) ks) w (λ r w',
    r = Ok tt ∧ store.log w' = store.log w
    ∧ map_via hp (store.mem w') lm pm (fold_left derive_at ks m)).
Proof.
  intros Hks. revert m w. induction Hks as [|k ks [p Hp] _ IH]; intros m w Hvia.
  { by apply run_to_ret. }
  simpl. apply run_to_bind. unfold store.derive_at at 1.
  apply run_to_bind. eapply run_to_at_key; [exact (map_via_lookup _ _ _ _ _ Hvia)|].
  apply run_to_bind. eapply run_to_at_key; [exact (map_via_lookup _ _ _ _ _ Hvia)|].
  rewrite Hp.
  destruct (map_via_modify _ _ _ _ _ _ _ derive_other Hvia Hp) as (r & Hr & Hl & Hvia1).
  apply run_to_bind. eapply run_to_load_cell; [done|].
  eapply run_to_modify; [done|].
  replace (store.set_cpus_other _ r) with (derive_other r) by (by destruct r).
  eapply run_to_conseq; [by apply IH|].
  simpl. intros r' w2 (-> & Hlog2 & Hvia2). done.
Qed.

Lemma map_via_store_other {A} `{!store.Cell A} (hp h : store.heap) (lm l : store.loc)
  (pm : gmap string store.loc) (m : gmap string A) (c : store.cell) :
  map_via hp h lm pm m → hp !! l = None → l ≠ lm → (∀ k, pm !! k ≠ Some l) →
  map_via hp (<[l := c]> h) lm pm m.
Proof.
  intros (Hsub & Hlm & Hh & Hnone & Hsome & Hinj) Hl Hne Hran.
  split; [by apply insert_subseteq_r|]. split; [done|].
  split; [by rewrite lookup_insert_ne|]. split; [done|]. split; [|done].
  intros k p Hk. destruct (Hsome k p Hk) as (Hp & Hpne & r & Hr & Hhp).
  split; [done|]. split; [done|]. exists r. split; [done|].
  rewrite lookup_insert_ne; [done|]. intros ->. by eapply Hran.
Qed.

Lemma run_to_elements_holds {A} `{!store.Cell (list A)} (hp : store.heap)
  (s : store.slice A) (l : list A) (w : store.world)
  (Q : outcome (list A) → store.world → Prop) :
  holds hp s l → hp ⊆ store.mem w → Q (Ok l) w → run_to (store.elements s) w Q.
Proof.
  intros Hs Hsub HQ. unfold store.elements. destruct s as [a|]; [|done].
  by eapply run_to_load.
Qed.

Lemma fan_out_node_run hp lm n' n pm m w :
  store.read_node hp n' = Some n → map_via hp (store.mem w) lm pm m →
  run_to (store.fan_out_node lm n') w (λ r w',
    r = Ok tt ∧ store.log w' = store.log w
    ∧ ∃ pm', map_via hp (store.mem w') lm pm' (fan_out_node m n)).
Proof.
  intros Hn Hvia. pose proof (map_via_sub _ _ _ _ _ Hvia) as Hsub.
  pose proof (read_node_fields _ _ _ Hn) as (_ & _ & _ & _ & _ & _ & _ & _ & Ha & Hi & _).
  unfold store.fan_out_node, fan_out_node.
  apply run_to_bind.
  eapply (run_to_reads_via _ _ _ _ _ _ _ _ _ Hvia).
  { unfold store.GetNodeAllocCPUs. by eapply getter_reads. }
  intros r hp1 w1 Hle1 Hlog1 Hvia1 Hrel. destruct r as [a| |]; simpl in Hrel; try done.
  subst a. pose proof (map_via_sub _ _ _ _ _ Hvia1) as Hsub1.
  apply run_to_bind.
  eapply (run_to_reads_via _ _ _ _ _ _ _ _ _ Hvia1).
  { unfold store.GetNodeIdleCPUs. eapply getter_reads; [|done]. by eapply read_ptr_mono. }
  intros r hp2 w2 Hle2 Hlog2 Hvia2 Hrel. destruct r as [i| |]; simpl in Hrel; try done.
  subst i. pose proof (map_via_sub _ _ _ _ _ Hvia2) as Hsub2.
  assert (hp ⊆ hp2) as Hc2 by (by etrans).
  apply run_to_bind.
  eapply (run_to_reads_via _ _ _ _ _ _ _ _ _ Hvia2).
  { apply GetNodePartitions_reads; [by eapply read_node_mono|done]. }
  intros r hp3 w3 Hle3 Hlog3 Hvia3 Hrel. destruct r as [s| |]; simpl in Hrel; try done.
  pose proof (map_via_sub _ _ _ _ _ Hvia3) as Hsub3.
  assert (hp ⊆ hp3) as Hc3 by (by etrans).
  apply run_to_bind. eapply run_to_elements_holds; [done..|].
  eapply run_to_conseq.
  { eapply (range_fold_run eq hp3 lm _
              (fan_out_one (GetNodeAllocCPUs n) (GetNodeIdleCPUs n)));
      [apply Forall2_diag| |done].
    intros k' k pm0 m0 w0 <- Hvia0. by eapply fan_out_one_run. }
  simpl. intros r w4 (-> & Hlog4 & pm4 & Hvia4). split; [done|]. split; [congruence|].
  exists pm4. by eapply map_via_weaken.
Qed.

Lemma seed_body_sim hp lm p' p m w :
  store.read_partition hp p' = Some p → map_at hp (store.mem w) lm m →
  sim (λ h, map_at hp h lm) (λ h, hp ⊆ h) (store.seed_body lm p')
    (lift (seed_body p m)) w.
Proof.
  intros Hp (pm & Hvia). pose proof (map_via_sub _ _ _ _ _ Hvia) as Hsub.
  unfold sim, store.seed_body, seed_body, lift. cbn [fst snd].
  apply run_to_bind, run_to_wrap.
  eapply (run_to_reads_via _ _ _ _ _ _ _ _ _ Hvia); [by apply GetPartitionName_reads|].
  intros r hp1 w1 Hle1 Hlog1 Hvia1 Hrel.
  pose proof (map_via_sub _ _ _ _ _ Hvia1) as Hsub1.
  destruct r as [pn|e|k], (GetPartitionName p) as [name|e'|k']; simpl in Hrel;
    try done; [|subst; simpl; split; [congruence|split; [done|by etrans]]..].
  simpl. apply run_to_bind. eapply run_to_load; [done..|].
  apply run_to_bind.
  eapply (run_to_ensure hp1 lm pm m name NewPartitionsMetrics); [done| |].
  { intros _. apply run_to_bind. eapply run_to_load; [done..|]. by eapply run_to_new_key. }
  intros w2 pm2 q Hlog2 Hvia2 Hq2.
  pose proof (map_via_sub _ _ _ _ _ Hvia2) as Hsub2.
  apply run_to_bind, run_to_wrap.
  eapply (run_to_reads_via _ _ _ _ _ _ _ _ _ Hvia2);
    [apply GetPartitionTotalCPUs_reads; [by eapply read_partition_mono|done]|].
  intros r hp3 w3 Hle3 Hlog3 Hvia3 Hrel3.
  pose proof (map_via_sub _ _ _ _ _ Hvia3) as Hsub3.
  assert (hp ⊆ hp3) as Hc3 by (by etrans).
  destruct r as [pt|e|k], (GetPartitionTotalCPUs p) as [total|e'|k']; simpl in Hrel3;
    try done; [|subst; simpl; split; [congruence|split; [done|by etrans]]..].
  simpl. apply run_to_bind. eapply run_to_load; [by eapply holds_mono|done|].
  apply run_to_bind. eapply run_to_at_key; [exact (map_via_lookup _ _ _ _ _ Hvia3)|].
  rewrite Hq2.
  apply run_to_bind. eapply run_to_load; [done..|].
  eapply run_to_modify_key; [done..|]. intros w4 Hlog4 Hvia4.
  split; [congruence|]. split; [done|]. exists pm2. by eapply map_via_weaken.
Qed.

Lemma pending_body_sim hp lm j' j m w :
  store.read_job hp j' = Some j → map_at hp (store.mem w) lm m →
  sim (λ h, map_at hp h lm) (λ h, hp ⊆ h) (store.pending_body lm j')
    (lift (pending_body j m)) w.
Proof.
  intros Hj (pm & Hvia). pose proof (map_via_sub _ _ _ _ _ Hvia) as Hsub.
  unfold sim, store.pending_body, pending_body, lift. cbn [fst snd].
  apply run_to_bind, run_to_wrap.
  eapply (run_to_reads_via _ _ _ _ _ _ _ _ _ Hvia); [by apply GetJobPartitionName_reads|].
  intros r hp1 w1 Hle1 Hlog1 Hvia1 Hrel.
  pose proof (map_via_sub _ _ _ _ _ Hvia1) as Hsub1.
  destruct r as [pn|e|k], (GetJobPartitionName j) as [name|e'|k']; simpl in Hrel;
    try done; [|subst; simpl; split; [congruence|split; [done|by etrans]]..].
  simpl. apply run_to_bind. eapply run_to_load; [done..|].
  eapply run_to_conseq.
  { eapply (range_fold_run eq hp1 lm _ pending_one); [apply Forall2_diag| |done].
    intros k' k pm0 m0 w0 <- Hvia0. by eapply pending_one_run. }
  simpl. intros r w2 (-> & Hlog2 & pm2 & Hvia2). split; [congruence|]. split; [done|].
  exists pm2. by eapply map_via_weaken.
Qed.

(** The second loop fills a table of its own and leaves the map of the
    partitions as it is. *)
Lemma node_partitions_body_sim h0 lnp lpm pm1 (m1 : gmap string partitionMetrics.t)
  n' n (s : gmap string (list string)) w :
  store.read_node h0 n' = Some n → lnp ≠ lpm → (∀ k, pm1 !! k ≠ Some lnp) →
  (∃ np : gmap string (option store.loc), struct_at h0 (store.mem w) lnp np) →
  map_via h0 (store.mem w) lpm pm1 m1 →
  sim (λ h (_ : gmap string (list string)),
         (∃ np : gmap string (option store.loc), struct_at h0 h lnp np)
         ∧ map_via h0 h lpm pm1 m1)
      (λ h, h0 ⊆ h) (store.node_partitions_body lnp n')
      (lift (node_partitions_body n s)) w.
Proof.
  intros Hn Hne Hran [np Hat] Hvia. pose proof (struct_at_sub _ _ _ _ Hat) as Hsub.
  unfold sim, store.node_partitions_body, node_partitions_body, lift. cbn [fst snd].
  apply run_to_bind, run_to_wrap.
  eapply run_to_reads; [by apply GetNodeName_reads|]. intros r hn Hdisj Hrel.
  pose proof (struct_at_alloc _ _ _ _ _ Hat Hdisj) as Hat1.
  pose proof (map_via_ext _ _ (hn ∪ store.mem w) _ _ _ Hvia
                (map_union_subseteq_r _ _ Hdisj)) as Hvia1.
  pose proof (struct_at_sub _ _ _ _ Hat1) as Hsub1.
  pose proof (map_via_sub _ _ _ _ _ Hvia1) as Hsub1'.
  assert (h0 ⊆ hn ∪ h0) as Hle1.
  { apply map_union_subseteq_r. by eapply map_disjoint_weaken_r. }
  destruct r as [pn|e|k], (GetNodeName n) as [name|e'|k']; simpl in Hrel;
    try done; [|subst; simpl; by repeat split..].
  simpl. apply run_to_bind. eapply run_to_load; [done..|].
  apply run_to_bind.
  eapply run_to_reads;
    [apply (GetNodePartitions_reads (hn ∪ h0)); [by eapply read_node_mono|done]|].
  simpl. intros r hn2 Hdisj2 Hrel2. destruct r as [ps| |]; simpl in Hrel2; try done.
  pose proof (struct_at_alloc _ _ _ _ _ Hat1 Hdisj2) as Hat2.
  pose proof (map_via_ext _ _ (hn2 ∪ (hn ∪ store.mem w)) _ _ _ Hvia1
                (map_union_subseteq_r _ _ Hdisj2)) as Hvia2.
  assert (hn ∪ h0 ⊆ hn2 ∪ (hn ∪ h0)) as Hle2.
  { apply map_union_subseteq_r. by eapply map_disjoint_weaken_r. }
  eapply run_to_modify; [by destruct Hat2 as (_ & _ & ?)|].
  simpl. split; [done|]. split; [done|]. split.
  - exists (<[name := ps]> np).
    pose proof (struct_at_modify _ _ _ _ (<[name := ps]> np) Hat2) as Hat3.
    eapply struct_at_weaken; [exact Hat3|]. by etrans.
  - apply map_via_store_other; [done|by destruct Hat as (_ & ? & _)|done..].
Qed.

Lemma fold_derive_any_order (ks : list string) (pm : gmap string store.loc)
  (m : gmap string partitionMetrics.t) :
  ks ≡ₚ (map_to_list pm).*1 → (∀ k, pm !! k = None → m !! k = None) →
  fold_left derive_at ks m = derive_other <$> m.
Proof.
  intros Hks Hnone. apply map_eq. intros k.
  rewrite derive_loop_lookup, lookup_fmap. case_decide as Hk; [done|].
  rewrite Hnone; [done|]. destruct (pm !! k) as [p|] eqn:Hp; [|done].
  exfalso. apply Hk. rewrite Hks. apply list_elem_of_fmap. exists (k, p).
  split; [done|]. by apply elem_of_map_to_list.
Qed.

Lemma ParsePartitionsMetrics_refines
  (rk : gmap string partitionMetrics.t → list string)
  (rk' : gmap string store.loc → list string)
  (sp : store.slice store.Partition.t) (sj : store.slice store.Job.t)
  (sn : store.slice store.Node.t)
  (partitions : list Partition.t) (jobs : list Job.t) (nodes : list Node.t)
  (w : store.world) :
  valid_range_order rk → valid_range_order rk' →
  store.read_elements store.read_partition (store.mem w) sp = Some partitions →
  store.read_elements store.read_job (store.mem w) sj = Some jobs →
  store.read_elements store.read_node (store.mem w) sn = Some nodes →
  run_to (store.ParsePartitionsMetrics rk' sp sj sn) w
    (λ r w',
      store.mem w ⊆ store.mem w' ∧ store.log w' = store.log w
      ∧ related (λ lm m, store.read_map (store.mem w') lm = Some m) r
          (ParsePartitionsMetrics rk partitions jobs nodes)).
Proof.
  intros Hrk Hrk' Hsp Hsj Hsn.
  unfold store.ParsePartitionsMetrics, ParsePartitionsMetrics.
  set (h0 := store.mem w).
  apply run_to_bind, run_to_new. intros lpm Hlpm.
  apply run_to_bind, run_to_new. simpl. intros lnp Hlnp.
  assert (lnp ≠ lpm) as Hne by (intros ->; by rewrite lookup_insert_eq in Hlnp).
  rewrite lookup_insert_ne in Hlnp by done.
  set (hp1 := <[lnp := store.inj (∅ : gmap string (option store.loc))]> h0).
  assert (h0 ⊆ hp1) as Hle1 by (by apply insert_subseteq).
  assert (map_via (A := partitionMetrics.t) hp1
            (<[lnp := store.inj (∅ : gmap string (option store.loc))]>
               (<[lpm := store.inj (∅ : gmap string store.loc)]> h0)) lpm ∅ ∅) as Hvia0.
  { split; [by apply insert_mono, insert_subseteq|].
    split; [unfold hp1; by rewrite lookup_insert_ne|].
    split; [by rewrite lookup_insert_ne, lookup_insert_eq|].
    split; [done|]. split; by intros *; rewrite lookup_empty. }
  apply run_to_bind.
  eapply run_to_elements; [done|etrans; [exact Hle1|exact (map_via_sub _ _ _ _ _ Hvia0)]|].
  intros ps Hps. apply run_to_bind.
  eapply run_to_conseq.
  { eapply (range_sim_pure (λ x' x, store.read_partition h0 x' = Some x)
              (λ h, map_at hp1 h lpm) (λ h, hp1 ⊆ h) (store.seed_body lpm) seed_body);
      [done|by eexists|].
    intros x' x m w1 Hx Hm. apply seed_body_sim; [by eapply read_partition_mono|done]. }
  simpl. intros r w1 (Hlog1 & Hpost).
  destruct (for_range seed_body partitions ∅) as [m1|e|k]; simpl;
    destruct Hpost as [-> Hpost]; [|split; [by etrans|done]..].
  destruct Hpost as (pm1 & Hvia1).
  assert (∀ k, pm1 !! k ≠ Some lnp) as Hran.
  { intros k Hk. destruct Hvia1 as (_ & _ & _ & _ & Hsome & _).
    destruct (Hsome k lnp Hk) as (Hp & _). unfold hp1 in Hp.
    by rewrite lookup_insert_eq in Hp. }
  assert (struct_at h0 (store.mem w1) lnp (∅ : gmap string (option store.loc))) as Hat1.
  { split; [etrans; [done|exact (map_via_sub _ _ _ _ _ Hvia1)]|]. split; [done|].
    eapply lookup_weaken; [|exact (map_via_sub _ _ _ _ _ Hvia1)].
    unfold hp1. by rewrite lookup_insert_eq. }
  pose proof (map_via_weaken _ _ _ _ _ _ Hvia1 Hle1) as Hvia1'.
  apply run_to_bind. eapply run_to_elements; [done|exact (map_via_sub _ _ _ _ _ Hvia1')|].
  intros ns Hns. apply run_to_bind.
  eapply run_to_conseq.
  { eapply (range_sim_pure (λ x' x, store.read_node h0 x' = Some x)
              (λ h (_ : gmap string (list string)),
                 (∃ np : gmap string (option store.loc), struct_at h0 h lnp np)
                 ∧ map_via h0 h lpm pm1 m1)
              (λ h, h0 ⊆ h) (store.node_partitions_body lnp) node_partitions_body
              ns nodes ∅);
      [done|by eauto|].
    intros x' x m w2 Hx [Hm1 Hm2]. by apply node_partitions_body_sim. }
  simpl. intros r w2 (Hlog2 & Hpost).
  destruct (for_range node_partitions_body nodes ∅) as [np|e|k]; simpl;
    destruct Hpost as [-> Hpost]; [|split; [done|split; [congruence|done]]..].
  destruct Hpost as [_ Hvia2].
  apply run_to_bind. eapply run_to_elements; [done|exact (map_via_sub _ _ _ _ _ Hvia2)|].
  intros ns3 Hns3. apply run_to_bind.
  eapply run_to_conseq.
  { eapply (range_fold_run (λ x' x, store.read_node h0 x' = Some x) h0 lpm
              (store.fan_out_node lpm) fan_out_node); [done| |done].
    intros x' x pm0 m0 w0 Hx Hvia0'. by eapply fan_out_node_run. }
  simpl. intros r w3 (-> & Hlog3 & pm3 & Hvia3).
  apply run_to_bind. eapply (run_to_load_cell lpm pm3);
    [exact (map_via_lookup _ _ _ _ _ Hvia3)|].
  apply run_to_bind.
  eapply run_to_conseq.
  { eapply (derive_loop_run h0 lpm (rk' pm3)); [|done].
    apply Forall_forall. intros k Hk. rewrite (Hrk' pm3) in Hk.
    apply list_elem_of_fmap in Hk as ([k0 p0] & -> & Hk).
    apply elem_of_map_to_list in Hk. eauto. }
  simpl. intros r w4 (-> & Hlog4 & Hvia4).
  rewrite (fold_derive_any_order _ pm3) in Hvia4;
    [|apply Hrk'|by destruct Hvia3 as (_ & _ & _ & ? & _)].
  rewrite (derive_loop_fmap rk) by done.
  apply run_to_bind. eapply run_to_elements; [done|exact (map_via_sub _ _ _ _ _ Hvia4)|].
  intros js Hjs. apply run_to_bind.
  eapply run_to_conseq.
  { eapply (range_sim_pure (λ x' x, store.read_job h0 x' = Some x)
              (λ h, map_at h0 h lpm) (λ h, h0 ⊆ h) (store.pending_body lpm) pending_body);
      [done|by eexists|].
    intros x' x m w5 Hx Hm. by apply pending_body_sim. }
  simpl. intros r w5 (Hlog5 & Hpost).
  destruct (for_range pending_body jobs _) as [m5|e|k]; simpl;
    destruct Hpost as [-> Hpost]; [|split; [done|split; [congruence|done]]..].
  destruct Hpost as (pm5 & Hvia5). apply run_to_ret.
  split; [exact (map_via_sub _ _ _ _ _ Hvia5)|]. split; [congruence|].
  simpl. exact (map_via_read _ _ _ _ _ Hvia5).
Qed.

(** ** The ten aggregators, called twice *)

Lemma read_share_mono (h h' : store.heap) s' s :
  h ⊆ h' → store.read_share h s' = Some s → store.read_share h' s' = Some s.
Proof.
  intros Hsub (H1 & H2)%read_share_fields. unfold store.read_share.
  apply (read_struct_mono _ h h') in H2; [|clear H2|done].
  - rewrite (read_ptr_mono _ _ _ _ H1 Hsub), H2. by destruct s.
  - intros a b. unfold store.read_fairshare.
    destruct (store.read_ptr h (store.Share.Level a)) as [n|] eqn:Hn; [|done].
    by rewrite (read_ptr_mono _ _ _ _ Hn Hsub).
Qed.

Lemma read_diag_mono (h h' : store.heap) s' s :
  h ⊆ h' → store.read_diag h s' = Some s → store.read_diag h' s' = Some s.
Proof.
  intros Hsub (H1 & H2 & H3 & H4 & H5 & H6 & H7 & H8 & H9 & H10 & H11 & H12)%read_diag_fields.
  unfold store.read_diag.
  rewrite (read_ptr_mono _ _ _ _ H1 Hsub), (read_ptr_mono _ _ _ _ H2 Hsub),
    (read_ptr_mono _ _ _ _ H3 Hsub), (read_ptr_mono _ _ _ _ H4 Hsub),
    (read_ptr_mono _ _ _ _ H5 Hsub), (read_ptr_mono _ _ _ _ H6 Hsub),
    (read_ptr_mono _ _ _ _ H7 Hsub), (read_ptr_mono _ _ _ _ H8 Hsub),
    (read_ptr_mono _ _ _ _ H9 Hsub), (read_ptr_mono _ _ _ _ H10 Hsub),
    (read_ptr_mono _ _ _ _ H11 Hsub), (read_ptr_mono _ _ _ _ H12 Hsub).
  by destruct s.
Qed.

Lemma read_responses_fields (h : store.heap) (s : store.Responses) (σ : Snapshot) :
  store.read_responses h s = Some σ →
  store.read_elements store.read_job h (store.jobs s) = Some (snap_jobs σ)
  ∧ store.read_elements store.read_node h (store.nodes s) = Some (snap_nodes σ)
  ∧ store.read_elements store.read_partition h (store.partitions s)
    = Some (snap_partitions σ)
  ∧ store.read_diag h (store.diag s) = Some (snap_diag σ)
  ∧ store.read_elements store.read_share h (store.shares s) = Some (snap_shares σ).
Proof. unfold store.read_responses. intros Hr. by simplify_option_eq. Qed.

(** What a store holds at the addresses of the responses, a larger store
    holds as well. *)
Lemma read_responses_mono (h h' : store.heap) (s : store.Responses) (σ : Snapshot) :
  h ⊆ h' → store.read_responses h s = Some σ → store.read_responses h' s = Some σ.
Proof.
  intros Hsub (Hj & Hn & Hp & Hd & Hs)%read_responses_fields. unfold store.read_responses.
  rewrite (read_elements_mono _ h h' _ _ (λ a b, read_job_mono h h' a b Hsub) Hj Hsub).
  rewrite (read_elements_mono _ h h' _ _ (λ a b, read_node_mono h h' a b Hsub) Hn Hsub).
  rewrite (read_elements_mono _ h h' _ _ (λ a b, read_partition_mono h h' a b Hsub) Hp Hsub).
  rewrite (read_diag_mono h h' _ _ Hsub Hd).
  rewrite (read_elements_mono _ h h' _ _ (λ a b, read_share_mono h h' a b Hsub) Hs Hsub).
  by destruct σ.
Qed.

Lemma read_cell_mono {A} `{!store.Cell A} (h h' : store.heap) (l : store.loc) (a : A) :
  store.read_cell h l = Some a → h ⊆ h' → store.read_cell h' l = Some a.
Proof.
  unfold store.read_cell. intros Hr Hsub. destruct (h !! l) as [c|] eqn:Hl; [|done].
  by rewrite (lookup_weaken _ _ _ _ Hl Hsub).
Qed.

Lemma read_map_mono {A} `{!store.Cell A} (h h' : store.heap) (lm : store.loc)
  (m : gmap string A) :
  store.read_map h lm = Some m → h ⊆ h' → store.read_map h' lm = Some m.
Proof.
  unfold store.read_map. intros Hr Hsub.
  destruct (store.read_cell h lm) as [pm|] eqn:Hpm; [|done].
  rewrite (read_cell_mono _ _ _ _ Hpm Hsub).
  destruct (decide (dom (omap (store.read_cell h) pm) = dom pm)) as [Hdom|]; [|done].
  injection Hr as <-.
  assert (omap (store.read_cell h') pm = omap (store.read_cell (A := A) h) pm) as ->.
  { apply map_eq. intros k. rewrite !lookup_omap.
    destruct (pm !! k) as [p|] eqn:Hp; simpl; [|done].
    assert (k ∈ dom (omap (store.read_cell (A := A) h) pm)) as Hin.
    { rewrite Hdom. by apply elem_of_dom_2 in Hp. }
    apply elem_of_dom in Hin as [a Ha]. rewrite lookup_omap, Hp in Ha. simpl in Ha.
    by rewrite Ha, (read_cell_mono _ _ _ _ Ha Hsub). }
  by rewrite decide_True.
Qed.

(** A result read after later allocations is the result read at once. *)
Lemma read_outcome_mono (a : aggregator) (h h' : store.heap) (r : outcome store.loc)
  (o : outcome payload) :
  store.read_outcome a h r = Some o → h ⊆ h' → store.read_outcome a h' r = Some o.
Proof.
  intros Hr Hsub. destruct r as [l| |]; [|done..]. simpl in *.
  destruct (store.read_payload a h l) as [v|] eqn:Hv; [|done].
  enough (store.read_payload a h' l = Some v) as -> by done. clear Hr.
  destruct a; simpl in *.
  all: first
    [ destruct (store.read_map h l) as [m|] eqn:Hm; [|done];
      by rewrite (read_map_mono _ _ _ _ Hm Hsub)
    | destruct (store.read_cell h l) as [m|] eqn:Hm; [|done];
      by rewrite (read_cell_mono _ _ _ _ Hm Hsub) ].
Qed.

Lemma returning_run {A} (c : A → payload) (m : Exec A) (log : list LogRecord) :
  returning c m log
  = (match (m log).1 with Ok a => Ok (c a) | Err e => Err e | Panic k => Panic k end,
     (m log).2).
Proof.
  unfold returning, mbind, exec_bind. by destruct (m log) as [[a|e|k] ℓ].
Qed.

Lemma returning_lift {A} (c : A → payload) (o : outcome A) (log : list LogRecord) :
  returning c (lift o) log
  = (match o with Ok a => Ok (c a) | Err e => Err e | Panic k => Panic k end, log).
Proof. by rewrite returning_run. Qed.

Lemma appends_only_ParseAccountsMetrics (jobs : list Job.t) :
  appends_only (ParseAccountsMetrics jobs).
Proof.
  unfold ParseAccountsMetrics. apply appends_only_exec_range.
  apply appends_only_accounts_body.
Qed.

Lemma appends_only_ParseCPUsMetrics (nodes : list Node.t) (jobs : list Job.t) :
  appends_only (ParseCPUsMetrics nodes jobs).
Proof.
  unfold ParseCPUsMetrics. apply appends_only_bind.
  - apply appends_only_exec_range. apply appends_only_cpus_job_body.
  - intros cm. apply appends_only_lift.
Qed.

(** A call logs what it logs from an empty log, after what was there. *)
Lemma appends_only_aggregate (name_of : NodeState → string)
  (rk : gmap string partitionMetrics.t → list string) (a : aggregator) (σ : Snapshot) :
  appends_only (aggregate name_of rk a σ).
Proof.
  destruct a; simpl; unfold returning; (apply appends_only_bind;
    [|intros ?; apply appends_only_mret]);
    first [ apply appends_only_lift | apply appends_only_ParseAccountsMetrics
          | apply appends_only_ParseCPUsMetrics ].
Qed.

Lemma read_payload_map {A} `{!store.Cell A} (c : gmap string A → payload)
  (h : store.heap) (r : outcome store.loc) (o : outcome (gmap string A)) :
  related (λ lm m, store.read_map h lm = Some m) r o →
  match r with
  | Ok l => Ok <$> (c <$> store.read_map h l)
  | Err e => Some (Err e)
  | Panic k => Some (Panic k)
  end = Some (match o with Ok a => Ok (c a) | Err e => Err e | Panic k => Panic k end).
Proof. destruct r, o; simpl; try done; [by intros ->|congruence..]. Qed.

Lemma read_payload_cell {A} `{!store.Cell A} (c : A → payload)
  (h : store.heap) (r : outcome store.loc) (o : outcome A) :
  related (λ l a, store.read_cell h l = Some a) r o →
  match r with
  | Ok l => Ok <$> (c <$> store.read_cell h l)
  | Err e => Some (Err e)
  | Panic k => Some (Panic k)
  end = Some (match o with Ok a => Ok (c a) | Err e => Err e | Panic k => Panic k end).
Proof. destruct r, o; simpl; try done; [by intros ->|congruence..]. Qed.

(** One call on the store against the call on values: the store it was
    given is part of the store it leaves, the log is the log of the call
    on values, and behind the result is the result of the call on
    values. *)
Lemma call_refines (name_of : NodeState → string)
  (rk : gmap string partitionMetrics.t → list string)
  (rk' : gmap string store.loc → list string)
  (a : aggregator) (s : store.Responses) (σ : Snapshot) (w : store.world) :
  valid_range_order rk → valid_range_order rk' →
  store.read_responses (store.mem w) s = Some σ →
  run_to (store.call name_of rk' a s) w
    (λ r w',
      store.mem w ⊆ store.mem w'
      ∧ store.log w' = (aggregate name_of rk a σ (store.log w)).2
      ∧ store.read_outcome a (store.mem w') r
        = Some (aggregate name_of rk a σ (store.log w)).1).
Proof.
  intros Hrk Hrk' (Hj & Hn & Hp & Hd & Hs)%read_responses_fields.
  destruct a; simpl store.call; unfold aggregate;
    rewrite ?returning_lift, ?returning_run; simpl fst; simpl snd.
  - eapply run_to_conseq; [by apply ParseAccountsMetrics_refines|].
    intros r w' (Hsub & Hlog & Hrel). split_and!; [done..|].
    exact (read_payload_map OfAccounts _ _ _ Hrel).
  - eapply run_to_conseq; [by apply ParseCPUsMetrics_refines|].
    intros r w' (Hsub & Hlog & Hrel). split_and!; [done..|].
    exact (read_payload_cell OfCPUs _ _ _ Hrel).
  - eapply run_to_conseq; [by apply ParseGPUsMetrics_refines|].
    intros r w' (Hsub & Hlog & Hrel). split_and!; [done..|].
    exact (read_payload_cell OfGPUs _ _ _ Hrel).
  - eapply run_to_conseq; [by apply ParseNodeMetrics_refines|].
    intros r w' (Hsub & Hlog & Hrel). split_and!; [done..|].
    exact (read_payload_map OfNode _ _ _ Hrel).
  - eapply run_to_conseq; [by apply ParseNodesMetrics_refines|].
    intros r w' (Hsub & Hlog & Hrel). split_and!; [done..|].
    exact (read_payload_cell OfNodes _ _ _ Hrel).
  - eapply run_to_conseq; [by apply ParseQueueMetrics_refines|].
    intros r w' (Hsub & Hlog & Hrel). split_and!; [done..|].
    exact (read_payload_cell OfQueue _ _ _ Hrel).
  - eapply run_to_conseq; [by apply ParseSchedulerMetrics_refines|].
    intros r w' (Hsub & Hlog & Hrel). split_and!; [done..|].
    exact (read_payload_cell OfScheduler _ _ _ Hrel).
  - eapply run_to_conseq; [by apply ParseFairShareMetrics_refines|].
    intros r w' (Hsub & Hlog & Hrel). split_and!; [done..|].
    exact (read_payload_map OfFairShare _ _ _ Hrel).
  - eapply run_to_conseq; [by apply ParseUsersMetrics_refines|].
    intros r w' (Hsub & Hlog & Hrel). split_and!; [done..|].
    exact (read_payload_map OfUsers _ _ _ Hrel).
  - eapply run_to_conseq; [by apply (ParsePartitionsMetrics_refines rk rk')|].
    intros r w' (Hsub & Hlog & Hrel). split_and!; [done..|].
    exact (read_payload_map OfPartitions _ _ _ Hrel).
Qed.

End store_proofs.

(** C10.  An aggregator called twice in a row on the responses of a
    store, the second call in the store the first one has left, under
    whatever allocators and whatever orders of ranging over the map the
    runtime picks for the two calls: both calls end; every cell of the
    store a call is given is in the store it leaves, with its content, so
    the job, node, partition, diagnostics and share records are after
    each call what they were before it; what the caller finds behind the
    two results is one and the same outcome (equal values down to every
    float, equal errors, equal panics), and the second call leaves the
    result of the first as it was; and the two calls log the same
    records. *)
Theorem C10_aggregators_deterministic_and_pure (alloc1 alloc2 : store.Allocator)
  (name_of : NodeState → string) (rk1 rk2 : gmap string store.loc → list string)
  (a : aggregator) (s : store.Responses) (σ : Snapshot) (w : store.world) :
  valid_range_order rk1 → valid_range_order rk2 →
  store.read_responses (store.mem w) s = Some σ →
  ∃ r1 w1 r2 w2 o ℓ,
    @store.call alloc1 name_of rk1 a s w = (r1, w1)
    ∧ @store.call alloc2 name_of rk2 a s w1 = (r2, w2)
    ∧ store.mem w ⊆ store.mem w1 ∧ store.mem w1 ⊆ store.mem w2
    ∧ store.read_responses (store.mem w1) s = Some σ
    ∧ store.read_responses (store.mem w2) s = Some σ
    ∧ store.read_outcome a (store.mem w1) r1 = Some o
    ∧ store.read_outcome a (store.mem w2) r1 = Some o
    ∧ store.read_outcome a (store.mem w2) r2 = Some o
    ∧ store.log w1 = store.log w ++ ℓ
    ∧ store.log w2 = store.log w1 ++ ℓ.
Proof.
  intros Hrk1 Hrk2 Hσ.
  destruct (@call_refines alloc1 name_of Sample.keys_in_order rk1 a s σ w
              keys_in_order_valid Hrk1 Hσ)
    as (r1 & w1 & Hrun1 & Hsub1 & Hlog1 & Hres1).
  pose proof (read_responses_mono _ _ _ _ Hsub1 Hσ) as Hσ1.
  destruct (@call_refines alloc2 name_of Sample.keys_in_order rk2 a s σ w1
              keys_in_order_valid Hrk2 Hσ1)
    as (r2 & w2 & Hrun2 & Hsub2 & Hlog2 & Hres2).
  pose proof (appends_only_aggregate name_of Sample.keys_in_order a σ) as Happ.
  rewrite (Happ (store.log w)) in Hlog1, Hres1.
  rewrite (Happ (store.log w1)) in Hlog2, Hres2. simpl in *.
  exists r1, w1, r2, w2, (aggregate name_of Sample.keys_in_order a σ []).1,
    (aggregate name_of Sample.keys_in_order a σ []).2.
  split_and!; try done.
  - by apply (read_responses_mono _ _ _ _ Hsub2).
  - by apply (read_outcome_mono _ _ _ _ _ Hres1).
Qed.

(** C10 at the cross-reference of the example snapshot, held by the
    example store: the first call ranges over the map from the last key
    to the first, the second from the first to the last. *)
Lemma C10_aggregators_deterministic_and_pure_witness :
  ∃ r1 w1 r2 w2 o ℓ,
    @store.call fresh_allocator (λ _, "") keys_reversed PartitionsMetrics
      example_responses example_world = (r1, w1)
    ∧ @store.call fresh_allocator (λ _, "") (λ m, (map_to_list m).*1) PartitionsMetrics
        example_responses w1 = (r2, w2)
    ∧ store.mem example_world ⊆ store.mem w1 ∧ store.mem w1 ⊆ store.mem w2
    ∧ store.read_responses (store.mem w1) example_responses = Some example_snapshot
    ∧ store.read_responses (store.mem w2) example_responses = Some example_snapshot
    ∧ store.read_outcome PartitionsMetrics (store.mem w1) r1 = Some o
    ∧ store.read_outcome PartitionsMetrics (store.mem w2) r1 = Some o
    ∧ store.read_outcome PartitionsMetrics (store.mem w2) r2 = Some o
    ∧ store.log w1 = store.log example_world ++ ℓ
    ∧ store.log w2 = store.log w1 ++ ℓ.
Proof.
  apply (C10_aggregators_deterministic_and_pure fresh_allocator fresh_allocator (λ _, "")
           keys_reversed (λ m, (map_to_list m).*1) PartitionsMetrics
           example_responses example_snapshot example_world).
  - apply keys_reversed_valid.
  - by intros m.
  - vm_compute. reflexivity.
Defined.

(** * Further properties of the classifiers *)

Lemma first_match_None {A} (rules : list (string * A)) (state : string) :
  first_match rules state = None ↔ Forall (λ r, MatchPrefix r.1 state = false) rules.
Proof.
  induction rules as [|[lit u] rules IH]; simpl.
  - split; [constructor|done].
  - destruct (MatchPrefix lit state) eqn:Hm.
    + split; [done|]. intros H. apply Forall_cons in H as [H _]. simpl in H. congruence.
    + rewrite IH. split; [by constructor|]. by intros [_ ?]%Forall_cons.
Qed.

(** In a rule list where two matching rules are one rule, any matching
    rule is the first match. *)
Lemma first_match_exclusive {A} (rules : list (string * A)) (state lit : string) (u : A) :
  (∀ r1 r2, r1 ∈ rules → r2 ∈ rules →
     MatchPrefix r1.1 state = true → MatchPrefix r2.1 state = true → r1 = r2) →
  (lit, u) ∈ rules → MatchPrefix lit state = true →
  first_match rules state = Some u.
Proof.
  induction rules as [|[lit0 u0] rules IH]; intros Hex Hin Hm.
  - by apply elem_of_nil in Hin.
  - simpl. destruct (MatchPrefix lit0 state) eqn:Hm0.
    + assert ((lit0, u0) = (lit, u)) as [= _ ->]; [|done].
      apply Hex; [apply list_elem_of_here|done..].
    + apply elem_of_cons in Hin as [[= -> ->]|Hin]; [congruence|].
      apply IH; [|done..]. intros r1 r2 H1 H2. apply Hex; by apply list_elem_of_further.
Qed.

(** The first rule that matches decides, wherever it stands. *)
Lemma first_match_at {A} (rules : list (string * A)) (state lit : string) (u : A) (j : nat) :
  rules !! j = Some (lit, u) → MatchPrefix lit state = true →
  (∀ i r, (i < j)%nat → rules !! i = Some r → MatchPrefix r.1 state = false) →
  first_match rules state = Some u.
Proof.
  revert j. induction rules as [|[lit0 u0] rules IH]; intros j Hj Hm Hbefore; [done|].
  destruct j as [|j]; simpl in *.
  - injection Hj as -> ->. by rewrite Hm.
  - pose proof (Hbefore 0%nat (lit0, u0) ltac:(lia) eq_refl) as H0. simpl in H0.
    rewrite H0. apply (IH j); [done..|]. intros i r Hi Hr. apply (Hbefore (S i) r); [lia|done].
Qed.

(** No two rules of the job-state list match one token. *)
Lemma job_rules_exclusive (state : string) (r1 r2 : string * JobState) :
  r1 ∈ job_state_rules → r2 ∈ job_state_rules →
  MatchPrefix r1.1 state = true → MatchPrefix r2.1 state = true → r1 = r2.
Proof.
  intros H1 H2 M1 M2. unfold job_state_rules in *.
  destruct (prefix_comparable _ _ _ M1 M2) as [Hc|Hc]; clear M1 M2;
    repeat (apply elem_of_cons in H1 as [->|H1]);
    try (by apply elem_of_nil in H1);
    repeat (apply elem_of_cons in H2 as [->|H2]);
    try (by apply elem_of_nil in H2);
    first [done | discriminate Hc].
Qed.

(** X1.  On a job with a non-empty state list whose first entry is an
    ASCII string, [GetJobState] answers a state exactly when the literal
    of one of its rules starts the lower-cased first entry: every rule
    can decide, and none overrides another. *)
Theorem X1_GetJobState_Ok_iff (job : Job.t) (s : string) (rest : list string)
  (state : JobState) :
  Job.JobState job = Some (s :: rest) →
  isASCII s = true →
  GetJobState job = Ok state
  ↔ ∃ lit, (lit, state) ∈ job_state_rules ∧ MatchPrefix lit (ToLower s) = true.
Proof.
  intros Hs _. unfold GetJobState. rewrite Hs. split.
  - destruct (first_match job_state_rules (ToLower s)) as [u|] eqn:Hu; [|done].
    intros [= ->]. apply first_match_Some in Hu as (pre & lit & post & Hrules & Hm & _).
    exists lit. split; [|done]. rewrite Hrules. apply elem_of_app. right.
    apply list_elem_of_here.
  - intros (lit & Hin & Hm).
    rewrite (first_match_exclusive _ _ lit state); [done| |done..].
    intros r1 r2. apply job_rules_exclusive.
Qed.

(** X1 at a job whose first state entry is [Out_Of_Memory]. *)
Lemma X1_GetJobState_Ok_iff_witness :
  GetJobState (state_job ["Out_Of_Memory"; "COMPLETED"]) = Ok JobStateOutOfMemory
  ↔ ∃ lit, (lit, JobStateOutOfMemory) ∈ job_state_rules
      ∧ MatchPrefix lit (ToLower "Out_Of_Memory") = true.
Proof.
  apply (X1_GetJobState_Ok_iff (state_job ["Out_Of_Memory"; "COMPLETED"])
           "Out_Of_Memory" ["COMPLETED"] JobStateOutOfMemory).
  - reflexivity.
  - reflexivity.
Defined.

(** X2.  The order of the cases in the switch of [GetJobState] is
    immaterial: the rules taken in any other order classify every token
    alike. *)
Theorem X2_job_rule_order_irrelevant (rules : list (string * JobState)) (state : string) :
  rules ≡ₚ job_state_rules →
  first_match rules state = first_match job_state_rules state.
Proof.
  intros Hperm.
  destruct (first_match job_state_rules state) as [u|] eqn:Hu.
  - apply first_match_Some in Hu as (pre & lit & post & Hrules & Hm & _).
    apply (first_match_exclusive _ _ lit); [| |done].
    + intros r1 r2 H1 H2. apply job_rules_exclusive; by rewrite <-Hperm.
    + rewrite Hperm, Hrules. apply elem_of_app. right. apply list_elem_of_here.
  - apply first_match_None. apply first_match_None in Hu. by rewrite Hperm.
Qed.

(** X2 at the rules taken from the last to the first. *)
Lemma X2_job_rule_order_irrelevant_witness :
  first_match (reverse job_state_rules) "completing"
  = first_match job_state_rules "completing".
Proof.
  apply (X2_job_rule_order_irrelevant (reverse job_state_rules) "completing").
  apply reverse_Permutation.
Defined.

(** X3.  On a job whose first state entry is an ASCII string whose
    lower-cased form no rule literal starts, [GetJobState] returns the
    error that names that lower-cased entry, whatever the other entries
    are. *)
Theorem X3_GetJobState_unknown_token (job : Job.t) (s : string) (rest : list string) :
  Job.JobState job = Some (s :: rest) →
  isASCII s = true →
  Forall (λ r, MatchPrefix r.1 (ToLower s) = false) job_state_rules →
  GetJobState job
  = Err ("failed to match job state against known states: " +:+ ToLower s).
Proof.
  intros Hs _ Hnone%first_match_None. unfold GetJobState. by rewrite Hs, Hnone.
Qed.

(** X3 at a job in the state [REQUEUED], which has no rule. *)
Lemma X3_GetJobState_unknown_token_witness :
  GetJobState (state_job ["REQUEUED"; "RUNNING"])
  = Err ("failed to match job state against known states: " +:+ ToLower "REQUEUED").
Proof.
  apply (X3_GetJobState_unknown_token (state_job ["REQUEUED"; "RUNNING"])
           "REQUEUED" ["RUNNING"]).
  - reflexivity.
  - reflexivity.
  - by repeat constructor.
Defined.

(** Every rule of the node-state list but [^invalid_reg] decides the
    tokens its literal starts. *)
Lemma node_rule_decides (state lit : string) (st : NodeState) :
  (lit, st) ∈ node_state_rules → lit ≠ "invalid_reg" →
  MatchPrefix lit state = true →
  first_match node_state_rules state = Some st.
Proof.
  intros [j Hj]%list_elem_of_lookup Hlit Hm.
  apply (first_match_at _ _ lit st j); [done..|].
  intros i r Hi Hr. destruct (MatchPrefix r.1 state) eqn:Hmr; [|done].
  destruct (node_rules_overlap state i j r (lit, st) Hi Hr Hj Hmr Hm) as [_ [= ? _]].
  done.
Qed.

Lemma for_range_classify_all (states : list string) (sts acc : list NodeState) :
  Forall2 (λ s st, first_match node_state_rules (ToLower s) = Some st) states sts →
  for_range classify_node_state states acc = Ok (acc ++ sts).
Proof.
  intros Hall. revert acc. induction Hall as [|s st states sts Hs _ IH]; intros acc; simpl.
  - by rewrite app_nil_r.
  - unfold classify_node_state at 1. rewrite Hs, IH. by rewrite <-app_assoc.
Qed.

(** X4.  [GetNodeStates] classifies every entry of the state list, in
    the order of the list: when each lower-cased entry starts with the
    literal of a rule other than [^invalid_reg], the answer is the list of
    the states of those rules, entry by entry. *)
Theorem X4_GetNodeStates_classifies_all (node : Node.t) (states : list string)
  (sts : list NodeState) :
  Node.State node = Some states →
  Forall2 (λ s st, ∃ lit, (lit, st) ∈ node_state_rules ∧ lit ≠ "invalid_reg"
                     ∧ MatchPrefix lit (ToLower s) = true) states sts →
  GetNodeStates node = Ok sts.
Proof.
  intros Hs Hall. unfold GetNodeStates. rewrite Hs.
  apply (for_range_classify_all states sts []).
  eapply Forall2_impl; [done|]. intros s st (lit & Hin & Hlit & Hm).
  by apply (node_rule_decides _ lit).
Qed.

(** X4 at a node that is mixed and draining. *)
Lemma X4_GetNodeStates_classifies_all_witness :
  GetNodeStates (state_node ["MIXED"; "DRAIN"]) = Ok [NodeStateMix; NodeStateDrain].
Proof.
  apply (X4_GetNodeStates_classifies_all (state_node ["MIXED"; "DRAIN"])
           ["MIXED"; "DRAIN"]).
  - reflexivity.
  - repeat constructor.
    + exists "mix". split; [|done]. unfold node_state_rules.
      do 8 apply list_elem_of_further. apply list_elem_of_here.
    + exists "drain". split; [|done]. unfold node_state_rules.
      do 3 apply list_elem_of_further. apply list_elem_of_here.
Defined.

(** X5.  [GetNodeStates] gives no partial result: at the first entry
    whose lower-cased form no rule literal starts, that entry and the
    entries before it being ASCII strings and the entries before it being
    known, the call returns the error that names that lower-cased entry,
    whatever follows. *)
Theorem X5_GetNodeStates_first_unknown_token (node : Node.t) (pre post : list string)
  (s : string) :
  Node.State node = Some (pre ++ s :: post) →
  Forall (λ s', isASCII s' = true) (pre ++ [s]) →
  Forall (λ s', Exists (λ r, MatchPrefix r.1 (ToLower s') = true) node_state_rules) pre →
  Forall (λ r, MatchPrefix r.1 (ToLower s) = false) node_state_rules →
  GetNodeStates node
  = Err ("failed to match cpu state against known states: " +:+ ToLower s).
Proof.
  intros Hs _ Hpre Hnone%first_match_None. unfold GetNodeStates. rewrite Hs. clear Hs.
  generalize (@nil NodeState).
  induction Hpre as [|s' pre Hs' _ IH]; intros acc; simpl.
  - unfold classify_node_state. by rewrite Hnone.
  - unfold classify_node_state at 1.
    destruct (first_match node_state_rules (ToLower s')) as [st|] eqn:Hst; [apply IH|].
    apply first_match_None in Hst. apply Exists_exists in Hs' as (r & Hr & Hm).
    rewrite Forall_forall in Hst. specialize (Hst r Hr). congruence.
Qed.

(** X5 at a node that is idle, powered down and draining. *)
Lemma X5_GetNodeStates_first_unknown_token_witness :
  GetNodeStates (state_node ["IDLE"; "POWERED_DOWN"; "DRAIN"])
  = Err ("failed to match cpu state against known states: " +:+ ToLower "POWERED_DOWN").
Proof.
  apply (X5_GetNodeStates_first_unknown_token
           (state_node ["IDLE"; "POWERED_DOWN"; "DRAIN"]) ["IDLE"] ["DRAIN"] "POWERED_DOWN").
  - reflexivity.
  - by repeat constructor.
  - constructor; [|constructor]. apply Exists_exists. exists ("idle", NodeStateIdle).
    split; [|done]. unfold node_state_rules.
    do 6 apply list_elem_of_further. apply list_elem_of_here.
  - by repeat constructor.
Defined.

(** * Further properties of the resource-string extractor *)

Lemma Split_no_sep (s : string) (sep : ascii) :
  has_byte sep s = false → Split s sep = [s].
Proof.
  induction s as [|c s IH]; simpl; [done|].
  intros [Hc Hs]%orb_false_elim. rewrite Hc, IH by done. done.
Qed.

(** A separator after a field without one ends that field. *)
Lemma Split_app (a b : string) (sep : ascii) :
  has_byte sep a = false → Split (a +:+ String sep b) sep = a :: Split b sep.
Proof.
  induction a as [|c a IH]; simpl.
  - intros _. by rewrite Ascii.eqb_refl.
  - intros [Hc Ha]%orb_false_elim. rewrite Hc, IH by done. done.
Qed.

(** Joining fields that hold no separator and splitting again gives the
    fields back. *)
Lemma Split_Join (fields : list string) (sep : ascii) :
  fields ≠ [] → Forall (λ f, has_byte sep f = false) fields →
  Split (Join fields (String sep "")) sep = fields.
Proof.
  intros Hne Hall. induction Hall as [|f fields Hf Hall IH]; [done|].
  destruct fields as [|f' fields].
  - simpl. by apply Split_no_sep.
  - assert (Join (f :: f' :: fields) (String sep "")
            = f +:+ String sep (Join (f' :: fields) (String sep ""))) as -> by done.
    rewrite Split_app by done. by rewrite IH.
Qed.

Lemma prefix_append (sub s : string) :
  String.prefix sub s = true ↔ ∃ b, s = sub +:+ b.
Proof.
  revert s. induction sub as [|c sub IH]; intros s.
  - rewrite prefix_nil_l. split; [|done]. intros _. by exists s.
  - destruct s as [|d s]; [split; [done|by intros [? ?]]|].
    rewrite prefix_cons, IH. split.
    + intros [-> [b ->]]. by exists b.
    + intros [b [= -> ->]]. split; [done|]. by exists b.
Qed.

Lemma Contains_cons (c : ascii) (s sub : string) :
  Contains (String c s) sub
  = if String.prefix sub (String c s) then true else Contains s sub.
Proof. done. Qed.

(** A string contains another exactly when it is some prefix, then that
    string, then some suffix. *)
Lemma Contains_iff (s sub : string) :
  Contains s sub = true ↔ ∃ a b, s = a +:+ sub +:+ b.
Proof.
  split.
  - induction s as [|c s IH].
    + simpl. destruct sub; [|done]. intros _. by exists "", "".
    + rewrite Contains_cons. destruct (String.prefix sub (String c s)) eqn:Hp.
      * intros _. apply prefix_append in Hp as [b Hb]. by exists "", b.
      * intros (a & b & ->)%IH. by exists (String c a), b.
  - intros (a & b & ->). induction a as [|c a IH].
    + assert (String.prefix sub (sub +:+ b) = true) as Hp
        by (apply prefix_append; by exists b).
      change ("" +:+ sub +:+ b) with (sub +:+ b).
      revert Hp. generalize (sub +:+ b). intros [|d t] Hp.
      * change (Contains "" sub) with (if String.prefix sub "" then true else false).
        by rewrite Hp.
      * by rewrite Contains_cons, Hp.
    + change (String c a +:+ sub +:+ b) with (String c (a +:+ sub +:+ b)).
      rewrite Contains_cons, IH.
      by destruct (String.prefix sub (String c (a +:+ sub +:+ b))).
Qed.

Lemma string_append_assoc (a b c : string) : (a +:+ b) +:+ c = a +:+ b +:+ c.
Proof.
  induction a as [|x a IH]; [done|].
  change (String x ((a +:+ b) +:+ c) = String x (a +:+ b +:+ c)). by rewrite IH.
Qed.

(** The first field of a split is a prefix of the string. *)
Lemma Split_head_prefix (s : string) (sep : ascii) :
  ∃ f fs b, Split s sep = f :: fs ∧ s = f +:+ b.
Proof.
  induction s as [|c s (f & fs & b & Hsplit & Hs)]; simpl.
  - by exists "", [], "".
  - destruct (Ascii.eqb c sep).
    + by exists "", (Split s sep), (String c s).
    + rewrite Hsplit. exists (String c f), fs, b. by rewrite Hs at 1.
Qed.

(** Every field of a split is a piece of the string. *)
Lemma Split_elem_substring (s p : string) (sep : ascii) :
  p ∈ Split s sep → ∃ a b, s = a +:+ p +:+ b.
Proof.
  induction s as [|c s IH]; simpl.
  - intros ->%list_elem_of_singleton. by exists "", "".
  - destruct (Ascii.eqb c sep).
    + intros [->|Hin]%elem_of_cons.
      * by exists "", (String c s).
      * destruct (IH Hin) as (a & b & ->). by exists (String c a), b.
    + destruct (Split_head_prefix s sep) as (f & fs & b & Hsplit & Hs).
      rewrite Hsplit in *. intros [->|Hin]%elem_of_cons.
      * exists "", b. by rewrite Hs at 1.
      * destruct IH as (a' & b' & Hs'); [by apply list_elem_of_further|].
        exists (String c a'), b'. by rewrite Hs' at 1.
Qed.

(** What a field of a split contains, the string contains. *)
Lemma Contains_Split (s p sub : string) (sep : ascii) :
  p ∈ Split s sep → Contains p sub = true → Contains s sub = true.
Proof.
  intros (a & b & ->)%Split_elem_substring (a' & b' & ->)%Contains_iff.
  apply Contains_iff. exists (a +:+ a'), (b' +:+ b).
  by rewrite !string_append_assoc.
Qed.

(** A string that does not contain the tag holds no GPU field. *)
Lemma scan_gres_gpu_no_tag (tres : string) :
  Contains tres "gres/gpu=" = false → scan_gres_gpu (Split tres ",") = Ok 0.
Proof.
  intros Hn. apply scan_gres_gpu_no_match, Forall_forall. intros p Hp.
  apply not_true_is_false. intros Hc.
  apply (Contains_Split _ _ _ _ Hp) in Hc. congruence.
Qed.

(** X6.  A node whose resource strings do not contain [gres/gpu=] has no
    GPU: both extractors return zero, and no error, whatever else the
    strings hold. *)
Theorem X6_no_gpu_tag_gives_zero (node : Node.t) (tres tres_used : string) :
  Node.Tres node = Some tres → Node.TresUsed node = Some tres_used →
  Contains tres "gres/gpu=" = false → Contains tres_used "gres/gpu=" = false →
  GetNodeGPUTotal node = Ok 0 ∧ GetNodeGPUAllocated node = Ok 0.
Proof.
  intros Ht Hu Hnt Hnu. unfold GetNodeGPUTotal, GetNodeGPUAllocated.
  rewrite Ht, Hu. simpl. split; by apply scan_gres_gpu_no_tag.
Qed.

(** X6 at a node whose strings hold a typed GPU resource only. *)
Lemma X6_no_gpu_tag_gives_zero_witness :
  GetNodeGPUTotal (Sample.tres_node "cpu=64,mem=512G,gres/gpu:a100=8") = Ok 0
  ∧ GetNodeGPUAllocated (Sample.tres_node "cpu=64,mem=512G,gres/gpu:a100=8") = Ok 0.
Proof.
  apply (X6_no_gpu_tag_gives_zero (Sample.tres_node "cpu=64,mem=512G,gres/gpu:a100=8")
           "cpu=64,mem=512G,gres/gpu:a100=8" "cpu=64,mem=512G,gres/gpu:a100=8");
    reflexivity.
Defined.

(** Reading a decimal numeral digit by digit, from an accumulator. *)
Lemma digits_value_decimal (d : Decimal.uint) (acc : nat) :
  digits_value (Z.of_nat acc) (NilEmpty.string_of_uint d)
  = Some (Z.of_nat (Nat.of_uint_acc d acc)).
Proof.
  revert acc. induction d as [|d IH|d IH|d IH|d IH|d IH|d IH|d IH|d IH|d IH|d IH];
    intros acc; [done|..];
    cbn [NilEmpty.string_of_uint digits_value Nat.of_uint_acc];
    rewrite <-IH; f_equal; rewrite Nat.tail_mul_spec;
    match goal with
    | |- context [nat_of_ascii ?c] =>
        let v := eval vm_compute in (nat_of_ascii c) in change (nat_of_ascii c) with v
    end; lia.
Qed.

Lemma to_uint_not_Nil (n : nat) : Nat.to_uint n ≠ Decimal.Nil.
Proof.
  rewrite <-(DecimalNat.Unsigned.of_to n) at 1. rewrite DecimalNat.Unsigned.to_of.
  unfold Decimal.unorm. by destruct (Decimal.nzhead _).
Qed.

(** A decimal numeral holds digits only. *)
Lemma has_byte_decimal (c : ascii) (d : Decimal.uint) :
  digit_of c = None → has_byte c (NilEmpty.string_of_uint d) = false.
Proof.
  intros Hc. induction d; cbn [has_byte NilEmpty.string_of_uint]; [done|..];
    rewrite IHd, orb_false_r; apply Ascii.eqb_neq; intros <-; by vm_compute in Hc.
Qed.

(** [strconv.Atoi] reads back the decimal numeral of every count that
    fits the [int]. *)
Lemma Atoi_decimal (n : nat) :
  Z.of_nat n ≤ 2 ^ 63 - 1 → Atoi (decimal n) = Some (Z.of_nat n).
Proof.
  intros Hn. unfold decimal.
  pose proof (digits_value_decimal (Nat.to_uint n) 0) as Hd.
  change (Nat.of_uint_acc (Nat.to_uint n) 0) with (Nat.of_uint (Nat.to_uint n)) in Hd.
  rewrite DecimalNat.Unsigned.of_to in Hd. simpl Z.of_nat in Hd.
  pose proof (to_uint_not_Nil n) as Hnil.
  assert (∀ s, s ≠ "" → digits_value 0 s = Some (Z.of_nat n) →
               Atoi s = Some (Z.of_nat n)) as Hatoi.
  { intros s Hs Hv. unfold Atoi.
    assert (match s with
            | String "+" t => match t with "" => None | _ => digits_value 0 t end
            | String "-" t => Z.opp <$> match t with "" => None | _ => digits_value 0 t end
            | _ => match s with "" => None | _ => digits_value 0 s end
            end = Some (Z.of_nat n)) as ->.
    { destruct s as [|c t]; [done|].
      destruct (digit_of c) as [k|] eqn:Hk.
      - destruct c as [[] [] [] [] [] [] [] []]; try done.
      - simpl in Hv. by rewrite Hk in Hv. }
    destruct (Z.leb_spec (- 2 ^ 63) (Z.of_nat n)); [|lia].
    destruct (Z.leb_spec (Z.of_nat n) (2 ^ 63 - 1)); [done|lia]. }
  apply Hatoi; [|done]. by destruct (Nat.to_uint n).
Qed.

Lemma has_byte_app (c : ascii) (a b : string) :
  has_byte c (a +:+ b) = has_byte c a || has_byte c b.
Proof.
  induction a as [|x a IH]; [done|].
  change (String x a +:+ b) with (String x (a +:+ b)).
  cbn [has_byte]. by rewrite IH, orb_assoc.
Qed.

(** X7.  Writing a GPU count and reading it back: on a resource string
    whose last field is [gres/gpu=] followed by the decimal numeral of a
    count that fits the [int], the earlier fields holding neither a comma
    nor that tag, [GetNodeGPUTotal] returns the count. *)
Theorem X7_GetNodeGPUTotal_reads_count (node : Node.t) (fields : list string) (n : nat) :
  Node.Tres node = Some (Join (fields ++ ["gres/gpu=" +:+ decimal n]) ",") →
  Forall (λ f, has_byte "," f = false ∧ Contains f "gres/gpu=" = false) fields →
  Z.of_nat n ≤ 2 ^ 63 - 1 →
  GetNodeGPUTotal node = Ok (Z.of_nat n).
Proof.
  intros Ht Hfields Hn. unfold GetNodeGPUTotal. rewrite Ht. simpl.
  assert (has_byte "," ("gres/gpu=" +:+ decimal n) = false) as Hcomma.
  { rewrite has_byte_app. unfold decimal. by rewrite has_byte_decimal. }
  rewrite Split_Join.
  - rewrite scan_gres_gpu_first_match.
    + change ("gres/gpu=" +:+ decimal n) with ("gres/gpu" +:+ String "=" (decimal n)) at 1.
      assert (has_byte "=" "gres/gpu" = false) as Heq by reflexivity.
      rewrite (Split_app "gres/gpu" (decimal n) "=" Heq).
      assert (has_byte "=" (decimal n) = false) as Hd
        by (unfold decimal; by rewrite has_byte_decimal).
      rewrite (Split_no_sep _ _ Hd). by rewrite Atoi_decimal.
    + eapply Forall_impl; [done|]. by intros f [_ ?].
    + apply Contains_iff. by exists "", (decimal n).
  - by destruct fields.
  - apply Forall_app. split.
    + eapply Forall_impl; [done|]. by intros f [? _].
    + by constructor.
Qed.

(** X7 at a node with 128 GPUs. *)
Lemma X7_GetNodeGPUTotal_reads_count_witness :
  GetNodeGPUTotal (Sample.tres_node "cpu=48,mem=1020522M,billing=48,gres/gpu=128")
  = Ok 128.
Proof.
  apply (X7_GetNodeGPUTotal_reads_count
           (Sample.tres_node "cpu=48,mem=1020522M,billing=48,gres/gpu=128")
           ["cpu=48"; "mem=1020522M"; "billing=48"] 128).
  - reflexivity.
  - by repeat constructor.
  - done.
Defined.

(** * Further properties of the aggregators *)

(** ** The GPU tally *)

Lemma gpus_loop_sums (nodes : list Node.t) (gpus : list (Z * Z)) (gm : gpusMetrics.t) :
  Forall2 (λ n g, GetNodeGPUTotal n = Ok g.1 ∧ GetNodeGPUAllocated n = Ok g.2) nodes gpus →
  for_range gpus_body nodes gm
  = Ok {| gpusMetrics.alloc :=
            fold_left PrimFloat.add (map (λ g, float64_of_int g.2) gpus)
              (gpusMetrics.alloc gm);
          gpusMetrics.idle :=
            fold_left PrimFloat.add (map (λ g, float64_of_int (int_sub g.1 g.2)) gpus)
              (gpusMetrics.idle gm);
          gpusMetrics.other := gpusMetrics.other gm;
          gpusMetrics.total :=
            fold_left PrimFloat.add (map (λ g, float64_of_int g.1) gpus)
              (gpusMetrics.total gm);
          gpusMetrics.utilization := gpusMetrics.utilization gm |}.
Proof.
  intros Hall. revert gm. induction Hall as [|n g nodes gpus [Ht Ha] _ IH]; intros gm; simpl.
  - by destruct gm.
  - unfold gpus_body at 1. rewrite Ht, Ha. simpl. by rewrite IH.
Qed.

(** X8.  On nodes whose resource strings all parse, [ParseGPUsMetrics]
    returns the left-to-right sums of the total and allocated GPU counts,
    the sum of the per-node differences as idle, zero as other, and
    allocated over total as utilization. *)
Theorem X8_ParseGPUsMetrics_sums (nodes : list Node.t) (gpus : list (Z * Z)) :
  Forall2 (λ n g, GetNodeGPUTotal n = Ok g.1 ∧ GetNodeGPUAllocated n = Ok g.2) nodes gpus →
  ParseGPUsMetrics nodes = Ok (expected_gpus gpus).
Proof.
  intros Hall. unfold ParseGPUsMetrics. by rewrite (gpus_loop_sums nodes gpus).
Qed.

(** X8 at two nodes of four GPUs, three and one of them allocated. *)
Lemma X8_ParseGPUsMetrics_sums_witness :
  ParseGPUsMetrics [gpu_node "cpu=48,gres/gpu=4" "cpu=40,gres/gpu=3";
                    gpu_node "cpu=48,gres/gpu=4" "cpu=8,gres/gpu=1"]
  = Ok {| gpusMetrics.alloc := 4; gpusMetrics.idle := 4; gpusMetrics.other := 0;
          gpusMetrics.total := 8; gpusMetrics.utilization := 0.5 |}.
Proof.
  apply (X8_ParseGPUsMetrics_sums
           [gpu_node "cpu=48,gres/gpu=4" "cpu=40,gres/gpu=3";
            gpu_node "cpu=48,gres/gpu=4" "cpu=8,gres/gpu=1"] [(4, 3); (4, 1)]).
  by repeat constructor.
Defined.

(** X9.  On a cluster without GPUs, which includes the empty node list,
    the utilization is the quotient of zero by zero: [ParseGPUsMetrics]
    returns a NaN, with a nil error. *)
Theorem X9_ParseGPUsMetrics_no_gpu_is_NaN (nodes : list Node.t) :
  Forall (λ n, ∃ tres tres_used,
            Node.Tres n = Some tres ∧ Node.TresUsed n = Some tres_used
            ∧ Contains tres "gres/gpu=" = false
            ∧ Contains tres_used "gres/gpu=" = false) nodes →
  ParseGPUsMetrics nodes
  = Ok {| gpusMetrics.alloc := 0; gpusMetrics.idle := 0; gpusMetrics.other := 0;
          gpusMetrics.total := 0; gpusMetrics.utilization := nan |}.
Proof.
  intros Hall. unfold ParseGPUsMetrics.
  assert (for_range gpus_body nodes NewGPUsMetrics = Ok NewGPUsMetrics) as ->; [|done].
  induction Hall as [|n nodes (tres & tres_used & Ht & Hu & Hnt & Hnu) _ IH]; simpl; [done|].
  unfold gpus_body at 1, GetNodeGPUTotal, GetNodeGPUAllocated. rewrite Ht, Hu. simpl.
  rewrite !scan_gres_gpu_no_tag by done. simpl. apply IH.
Qed.

(** X9 at a cluster of one node without GPUs. *)
Lemma X9_ParseGPUsMetrics_no_gpu_is_NaN_witness :
  ParseGPUsMetrics [gpu_node "cpu=1,mem=1M,billing=1" "cpu=1,mem=1M,billing=1"]
  = Ok {| gpusMetrics.alloc := 0; gpusMetrics.idle := 0; gpusMetrics.other := 0;
          gpusMetrics.total := 0; gpusMetrics.utilization := nan |}.
Proof.
  apply (X9_ParseGPUsMetrics_no_gpu_is_NaN
           [gpu_node "cpu=1,mem=1M,billing=1" "cpu=1,mem=1M,billing=1"]).
  constructor; [|constructor].
  by exists "cpu=1,mem=1M,billing=1", "cpu=1,mem=1M,billing=1".
Defined.

(** A loop whose body returns an error at some element, the elements
    before it being processed, returns that error: what follows is not
    visited. *)
Lemma for_range_first_Err {A S} (body : A → S → outcome S) (pre post : list A) (x : A)
  (s s' : S) (e : string) :
  for_range body pre s = Ok s' → body x s' = Err e →
  for_range body (pre ++ x :: post) s = Err e.
Proof. intros Hpre Hx. rewrite for_range_app, Hpre. simpl. by rewrite Hx. Qed.

(** X10.  [ParseGPUsMetrics] is fail-fast: past the nodes that were
    processed, a node whose total resource string, or else whose used
    resource string, holds a malformed GPU field makes the call return
    the error of the extractor, wrapped; the nodes after it are not
    looked at. *)
Theorem X10_ParseGPUsMetrics_fail_fast (pre post : list Node.t) (n : Node.t)
  (gm : gpusMetrics.t) (e : string) :
  ParseGPUsMetrics pre = Ok gm →
  (GetNodeGPUTotal n = Err e →
   ParseGPUsMetrics (pre ++ n :: post)
   = Err ("failed to get total gpu count for node: " +:+ e))
  ∧ (is_Ok (GetNodeGPUTotal n) = true → GetNodeGPUAllocated n = Err e →
     ParseGPUsMetrics (pre ++ n :: post)
     = Err ("failed to get allocated gpu count for node: " +:+ e)).
Proof.
  unfold ParseGPUsMetrics. intros Hpre.
  destruct (for_range gpus_body pre NewGPUsMetrics) as [gm0| |] eqn:Hloop; [|done..].
  split.
  - intros Ht. erewrite for_range_first_Err; [done..|]. unfold gpus_body. by rewrite Ht.
  - intros Ht Ha. erewrite for_range_first_Err; [done..|]. unfold gpus_body.
    destruct (GetNodeGPUTotal n); [|done..]. simpl. by rewrite Ha.
Qed.

(** X10 at a node whose GPU count is not a number, after a node that
    parses and before one that has no resource strings at all. *)
Lemma X10_ParseGPUsMetrics_fail_fast_witness :
  ParseGPUsMetrics ([gpu_node "cpu=48,gres/gpu=4" "cpu=8,gres/gpu=1"]
                    ++ gpu_node "cpu=48,gres/gpu=bad" "cpu=8" :: [Sample.mk_node "n9" None [] 0 0 8])
  = Err ("failed to get total gpu count for node: "
         +:+ "failed to parse number of gpus from tres: gres/gpu=bad").
Proof.
  refine (proj1 (X10_ParseGPUsMetrics_fail_fast
                   [gpu_node "cpu=48,gres/gpu=4" "cpu=8,gres/gpu=1"]
                   [Sample.mk_node "n9" None [] 0 0 8]
                   (gpu_node "cpu=48,gres/gpu=bad" "cpu=8")
                   {| gpusMetrics.alloc := 1; gpusMetrics.idle := 3; gpusMetrics.other := 0;
                      gpusMetrics.total := 4; gpusMetrics.utilization := 0.25 |}
                   "failed to parse number of gpus from tres: gres/gpu=bad" _) _);
    reflexivity.
Defined.

(** ** The queue tally *)

(** X11.  [ParseQueueMetrics] is fail-fast: past the jobs that were
    tallied, a job whose state list is absent, or whose first state is no
    known token, makes the call return the classifier's error, wrapped,
    and no tally. *)
Theorem X11_ParseQueueMetrics_fail_fast (pre post : list Job.t) (j : Job.t)
  (qm : queueMetrics.t) (e : string) :
  ParseQueueMetrics pre = Ok qm → GetJobState j = Err e →
  ParseQueueMetrics (pre ++ j :: post) = Err ("failed to get job state: " +:+ e).
Proof.
  unfold ParseQueueMetrics. intros Hpre He.
  erewrite for_range_first_Err; [done..|]. unfold queue_body. by rewrite He.
Qed.

(** X11 at a job without a state between two running jobs. *)
Lemma X11_ParseQueueMetrics_fail_fast_witness :
  ParseQueueMetrics ([running_job] ++ stateless_job :: [running_job])
  = Err ("failed to get job state: " +:+ "job state not found in job").
Proof.
  apply (X11_ParseQueueMetrics_fail_fast [running_job] [running_job] stateless_job
           {| queueMetrics.pending := 0; queueMetrics.pending_dep := 0;
              queueMetrics.running := 1; queueMetrics.suspended := 0;
              queueMetrics.cancelled := 0; queueMetrics.completing := 0;
              queueMetrics.completed := 0; queueMetrics.configuring := 0;
              queueMetrics.failed := 0; queueMetrics.timeout := 0;
              queueMetrics.preempted := 0; queueMetrics.node_fail := 0 |});
    reflexivity.
Defined.

(** One iteration of the queue loop, counter by counter. *)
Lemma queue_body_counters (j : Job.t) (qm : queueMetrics.t) :
  queue_job_ok j = true →
  ∃ qm', queue_body j qm = Ok qm'
    ∧ ∀ c, counter_value c qm' =
        if decide (queue_counter_of_job j = Some c)
        then (counter_value c qm + 1)%float else counter_value c qm.
Proof.
  unfold queue_job_ok, queue_counter_of_job, queue_body.
  destruct (GetJobState j) as [state| |]; [|done..]. simpl.
  destruct qm. destruct state; simpl;
    try (intros _; eexists; split; [done|]; intros []; first [by case_decide|done]).
  intros [dependency ->]%bool_decide_eq_true. simpl.
  case_bool_decide; (eexists; split; [done|]; intros []; by case_decide).
Qed.

(** X12.  On a listing whose jobs all classify (the Pending ones having
    a dependency field), each counter of the queue tally is the number of
    jobs that the switch sends to it, a job out of memory being sent to
    none. *)
Theorem X12_ParseQueueMetrics_counts (jobs : list Job.t) :
  Forall (λ j, queue_job_ok j = true) jobs →
  ∃ qm, ParseQueueMetrics jobs = Ok qm
    ∧ ∀ c, counter_value c qm
           = fsum (map (λ _, 1%float)
                     (filter (λ j, queue_counter_of_job j = Some c) jobs)).
Proof.
  intros Hjobs. unfold ParseQueueMetrics, fsum.
  change 0%float with (counter_value QPending NewQueueMetrics) at 1.
  assert (∀ c, counter_value c NewQueueMetrics = counter_value QPending NewQueueMetrics)
    as Hzero by (by intros []).
  revert Hzero. generalize (counter_value QPending NewQueueMetrics) as z.
  intros z Hz.
  enough (∀ qm0, ∃ qm, for_range queue_body jobs qm0 = Ok qm
            ∧ ∀ c, counter_value c qm
                   = fold_left PrimFloat.add
                       (map (λ _, 1%float)
                          (filter (λ j, queue_counter_of_job j = Some c) jobs))
                       (counter_value c qm0)) as Hgen.
  { destruct (Hgen NewQueueMetrics) as (qm & Hrun & Hqm). exists qm.
    split; [done|]. intros c. by rewrite Hqm, Hz. }
  clear z Hz. induction Hjobs as [|j jobs Hj _ IH]; intros qm0; simpl.
  - by exists qm0.
  - destruct (queue_body_counters j qm0 Hj) as (qm1 & -> & Hqm1).
    destruct (IH qm1) as (qm & -> & Hqm). exists qm. split; [done|].
    intros c. rewrite Hqm, Hqm1, filter_cons. by case_decide.
Qed.

(** X12 at a listing of two running jobs, a pending job with a
    dependency and a job out of memory. *)
Lemma X12_ParseQueueMetrics_counts_witness :
  ∃ qm, ParseQueueMetrics [running_job; pending_dep_job; oom_job; running_job] = Ok qm
    ∧ ∀ c, counter_value c qm
           = fsum (map (λ _, 1%float)
                     (filter (λ j, queue_counter_of_job j = Some c)
                        [running_job; pending_dep_job; oom_job; running_job])).
Proof.
  apply (X12_ParseQueueMetrics_counts [running_job; pending_dep_job; oom_job; running_job]).
  by repeat constructor.
Defined.

(** ** The node inventory *)

(** One iteration of the inventory loop writes the record of the host,
    over whatever the map held for it. *)
Lemma node_body_insert (name_of : NodeState → string) (n : Node.t) (hostname : string)
  (nodeMap : gmap string nodeMetrics.t) :
  Node.Hostname n = Some hostname → is_Ok (GetNodeStates n) = true →
  node_body name_of n nodeMap = Ok (<[hostname := node_record name_of n]> nodeMap).
Proof.
  intros Hh Hs. unfold node_body, GetNodeStatesString, node_record. rewrite Hh. simpl.
  destruct (GetNodeStates n) as [nodeStates| |]; [|done..]. simpl. f_equal.
  apply map_eq. intros k. rewrite lookup_alter, !lookup_insert.
  case_decide; [|done]. by rewrite decide_True.
Qed.

(** X13.  On nodes that all have a hostname and states that classify,
    [ParseNodeMetrics] returns one record per hostname, that of the last
    node of that name in the listing, with zero as its other CPUs. *)
Theorem X13_ParseNodeMetrics_lookup (name_of : NodeState → string) (nodes : list Node.t) :
  Forall (λ n, is_Some (Node.Hostname n) ∧ is_Ok (GetNodeStates n) = true) nodes →
  ∃ m, ParseNodeMetrics name_of nodes = Ok m
    ∧ ∀ hostname, m !! hostname
        = node_record name_of
            <$> last (filter (λ n, Node.Hostname n = Some hostname) nodes).
Proof.
  intros Hnodes. unfold ParseNodeMetrics.
  enough (∀ m0, ∃ m, for_range (node_body name_of) nodes m0 = Ok m
            ∧ ∀ hostname, m !! hostname
                = match last (filter (λ n, Node.Hostname n = Some hostname) nodes) with
                  | Some n => Some (node_record name_of n)
                  | None => m0 !! hostname
                  end) as Hgen.
  { destruct (Hgen ∅) as (m & Hrun & Hm). exists m. split; [done|].
    intros hostname. rewrite Hm, lookup_empty. by destruct (last _). }
  induction Hnodes as [|n nodes [[h Hh] Hs] _ IH]; intros m0; simpl.
  - by exists m0.
  - rewrite (node_body_insert name_of n h) by done.
    destruct (IH (<[h := node_record name_of n]> m0)) as (m & -> & Hm).
    exists m. split; [done|]. intros hostname. rewrite Hm, filter_cons, Hh.
    destruct (decide (Some h = Some hostname)) as [[= ->]|Hne].
    + rewrite last_cons_default, lookup_insert_eq. by destruct (last _).
    + rewrite lookup_insert_ne by congruence. done.
Qed.

(** X13 at two records of the host n1, the second one draining. *)
Lemma X13_ParseNodeMetrics_lookup_witness :
  ∃ m, ParseNodeMetrics state_name
         [Sample.mk_node "n1" (Some ["IDLE"]) ["A"] 0 8 8;
          Sample.mk_node "n2" (Some ["ALLOCATED"]) ["A"] 8 0 8;
          Sample.mk_node "n1" (Some ["MIXED"; "DRAIN"]) ["A"] 4 4 8] = Ok m
    ∧ m !! "n1" = Some {| nodeMetrics.memAlloc := 0; nodeMetrics.memTotal := 0;
                          nodeMetrics.cpuAlloc := 4; nodeMetrics.cpuIdle := 4;
                          nodeMetrics.cpuOther := 0; nodeMetrics.cpuTotal := 8;
                          nodeMetrics.nodeStatus := "mixed|drain" |}
    ∧ m !! "n3" = None.
Proof.
  destruct (X13_ParseNodeMetrics_lookup state_name
              [Sample.mk_node "n1" (Some ["IDLE"]) ["A"] 0 8 8;
               Sample.mk_node "n2" (Some ["ALLOCATED"]) ["A"] 8 0 8;
               Sample.mk_node "n1" (Some ["MIXED"; "DRAIN"]) ["A"] 4 4 8])
    as (m & Hrun & Hm).
  - by repeat constructor.
  - exists m. split; [done|]. by rewrite !Hm.
Defined.

(** ** The node-state tally *)

Lemma fold_tally_node_state (l : list NodeState) (nm : nodesMetrics.t) :
  fold_left (λ nm ns, tally_node_state ns nm) l nm
  = {| nodesMetrics.alloc :=
         fold_left PrimFloat.add
           (map (λ _, 1%float) (filter (λ x, x = NodeStateAlloc) l)) (nodesMetrics.alloc nm);
       nodesMetrics.comp :=
         fold_left PrimFloat.add
           (map (λ _, 1%float) (filter (λ x, x = NodeStateComp) l)) (nodesMetrics.comp nm);
       nodesMetrics.down :=
         fold_left PrimFloat.add
           (map (λ _, 1%float) (filter (λ x, x = NodeStateDown) l)) (nodesMetrics.down nm);
       nodesMetrics.drain :=
         fold_left PrimFloat.add
           (map (λ _, 1%float) (filter (λ x, x = NodeStateDrain) l)) (nodesMetrics.drain nm);
       nodesMetrics.err :=
         fold_left PrimFloat.add
           (map (λ _, 1%float) (filter (λ x, x = NodeStateErr) l)) (nodesMetrics.err nm);
       nodesMetrics.fail :=
         fold_left PrimFloat.add
           (map (λ _, 1%float) (filter (λ x, x = NodeStateFail) l)) (nodesMetrics.fail nm);
       nodesMetrics.idle :=
         fold_left PrimFloat.add
           (map (λ _, 1%float) (filter (λ x, x = NodeStateIdle) l)) (nodesMetrics.idle nm);
       nodesMetrics.maint :=
         fold_left PrimFloat.add
           (map (λ _, 1%float) (filter (λ x, x = NodeStateMaint) l)) (nodesMetrics.maint nm);
       nodesMetrics.mix :=
         fold_left PrimFloat.add
           (map (λ _, 1%float) (filter (λ x, x = NodeStateMix) l)) (nodesMetrics.mix nm);
       nodesMetrics.resv :=
         fold_left PrimFloat.add
           (map (λ _, 1%float) (filter (λ x, x = NodeStateResv) l)) (nodesMetrics.resv nm) |}.
Proof.
  revert nm. induction l as [|ns l IH]; intros nm.
  - by destruct nm.
  - cbn [fold_left]. rewrite IH. rewrite !filter_cons. destruct nm. by destruct ns.
Qed.

(** X14.  On nodes whose states all classify, each of the ten counters of
    [ParseNodesMetrics] is the number of occurrences of its state in the
    state sequences of all nodes taken together: a node with several
    states counts once under each, and the states NotResponding, Invalid
    and InvalidReg are counted nowhere. *)
Theorem X14_ParseNodesMetrics_occurrences (nodes : list Node.t)
  (states : list (list NodeState)) :
  Forall2 (λ n sts, GetNodeStates n = Ok sts) nodes states →
  ParseNodesMetrics nodes = Ok (expected_node_states (concat states)).
Proof.
  intros Hall. unfold ParseNodesMetrics.
  enough (∀ nm, for_range nodes_body nodes nm
            = Ok (fold_left (λ nm ns, tally_node_state ns nm) (concat states) nm)) as ->.
  { by rewrite fold_tally_node_state. }
  induction Hall as [|n sts nodes states Hn _ IH]; intros nm; simpl; [done|].
  unfold nodes_body at 1. rewrite Hn. simpl. by rewrite IH, fold_left_app.
Qed.

(** X14 at a mixed, draining node and a node that is down and does not
    respond. *)
Lemma X14_ParseNodesMetrics_occurrences_witness :
  ParseNodesMetrics [state_node ["MIXED"; "DRAIN"]; state_node ["DOWN"; "NOT_RESPONDING"]]
  = Ok {| nodesMetrics.alloc := 0; nodesMetrics.comp := 0; nodesMetrics.down := 1;
          nodesMetrics.drain := 1; nodesMetrics.err := 0; nodesMetrics.fail := 0;
          nodesMetrics.idle := 0; nodesMetrics.maint := 0; nodesMetrics.mix := 1;
          nodesMetrics.resv := 0 |}.
Proof.
  apply (X14_ParseNodesMetrics_occurrences
           [state_node ["MIXED"; "DRAIN"]; state_node ["DOWN"; "NOT_RESPONDING"]]
           [[NodeStateMix; NodeStateDrain]; [NodeStateDown; NodeStateNotResponding]]).
  by repeat constructor.
Defined.

(** ** The fair-share tally *)

(** X15.  On share records that all have a name and a level,
    [ParseFairShareMetrics] returns one record per account name, holding
    the level of the last share record of that name. *)
Theorem X15_ParseFairShareMetrics_lookup (shares : list Share.t) :
  Forall (λ s, is_Some (Share.Name s) ∧ is_Some (share_level s)) shares →
  ∃ m, ParseFairShareMetrics shares = Ok m
    ∧ ∀ account, m !! account
        = (λ level, {| fairShareMetrics.fairshare := level |})
            <$> last (omap (λ s, if bool_decide (Share.Name s = Some account)
                                 then share_level s else None) shares).
Proof.
  intros Hshares. unfold ParseFairShareMetrics.
  enough (∀ m0, ∃ m, for_range fairshare_body shares m0 = Ok m
            ∧ ∀ account, m !! account
                = match last (omap (λ s, if bool_decide (Share.Name s = Some account)
                                         then share_level s else None) shares) with
                  | Some level => Some {| fairShareMetrics.fairshare := level |}
                  | None => m0 !! account
                  end) as Hgen.
  { destruct (Hgen ∅) as (m & Hrun & Hm). exists m. split; [done|].
    intros account. rewrite Hm, lookup_empty. by destruct (last _). }
  induction Hshares as [|s shares [[a Ha] [level Hl]] _ IH]; intros m0; simpl.
  - by exists m0.
  - unfold fairshare_body at 1. unfold share_level in *. rewrite Ha. simpl.
    destruct (Share.Fairshare s) as [f|]; [|done]. simpl in *. rewrite Hl. simpl.
    rewrite alter_ensure_key.
    destruct (IH (<[a := {| fairShareMetrics.fairshare := level |}]> m0)) as (m & -> & Hm).
    exists m. split; [done|]. intros account. rewrite Hm.
    destruct (decide (a = account)) as [->|Hne].
    + rewrite bool_decide_eq_true_2 by done. rewrite last_cons_default, lookup_insert_eq.
      by destruct (last _).
    + rewrite bool_decide_eq_false_2 by congruence. by rewrite lookup_insert_ne.
Qed.

(** X15 at three share records, two of them of the account physics. *)
Lemma X15_ParseFairShareMetrics_lookup_witness :
  ∃ m, ParseFairShareMetrics [Sample.mk_share (Some "physics") (Some 0.25%float);
                              Sample.mk_share (Some "biology") (Some 1%float);
                              Sample.mk_share (Some "physics") (Some 0.5%float)] = Ok m
    ∧ m !! "physics" = Some {| fairShareMetrics.fairshare := 0.5 |}
    ∧ m !! "chemistry" = None.
Proof.
  destruct (X15_ParseFairShareMetrics_lookup
              [Sample.mk_share (Some "physics") (Some 0.25%float);
               Sample.mk_share (Some "biology") (Some 1%float);
               Sample.mk_share (Some "physics") (Some 0.5%float)]) as (m & Hrun & Hm).
  - repeat constructor; by eexists.
  - exists m. split; [done|]. by rewrite !Hm.
Defined.

(** ** The per-user and per-account job tallies *)

Lemma fold_tally_user_job (js : list (JobState * float)) (r : userJobMetrics.t) :
  fold_left (λ r x, tally_user_job x.1 x.2 r) js r
  = {| userJobMetrics.pending :=
         fold_left PrimFloat.add
           (map (λ _, 1%float) (filter (λ x, x.1 = JobStatePending) js))
           (userJobMetrics.pending r);
       userJobMetrics.pending_cpus :=
         fold_left PrimFloat.add (map snd (filter (λ x, x.1 = JobStatePending) js))
           (userJobMetrics.pending_cpus r);
       userJobMetrics.running :=
         fold_left PrimFloat.add
           (map (λ _, 1%float) (filter (λ x, x.1 = JobStateRunning) js))
           (userJobMetrics.running r);
       userJobMetrics.running_cpus :=
         fold_left PrimFloat.add (map snd (filter (λ x, x.1 = JobStateRunning) js))
           (userJobMetrics.running_cpus r);
       userJobMetrics.suspended :=
         fold_left PrimFloat.add
           (map (λ _, 1%float) (filter (λ x, x.1 = JobStateSuspended) js))
           (userJobMetrics.suspended r) |}.
Proof.
  revert r. induction js as [|[state cpus] js IH]; intros r.
  - by destruct r.
  - cbn [fold_left]. rewrite IH, !filter_cons. destruct r. by destruct state.
Qed.

(** X16.  On a listing whose jobs all have a user name, a state that
    classifies and a CPU count, [ParseUsersMetrics] returns one record
    per user name, which counts the user's pending, running and suspended
    jobs and sums the CPU counts of the pending and of the running ones;
    jobs in any other state leave their user a record and count
    nowhere. *)
Theorem X16_ParseUsersMetrics_tallies (jobs : list Job.t) :
  Forall (λ j, user_job_ok j = true) jobs →
  ∃ m, ParseUsersMetrics jobs = Ok m
    ∧ ∀ user, m !! user
        = match filter (λ j, Job.UserName j = Some user) jobs with
          | [] => None
          | js => Some (expected_user_tally (resolved_jobs js))
          end.
Proof.
  intros Hjobs. unfold ParseUsersMetrics.
  enough (∀ m0, ∃ m, for_range users_body jobs m0 = Ok m
            ∧ ∀ user, m !! user
                = match filter (λ j, Job.UserName j = Some user) jobs with
                  | [] => m0 !! user
                  | js => Some (fold_left (λ r x, tally_user_job x.1 x.2 r)
                                  (resolved_jobs js)
                                  (default NewUserJobMetrics (m0 !! user)))
                  end) as Hgen.
  { destruct (Hgen ∅) as (m & Hrun & Hm). exists m. split; [done|].
    intros user. rewrite Hm, lookup_empty.
    destruct (filter _ jobs); [done|]. by rewrite fold_tally_user_job. }
  induction Hjobs as [|j jobs Hj _ IH]; intros m0; simpl.
  - by exists m0.
  - unfold user_job_ok in Hj.
    apply andb_prop in Hj as [[[u Hu]%bool_decide_eq_true Hs]%andb_prop Hc].
    unfold users_body at 1, resolved_jobs. rewrite Hu. simpl.
    destruct (GetJobState j) as [state| |] eqn:Hstate; [|done..].
    destruct (GetJobCPUs j) as [cpus| |] eqn:Hcpus; [|done..]. simpl.
    rewrite alter_ensure_key.
    destruct (IH (<[u := tally_user_job state cpus
                           (default NewUserJobMetrics (m0 !! u))]> m0)) as (m & -> & Hm).
    exists m. split; [done|]. intros user. rewrite Hm, filter_cons, Hu.
    destruct (decide (Some u = Some user)) as [[= ->]|Hne].
    + rewrite lookup_insert_eq. simpl. rewrite Hstate, Hcpus.
      by destruct (filter _ jobs).
    + rewrite lookup_insert_ne by congruence. done.
Qed.

(** X16 at a listing of three jobs of alice and one of bob. *)
Lemma X16_ParseUsersMetrics_tallies_witness :
  ∃ m, ParseUsersMetrics [tally_job_of "alice" "physics" "RUNNING" 4;
                          tally_job_of "bob" "physics" "COMPLETED" 2;
                          tally_job_of "alice" "biology" "PENDING" 16;
                          tally_job_of "alice" "physics" "RUNNING" 8] = Ok m
    ∧ m !! "alice" = Some {| userJobMetrics.pending := 1;
                             userJobMetrics.pending_cpus := 16;
                             userJobMetrics.running := 2;
                             userJobMetrics.running_cpus := 12;
                             userJobMetrics.suspended := 0 |}
    ∧ m !! "bob" = Some NewUserJobMetrics
    ∧ m !! "carol" = None.
Proof.
  destruct (X16_ParseUsersMetrics_tallies
              [tally_job_of "alice" "physics" "RUNNING" 4;
               tally_job_of "bob" "physics" "COMPLETED" 2;
               tally_job_of "alice" "biology" "PENDING" 16;
               tally_job_of "alice" "physics" "RUNNING" 8]) as (m & Hrun & Hm).
  - by repeat constructor.
  - exists m. split; [done|]. by rewrite !Hm.
Defined.

Lemma fold_tally_job (js : list (JobState * float)) (r : JobMetrics.t) :
  fold_left (λ r x, tally_job x.1 x.2 r) js r
  = {| JobMetrics.pending :=
         fold_left PrimFloat.add
           (map (λ _, 1%float) (filter (λ x, x.1 = JobStatePending) js))
           (JobMetrics.pending r);
       JobMetrics.pending_cpus :=
         fold_left PrimFloat.add (map snd (filter (λ x, x.1 = JobStatePending) js))
           (JobMetrics.pending_cpus r);
       JobMetrics.running :=
         fold_left PrimFloat.add
           (map (λ _, 1%float) (filter (λ x, x.1 = JobStateRunning) js))
           (JobMetrics.running r);
       JobMetrics.running_cpus :=
         fold_left PrimFloat.add (map snd (filter (λ x, x.1 = JobStateRunning) js))
           (JobMetrics.running_cpus r);
       JobMetrics.suspended :=
         fold_left PrimFloat.add
           (map (λ _, 1%float) (filter (λ x, x.1 = JobStateSuspended) js))
           (JobMetrics.suspended r) |}.
Proof.
  revert r. induction js as [|[state cpus] js IH]; intros r.
  - by destruct r.
  - cbn [fold_left]. rewrite IH, !filter_cons. destruct r. by destruct state.
Qed.

Lemma ensure_key_insert {V} (k : string) (fresh : V) (m : gmap string V) :
  ensure_key k fresh m = <[k := default fresh (m !! k)]> m.
Proof.
  apply map_eq. intros k'. rewrite ensure_key_lookup, lookup_insert.
  by case_decide.
Qed.

(** One iteration of the account loop on a job that does not make it
    panic: the record of the account, created if need be, takes the job
    in when its state and CPU count resolve; otherwise one record is
    logged. *)
Lemma accounts_body_step (j : Job.t) (m : gmap string JobMetrics.t) (log : list LogRecord) :
  cpus_job_ok j = true →
  ∃ log', accounts_body j m log
    = (Ok match Job.Account j with
          | Some a => <[a := fold_left (λ r x, tally_job x.1 x.2 r) (resolved_jobs [j])
                               (default NewJobMetrics (m !! a))]> m
          | None => m
          end, log')
    ∧ length log' = (length log + if account_job_skipped j then 1 else 0)%nat.
Proof.
  unfold cpus_job_ok, accounts_body, account_job_skipped, resolved_jobs, GetJobAccountName.
  intros Hj. destruct (Job.Account j) as [a|]; simpl.
  - destruct (GetJobState j) as [state|e|]; simpl; [| |done].
    + destruct (GetJobCPUs j) as [cpus|e|]; simpl; [| |done].
      * exists log. rewrite alter_ensure_key. split; [done|lia].
      * eexists. rewrite ensure_key_insert. split; [done|].
        rewrite length_app. simpl. lia.
    + eexists. rewrite ensure_key_insert. split; [done|].
      rewrite length_app. simpl. lia.
  - eexists. split; [done|]. rewrite length_app. simpl. lia.
Qed.

(** X17.  On a listing where no job makes the loop panic,
    [ParseAccountsMetrics] returns one record per account name that
    occurs, which counts the account's pending, running and suspended
    jobs among those whose state and CPU count resolve, and sums the CPU
    counts of the pending and of the running ones; and it logs one record
    per job without an account name, state or CPU count. *)
Theorem X17_ParseAccountsMetrics_tallies (jobs : list Job.t) :
  Forall (λ j, cpus_job_ok j = true) jobs →
  ∃ m log, ParseAccountsMetrics jobs [] = (Ok m, log)
    ∧ (∀ account, m !! account
         = match filter (λ j, Job.Account j = Some account) jobs with
           | [] => None
           | js => Some (expected_account_tally (resolved_jobs js))
           end)
    ∧ length log = length (filter (λ j, account_job_skipped j = true) jobs).
Proof.
  intros Hjobs. unfold ParseAccountsMetrics.
  enough (∀ m0 log0, ∃ m log, exec_range accounts_body jobs m0 log0 = (Ok m, log)
            ∧ (∀ account, m !! account
                 = match filter (λ j, Job.Account j = Some account) jobs with
                   | [] => m0 !! account
                   | js => Some (fold_left (λ r x, tally_job x.1 x.2 r)
                                   (resolved_jobs js)
                                   (default NewJobMetrics (m0 !! account)))
                   end)
            ∧ length log
              = (length log0
                 + length (filter (λ j, account_job_skipped j = true) jobs))%nat) as Hgen.
  { destruct (Hgen ∅ []) as (m & log & Hrun & Hm & Hlog). exists m, log.
    split; [done|]. split; [|done].
    intros account. rewrite Hm, lookup_empty.
    destruct (filter (λ j, Job.Account j = Some account) jobs); [done|].
    by rewrite fold_tally_job. }
  induction Hjobs as [|j jobs Hj _ IH]; intros m0 log0.
  - exists m0, log0. simpl. split; [done|]. split; [done|]. lia.
  - cbn [exec_range]. unfold mbind, exec_bind.
    destruct (accounts_body_step j m0 log0 Hj) as (log1 & -> & Hlog1).
    destruct (IH (match Job.Account j with
                  | Some a => <[a := fold_left (λ r x, tally_job x.1 x.2 r)
                                       (resolved_jobs [j])
                                       (default NewJobMetrics (m0 !! a))]> m0
                  | None => m0
                  end) log1) as (m & log & -> & Hm & Hlog).
    exists m, log. split; [done|]. split.
    + intros account. rewrite Hm, filter_cons.
      destruct (Job.Account j) as [a|] eqn:Ha.
      * destruct (decide (Some a = Some account)) as [[= ->]|Hne].
        -- rewrite lookup_insert_eq. simpl. unfold resolved_jobs. simpl.
           destruct (filter (λ j, Job.Account j = Some account) jobs);
             destruct (GetJobState j) as [state| |]; try done;
             by destruct (GetJobCPUs j).
        -- rewrite lookup_insert_ne by congruence. done.
      * by rewrite decide_False.
    + rewrite Hlog, Hlog1, filter_cons.
      destruct (account_job_skipped j); simpl; lia.
Qed.

(** X17 at a listing with a job without a state and a job without a CPU
    count among three that resolve. *)
Lemma X17_ParseAccountsMetrics_tallies_witness :
  ∃ m log, ParseAccountsMetrics [tally_job_of "alice" "physics" "RUNNING" 4;
                                 stateless_job; cpuless_job;
                                 tally_job_of "bob" "physics" "PENDING" 2;
                                 tally_job_of "alice" "physics" "RUNNING" 8] [] = (Ok m, log)
    ∧ m !! "physics" = Some {| JobMetrics.pending := 1; JobMetrics.pending_cpus := 2;
                               JobMetrics.running := 2; JobMetrics.running_cpus := 12;
                               JobMetrics.suspended := 0 |}
    ∧ m !! "acct" = Some NewJobMetrics
    ∧ length log = 2%nat.
Proof.
  destruct (X17_ParseAccountsMetrics_tallies
              [tally_job_of "alice" "physics" "RUNNING" 4; stateless_job; cpuless_job;
               tally_job_of "bob" "physics" "PENDING" 2;
               tally_job_of "alice" "physics" "RUNNING" 8])
    as (m & log & Hrun & Hm & Hlog).
  - by repeat constructor.
  - exists m, log. split; [done|]. by rewrite !Hm.
Defined.

(** ** The partition cross-reference *)

Lemma pending_loop_partition_only (jobs jobs' : list Job.t)
  (m : gmap string partitionMetrics.t) :
  map Job.Partition jobs = map Job.Partition jobs' →
  for_range pending_body jobs m = for_range pending_body jobs' m.
Proof.
  revert jobs' m. induction jobs as [|j jobs IH]; intros [|j' jobs'] m Heq; try done.
  injection Heq as Hj Hjobs. simpl.
  unfold pending_body at 1 3, GetJobPartitionName. rewrite Hj.
  destruct (Job.Partition j'); simpl; [|done]. by apply IH.
Qed.

(** X18.  The cross-reference reads nothing of a job but its partition
    field: two listings with the same partition fields, job by job, give
    the same result.  In particular the pending-job counter counts the
    jobs of every state, running and completed ones included. *)
Theorem X18_ParsePartitionsMetrics_reads_partition_field_only
  (range_keys : gmap string partitionMetrics.t → list string)
  (partitions : list Partition.t) (jobs jobs' : list Job.t) (nodes : list Node.t) :
  map Job.Partition jobs = map Job.Partition jobs' →
  ParsePartitionsMetrics range_keys partitions jobs nodes
  = ParsePartitionsMetrics range_keys partitions jobs' nodes.
Proof.
  intros Heq. unfold ParsePartitionsMetrics.
  destruct (for_range seed_body partitions ∅); simpl; [|done..].
  destruct (for_range node_partitions_body nodes ∅); simpl; [|done..].
  by apply pending_loop_partition_only.
Qed.

(** X18 at a pending job and a completed job without a user, both on
    the partitions A and B. *)
Lemma X18_ParsePartitionsMetrics_reads_partition_field_only_witness :
  ParsePartitionsMetrics Sample.keys_in_order [partition_A] [job_A_B] [node_4_2]
  = ParsePartitionsMetrics Sample.keys_in_order [partition_A]
      [Sample.mk_job None None (Some "A,B") (Some ["COMPLETED"]) None None] [node_4_2].
Proof.
  apply (X18_ParsePartitionsMetrics_reads_partition_field_only Sample.keys_in_order
           [partition_A] [job_A_B]
           [Sample.mk_job None None (Some "A,B") (Some ["COMPLETED"]) None None] [node_4_2]).
  reflexivity.
Defined.

(** X19.  A node without a name ends the cross-reference with an error,
    although the table the names are gathered in is read nowhere: once
    the partition records are seeded and the nodes before it have names,
    the call returns the error of [GetNodeName], wrapped, whatever the
    jobs are. *)
Theorem X19_ParsePartitionsMetrics_nameless_node
  (range_keys : gmap string partitionMetrics.t → list string)
  (partitions : list Partition.t) (jobs : list Job.t) (pre post : list Node.t) (n : Node.t) :
  Forall (λ p, is_Ok (GetPartitionName p) && is_Ok (GetPartitionTotalCPUs p) = true)
    partitions →
  Forall (λ n, is_Ok (GetNodeName n) = true) pre →
  Node.Name n = None →
  ParsePartitionsMetrics range_keys partitions jobs (pre ++ n :: post)
  = Err ("failed to get node name for partition metrics: "
         +:+ "node name not found in node information").
Proof.
  intros Hparts Hpre Hn. unfold ParsePartitionsMetrics.
  destruct (seed_loop_lookup partitions ∅ Hparts) as (m1 & -> & _). simpl.
  destruct (node_partitions_loop_Ok pre ∅ Hpre) as (np & Hnp).
  erewrite for_range_first_Err; [done..|].
  unfold node_partitions_body, GetNodeName. by rewrite Hn.
Qed.

(** X19 at a node that has a hostname but no name. *)
Lemma X19_ParsePartitionsMetrics_nameless_node_witness :
  ParsePartitionsMetrics Sample.keys_in_order [partition_A] [job_A_B]
    ([node_4_2] ++ {| Node.Name := None; Node.Hostname := Some "n2";
                      Node.State := Some ["IDLE"]; Node.Tres := None;
                      Node.TresUsed := None; Node.Partitions := Some ["A"];
                      Node.AllocMemory := None; Node.RealMemory := None;
                      Node.AllocCpus := Some 0; Node.AllocIdleCpus := Some 8;
                      Node.Cpus := Some 8 |} :: [node_3_1])
  = Err ("failed to get node name for partition metrics: "
         +:+ "node name not found in node information").
Proof.
  apply (X19_ParsePartitionsMetrics_nameless_node Sample.keys_in_order [partition_A]
           [job_A_B] [node_4_2] [node_3_1]).
  - by repeat constructor.
  - by repeat constructor.
  - reflexivity.
Defined.

(** X20.  The partition field of a job is read as a comma-separated
    list: a job whose field joins the names of a non-empty list with
    commas, none of the names holding a comma, adds one pending job to
    each name of the list, once per occurrence, and to no other
    partition. *)
Theorem X20_ParsePartitionsMetrics_comma_list
  (range_keys : gmap string partitionMetrics.t → list string)
  (j : Job.t) (names : list string) :
  valid_range_order range_keys →
  names ≠ [] → Forall (λ q, has_byte "," q = false) names →
  Job.Partition j = Some (Join names ",") →
  ∃ m, ParsePartitionsMetrics range_keys [] [j] [] = Ok m
    ∧ ∀ q, partitionMetrics.jobs_pending <$> m !! q
        = match filter (λ x, x = q) names with
          | [] => None
          | l => Some (fsum (map (λ _, 1%float) l))
          end.
Proof.
  intros Hvalid Hne Hnames Hj.
  destruct (ParsePartitionsMetrics_lookup range_keys [] [j] [] Hvalid)
    as (m & Hrun & Hm).
  - constructor.
  - constructor.
  - constructor; [|constructor]. unfold GetJobPartitionName. by rewrite Hj.
  - exists m. split; [done|]. intros q. rewrite Hm.
    unfold partition_known, expected_partition, pending_refs, member_cpus. simpl.
    unfold job_partitions. rewrite Hj, app_nil_r, Split_Join by done.
    by destruct (filter (λ x, x = q) names).
Qed.

(** X20 at a job queued on the partitions short, long and short
    again. *)
Lemma X20_ParsePartitionsMetrics_comma_list_witness :
  ∃ m, ParsePartitionsMetrics Sample.keys_in_order []
         [Sample.mk_job None None (Some "short,long,short") None None None] [] = Ok m
    ∧ ∀ q, partitionMetrics.jobs_pending <$> m !! q
        = match filter (λ x, x = q) ["short"; "long"; "short"] with
          | [] => None
          | l => Some (fsum (map (λ _, 1%float) l))
          end.
Proof.
  apply (X20_ParsePartitionsMetrics_comma_list Sample.keys_in_order
           (Sample.mk_job None None (Some "short,long,short") None None None)
           ["short"; "long"; "short"]).
  - apply keys_in_order_valid.
  - done.
  - by repeat constructor.
  - reflexivity.
Defined.

(** Every record that the pending loop touches or creates keeps a
    property that fresh records have and that the pending counter does
    not bear on. *)
Lemma pending_loop_invariant (P : partitionMetrics.t → Prop) (jobs : list Job.t)
  (m m' : gmap string partitionMetrics.t) :
  P NewPartitionsMetrics → (∀ r, P r → P (add_pending r)) →
  map_Forall (λ _, P) m → for_range pending_body jobs m = Ok m' →
  map_Forall (λ _, P) m'.
Proof.
  intros Hnew Hadd. revert m. induction jobs as [|j jobs IH]; intros m Hm; simpl.
  - by intros [= <-].
  - unfold pending_body at 1. destruct (GetJobPartitionName j) as [pname| |]; [|done..].
    simpl. apply IH. clear IH. revert m Hm.
    induction (Split pname ",") as [|q names IH]; intros m Hm; [done|].
    cbn [fold_left]. apply IH. unfold pending_one. rewrite alter_ensure_key.
    apply map_Forall_insert_2; [|done]. apply Hadd.
    destruct (m !! q) as [r|] eqn:Hr; simpl; [|done]. by apply (Hm q).
Qed.

(** X21.  Every record of every map that [ParsePartitionsMetrics]
    returns has its other CPUs equal to total minus allocated minus idle,
    on any input and under any order of ranging over the map: also the
    records created for the partitions that only a job names. *)
Theorem X21_ParsePartitionsMetrics_other_invariant
  (range_keys : gmap string partitionMetrics.t → list string)
  (partitions : list Partition.t) (jobs : list Job.t) (nodes : list Node.t)
  (m : gmap string partitionMetrics.t) (name : string) (r : partitionMetrics.t) :
  valid_range_order range_keys →
  ParsePartitionsMetrics range_keys partitions jobs nodes = Ok m →
  m !! name = Some r →
  partitionMetrics.cpus_other r
  = (partitionMetrics.cpus_total r - partitionMetrics.cpus_allocated r
     - partitionMetrics.cpus_idle r)%float.
Proof.
  intros Hvalid. unfold ParsePartitionsMetrics.
  destruct (for_range seed_body partitions ∅) as [m1| |]; simpl; [|done..].
  destruct (for_range node_partitions_body nodes ∅); simpl; [|done..].
  rewrite (derive_loop_fmap range_keys _ Hvalid). intros Hrun Hr.
  eapply (pending_loop_invariant
            (λ r, partitionMetrics.cpus_other r
                  = (partitionMetrics.cpus_total r - partitionMetrics.cpus_allocated r
                     - partitionMetrics.cpus_idle r)%float)) in Hrun.
  - by apply (Hrun name).
  - done.
  - by intros [].
  - intros k r'. rewrite lookup_fmap. intros (r0 & _ & ->)%fmap_Some. done.
Qed.

(** X21 at the record of partition B of the example, which only the job
    names. *)
Lemma X21_ParsePartitionsMetrics_other_invariant_witness :
  partitionMetrics.cpus_other
    {| partitionMetrics.cpus_allocated := 0; partitionMetrics.cpus_idle := 0;
       partitionMetrics.cpus_other := 0; partitionMetrics.cpus_total := 0;
       partitionMetrics.jobs_pending := 1 |}
  = (0 - 0 - 0)%float.
Proof.
  apply (X21_ParsePartitionsMetrics_other_invariant Sample.keys_in_order
           [partition_A] [job_A_B] [node_4_2; node_3_1]
           (<["B" := {| partitionMetrics.cpus_allocated := 0;
                        partitionMetrics.cpus_idle := 0;
                        partitionMetrics.cpus_other := 0;
                        partitionMetrics.cpus_total := 0;
                        partitionMetrics.jobs_pending := 1 |}]>
              {[ "A" := {| partitionMetrics.cpus_allocated := 7;
                           partitionMetrics.cpus_idle := 3;
                           partitionMetrics.cpus_other := 0;
                           partitionMetrics.cpus_total := 10;
                           partitionMetrics.jobs_pending := 1 |} ]}) "B").
  - apply keys_in_order_valid.
  - reflexivity.
  - reflexivity.
Defined.

(** ** The cluster CPU tally *)

(** X22.  A node that reports exactly one CPU is invisible to
    [ParseCPUsMetrics]: with or without it in the listing the call ends
    alike, whatever its states and its idle CPUs are, present,
    unclassifiable or absent. *)
Theorem X22_ParseCPUsMetrics_single_cpu_node_invisible (pre post : list Node.t)
  (n : Node.t) (jobs : list Job.t) (log : list LogRecord) :
  Node.Cpus n = Some 1 →
  ParseCPUsMetrics (pre ++ n :: post) jobs log = ParseCPUsMetrics (pre ++ post) jobs log.
Proof.
  intros Hn. unfold ParseCPUsMetrics, mbind, exec_bind.
  destruct (exec_range cpus_job_body jobs NewCPUsMetrics log) as [[cm| |] log']; [|done..].
  unfold lift. rewrite !for_range_app. unfold mbind, outcome_bind.
  destruct (for_range cpus_node_body pre cm) as [cm1| |]; [|done..].
  simpl. unfold cpus_node_body at 1. by rewrite Hn.
Qed.

(** X22 at a node of one CPU in an unknown state, between two nodes of
    the example. *)
Lemma X22_ParseCPUsMetrics_single_cpu_node_invisible_witness :
  ParseCPUsMetrics ([idle_node] ++ single_cpu_odd_node :: [down_node]) [running_job] []
  = ParseCPUsMetrics ([idle_node] ++ [down_node]) [running_job] [].
Proof.
  apply (X22_ParseCPUsMetrics_single_cpu_node_invisible [idle_node] [down_node]
           single_cpu_odd_node [running_job] []).
  reflexivity.
Defined.

(** ** Unguarded dereferences *)

Lemma for_range_first_Panic {A S} (body : A → S → outcome S) (pre post : list A) (x : A)
  (s s' : S) (k : panic_kind) :
  for_range body pre s = Ok s' → body x s' = Panic k →
  for_range body (pre ++ x :: post) s = Panic k.
Proof. intros Hpre Hx. rewrite for_range_app, Hpre. simpl. by rewrite Hx. Qed.

(** X23.  [ParseUsersMetrics] does not guard the user name: past the
    jobs that were tallied, a job without a user name makes the call
    panic with a nil dereference, whatever its other fields are. *)
Theorem X23_ParseUsersMetrics_nameless_job_panics (pre post : list Job.t) (j : Job.t)
  (m : gmap string userJobMetrics.t) :
  ParseUsersMetrics pre = Ok m → Job.UserName j = None →
  ParseUsersMetrics (pre ++ j :: post) = Panic NilDereference.
Proof.
  unfold ParseUsersMetrics. intros Hpre Hu.
  erewrite for_range_first_Panic; [done..|]. unfold users_body. by rewrite Hu.
Qed.

(** X23 at a running job without a user name, after a job of alice. *)
Lemma X23_ParseUsersMetrics_nameless_job_panics_witness :
  ParseUsersMetrics ([running_job]
                     ++ Sample.mk_job (Some "acct") None (Some "debug") (Some ["RUNNING"])
                          (Some 4) (Some "") :: [running_job])
  = Panic NilDereference.
Proof.
  apply (X23_ParseUsersMetrics_nameless_job_panics [running_job] [running_job]
           (Sample.mk_job (Some "acct") None (Some "debug") (Some ["RUNNING"])
              (Some 4) (Some ""))
           {[ "alice" := {| userJobMetrics.pending := 0; userJobMetrics.pending_cpus := 0;
                            userJobMetrics.running := 1; userJobMetrics.running_cpus := 4;
                            userJobMetrics.suspended := 0 |} ]});
    reflexivity.
Defined.

(** X24.  [ParseQueueMetrics] does not guard the dependency field: past
    the jobs that were tallied, a job classified Pending whose dependency
    field is absent makes the call panic with a nil dereference; in any
    other state the field is not read. *)
Theorem X24_ParseQueueMetrics_dependency (pre post : list Job.t) (j : Job.t)
  (qm : queueMetrics.t) (state : JobState) :
  ParseQueueMetrics pre = Ok qm → GetJobState j = Ok state →
  Job.Dependency j = None →
  (state = JobStatePending → ParseQueueMetrics (pre ++ j :: post) = Panic NilDereference)
  ∧ (state ≠ JobStatePending →
     ∃ qm', ParseQueueMetrics (pre ++ [j]) = Ok qm').
Proof.
  unfold ParseQueueMetrics. intros Hpre Hs Hd. split.
  - intros ->. erewrite for_range_first_Panic; [done..|].
    unfold queue_body. rewrite Hs, Hd. by destruct qm.
  - intros Hne. rewrite for_range_app, Hpre. simpl. unfold queue_body. rewrite Hs. simpl.
    destruct qm. destruct state; try done; by eexists.
Qed.

(** X24 at a pending job without a dependency field, after a running
    job. *)
Lemma X24_ParseQueueMetrics_dependency_witness :
  ParseQueueMetrics ([running_job]
                     ++ Sample.mk_job (Some "acct") (Some "bob") (Some "debug")
                          (Some ["PENDING"]) (Some 4) None :: [running_job])
  = Panic NilDereference.
Proof.
  refine (proj1 (X24_ParseQueueMetrics_dependency [running_job] [running_job]
                   (Sample.mk_job (Some "acct") (Some "bob") (Some "debug")
                      (Some ["PENDING"]) (Some 4) None)
                   {| queueMetrics.pending := 0; queueMetrics.pending_dep := 0;
                      queueMetrics.running := 1; queueMetrics.suspended := 0;
                      queueMetrics.cancelled := 0; queueMetrics.completing := 0;
                      queueMetrics.completed := 0; queueMetrics.configuring := 0;
                      queueMetrics.failed := 0; queueMetrics.timeout := 0;
                      queueMetrics.preempted := 0; queueMetrics.node_fail := 0 |}
                   JobStatePending _ _ _) _); reflexivity.
Defined.

(** X25.  [ParseCPUsMetrics] does not guard the CPU count of a node:
    past the nodes that were processed, a node whose CPU count is absent
    makes the call panic with a nil dereference, the log written by the
    loop over the jobs being what it was. *)
Theorem X25_ParseCPUsMetrics_node_without_cpus_panics (pre post : list Node.t) (n : Node.t)
  (jobs : list Job.t) (cm : cpusMetrics.t) (log : list LogRecord) :
  ParseCPUsMetrics pre jobs [] = (Ok cm, log) → Node.Cpus n = None →
  ParseCPUsMetrics (pre ++ n :: post) jobs [] = (Panic NilDereference, log).
Proof.
  unfold ParseCPUsMetrics, mbind, exec_bind. intros Hpre Hn.
  destruct (exec_range cpus_job_body jobs NewCPUsMetrics []) as [[cm0| |] l]; [|done..].
  unfold lift in *.
  destruct (for_range cpus_node_body pre cm0) as [cm1| |] eqn:Hloop; simpl in *; [|done..].
  injection Hpre as _ <-.
  erewrite for_range_first_Panic; [done..|]. unfold cpus_node_body. by rewrite Hn.
Qed.

(** X25 at a node known by its resource strings only, after the idle
    node of the example. *)
Lemma X25_ParseCPUsMetrics_node_without_cpus_panics_witness :
  ParseCPUsMetrics ([idle_node] ++ Sample.tres_node "cpu=8" :: [down_node])
    [stateless_job] []
  = (Panic NilDereference, [("failed to get job state", "job state not found in job")]).
Proof.
  apply (X25_ParseCPUsMetrics_node_without_cpus_panics [idle_node] [down_node]
           (Sample.tres_node "cpu=8") [stateless_job]
           {| cpusMetrics.alloc := 0; cpusMetrics.idle := 2;
              cpusMetrics.other := 6; cpusMetrics.total := 8 |});
    reflexivity.
Defined.
